(** * Reiser4 distribution core: FSX32 table engine, extent migration
      decision procedure and the volume-operation dispatcher.

    A shallow embedding of
      - plugin/dst/fsx32.c            (Module Fsx32)
      - plugin/item/extent_volume_ops.c (Module Migrate)
      - volume_ops.c                  (Module VolumeOps)
    Machine integers are [Z] with the wrap-around of their C width written
    out; C arrays are lists with bounds-checked access; a C pointer that
    may be NULL is an [option]. *)

From Stdlib Require Import ZArith List Lia Bool FinFun.
Import ListNotations.
Local Open Scope Z_scope.

(** ** Machine integers *)

Definition wrap32 (x : Z) : Z := x mod 2 ^ 32.
Definition wrap64 (x : Z) : Z := x mod 2 ^ 64.

(** ** Outcome of a C function

    [Ok a]    : the function ran to completion (for an [int] function:
                returned 0) and left [a];
    [Err e]   : the function returned the negative error code [-e];
    [Fault f] : the run left defined behaviour. *)

Inductive fault : Type :=
| OutOfBounds
| NullPointer
| DivByZero.

Inductive res (A : Type) : Type :=
| Ok (a : A)
| Err (errno : Z)
| Fault (f : fault).

Arguments Ok {A} a.
Arguments Err {A} errno.
Arguments Fault {A} f.

Definition bind {A B : Type} (c : res A) (k : A -> res B) : res B :=
  match c with
  | Ok a => k a
  | Err e => Err e
  | Fault f => Fault f
  end.

Declare Scope res_scope.
Delimit Scope res_scope with res.
Notation "x <- c1 ;; c2" := (bind c1 (fun x => c2))
  (at level 61, c1 at next level, right associativity) : res_scope.
Notation "' pat <- c1 ;; c2" := (bind c1 (fun x => match x with pat => c2 end))
  (at level 61, pat pattern, c1 at next level, right associativity) : res_scope.
Local Open Scope res_scope.

Definition EINVAL : Z := 22.
Definition ENOMEM : Z := 12.
Definition ENOSPC : Z := 28.
Definition EBUSY : Z := 16.
Definition ENOTTY : Z := 25.

(** ** C arrays *)

Fixpoint upd {A : Type} (n : nat) (v : A) (l : list A) : list A :=
  match l, n with
  | [], _ => []
  | _ :: t, O => v :: t
  | h :: t, S n' => h :: upd n' v t
  end.

(** [a[i]], with 0 outside the array. *)
Definition zth (a : list Z) (i : Z) : Z := nth (Z.to_nat i) a 0.

Definition in_range (a : list Z) (i : Z) : bool :=
  (0 <=? i) && (i <? Z.of_nat (length a)).

Definition aget (a : list Z) (i : Z) : res Z :=
  if in_range a i then Ok (nth (Z.to_nat i) a 0) else Fault OutOfBounds.

Definition aset (a : list Z) (i v : Z) : res (list Z) :=
  if in_range a i then Ok (upd (Z.to_nat i) v a) else Fault OutOfBounds.

(** [for (i = lo; i < hi; i++) body], with the loop state threaded
    through [body]; the loop stops at the first error or fault. *)

Fixpoint for_loop {S : Type} (n : nat) (i : Z) (body : Z -> S -> res S) (s : S)
  : res S :=
  match n with
  | O => Ok s
  | Datatypes.S n' => s' <- body i s ;; for_loop n' (i + 1) body s'
  end.

Definition for_ {S : Type} (lo hi : Z) (body : Z -> S -> res S) (s : S) : res S :=
  for_loop (Z.to_nat (hi - lo)) lo body s.

(** ** FSX32 *)

Module Fsx32.

Definition MAX_SHIFT : Z := 31.
Definition MAX_BUCKETS : Z := 2 ^ MAX_SHIFT.
Definition MIN_NUMS_BITS : Z := 10.
Definition FSX32_PRECISE : bool := false.

(** [1 << bits] stored in a [u32]. *)
Definition shl1 (bits : Z) : Z := wrap32 (Z.shiftl 1 bits).

(** A zero-filled array of [len] words. *)
Definition zeros (len : Z) : list Z := repeat 0 (Z.to_nat len).

(** [fsx32_alloc], [fsx64_alloc]: [reiser4_vmalloc] of [len] words, zeroed
    when the result is not NULL.  [reiser4_vmalloc] is declared outside
    these sources: as [vmalloc], it answers NULL to a request of zero
    bytes; every other request is taken to be served (running out of
    memory is not modelled). *)
Definition fsx32_alloc (len : Z) : option (list Z) :=
  if len =? 0 then None else Some (zeros len).
Definition fsx64_alloc (len : Z) : option (list Z) :=
  if len =? 0 then None else Some (zeros len).

(** [p = fsx32_alloc(len); if (!p) return -ENOMEM;] *)
Definition alloc32 (len : Z) : res (list Z) :=
  match fsx32_alloc len with
  | Some a => Ok a
  | None => Err ENOMEM
  end.
Definition alloc64 (len : Z) : res (list Z) :=
  match fsx64_alloc len with
  | Some a => Ok a
  | None => Err ENOMEM
  end.

(** *** Bucket vector

    Modelled from the spec: the bucket vector and its accessors
    ([cap_at], [idx2id], [id2idx], [fib_at], [fib_set_at], [fib_lenp_at],
    [fib_of]) are implemented by the volume plugin, which is not part of
    these sources.  A bucket exposes a capacity, an identifier and a
    fiber slot (a pointer to a [u32] array, possibly NULL, and its
    length field); [idx2id] and [id2idx] convert between the position in
    the current vector and the identifier. *)

Record bucket : Type := mk_bucket {
  b_cap : Z;
  b_id : Z;
  b_fib : option (list Z);
  b_fiblen : Z
}.

Definition bucket0 : bucket := mk_bucket 0 0 None 0.

Definition vec_in_range (vec : list bucket) (i : Z) : bool :=
  (0 <=? i) && (i <? Z.of_nat (length vec)).

Definition bucket_at (vec : list bucket) (i : Z) : res bucket :=
  if vec_in_range vec i then Ok (nth (Z.to_nat i) vec bucket0)
  else Fault OutOfBounds.

Definition upd_bucket (n : nat) (b : bucket) (vec : list bucket)
  : list bucket := upd n b vec.

Definition cap_at (vec : list bucket) (i : Z) : res Z :=
  b <- bucket_at vec i ;; Ok (b_cap b).

Definition idx2id (vec : list bucket) (i : Z) : res Z :=
  b <- bucket_at vec i ;; Ok (b_id b).

Fixpoint find_id (vec : list bucket) (id : Z) (pos : Z) : option Z :=
  match vec with
  | [] => None
  | b :: t => if b_id b =? id then Some pos else find_id t id (pos + 1)
  end.

Definition id2idx (vec : list bucket) (id : Z) : res Z :=
  match find_id vec id 0 with
  | Some i => Ok i
  | None => Fault OutOfBounds
  end.

Definition fib_at (vec : list bucket) (i : Z) : res (option (list Z)) :=
  b <- bucket_at vec i ;; Ok (b_fib b).

Definition fib_set_at (vec : list bucket) (i : Z) (fib : option (list Z))
  : res (list bucket) :=
  b <- bucket_at vec i ;;
  Ok (upd_bucket (Z.to_nat i)
        (mk_bucket (b_cap b) (b_id b) fib (b_fiblen b)) vec).

Definition fib_lenp_set (vec : list bucket) (i : Z) (len : Z)
  : res (list bucket) :=
  b <- bucket_at vec i ;;
  Ok (upd_bucket (Z.to_nat i)
        (mk_bucket (b_cap b) (b_id b) (b_fib b) len) vec).

(** Reading and writing through a fiber pointer. *)
Definition deref {A : Type} (p : option A) : res A :=
  match p with
  | Some a => Ok a
  | None => Fault NullPointer
  end.

Definition fib_read (vec : list bucket) (i pos : Z) : res Z :=
  p <- fib_at vec i ;; fib <- deref p ;; aget fib pos.

(** Reading through an array pointer that may be NULL. *)
Definition pget (p : option (list Z)) (i : Z) : res Z :=
  a <- deref p ;; aget a i.

(** *** calibrate *)

Definition div64_u64 (q d : Z) : res Z :=
  if d =? 0 then Fault DivByZero else Ok (q / d).

Definition array32_el_get (a : list Z) (idx : Z) : res Z := aget a idx.
Definition array32_el_set (a : list Z) (idx val : Z) : res (list Z) :=
  aset a idx (wrap32 val).
Definition array64_el_get (a : list Z) (idx : Z) : res Z := aget a idx.
Definition array64_el_set (a : list Z) (idx val : Z) : res (list Z) :=
  aset a idx (wrap64 val).

Definition calibrate (num val : Z) (vec : list bucket)
    (vec_el_get : list bucket -> Z -> res Z)
    (ret : list Z)
    (ret_el_get : list Z -> Z -> res Z)
    (ret_el_set : list Z -> Z -> Z -> res (list Z)) : res (list Z) :=
  sum_not_scaled <-
    for_ 0 num (fun i s => c <- vec_el_get vec i ;; Ok (wrap64 (s + c))) 0 ;;
  '(ret1, sum_scaled) <-
    for_ 0 num
      (fun i '(r, ss) =>
         c <- vec_el_get vec i ;;
         let q := wrap64 (val * c) in
         result <- div64_u64 q sum_not_scaled ;;
         r' <- ret_el_set r i result ;;
         Ok (r', wrap64 (ss + result)))
      (ret, 0) ;;
  let rest := wrap64 (val - sum_scaled) in
  for_ 0 rest
    (fun i r => x <- ret_el_get r i ;; ret_el_set r i (wrap64 (x + 1)))
    ret1.

Definition calibrate32 (num val : Z) (vec : list bucket)
    (vec_el_get : list bucket -> Z -> res Z) (ret : list Z) : res (list Z) :=
  calibrate (wrap32 num) (wrap32 val) vec vec_el_get
            ret array32_el_get array32_el_set.

Definition calibrate64 (num val : Z) (vec : list bucket)
    (vec_el_get : list bucket -> Z -> res Z) (ret : list Z) : res (list Z) :=
  calibrate (wrap64 num) (wrap64 val) vec vec_el_get
            ret array64_el_get array64_el_set.

(** *** Fibers and system table *)

Record fsx32_dcx : Type := mk_dcx {
  numb : Z;
  nums_bits : Z;
  weights : option (list Z);
  tab : option (list Z)
}.

(** [init_fibers_by_tab]: recount [weights] from [tab] and fill the
    (already allocated) fibers with the slots of their bricks. *)
Definition init_fibers_by_tab (numb nums_bits : Z) (tab : list Z)
    (vec : list bucket) (weights : list Z) : res (list bucket * list Z) :=
  let nums := shl1 nums_bits in
  weights0 <- for_ 0 numb (fun i w => aset w i 0) weights ;;
  for_ 0 nums
    (fun i '(v, w) =>
       t <- aget tab i ;;
       idx <- id2idx v t ;;
       p <- fib_at v idx ;;
       c <- aget w idx ;;
       w' <- aset w idx (wrap32 (c + 1)) ;;
       fib <- deref p ;;
       fib' <- aset fib c i ;;
       v' <- fib_set_at v idx (Some fib') ;;
       Ok (v', w'))
    (vec, weights0).

(** [init_tab_from_scratch] returns the table, or NULL when it could not
    be allocated. *)
Definition init_tab_from_scratch (weights : list Z) (numb nums_bits : Z)
    (vec : list bucket) : res (option (list Z)) :=
  let nums := shl1 nums_bits in
  match fsx32_alloc nums with
  | None => Ok None
  | Some tab0 =>
      '(tab, _) <-
        for_ 0 numb
          (fun i '(t, k) =>
             wi <- aget weights i ;;
             for_ 0 wi
               (fun _ '(t, k) =>
                  id <- idx2id vec i ;;
                  t' <- aset t k (wrap32 id) ;;
                  Ok (t', wrap32 (k + 1)))
               (t, k))
          (tab0, 0) ;;
      Ok (Some tab)
  end.

(** [clone_systab]: [memcpy] of [1 << nums_bits] entries of [tab] into a
    fresh array. *)
Definition clone_systab (dcx : fsx32_dcx) (tab : list Z) : res fsx32_dcx :=
  let nums := shl1 (nums_bits dcx) in
  _ <- alloc32 nums ;;
  if Z.of_nat (length tab) <? nums then Fault OutOfBounds
  else Ok (mk_dcx (numb dcx) (nums_bits dcx) (weights dcx)
                  (Some (firstn (Z.to_nat nums) tab))).

Definition create_fibers (nums_bits : Z) (tab : list Z) (new_numb : Z)
    (new_weights : list Z) (vec : list bucket)
  : res (list bucket * list Z) :=
  vec1 <-
    for_ 0 new_numb
      (fun i v =>
         wi <- aget new_weights i ;;
         fib <- alloc32 wi ;;
         v' <- fib_set_at v i (Some fib) ;;
         fib_lenp_set v' i wi)
      vec ;;
  init_fibers_by_tab new_numb nums_bits tab vec1 new_weights.

Definition release_fibers (numb : Z) (vec : list bucket) : res (list bucket) :=
  for_ 0 numb (fun i v => _ <- fib_at v i ;; fib_set_at v i None) vec.

Definition replace_fibers (nums_bits : Z) (tab : list Z)
    (old_numb new_numb : Z) (new_weights : list Z) (vec : list bucket)
  : res (list bucket * list Z) :=
  vec' <- release_fibers old_numb vec ;;
  create_fibers nums_bits tab new_numb new_weights vec'.

(** *** balance_inc *)

(** One inner stealing loop of [balance_inc]: the [e] slots of fiber [i]
    from position [new_weights[i]] on are handed to [target_pos]. *)
Definition steal_tail (vec : list bucket) (new_weights : list Z)
    (target_pos i e : Z) (tab : list Z) : res (list Z) :=
  for_ 0 e
    (fun j t =>
       nw <- aget new_weights i ;;
       s <- fib_read vec i (wrap32 (nw + j)) ;;
       id <- idx2id vec target_pos ;;
       aset t s (wrap32 id))
    tab.

Definition balance_inc (new_numb : Z) (tab : list Z)
    (old_weights : option (list Z)) (new_weights : list Z) (target_pos : Z)
    (vec : list bucket) (new : option bucket) : res (list Z) :=
  exc <- alloc32 new_numb ;;
  exc1 <-
    for_ 0 target_pos
      (fun i x =>
         o <- pget old_weights i ;; n <- aget new_weights i ;;
         aset x i (wrap32 (o - n)))
      exc ;;
  exc2 <-
    for_ (wrap32 (target_pos + 1)) new_numb
      (fun i x =>
         o <- (match new with
               | Some _ => pget old_weights (i - 1)
               | None => pget old_weights i
               end) ;;
         n <- aget new_weights i ;;
         aset x i (wrap32 (o - n)))
      exc1 ;;
  (* steal segments of all fibers to the left of target_pos *)
  tab1 <-
    for_ 0 target_pos
      (fun i t =>
         e <- aget exc2 i ;;
         steal_tail vec new_weights target_pos i e t)
      tab ;;
  (* steal segments of all fibers to the right of target_pos;
     FSX32_PRECISE is 0, so only the second branch is compiled in *)
  for_ (wrap32 (target_pos + 1)) new_numb
    (fun i t =>
       nw <- aget new_weights i ;;
       _ <- for_ 0 nw (fun _ u => _ <- fib_at vec i ;; Ok u) tt ;;
       e <- aget exc2 i ;;
       steal_tail vec new_weights target_pos i e t)
    tab1.

(** *** balance_dec *)

(** One inner loop of [balance_dec]: [n] slots of the source fiber
    [target], from offset [off] on, are handed to brick [i]. *)
Definition hand_out (vec : list bucket) (target : option (list Z))
    (i n : Z) (st : list Z * Z) : res (list Z * Z) :=
  for_ 0 n
    (fun _ '(t, off) =>
       tg <- deref target ;;
       s <- aget tg off ;;
       id <- idx2id vec i ;;
       t' <- aset t s (wrap32 id) ;;
       Ok (t', wrap32 (off + 1)))
    st.

(** The body of [balance_dec] after the read of [removeme->id]. *)
Definition balance_dec_body (new_numb : Z) (tab : list Z)
    (old_weights : option (list Z)) (new_weights : list Z) (target_pos : Z)
    (vec : list bucket) (removeme : option bucket) : res (list Z) :=
  sho <- alloc32 new_numb ;;
  sho1 <-
    for_ 0 target_pos
      (fun i x =>
         n <- aget new_weights i ;; o <- pget old_weights i ;;
         aset x i (wrap32 (n - o)))
      sho ;;
  sho2 <-
    for_ target_pos new_numb
      (fun i x =>
         n <- aget new_weights i ;;
         o <- (match removeme with
               | Some _ => pget old_weights (i + 1)
               | None => pget old_weights i
               end) ;;
         aset x i (wrap32 (n - o)))
      sho1 ;;
  '(target, off_in_target) <-
    (match removeme with
     | Some b => Ok (b_fib b, 0)
     | None =>
         f <- fib_at vec target_pos ;;
         o <- pget old_weights target_pos ;;
         n <- aget new_weights target_pos ;;
         Ok (f, wrap32 (o - n))
     end) ;;
  (* distribute segments among all fibers to the left of target_pos *)
  st1 <-
    for_ 0 target_pos
      (fun i st => n <- aget sho2 i ;; hand_out vec target i n st)
      (tab, off_in_target) ;;
  (* distribute segments among all fibers to the right of target_pos *)
  '(tab2, _) <-
    for_ target_pos new_numb
      (fun i st =>
         ow <- pget old_weights (i + 1) ;;
         _ <- for_ 0 ow (fun _ u => _ <- fib_at vec i ;; Ok u) tt ;;
         n <- aget sho2 i ;;
         hand_out vec target i n st)
      st1 ;;
  Ok tab2.

(** [balance_dec] opens with [victim_id = ((reiser4_subvol * )removeme)->id]. *)
Definition balance_dec (new_numb : Z) (tab : list Z)
    (old_weights : option (list Z)) (new_weights : list Z) (target_pos : Z)
    (vec : list bucket) (removeme : option bucket) : res (list Z) :=
  victim <- deref removeme ;;
  let victim_id := wrap32 (b_id victim) in
  balance_dec_body new_numb tab old_weights new_weights target_pos
                   vec removeme.

(** *** balance_spl *)

(** ["stretch" system table with the factor]. *)
Definition stretch_tab (nums factor : Z) (old : option (list Z))
  : res (list Z) :=
  tab <- alloc32 (wrap32 (nums * factor)) ;;
  for_ 0 nums
    (fun i t =>
       for_ 0 factor
         (fun j u =>
            x <- pget old i ;;
            aset u (wrap32 (i * factor + j)) x)
         t)
    tab.

(** [balance_spl] works on [*tabp] and on the caller's [old_weights]
    array, which it overwrites; it returns what it leaves in [*tabp] and
    the bucket vector.  Two of its allocations are followed by a bare
    [goto error], which leaves [ret] at 0: the function then returns 0,
    in the second case with the new table freed and [*tabp] already
    NULL. *)
Definition balance_spl (numb nums_bits : Z) (tabp : option (list Z))
    (old_weights : option (list Z)) (new_weights : list Z) (fact_bits : Z)
    (vec : list bucket)
  : res (option (list Z) * list bucket) :=
  let nums := shl1 nums_bits in
  let factor := shl1 fact_bits in
  num_exc <- (if numb =? 0 then Fault DivByZero else Ok (nums mod numb)) ;;
  let num_sho := wrap32 (numb - num_exc) in
  match (if num_exc =? 0 then Some [] else fsx32_alloc numb) with
  | None => Ok (tabp, vec)
  | Some exc0 =>
  (* [sho] is the window of [exc] that starts at [num_exc] *)
  exc <-
    (if num_exc =? 0 then Ok []
     else
       e1 <-
         for_ 0 num_exc
           (fun i x =>
              o <- pget old_weights i ;; n <- aget new_weights i ;;
              aset x i (wrap32 (factor * o - n)))
           exc0 ;;
       for_ 0 num_sho
         (fun i x =>
            n <- aget new_weights i ;; o <- pget old_weights i ;;
            aset x (num_exc + i) (wrap32 (n - factor * o)))
         e1) ;;
  tab <- stretch_tab nums factor tabp ;;
  if num_exc =? 0 then
    (* everything is balanced *)
    vec' <- release_fibers numb vec ;;
    Ok (Some tab, vec')
  else
    (* build "stretched" fibers, which are still disbalanced *)
    ow0 <- deref old_weights ;;
    ow <-
      for_ 0 numb
        (fun i w => o <- aget w i ;; aset w i (wrap32 (o * factor)))
        ow0 ;;
    '(vec1, _) <-
      replace_fibers (wrap32 (nums_bits + fact_bits)) tab numb numb ow vec ;;
    (* calculate number of segments to be relocated *)
    num_reloc <-
      for_ 0 num_exc (fun i n => e <- aget exc i ;; Ok (wrap32 (n + e))) 0 ;;
    (* allocate array of segments to be relocated *)
    match fsx32_alloc num_reloc with
    | None => Ok (None, vec1)
    | Some reloc0 =>
    (* assemble segments, which are to be relocated *)
    '(reloc, _) <-
      for_ 0 num_exc
        (fun i st =>
           e <- aget exc i ;;
           for_ 0 e
             (fun j '(r, k) =>
                nw <- aget new_weights i ;;
                s <- fib_read vec1 i (wrap32 (nw + j)) ;;
                r' <- aset r k s ;;
                Ok (r', wrap32 (k + 1)))
             st)
        (reloc0, 0) ;;
    (* distribute segments *)
    '(tab', _) <-
      for_ 0 num_sho
        (fun i st =>
           n <- aget exc (num_exc + i) ;;
           for_ 0 n
             (fun _ '(t, k) =>
                s <- aget reloc k ;;
                id <- idx2id vec1 (wrap32 (num_exc + i)) ;;
                t' <- aset t s (wrap32 id) ;;
                Ok (t', wrap32 (k + 1)))
             st)
        (tab, 0) ;;
    vec' <- release_fibers numb vec1 ;;
    Ok (Some tab', vec')
    end
  end.

(** *** Entry points *)

(** [initr_fsx32] on a table pointer that is still NULL. *)
Definition initr_fsx32 (dcx : fsx32_dcx) (tab : option (list Z)) (nums_bits : Z)
  : res (fsx32_dcx * option (list Z)) :=
  match tab with
  | Some _ => Ok (dcx, tab)
  | None =>
      if nums_bits <? MIN_NUMS_BITS then Err EINVAL
      else
        t <- alloc32 (shl1 nums_bits) ;;
        Ok (mk_dcx (numb dcx) nums_bits (weights dcx) (Fsx32.tab dcx),
            Some t)
  end.

Definition initv_fsx32 (vec : list bucket) (tab : option (list Z))
    (numb nums_bits : Z) (dcx : fsx32_dcx)
  : res (fsx32_dcx * list bucket * list Z) :=
  if (numb =? 0) || (MAX_SHIFT <=? nums_bits) then Err EINVAL
  else
    let nums := shl1 nums_bits in
    if nums <=? numb then Err EINVAL
    else
      w0 <- alloc32 numb ;;
      w <- calibrate32 numb nums vec cap_at w0 ;;
      '(dcx1, t) <-
        (match tab with
         | Some t => Ok (dcx, t)
         | None =>
             '(d, t0) <- initr_fsx32 dcx tab nums_bits ;;
             t0' <- deref t0 ;;
             t1 <- for_ 0 nums
                     (fun i t => id <- idx2id vec 0 ;; aset t i (wrap32 id))
                     t0' ;;
             Ok (d, t1)
         end) ;;
      '(vec', w') <- create_fibers nums_bits t (wrap32 numb) w vec ;;
      Ok (mk_dcx numb (Fsx32.nums_bits dcx1) (Some w') (Fsx32.tab dcx1),
          vec', t).

Definition inc_fsx32 (vec : list bucket) (dcx : fsx32_dcx) (tab : list Z)
    (target_pos : Z) (new : option bucket)
  : res (fsx32_dcx * list bucket) :=
  let old_numb := wrap32 (numb dcx) in
  new_numb <-
    (match new with
     | Some _ =>
         if old_numb =? MAX_BUCKETS then Err EINVAL
         else Ok (wrap32 (old_numb + 1))
     | None => Ok old_numb
     end) ;;
  let nums := shl1 (nums_bits dcx) in
  if nums <? new_numb then Err EINVAL
  else
    new_weights <- alloc32 new_numb ;;
    dcx1 <- clone_systab dcx tab ;;
    new_weights' <- calibrate32 new_numb nums vec cap_at new_weights ;;
    t <- deref (Fsx32.tab dcx1) ;;
    t' <- balance_inc new_numb t (weights dcx1) new_weights'
                      (wrap32 target_pos) vec new ;;
    vec' <- release_fibers new_numb vec ;;
    Ok (mk_dcx new_numb (nums_bits dcx1) (Some new_weights') (Some t'), vec').

(** [space_occupied()] is passed in as [occ]. *)
Definition check_space (vec : list bucket) (numb occ : Z) : res unit :=
  vec_new_occ0 <- alloc64 numb ;;
  vec_new_occ <- calibrate64 numb occ vec cap_at vec_new_occ0 ;;
  for_ 0 numb
    (fun i _ =>
       c <- cap_at vec i ;;
       o <- aget vec_new_occ i ;;
       if c <? o then Err ENOSPC else Ok tt)
    tt.

Definition dec_fsx32 (vec : list bucket) (occ : Z) (dcx : fsx32_dcx)
    (tab : list Z) (target_pos : Z) (removeme : option bucket)
  : res (fsx32_dcx * list bucket * option bucket) :=
  let new_numb :=
    match removeme with
    | Some _ => wrap32 (wrap32 (numb dcx) - 1)
    | None => wrap32 (numb dcx)
    end in
  _ <- check_space vec new_numb occ ;;
  let nums := shl1 (nums_bits dcx) in
  new_weights <- alloc32 new_numb ;;
  dcx1 <- clone_systab dcx tab ;;
  new_weights' <- calibrate32 new_numb nums vec cap_at new_weights ;;
  t <- deref (Fsx32.tab dcx1) ;;
  t' <- balance_dec new_numb t (weights dcx1) new_weights'
                    (wrap32 target_pos) vec removeme ;;
  vec' <- release_fibers new_numb vec ;;
  (* release_fibers(1, &removeme, ...) *)
  victim <- deref removeme ;;
  let victim' :=
    mk_bucket (b_cap victim) (b_id victim) None (b_fiblen victim) in
  Ok (mk_dcx new_numb (nums_bits dcx1) (Some new_weights') (Some t'),
      vec', Some victim').

Definition spl_fsx32 (vec : list bucket) (dcx : fsx32_dcx) (fact_bits : Z)
  : res (fsx32_dcx * list bucket) :=
  if MAX_SHIFT <? wrap32 (nums_bits dcx + fact_bits) then Err EINVAL
  else
    let new_nums := shl1 (wrap32 (nums_bits dcx + fact_bits)) in
    new_weights0 <- alloc32 (numb dcx) ;;
    new_weights <-
      calibrate32 (numb dcx) new_nums vec cap_at new_weights0 ;;
    '(t', vec') <-
      balance_spl (wrap32 (numb dcx)) (nums_bits dcx) (tab dcx)
                  (weights dcx) new_weights fact_bits vec ;;
    Ok (mk_dcx (numb dcx) (wrap32 (nums_bits dcx + fact_bits))
               (Some new_weights) t', vec').

(** [replace_fsx32]: hand the freshly built table over to [*target]. *)
Definition replace_fsx32 (dcx : fsx32_dcx) : fsx32_dcx * option (list Z) :=
  (mk_dcx (numb dcx) (nums_bits dcx) (weights dcx) None, tab dcx).

(** *** Serialization

    A byte buffer is a list of values in [0, 256).  [put_unaligned
    (cpu_to_le32 x)] stores the four bytes of [x], least significant
    first; [le32_to_cpu (get_unaligned p)] reads them back. *)

Definition put_le32 (buf : list Z) (off x : Z) : res (list Z) :=
  b0 <- aset buf off (x mod 256) ;;
  b1 <- aset b0 (off + 1) ((x / 256) mod 256) ;;
  b2 <- aset b1 (off + 2) ((x / 65536) mod 256) ;;
  aset b2 (off + 3) ((x / 16777216) mod 256).

Definition get_le32 (buf : list Z) (off : Z) : res Z :=
  b0 <- aget buf off ;;
  b1 <- aget buf (off + 1) ;;
  b2 <- aget buf (off + 2) ;;
  b3 <- aget buf (off + 3) ;;
  Ok (wrap32 (b0 + 256 * b1 + 65536 * b2 + 16777216 * b3)).

Definition pack_fsx32 (dcx : fsx32_dcx) (to : list Z) (src_off count : Z)
  : res (list Z) :=
  t <- deref (tab dcx) ;;
  for_ 0 count
    (fun i buf => x <- aget t (src_off + i) ;; put_le32 buf (4 * i) x)
    to.

Definition unpack_fsx32 (tab : list Z) (from : list Z) (dst_off count : Z)
  : res (list Z) :=
  for_ 0 count
    (fun i t => x <- get_le32 from (4 * i) ;; aset t (dst_off + i) x)
    tab.

(** *** Specification-level notions *)

Fixpoint sumZ (l : list Z) : Z :=
  match l with
  | [] => 0
  | x :: t => x + sumZ t
  end.

(** The capacities of the first [num] buckets. *)
Definition caps_of (num : Z) (vec : list bucket) : list Z :=
  map b_cap (firstn (Z.to_nat num) vec).

(** The calibrator in the spec's words, over unbounded integers: brick
    [i] gets [floor (val * cap i / S)], [S] being the sum of the
    capacities, and the first [rest] bricks one more, [rest] being what
    the floors leave of [val]. *)
Definition share (val S c : Z) : Z := val * c / S.

Definition shares (val : Z) (cs : list Z) : list Z :=
  map (share val (sumZ cs)) cs.

Definition calibrate_ideal_at (val : Z) (cs : list Z) (i : Z) : Z :=
  share val (sumZ cs) (zth cs i)
  + (if i <? val - sumZ (shares val cs) then 1 else 0).

(** The 64-bit products and the 64-bit sum of [calibrate] do not wrap. *)
Definition no_wrap (val : Z) (cs : list Z) : Prop :=
  (forall c, In c cs -> 0 <= c /\ val * c < 2 ^ 64) /\ sumZ cs < 2 ^ 64.

(** [out] is [ret] with its first [num] entries calibrated as the spec
    says. *)
Definition calibrated (num val : Z) (cs ret out : list Z) : Prop :=
  length out = length ret /\
  (forall j, 0 <= j < num -> zth out j = calibrate_ideal_at val cs j) /\
  (forall j, num <= j -> zth out j = zth ret j) /\
  sumZ (firstn (Z.to_nat num) out) = val.

(** A vector of bricks given by their (capacity, id) pairs, no fiber
    attached. *)
Definition bricks (l : list (Z * Z)) : list bucket :=
  map (fun p => mk_bucket (fst p) (snd p) None 0) l.


(** Number of slots of [tab] that hold [id]. *)
Definition count_id (id : Z) (tab : list Z) : Z :=
  Z.of_nat (length (filter (Z.eqb id) tab)).

(** The identifiers of the bricks of the vector, as the table stores
    them. *)
Definition tab_ids (vec : list bucket) : list Z :=
  map (fun b => wrap32 (b_id b)) vec.

(** The invariant of the system table: the weights sum to
    [2 ^ nums_bits], brick [i] occupies [weights[i]] slots, and every
    slot holds the identifier of a brick of the vector. *)
Definition fsx_invariantb (vec : list bucket) (dcx : fsx32_dcx)
    (tab : list Z) : bool :=
  match weights dcx with
  | None => false
  | Some w =>
      (sumZ w =? 2 ^ nums_bits dcx)
      && (Z.of_nat (length w) =? numb dcx)
      && (Z.of_nat (length vec) =? numb dcx)
      && forallb (fun p => count_id (fst p) tab =? snd p)
                 (combine (tab_ids vec) w)
      && forallb (fun x => existsb (Z.eqb x) (tab_ids vec)) tab
  end.

(** The fiber of the spec: the slots of [tab] that hold [id], in
    ascending order. *)
Fixpoint slots_from (id : Z) (tab : list Z) (pos : Z) : list Z :=
  match tab with
  | [] => []
  | x :: t =>
      if x =? id then pos :: slots_from id t (pos + 1)
      else slots_from id t (pos + 1)
  end.

Definition slots_of (id : Z) (tab : list Z) : list Z := slots_from id tab 0.

(** Number of slots in which two tables differ. *)
Fixpoint diff_count (a b : list Z) : Z :=
  match a, b with
  | x :: a', y :: b' => (if x =? y then 0 else 1) + diff_count a' b'
  | _, _ => 0
  end.

(** The table after a sequence of writes [(slot, id)]. *)
Fixpoint write_list (W : list (Z * Z)) (t : list Z) : list Z :=
  match W with
  | [] => t
  | (s, v) :: r => write_list r (upd (Z.to_nat s) v t)
  end.

(** The writes that hand the slots [l] to the brick [id]. *)
Definition hand (id : Z) (l : list Z) : list (Z * Z) :=
  map (fun s => (s, id)) l.

(** The writes that walk the source fiber [f] from offset [off] on and
    hand [cnt i] of its slots to each brick [i] of [L] in turn, [idv i]
    being the identifier of brick [i]. *)
Fixpoint hand_seq (f : list Z) (idv cnt : Z -> Z) (L : list Z) (off : Z)
  : list (Z * Z) :=
  match L with
  | [] => []
  | i :: r =>
      hand (idv i) (firstn (Z.to_nat (cnt i)) (skipn (Z.to_nat off) f))
      ++ hand_seq f idv cnt r (off + cnt i)
  end.

(** [lo; lo + 1; ...; hi - 1] *)
Definition zrange (lo hi : Z) : list Z :=
  map (fun k => lo + Z.of_nat k) (seq 0 (Z.to_nat (hi - lo))).

(** What a brick loses: [max (0, old - new)]. *)
Definition decrease (o n : Z) : Z := Z.max 0 (o - n).

(** [inc]: position in the old vector of the brick at position [i] of
    the new one, and the sum of the decreases over the surviving
    bricks (all bricks but the added one). *)
Definition old_pos_inc (tp : Z) (new : option bucket) (i : Z) : Z :=
  match new with
  | Some _ => if tp <? i then i - 1 else i
  | None => i
  end.

Definition survivor_inc (tp : Z) (new : option bucket) (i : Z) : bool :=
  match new with
  | Some _ => negb (i =? tp)
  | None => true
  end.

Definition moved_inc (ow nw : list Z) (tp : Z) (new : option bucket) : Z :=
  sumZ (map (fun i =>
               if survivor_inc tp new i
               then decrease (zth ow (old_pos_inc tp new i)) (zth nw i)
               else 0)
            (zrange 0 (Z.of_nat (length nw)))).

(** [dec]: position in the old vector of the surviving brick at position
    [i] of the new one, and the sum of the decreases over the survivors
    plus the whole weight of the removed brick. *)
Definition old_pos_dec (tp i : Z) : Z := if i <? tp then i else i + 1.

Definition moved_dec (ow nw : list Z) (tp : Z) : Z :=
  sumZ (map (fun i => decrease (zth ow (old_pos_dec tp i)) (zth nw i))
            (zrange 0 (Z.of_nat (length nw))))
  + zth ow tp.

(** The fiber attached to a bucket is the fiber of the spec for its
    identifier, and [w] is its length. *)
Definition fiber_ok (tab : list Z) (b : bucket) (w : Z) : Prop :=
  b_fib b = Some (slots_of (wrap32 (b_id b)) tab) /\
  w = Z.of_nat (length (slots_of (wrap32 (b_id b)) tab)).

(** The state in which [inc] is called: the table has [2 ^ nums_bits]
    slots, the old weights sum to that, the vector is the new one, its
    identifiers are distinct, and every brick of the old vector carries
    its fiber. *)
Record wf_inc (vec : list bucket) (dcx : fsx32_dcx) (tab : list Z)
    (tp : Z) (new : option bucket) (ow : list Z) : Prop := mk_wf_inc {
  wi_weights : weights dcx = Some ow;
  wi_bits : 0 <= nums_bits dcx <= MAX_SHIFT;
  wi_tab : Z.of_nat (length tab) = 2 ^ nums_bits dcx;
  wi_sum : sumZ ow = 2 ^ nums_bits dcx;
  wi_numb : Z.of_nat (length ow) = numb dcx;
  wi_max : numb dcx <= MAX_BUCKETS;
  wi_vec : Z.of_nat (length vec)
           = numb dcx + match new with Some _ => 1 | None => 0 end;
  wi_tp : 0 <= tp < Z.of_nat (length vec);
  wi_ids : NoDup (tab_ids vec);
  wi_fibers :
    forall i, 0 <= i < Z.of_nat (length vec) ->
              survivor_inc tp new i = true ->
              fiber_ok tab (nth (Z.to_nat i) vec bucket0)
                       (zth ow (old_pos_inc tp new i))
}.

(** The state in which [dec] is called on the bucket [victim] that was
    at position [tp]: the vector holds the survivors, and the victim
    carries its fiber and an identifier of its own. *)
Record wf_dec (vec : list bucket) (dcx : fsx32_dcx) (tab : list Z)
    (tp : Z) (victim : bucket) (ow : list Z) : Prop := mk_wf_dec {
  wd_weights : weights dcx = Some ow;
  wd_bits : 0 <= nums_bits dcx <= MAX_SHIFT;
  wd_tab : Z.of_nat (length tab) = 2 ^ nums_bits dcx;
  wd_sum : sumZ ow = 2 ^ nums_bits dcx;
  wd_nonneg : forall x, In x ow -> 0 <= x;
  wd_numb : Z.of_nat (length ow) = numb dcx;
  wd_max : numb dcx <= MAX_BUCKETS;
  wd_vec : Z.of_nat (length vec) = numb dcx - 1;
  wd_tp : 0 <= tp < numb dcx;
  wd_ids : ~ In (wrap32 (b_id victim)) (tab_ids vec);
  wd_fiber : fiber_ok tab victim (zth ow tp)
}.

(** The pure stretch of the spec: each slot is copied into [factor]
    consecutive slots. *)
Definition stretch (factor : Z) (tab : list Z) : list Z :=
  flat_map (fun x => repeat x (Z.to_nat factor)) tab.

(** Two bricks of capacities 1 and 2 on a table of [2 ^ 10] slots that
    holds the calibrated 342 and 682 slots: the table is loaded by
    [initv], cloned by a pure re-weight, checked against the invariant,
    and split once. *)
Definition stretch_example : res (fsx32_dcx * list bucket * list Z) :=
  let vec := bricks [(1, 10); (2, 11)] in
  tabp <- init_tab_from_scratch [342; 682] 2 10 vec ;;
  tab0 <- deref tabp ;;
  '(d1, v1, _) <- initv_fsx32 vec (Some tab0) 2 10 (mk_dcx 0 10 None None) ;;
  '(d2, v2) <- inc_fsx32 v1 d1 tab0 0 None ;;
  if negb (match tab d2 with
           | Some t => fsx_invariantb v2 d2 t
           | None => false
           end)
  then Err 0
  else
    '(d3, v3) <- spl_fsx32 v2 d2 1 ;;
    Ok (d3, v3, tab0).

(** Three bricks of capacity 1 on a table of [2 ^ 11] slots: the table
    is loaded by [initv], cloned by a pure re-weight, and split once. *)
Definition spl_example : res (fsx32_dcx * list bucket) :=
  let vec := bricks [(1, 10); (1, 11); (1, 12)] in
  tabp <- init_tab_from_scratch [683; 683; 682] 3 11 vec ;;
  tab0 <- deref tabp ;;
  '(d1, v1, _) <- initv_fsx32 vec (Some tab0) 3 11 (mk_dcx 0 11 None None) ;;
  '(d2, v2) <- inc_fsx32 v1 d1 tab0 0 None ;;
  if negb (match tab d2 with
           | Some t => fsx_invariantb v2 d2 t
           | None => false
           end)
  then Err 0
  else spl_fsx32 v2 d2 1.

(** A table of eight slots shared by the bricks 10 and 11 of equal
    capacity, to which the brick 12 is added at the end, and the table
    that results, from which the brick 11 is removed. *)
Definition inc_example_tab : list Z := [10; 11; 10; 11; 10; 11; 10; 11].

Definition inc_example_dcx : fsx32_dcx :=
  mk_dcx 2 3 (Some [4; 4]) (Some inc_example_tab).

Definition inc_example_new : bucket := mk_bucket 1 12 None 0.

Definition inc_example_vec : list bucket :=
  [mk_bucket 1 10 (Some [0; 2; 4; 6]) 4;
   mk_bucket 1 11 (Some [1; 3; 5; 7]) 4;
   inc_example_new].

Definition dec_example_tab : list Z := [10; 11; 10; 11; 10; 11; 12; 12].

Definition dec_example_dcx : fsx32_dcx :=
  mk_dcx 3 3 (Some [3; 3; 2]) (Some dec_example_tab).

Definition dec_example_victim : bucket := mk_bucket 1 11 (Some [1; 3; 5]) 3.

Definition dec_example_vec : list bucket :=
  [mk_bucket 1 10 (Some [0; 2; 4]) 3; mk_bucket 1 12 (Some [6; 7]) 2].

(** *** Lookup, and the table rebuilt from the fibers *)

Section Lookup.

(** [murmur3_x86_32] is defined outside these sources; it returns a
    [u32]. *)
Variable murmur3_x86_32 : list Z -> Z -> Z -> Z.

(** [tab[hash >> (32 - dcx->nums_bits)]]; the shift count is a [u32], and
    the shift is defined for counts below 32. *)
Definition lookup_fsx32m (dcx : fsx32_dcx) (str : list Z) (len seed : Z)
    (tab : list Z) : res Z :=
  let hash := wrap32 (murmur3_x86_32 str len seed) in
  aget tab (Z.shiftr hash (wrap32 (32 - nums_bits dcx))).

End Lookup.

(** [init_tab_by_fibers] writes through [tab], which [create_systab]
    hands over unchecked. *)
Definition init_tab_by_fibers (numb : Z) (tab : option (list Z))
    (vec : list bucket) (weights : list Z) : res (option (list Z)) :=
  for_ 0 numb
    (fun i t =>
       wi <- aget weights i ;;
       for_ 0 wi
         (fun j u =>
            p <- fib_at vec i ;;
            fib <- deref p ;;
            s <- aget fib j ;;
            id <- idx2id vec i ;;
            u0 <- deref u ;;
            u' <- aset u0 s (wrap32 id) ;;
            Ok (Some u'))
         t)
    tab.

(** [create_systab] tests [tab], the address of the caller's pointer, not
    the array that it has just allocated: a NULL array goes on to
    [init_tab_by_fibers]. *)
Definition create_systab (nums_bits numb : Z) (weights : list Z)
    (vec : list bucket) : res (option (list Z)) :=
  let nums := shl1 nums_bits in
  init_tab_by_fibers numb (fsx32_alloc nums) vec weights.

(** The 32-bit value that four bytes of a buffer encode, least
    significant byte first. *)
Definition le32_of (buf : list Z) (off : Z) : Z :=
  wrap32 (zth buf off + 256 * zth buf (off + 1) + 65536 * zth buf (off + 2)
          + 16777216 * zth buf (off + 3)).

(** The layout of a table built from scratch: brick [i] holds the next
    [weights[i]] slots, the rest of the [nums] slots is zero. *)
Definition scratch_tab (weights : list Z) (numb nums : Z) (vec : list bucket)
  : list Z :=
  flat_map (fun i => repeat (wrap32 (b_id (nth (Z.to_nat i) vec bucket0)))
                            (Z.to_nat (zth weights i)))
           (zrange 0 numb)
  ++ repeat 0 (Z.to_nat (nums - sumZ (map (zth weights) (zrange 0 numb)))).

(** The number of slots that the bricks of a list of identifiers hold
    together. *)
Definition count_all (L t : list Z) : Z :=
  sumZ (map (fun id => count_id id t) L).

(** What [create_fibers] leaves for the table [t]: capacities and
    identifiers as they were, the fiber length field set to the weight
    the fiber was allocated for, the weights array recounted from the
    table, and each fiber listing the slots of its brick in ascending
    order, zero-padded to its allocated length. *)
Definition fibers_built (vec : list bucket) (nw t : list Z)
    (vec' : list bucket) (w' : list Z) : Prop :=
  length vec' = length vec /\ length w' = length nw /\
  forall j, 0 <= j < Z.of_nat (length vec) ->
    let b := nth (Z.to_nat j) vec bucket0 in
    let b' := nth (Z.to_nat j) vec' bucket0 in
    b_cap b' = b_cap b /\ b_id b' = b_id b /\ b_fiblen b' = zth nw j /\
    zth w' j = count_id (b_id b) t /\
    b_fib b' = Some (slots_of (b_id b) t
                     ++ repeat 0 (Z.to_nat (zth nw j - count_id (b_id b) t))).

(** A table of two slots and its stretch by two; a hash function that
    always answers [2 ^ 31 + 5]. *)
Definition lookup_example_dcx : fsx32_dcx := mk_dcx 2 1 None None.
Definition lookup_example_dcx' : fsx32_dcx := mk_dcx 2 2 None None.
Definition lookup_example_hash (_ : list Z) (_ _ : Z) : Z := 2 ^ 31 + 5.

(** Two bricks on a table of four slots, three of them of brick 10. *)
Definition fibers_example_vec : list bucket := bricks [(1, 10); (1, 11)].
Definition fibers_example_tab : list Z := [10; 11; 10; 10].

(** Three bricks of capacities 1, 1 and 2 on a table of [2 ^ 10] slots
    that holds the calibrated 256, 256 and 512 slots. *)
Definition reloc_example_vec : list bucket :=
  bricks [(1, 10); (1, 11); (2, 12)].
Definition reloc_example_tab : list Z :=
  scratch_tab [256; 256; 512] 3 (2 ^ 10) reloc_example_vec.

End Fsx32.

(** ** Extent migration: the decision procedure and the driver loop *)

Module Migrate.

Definition MIGRATION_GRANULARITY : Z := 8192.

Inductive migration_primitive_id : Type :=
| INVALID_ACTION
| MIGRATE_EXTENT
| SPLIT_EXTENT
| SKIP_EXTENT.

Record reiser4_key : Type := mk_key {
  key_ordering : Z;
  key_offset : Z
}.

Record coord_t : Type := mk_coord {
  node : Z;
  item_pos : Z;
  unit_pos : Z
}.

Record extent_migrate_context : Type := mk_mctx {
  act : migration_primitive_id;
  nr_pages : Z;
  coord : coord_t;
  key : reiser4_key;
  new_loc : Z;
  stop_off : Z;
  done_off : Z;
  blocks_migrated : Z;
  unit_split_pos : Z;
  migrate_whole_item : bool;
  stop : bool
}.

Definition set_key_offset (k : reiser4_key) (off : Z) : reiser4_key :=
  mk_key (key_ordering k) off.

Definition set_unit_pos (c : coord_t) (p : Z) : coord_t :=
  mk_coord (node c) (item_pos c) p.

Definition init_migration_context (c : coord_t) (k : reiser4_key)
  : extent_migrate_context :=
  mk_mctx INVALID_ACTION 0 c k 0 0 0 0 0 false false.

Definition reset_migration_context (m : extent_migrate_context)
  : extent_migrate_context :=
  mk_mctx INVALID_ACTION 0 (coord m) (key m) (new_loc m) (stop_off m)
          (done_off m) 0 0 false false.

Section Engine.

(** The tree, the page cache and the volume configuration are external
    collaborators; what the engine reads from them, and the primitives
    that it calls on them, are parameters here.  File offsets ([loff_t])
    are unbounded integers: signed overflow is undefined in C. *)
Variable tree : Type.
Variable PAGE_SHIFT : Z.
Variable nosplit_migration_mode : bool.
Variable current_stripe_size : Z.
(** [calc_data_subvol(inode, off)->id] *)
Variable calc_data_subvol : Z -> Z.
(** [reiser4_extent_size(coord)], in bytes *)
Variable reiser4_extent_size : tree -> coord_t -> Z.
(** [lookup_extent(key, FIND_EXACT, coord)] at a key offset *)
Variable lookup_extent : tree -> Z -> coord_t -> coord_t.
(** offset of [unit_key_by_coord(coord)] *)
Variable unit_key_offset : tree -> coord_t -> Z.
(** return value of [zload(coord->node)] *)
Variable zload : tree -> coord_t -> Z.
Variable try_merge_with_right_item : coord_t -> tree -> tree.
Variable do_split_extent :
  extent_migrate_context -> tree -> Z * extent_migrate_context * tree.
Variable do_migrate_extent :
  extent_migrate_context -> tree -> Z * extent_migrate_context * tree.

Definition with_decision (m : extent_migrate_context) (c : coord_t)
    (loc soff usp : Z) (whole st : bool) (a : migration_primitive_id)
  : extent_migrate_context :=
  mk_mctx a (nr_pages m) c (key m) loc soff (done_off m)
          (blocks_migrated m) usp whole st.

Definition what_to_do_nosplit (tr : tree) (mctx : extent_migrate_context)
    (dst_id : option Z) : extent_migrate_context :=
  let m := reset_migration_context mctx in
  let c := coord m in
  let loc :=
    wrap32 (match dst_id with
            | Some d => d
            | None => calc_data_subvol (key_offset (key m))
            end) in
  if key_ordering (key m) =? loc then
    (* skip the whole extent *)
    with_decision m (set_unit_pos c 0) loc (key_offset (key m))
                  0 false true SKIP_EXTENT
  else if reiser4_extent_size tr c <=?
          Z.shiftl MIGRATION_GRANULARITY PAGE_SHIFT then
    (* migrate the whole extent *)
    with_decision m (set_unit_pos c 0) loc (key_offset (key m))
                  0 true false MIGRATE_EXTENT
  else
    (* extent is too large, migrate it by parts *)
    let soff := key_offset (key m) + reiser4_extent_size tr c
                - Z.shiftl MIGRATION_GRANULARITY PAGE_SHIFT in
    let c' := lookup_extent tr soff c in
    let usp := Z.shiftr (soff - unit_key_offset tr c') PAGE_SHIFT in
    with_decision m c' loc soff usp false false MIGRATE_EXTENT.

(** The [while (off1 < off2)] walk over the stripes, right to left:
    [Some (Some split_off)] when a split offset is found, [Some None]
    when the walk reaches [off1], [None] when [fuel] runs out. *)
Fixpoint find_split_off (fuel : nat) (off1 off2 loc : Z)
  : option (option Z) :=
  match fuel with
  | O => None
  | S fuel' =>
      if off1 <? off2 then
        let off2' := off2 - current_stripe_size in
        if negb (calc_data_subvol off2' =? loc)
        then Some (Some (off2' + current_stripe_size))
        else find_split_off fuel' off1 off2' loc
      else Some None
  end.

Definition what_to_do (fuel : nat) (tr : tree)
    (mctx : extent_migrate_context) (dst_id : option Z)
  : option extent_migrate_context :=
  if nosplit_migration_mode then Some (what_to_do_nosplit tr mctx dst_id)
  else
    let m := reset_migration_context mctx in
    let c := coord m in
    (* offset of the leftmost byte *)
    let off1 := key_offset (key m) in
    (* offset of rightmost byte *)
    let off2 := off1 + reiser4_extent_size tr c - 1 in
    (* normalize offsets *)
    let off1 := off1 - Z.land off1 (current_stripe_size - 1) in
    let off2 := off2 - Z.land off2 (current_stripe_size - 1) in
    let loc :=
      wrap32 (match dst_id with
              | Some d => d
              | None => calc_data_subvol off2
              end) in
    match find_split_off fuel off1 off2 loc with
    | None => None
    | Some None =>
        (* split offset not found *)
        if negb (loc =? key_ordering (key m)) then
          Some (with_decision m (set_unit_pos c 0) loc (key_offset (key m))
                              0 true false MIGRATE_EXTENT)
        else
          Some (with_decision m (set_unit_pos c 0) loc (key_offset (key m))
                              0 false true SKIP_EXTENT)
    | Some (Some split_off) =>
        let c' := lookup_extent tr split_off c in
        let usp := Z.shiftr (split_off - unit_key_offset tr c') PAGE_SHIFT in
        if negb (loc =? key_ordering (key m)) then
          Some (with_decision m c' loc split_off usp false false
                              MIGRATE_EXTENT)
        else
          Some (with_decision m c' loc split_off usp false false
                              SPLIT_EXTENT)
    end.

(** What a call of [reiser4_migrate_extent] leaves behind. *)
Record migrate_result : Type := mk_result {
  ret : Z;
  out_done_off : Z;
  total_blocks_migrated : Z;
  last_mctx : extent_migrate_context;
  out_tree : tree
}.

(** The [while (!mctx.stop)] loop; [fuel] bounds its iterations and
    [wfuel] those of the stripe walk. *)
Fixpoint migrate_loop (fuel wfuel : nat) (mctx : extent_migrate_context)
    (dst_id : option Z) (done : Z) (total : Z) (tr : tree)
  : option migrate_result :=
  match fuel with
  | O => None
  | S fuel' =>
      if stop mctx then Some (mk_result 0 done total mctx tr)
      else
        match what_to_do wfuel tr mctx dst_id with
        | None => None
        | Some m =>
            match act m with
            | SKIP_EXTENT =>
                let r := zload tr (coord m) in
                if negb (r =? 0) then Some (mk_result r done total m tr)
                else
                  Some (mk_result 0 (stop_off m) total m
                          (try_merge_with_right_item (coord m) tr))
            | SPLIT_EXTENT =>
                let '(r, m', tr') := do_split_extent m tr in
                if negb (r =? 0) then Some (mk_result r done total m' tr')
                else migrate_loop fuel' wfuel m' dst_id done total tr'
            | MIGRATE_EXTENT =>
                let '(r, m', tr') := do_migrate_extent m tr in
                if negb (r =? 0) then Some (mk_result r done total m' tr')
                else migrate_loop fuel' wfuel m' dst_id (done_off m')
                                  (total + blocks_migrated m') tr'
            | INVALID_ACTION =>
                (* impossible("edward-2116", ...) *)
                migrate_loop fuel' wfuel m dst_id done total tr
            end
        end
  end.

Definition reiser4_migrate_extent (fuel wfuel : nat) (c : coord_t)
    (k : reiser4_key) (done_off0 : Z) (dst_id : option Z) (tr : tree)
  : option migrate_result :=
  migrate_loop fuel wfuel (init_migration_context c k) dst_id
               done_off0 0 tr.

End Engine.

End Migrate.

(** ** The volume-operation dispatchers *)

Module VolumeOps.

Inductive opcode : Type :=
| REISER4_REGISTER_BRICK
| REISER4_UNREGISTER_BRICK
| REISER4_VOLUME_HEADER
| REISER4_BRICK_HEADER
| REISER4_PRINT_VOLUME
| REISER4_PRINT_BRICK
| REISER4_RESIZE_BRICK
| REISER4_ADD_BRICK
| REISER4_ADD_PROXY
| REISER4_REMOVE_BRICK
| REISER4_SCALE_VOLUME
| REISER4_BALANCE_VOLUME
| REISER4_MIGRATE_FILE
| REISER4_SET_FILE_IMMOBILE
| REISER4_CLR_FILE_IMMOBILE
| REISER4_OTHER_OP (code : Z).

Section Dispatch.

(** Everything of the mounted volume besides its busy flag, and the
    arguments of an operation besides its opcode, are left abstract; so
    are the handlers, each of which returns its [int] result and the
    state it leaves. *)
Variable volume : Type.
Variable op_args : Type.

Record super_block : Type := mk_sb {
  busy : bool;
  vol : volume
}.

Record reiser4_vol_op_args : Type := mk_args {
  op : opcode;
  rest : op_args
}.

Definition handler : Type := reiser4_vol_op_args -> super_block -> Z * super_block.

Variable reiser4_print_volume : handler.
Variable reiser4_print_brick : handler.
Variable reiser4_resize_brick : handler.
Variable reiser4_add_brick : bool -> handler.
Variable reiser4_remove_brick : handler.
Variable reiser4_scale_volume : handler.
Variable reiser4_balance_volume : handler.
Variable reiser4_migrate_file : handler.
Variable reiser4_set_file_immobile : handler.
Variable reiser4_clr_file_immobile : handler.

(** Modelled from the spec: [reiser4_volume_test_set_busy] and
    [reiser4_volume_clear_busy] are declared outside these sources; the
    first is a test-and-set of the busy flag, the second clears it. *)
Definition reiser4_volume_test_set_busy (sb : super_block)
  : bool * super_block :=
  (busy sb, mk_sb true (vol sb)).

Definition reiser4_volume_clear_busy (sb : super_block) : super_block :=
  mk_sb false (vol sb).

Definition reiser4_volume_op_dir (args : reiser4_vol_op_args)
    (sb : super_block) : Z * super_block :=
  (* take exclusive access to the volume *)
  let '(was_busy, sb1) := reiser4_volume_test_set_busy sb in
  if was_busy then (- EBUSY, sb1)
  else
    let '(r, sb2) :=
      match op args with
      | REISER4_PRINT_VOLUME => reiser4_print_volume args sb1
      | REISER4_PRINT_BRICK => reiser4_print_brick args sb1
      | REISER4_RESIZE_BRICK => reiser4_resize_brick args sb1
      | REISER4_ADD_BRICK => reiser4_add_brick false args sb1
      | REISER4_ADD_PROXY => reiser4_add_brick true args sb1
      | REISER4_REMOVE_BRICK => reiser4_remove_brick args sb1
      | REISER4_SCALE_VOLUME => reiser4_scale_volume args sb1
      | REISER4_BALANCE_VOLUME => reiser4_balance_volume args sb1
      | _ => (- ENOTTY, sb1)
      end in
    (* drop exclusive access to the volume *)
    (r, reiser4_volume_clear_busy sb2).

Definition reiser4_volume_op_file (args : reiser4_vol_op_args)
    (sb : super_block) : Z * super_block :=
  let '(was_busy, sb1) := reiser4_volume_test_set_busy sb in
  if was_busy then (- EBUSY, sb1)
  else
    let '(r, sb2) :=
      match op args with
      | REISER4_MIGRATE_FILE => reiser4_migrate_file args sb1
      | REISER4_SET_FILE_IMMOBILE => reiser4_set_file_immobile args sb1
      | REISER4_CLR_FILE_IMMOBILE => reiser4_clr_file_immobile args sb1
      | _ => (- ENOTTY, sb1)
      end in
    (r, reiser4_volume_clear_busy sb2).

End Dispatch.

(** Opcodes that the directory-level dispatcher does not serve. *)
Definition dir_unknown (o : opcode) : bool :=
  match o with
  | REISER4_PRINT_VOLUME | REISER4_PRINT_BRICK | REISER4_RESIZE_BRICK
  | REISER4_ADD_BRICK | REISER4_ADD_PROXY | REISER4_REMOVE_BRICK
  | REISER4_SCALE_VOLUME | REISER4_BALANCE_VOLUME => false
  | _ => true
  end.

(** Opcodes that the file-level dispatcher does not serve. *)
Definition file_unknown (o : opcode) : bool :=
  match o with
  | REISER4_MIGRATE_FILE | REISER4_SET_FILE_IMMOBILE
  | REISER4_CLR_FILE_IMMOBILE => false
  | _ => true
  end.

End VolumeOps.

(** ** The handlers of the volume operations and the ioctl entry *)

Module VolumeHandlers.

Import VolumeOps.

Definition EPERM : Z := 1.
Definition EFAULT : Z := 14.

(** What the handlers read of a brick: its name and its data capacity. *)
Record reiser4_subvol : Type := mk_subvol {
  sv_name : list Z;
  data_capacity : Z
}.

Section Handlers.

(** Modelled from the spec: the volume persists a balanced/unbalanced
    flag, read by [reiser4_volume_is_unbalanced] and cleared by
    [reiser4_volume_clear_unbalanced], both declared outside these
    sources.  The slots of the current configuration hold the bricks
    ([conf_mslot_at] is null on an empty slot, [conf_origin] is the brick
    of a slot); [world] is everything else: the tree, the journal and the
    state of the volume plugin. *)
Variable world : Type.

Record volume : Type := mk_volume {
  unbalanced : bool;
  mslots : list (option reiser4_subvol);
  rest_of_volume : world
}.

(** The arguments of an operation, whose layout is declared outside these
    sources, with the fields that the handlers read. *)
Variable op_args : Type.
Variable d_name : op_args -> list Z.
Variable new_capacity : op_args -> Z.
Variable s_val : op_args -> Z.
Variable s_brick_idx : op_args -> Z.

Definition sb_t : Type := super_block volume.
Definition args_t : Type := reiser4_vol_op_args op_args.

(** The methods of the volume plugin and the transaction primitives, each
    with its [int] result and the state it leaves. *)
Variable plug_print_volume : args_t -> sb_t -> Z * sb_t.
Variable plug_print_brick : args_t -> sb_t -> Z * sb_t.
(** [->resize_brick(vol, this, new_capacity - data_capacity)]: the
    difference is formed in the type of these fields; the method is given
    both operands. *)
Variable plug_resize_brick : reiser4_subvol -> Z -> Z -> sb_t -> Z * sb_t.
Variable plug_scale_volume : Z -> sb_t -> Z * sb_t.
Variable plug_balance_volume : sb_t -> Z * sb_t.
Variable plug_migrate_file : Z -> sb_t -> Z * sb_t.
(** [capture_brick_super(get_meta_subvol())] *)
Variable capture_meta_super : sb_t -> Z * sb_t.
(** [get_current_atom_locked(); spin_lock_txnh(th); force_commit_atom(th)] *)
Variable force_commit_atom : sb_t -> Z * sb_t.
Variable release_volinfo_nodes : sb_t -> sb_t.
(** [(file->f_flags & O_SYNC) || IS_SYNC(inode)] *)
Variable file_is_sync : bool.
(** [reiser4_txn_restart_current(); grab_space_enable();
    reiser4_sync_file_common(file, 0, LONG_MAX, 0)] *)
Variable sync_file : sb_t -> Z * sb_t.
(** The handlers that are not modelled here. *)
Variable reiser4_add_brick : bool -> args_t -> sb_t -> Z * sb_t.
Variable reiser4_remove_brick : args_t -> sb_t -> Z * sb_t.
Variable reiser4_balance_volume : args_t -> sb_t -> Z * sb_t.
Variable reiser4_set_file_immobile : args_t -> sb_t -> Z * sb_t.
Variable reiser4_clr_file_immobile : args_t -> sb_t -> Z * sb_t.

Definition reiser4_volume_is_unbalanced (sb : sb_t) : bool :=
  unbalanced (vol volume sb).

Definition reiser4_volume_clear_unbalanced (sb : sb_t) : sb_t :=
  mk_sb volume (busy volume sb)
        (mk_volume false (mslots (vol volume sb))
                   (rest_of_volume (vol volume sb))).

Definition reiser4_print_volume (args : args_t) (sb : sb_t) : Z * sb_t :=
  plug_print_volume args sb.

Definition reiser4_print_brick (args : args_t) (sb : sb_t) : Z * sb_t :=
  if reiser4_volume_is_unbalanced sb then (- EBUSY, sb)
  else plug_print_brick args sb.

(** find activated brick by [name] *)
Fixpoint find_active_brick (slots : list (option reiser4_subvol))
    (name : list Z) : option reiser4_subvol :=
  match slots with
  | [] => None
  | None :: slots' => find_active_brick slots' name
  | Some b :: slots' =>
      if list_eq_dec Z.eq_dec (sv_name b) name then Some b
      else find_active_brick slots' name
  end.

Definition reiser4_resize_brick (args : args_t) (sb : sb_t) : Z * sb_t :=
  if reiser4_volume_is_unbalanced sb then (- EBUSY, sb)
  else if new_capacity (rest op_args args) =? 0 then (- EINVAL, sb)
  else
    match find_active_brick (mslots (vol volume sb))
                            (d_name (rest op_args args)) with
    | None => (- EINVAL, sb)
    | Some this =>
        if new_capacity (rest op_args args) =? data_capacity this then
          (* nothing to do *)
          (0, sb)
        else
          let '(ret, sb1) :=
            plug_resize_brick this (new_capacity (rest op_args args))
                              (data_capacity this) sb in
          if negb (ret =? 0) then (ret, sb1)
          else capture_meta_super (reiser4_volume_clear_unbalanced sb1)
    end.

Definition reiser4_scale_volume (args : args_t) (sb : sb_t) : Z * sb_t :=
  if reiser4_volume_is_unbalanced sb then (- EBUSY, sb)
  else if s_val (rest op_args args) =? 0 then (0, sb)
  else
    let '(ret, sb1) := plug_scale_volume (s_val (rest op_args args)) sb in
    if negb (ret =? 0) then (ret, sb1)
    else
      let '(ret, sb2) := capture_meta_super sb1 in
      if negb (ret =? 0) then (ret, sb2)
      else
        (* write unbalanced status to disk *)
        let '(ret, sb3) := force_commit_atom sb2 in
        if negb (ret =? 0) then (ret, sb3)
        else
          let '(ret, sb4) :=
            plug_balance_volume (release_volinfo_nodes sb3) in
          if negb (ret =? 0) then (ret, sb4)
          else capture_meta_super (reiser4_volume_clear_unbalanced sb4).

Definition reiser4_migrate_file (args : args_t) (sb : sb_t) : Z * sb_t :=
  if reiser4_volume_is_unbalanced sb then (- EBUSY, sb)
  else
    let '(ret, sb1) := plug_migrate_file (s_brick_idx (rest op_args args)) sb in
    if (ret =? 0) && file_is_sync then sync_file sb1
    else (ret, sb1).

(** The two on-line dispatchers with these handlers in place. *)
Definition volume_op_dir : args_t -> sb_t -> Z * sb_t :=
  reiser4_volume_op_dir volume op_args
    reiser4_print_volume reiser4_print_brick reiser4_resize_brick
    reiser4_add_brick reiser4_remove_brick reiser4_scale_volume
    reiser4_balance_volume.

Definition volume_op_file : args_t -> sb_t -> Z * sb_t :=
  reiser4_volume_op_file volume op_args
    reiser4_migrate_file reiser4_set_file_immobile
    reiser4_clr_file_immobile.

End Handlers.

(** A volume of two bricks, of capacities 100 and 200, with an empty slot
    between them; the arguments of an operation are a name, a capacity, a
    scale and a brick index, and every method of the plugin succeeds
    without doing anything. *)
Definition example_args : args_t (list Z * Z * Z * Z) :=
  mk_args _ REISER4_RESIZE_BRICK ([98], 300, 0, 0).

Definition example_sb (unb : bool) : sb_t unit :=
  mk_sb _ false
        (mk_volume unit unb
           [Some (mk_subvol [97] 100); None; Some (mk_subvol [98] 200)] tt).

Definition example_name (a : list Z * Z * Z * Z) : list Z :=
  fst (fst (fst a)).
Definition example_capacity (a : list Z * Z * Z * Z) : Z :=
  snd (fst (fst a)).
Definition example_val (a : list Z * Z * Z * Z) : Z := snd (fst a).
Definition example_idx (a : list Z * Z * Z * Z) : Z := snd a.

Definition example_ok {A : Type} (s : A) : Z * A := (0, s).

Section Ioctl.

(** [reiser4_init_context] and [reiser4_exit_context], [memdup_user] and
    [kfree] are declared outside these sources.  Of what they do, the
    number of reiser4 contexts that are open and the number of argument
    buffers that are allocated are kept; [fstate] is everything that the
    volume operation acts upon, user memory included. *)
Variable fstate : Type.
Variable op_args : Type.

Record kstate : Type := mk_kstate {
  contexts : Z;
  buffers : Z;
  fs : fstate
}.

Inductive ioctl_cmd : Type :=
| REISER4_IOC_VOLUME
| OTHER_IOC (cmd : Z).

(** [Some e] when [reiser4_init_context] returns the error pointer [e] *)
Variable init_context_error : fstate -> option Z.
(** [capable(CAP_SYS_ADMIN)] *)
Variable capable_sys_admin : bool.
(** [memdup_user(arg, sizeof( *op_args))]: an error or the copy *)
Variable memdup_user : Z -> fstate -> Z + op_args.
(** [copy_to_user(arg, op_args, sizeof( *op_args))]: the number of bytes
    that could not be copied *)
Variable copy_to_user : Z -> op_args -> fstate -> Z * fstate.

Definition reiser4_exit_context (s : kstate) : kstate :=
  mk_kstate (contexts s - 1) (buffers s) (fs s).

Definition kfree (s : kstate) : kstate :=
  mk_kstate (contexts s) (buffers s - 1) (fs s).

Definition reiser4_ioctl_volume (cmd : ioctl_cmd) (arg : Z)
    (volume_op : op_args -> fstate -> Z * op_args * fstate)
    (s : kstate) : Z * kstate :=
  match init_context_error (fs s) with
  | Some e => (e, s)
  | None =>
      let s := mk_kstate (contexts s + 1) (buffers s) (fs s) in
      match cmd with
      | REISER4_IOC_VOLUME =>
          if negb capable_sys_admin then (- EPERM, s)
          else
            match memdup_user arg (fs s) with
            | inl e => (e, s)
            | inr a =>
                let s := mk_kstate (contexts s) (buffers s + 1) (fs s) in
                let '(ret, a', f') := volume_op a (fs s) in
                let s := mk_kstate (contexts s) (buffers s) f' in
                if negb (ret =? 0) then
                  (ret, reiser4_exit_context (kfree s))
                else
                  let '(n, f'') := copy_to_user arg a' (fs s) in
                  let s := mk_kstate (contexts s) (buffers s) f'' in
                  let ret := if negb (n =? 0) then - EFAULT else ret in
                  (ret, reiser4_exit_context (kfree s))
            end
      | OTHER_IOC _ => (- ENOTTY, reiser4_exit_context s)
      end
  end.

End Ioctl.

(** A caller without CAP_SYS_ADMIN, before and after the call. *)
Definition example_kstate : kstate unit := mk_kstate unit 0 0 tt.
Definition example_kstate' : kstate unit := mk_kstate unit 1 0 tt.

End VolumeHandlers.

(** * Properties *)

(** ** Generic facts: the result monad, arrays and loops *)

Lemma bind_Ok_inv {A B : Type} (c : res A) (k : A -> res B) (b : B) :
  bind c k = Ok b -> exists a, c = Ok a /\ k a = Ok b.
Proof. destruct c; simpl; intros H; try discriminate. eauto. Qed.

Ltac bind_inv H :=
  let a := fresh "x" in
  let Ha := fresh "E" in
  apply bind_Ok_inv in H; destruct H as (a & Ha & H).

Lemma length_upd {A : Type} (n : nat) (v : A) (l : list A) :
  length (upd n v l) = length l.
Proof.
  revert n; induction l as [|h t IH]; intros [|n]; simpl; auto.
Qed.

Lemma nth_upd_eq {A : Type} (n : nat) (v : A) (l : list A) (d : A) :
  (n < length l)%nat -> nth n (upd n v l) d = v.
Proof.
  revert n; induction l as [|h t IH]; intros [|n]; simpl; intros H;
    try lia; auto.
  apply IH; lia.
Qed.

Lemma nth_upd_neq {A : Type} (n m : nat) (v : A) (l : list A) (d : A) :
  n <> m -> nth m (upd n v l) d = nth m l d.
Proof.
  revert n m; induction l as [|h t IH]; intros [|n] [|m]; simpl; intros H;
    auto; try congruence.
Qed.

Lemma upd_same {A : Type} (n : nat) (l : list A) (d : A) :
  upd n (nth n l d) l = l.
Proof.
  revert n; induction l as [|h t IH]; intros [|n]; simpl; auto.
  now rewrite IH.
Qed.

Lemma in_range_iff (a : list Z) (i : Z) :
  in_range a i = true <-> 0 <= i < Z.of_nat (length a).
Proof. unfold in_range. rewrite andb_true_iff, Z.leb_le, Z.ltb_lt. tauto. Qed.

Lemma aget_Ok (a : list Z) (i : Z) :
  0 <= i < Z.of_nat (length a) -> aget a i = Ok (nth (Z.to_nat i) a 0).
Proof. intros H. unfold aget. apply in_range_iff in H. now rewrite H. Qed.

Lemma aget_Ok_inv (a : list Z) (i x : Z) :
  aget a i = Ok x -> 0 <= i < Z.of_nat (length a) /\ x = nth (Z.to_nat i) a 0.
Proof.
  unfold aget. destruct (in_range a i) eqn:E; intros H; inversion H.
  apply in_range_iff in E. auto.
Qed.

Lemma aset_Ok (a : list Z) (i v : Z) :
  0 <= i < Z.of_nat (length a) -> aset a i v = Ok (upd (Z.to_nat i) v a).
Proof. intros H. unfold aset. apply in_range_iff in H. now rewrite H. Qed.

Lemma aset_Ok_inv (a : list Z) (i v : Z) (a' : list Z) :
  aset a i v = Ok a' ->
  0 <= i < Z.of_nat (length a) /\ a' = upd (Z.to_nat i) v a.
Proof.
  unfold aset. destruct (in_range a i) eqn:E; intros H; inversion H.
  apply in_range_iff in E. auto.
Qed.

Lemma for_loop_snoc {S : Type} (n : nat) (i : Z) (body : Z -> S -> res S) (s : S) :
  for_loop (Datatypes.S n) i body s =
  bind (for_loop n i body s) (body (i + Z.of_nat n)).
Proof.
  revert i s; induction n as [|n IH]; intros i s.
  - simpl. rewrite Z.add_0_r. destruct (body i s); reflexivity.
  - change (for_loop (Datatypes.S (Datatypes.S n)) i body s)
      with (bind (body i s) (for_loop (Datatypes.S n) (i + 1) body)).
    change (for_loop (Datatypes.S n) i body s)
      with (bind (body i s) (for_loop n (i + 1) body)).
    destruct (body i s) as [s'| |]; [|reflexivity|reflexivity].
    cbn [bind]. rewrite IH. do 2 f_equal. lia.
Qed.

(** A loop invariant rule: if [P] holds initially and every successful
    iteration preserves it, it holds after a successful loop. *)
Lemma for_loop_inv {S : Type} (P : Z -> S -> Prop) (body : Z -> S -> res S) :
  forall (n : nat) (i : Z) (s s' : S),
    P i s ->
    (forall j t t', i <= j < i + Z.of_nat n -> P j t -> body j t = Ok t' ->
                    P (j + 1) t') ->
    for_loop n i body s = Ok s' ->
    P (i + Z.of_nat n) s'.
Proof.
  induction n as [|n IH]; intros i s s' HP Hstep H.
  - simpl in H. inversion H; subst. now rewrite Z.add_0_r.
  - simpl in H. bind_inv H.
    replace (i + Z.of_nat (Datatypes.S n)) with (i + 1 + Z.of_nat n) by lia.
    apply IH with (s := x); auto.
    + apply Hstep with (t := s); auto. lia.
    + intros j t t' Hj. apply Hstep. lia.
Qed.

(** A total-correctness rule: if every iteration succeeds from a state
    that satisfies the invariant, the loop succeeds. *)
Lemma for_loop_total {S : Type} (P : Z -> S -> Prop) (body : Z -> S -> res S) :
  forall (n : nat) (i : Z) (s : S),
    P i s ->
    (forall j t, i <= j < i + Z.of_nat n -> P j t ->
                 exists t', body j t = Ok t' /\ P (j + 1) t') ->
    exists s', for_loop n i body s = Ok s' /\ P (i + Z.of_nat n) s'.
Proof.
  induction n as [|n IH]; intros i s HP Hstep.
  - exists s. simpl. rewrite Z.add_0_r. auto.
  - destruct (Hstep i s) as (t' & Hb & HP'); auto; try lia.
    destruct (IH (i + 1) t') as (s' & Hl & HP''); auto.
    + intros j t Hj. apply Hstep. lia.
    + exists s'. split.
      * cbn [for_loop]. rewrite Hb. exact Hl.
      * replace (i + Z.of_nat (Datatypes.S n)) with (i + 1 + Z.of_nat n) by lia.
        exact HP''.
Qed.

Lemma for_total {S : Type} (P : Z -> S -> Prop) (body : Z -> S -> res S)
    (lo hi : Z) (s : S) :
  lo <= hi ->
  P lo s ->
  (forall j t, lo <= j < hi -> P j t ->
               exists t', body j t = Ok t' /\ P (j + 1) t') ->
  exists s', for_ lo hi body s = Ok s' /\ P hi s'.
Proof.
  intros Hle HP Hstep. unfold for_.
  destruct (for_loop_total P body (Z.to_nat (hi - lo)) lo s) as (s' & H1 & H2);
    auto.
  - intros j t Hj. apply Hstep. lia.
  - exists s'. split; auto.
    replace hi with (lo + Z.of_nat (Z.to_nat (hi - lo))) at 1 by lia. exact H2.
Qed.

Lemma for_inv {S : Type} (P : Z -> S -> Prop) (body : Z -> S -> res S)
    (lo hi : Z) (s s' : S) :
  lo <= hi ->
  P lo s ->
  (forall j t t', lo <= j < hi -> P j t -> body j t = Ok t' -> P (j + 1) t') ->
  for_ lo hi body s = Ok s' ->
  P hi s'.
Proof.
  intros Hle HP Hstep H. unfold for_ in H.
  replace hi with (lo + Z.of_nat (Z.to_nat (hi - lo))) by lia.
  eapply for_loop_inv; eauto.
  intros j t t' Hj. apply Hstep. lia.
Qed.


(** ** The volume-operation dispatchers *)

Section DispatchFacts.

Import VolumeOps.

Variable volume : Type.
Variable op_args : Type.
Variables (h_print_volume h_print_brick h_resize_brick : handler volume op_args).
Variable h_add_brick : bool -> handler volume op_args.
Variables (h_remove_brick h_scale_volume h_balance_volume
           h_migrate_file h_set_immobile h_clr_immobile : handler volume op_args).

Local Abbreviation op_dir :=
  (reiser4_volume_op_dir volume op_args h_print_volume h_print_brick
     h_resize_brick h_add_brick h_remove_brick h_scale_volume h_balance_volume).

Local Abbreviation op_file :=
  (reiser4_volume_op_file volume op_args h_migrate_file h_set_immobile
     h_clr_immobile).

(** What a dispatcher does with the handler that serves the opcode, on a
    volume whose flag was free: the handler runs on the volume with the
    flag set, its result is returned, and the flag is cleared in the
    state that the handler leaves. *)
Local Abbreviation served h args sb :=
  (fst (h args (mk_sb volume true (vol volume sb))),
   mk_sb volume false
         (vol volume (snd (h args (mk_sb volume true (vol volume sb)))))).

(** C9.  Both on-line dispatchers begin with the test-and-set of the busy
    flag.  When the flag is already held they return [-EBUSY] at once,
    calling no handler and leaving the volume as it is (the flag stays
    with its holder).  When the flag is free, the handler that serves the
    opcode runs on the volume with the flag set; whatever it returns
    (success or error) is returned, and the flag is clear again in the
    state it leaves.  An opcode that the dispatcher does not serve yields
    [-ENOTTY] and leaves the rest of the volume untouched. *)
Theorem busy_flag_discipline :
  forall (args : reiser4_vol_op_args op_args) (sb : super_block volume),
    (busy volume sb = true ->
       op_dir args sb = (- EBUSY, sb) /\ op_file args sb = (- EBUSY, sb)) /\
    (busy volume sb = false ->
       busy volume (snd (op_dir args sb)) = false /\
       busy volume (snd (op_file args sb)) = false /\
       (dir_unknown (op op_args args) = true ->
          op_dir args sb = (- ENOTTY, sb)) /\
       (file_unknown (op op_args args) = true ->
          op_file args sb = (- ENOTTY, sb)) /\
       (op op_args args = REISER4_PRINT_VOLUME ->
          op_dir args sb = served h_print_volume args sb) /\
       (op op_args args = REISER4_PRINT_BRICK ->
          op_dir args sb = served h_print_brick args sb) /\
       (op op_args args = REISER4_RESIZE_BRICK ->
          op_dir args sb = served h_resize_brick args sb) /\
       (op op_args args = REISER4_ADD_BRICK ->
          op_dir args sb = served (h_add_brick false) args sb) /\
       (op op_args args = REISER4_ADD_PROXY ->
          op_dir args sb = served (h_add_brick true) args sb) /\
       (op op_args args = REISER4_REMOVE_BRICK ->
          op_dir args sb = served h_remove_brick args sb) /\
       (op op_args args = REISER4_SCALE_VOLUME ->
          op_dir args sb = served h_scale_volume args sb) /\
       (op op_args args = REISER4_BALANCE_VOLUME ->
          op_dir args sb = served h_balance_volume args sb) /\
       (op op_args args = REISER4_MIGRATE_FILE ->
          op_file args sb = served h_migrate_file args sb) /\
       (op op_args args = REISER4_SET_FILE_IMMOBILE ->
          op_file args sb = served h_set_immobile args sb) /\
       (op op_args args = REISER4_CLR_FILE_IMMOBILE ->
          op_file args sb = served h_clr_immobile args sb)).
Proof.
  intros args [b v]; simpl; split; intros Hb; subst b.
  - split; reflexivity.
  - unfold reiser4_volume_op_dir, reiser4_volume_op_file,
      reiser4_volume_test_set_busy; cbn [busy vol].
    split; [|split; [|split; [|split]]].
    + destruct (op op_args args); simpl;
        match goal with
        | |- context [let '(_, _) := ?h in _] => destruct h
        | _ => idtac
        end; reflexivity.
    + destruct (op op_args args); simpl;
        match goal with
        | |- context [let '(_, _) := ?h in _] => destruct h
        | _ => idtac
        end; reflexivity.
    + destruct (op op_args args); simpl; intros H; try discriminate;
        reflexivity.
    + destruct (op op_args args); simpl; intros H; try discriminate;
        reflexivity.
    + repeat split; intros ->; simpl;
        match goal with
        | |- context [let '(_, _) := ?h in _] => destruct h
        end; reflexivity.
Qed.

End DispatchFacts.

(** The discipline at a concrete volume whose handlers scribble over the
    flag and fail with [-EINVAL] when they find it set. *)
Lemma busy_flag_discipline_witness :
  let h : VolumeOps.handler unit unit :=
    fun _ sb => (if VolumeOps.busy unit sb then - EINVAL else 0,
                 VolumeOps.mk_sb unit true tt) in
  let args := VolumeOps.mk_args unit VolumeOps.REISER4_ADD_BRICK tt in
  let free := VolumeOps.mk_sb unit false tt in
  let held := VolumeOps.mk_sb unit true tt in
  (VolumeOps.reiser4_volume_op_dir unit unit h h h (fun _ => h) h h h
     args held = (- EBUSY, held)) /\
  VolumeOps.busy unit
    (snd (VolumeOps.reiser4_volume_op_dir unit unit h h h (fun _ => h) h h h
            args free))
    = false /\
  VolumeOps.reiser4_volume_op_dir unit unit h h h (fun _ => h) h h h
    args free = (- EINVAL, free).
Proof.
  intros h args free held. split; [|split].
  - apply (proj1 (busy_flag_discipline unit unit h h h (fun _ => h) h h h h h h
                    args held)). reflexivity.
  - apply (proj2 (busy_flag_discipline unit unit h h h (fun _ => h) h h h h h h
                    args free)). reflexivity.
  - destruct (proj2 (busy_flag_discipline unit unit h h h (fun _ => h)
                       h h h h h h args free) eq_refl)
      as (_ & _ & _ & _ & _ & _ & _ & Hadd & _).
    exact (Hadd eq_refl).
Defined.

(** ** Serialization *)

Lemma aset_length (a : list Z) (i v : Z) (a' : list Z) :
  aset a i v = Ok a' -> length a' = length a.
Proof.
  intros H. apply aset_Ok_inv in H. destruct H as [_ ->]. apply length_upd.
Qed.

Lemma zth_aset_eq (a : list Z) (i v : Z) (a' : list Z) :
  aset a i v = Ok a' -> zth a' i = v.
Proof.
  intros H. apply aset_Ok_inv in H. destruct H as [Hr ->].
  unfold zth. apply nth_upd_eq. lia.
Qed.

Lemma zth_aset_neq (a : list Z) (i j v : Z) (a' : list Z) :
  aset a i v = Ok a' -> 0 <= j -> i <> j -> zth a' j = zth a j.
Proof.
  intros H Hj Hne. apply aset_Ok_inv in H. destruct H as [Hr ->].
  unfold zth. apply nth_upd_neq. lia.
Qed.

Lemma aget_zth (a : list Z) (i : Z) :
  0 <= i < Z.of_nat (length a) -> aget a i = Ok (zth a i).
Proof. apply aget_Ok. Qed.

Lemma le32_bytes (x : Z) :
  0 <= x < 2 ^ 32 ->
  wrap32 (x mod 256 + 256 * ((x / 256) mod 256)
          + 65536 * ((x / 65536) mod 256)
          + 16777216 * ((x / 16777216) mod 256)) = x.
Proof.
  intros Hx. unfold wrap32.
  replace (x / 65536) with (x / 256 / 256)
    by (rewrite Z.div_div by lia; reflexivity).
  replace (x / 16777216) with (x / 256 / 256 / 256)
    by (rewrite !Z.div_div by lia; reflexivity).
  pose proof (Z.div_mod x 256 ltac:(lia)) as H0.
  pose proof (Z.div_mod (x / 256) 256 ltac:(lia)) as H1.
  pose proof (Z.div_mod (x / 256 / 256) 256 ltac:(lia)) as H2.
  pose proof (Z.mod_pos_bound x 256 ltac:(lia)) as B0.
  pose proof (Z.mod_pos_bound (x / 256) 256 ltac:(lia)) as B1.
  pose proof (Z.mod_pos_bound (x / 256 / 256) 256 ltac:(lia)) as B2.
  assert (H3 : 0 <= x / 256 / 256 / 256 < 256).
  { split.
    - repeat apply Z.div_pos; lia.
    - rewrite !Z.div_div by lia. apply Z.div_lt_upper_bound; lia. }
  rewrite (Z.mod_small (x / 256 / 256 / 256) 256) by lia.
  rewrite Z.mod_small; lia.
Qed.

Lemma put_le32_spec (buf : list Z) (off x : Z) :
  0 <= off -> off + 4 <= Z.of_nat (length buf) -> 0 <= x < 2 ^ 32 ->
  exists buf',
    Fsx32.put_le32 buf off x = Ok buf' /\
    length buf' = length buf /\
    Fsx32.get_le32 buf' off = Ok x /\
    (forall k, 0 <= k -> ~ (off <= k < off + 4) -> zth buf' k = zth buf k).
Proof.
  intros Hoff Hlen Hx. unfold Fsx32.put_le32.
  destruct (aset buf off (x mod 256)) as [b0| |] eqn:E0;
    [|rewrite aset_Ok in E0 by lia; discriminate..].
  cbn [bind].
  pose proof (aset_length _ _ _ _ E0) as L0.
  destruct (aset b0 (off + 1) ((x / 256) mod 256)) as [b1| |] eqn:E1;
    [|rewrite aset_Ok in E1 by lia; discriminate..].
  cbn [bind].
  pose proof (aset_length _ _ _ _ E1) as L1.
  destruct (aset b1 (off + 2) ((x / 65536) mod 256)) as [b2| |] eqn:E2;
    [|rewrite aset_Ok in E2 by lia; discriminate..].
  cbn [bind].
  pose proof (aset_length _ _ _ _ E2) as L2.
  destruct (aset b2 (off + 3) ((x / 16777216) mod 256)) as [b3| |] eqn:E3;
    [|rewrite aset_Ok in E3 by lia; discriminate..].
  pose proof (aset_length _ _ _ _ E3) as L3.
  exists b3. cbn [bind]. split; [reflexivity|]. split; [lia|]. split.
  - unfold Fsx32.get_le32. rewrite !aget_zth by lia. cbn [bind].
    rewrite (zth_aset_eq _ _ _ _ E3).
    rewrite (zth_aset_neq _ _ (off + 2) _ _ E3) by lia.
    rewrite (zth_aset_eq _ _ _ _ E2).
    rewrite (zth_aset_neq _ _ (off + 1) _ _ E3) by lia.
    rewrite (zth_aset_neq _ _ (off + 1) _ _ E2) by lia.
    rewrite (zth_aset_eq _ _ _ _ E1).
    rewrite (zth_aset_neq _ _ off _ _ E3) by lia.
    rewrite (zth_aset_neq _ _ off _ _ E2) by lia.
    rewrite (zth_aset_neq _ _ off _ _ E1) by lia.
    rewrite (zth_aset_eq _ _ _ _ E0).
    f_equal. apply le32_bytes; assumption.
  - intros k Hk Hout.
    rewrite (zth_aset_neq _ _ k _ _ E3) by lia.
    rewrite (zth_aset_neq _ _ k _ _ E2) by lia.
    rewrite (zth_aset_neq _ _ k _ _ E1) by lia.
    rewrite (zth_aset_neq _ _ k _ _ E0) by lia.
    reflexivity.
Qed.

Lemma get_le32_ext (b1 b2 : list Z) (off : Z) :
  length b1 = length b2 -> 0 <= off ->
  (forall k, off <= k < off + 4 -> zth b1 k = zth b2 k) ->
  Fsx32.get_le32 b1 off = Fsx32.get_le32 b2 off.
Proof.
  intros Hl Hoff H. unfold Fsx32.get_le32, aget, in_range. rewrite Hl.
  fold (zth b1 off) (zth b1 (off + 1)) (zth b1 (off + 2)) (zth b1 (off + 3)).
  fold (zth b2 off) (zth b2 (off + 1)) (zth b2 (off + 2)) (zth b2 (off + 3)).
  rewrite !H by lia. reflexivity.
Qed.

Lemma pack_spec (t to : list Z) (src_off count : Z) :
  (forall x, In x t -> 0 <= x < 2 ^ 32) ->
  0 <= src_off -> 0 <= count ->
  src_off + count <= Z.of_nat (length t) ->
  4 * count <= Z.of_nat (length to) ->
  exists buf,
    Fsx32.pack_fsx32 (Fsx32.mk_dcx 0 0 None (Some t)) to src_off count = Ok buf /\
    length buf = length to /\
    forall j, 0 <= j < count ->
              Fsx32.get_le32 buf (4 * j) = Ok (zth t (src_off + j)).
Proof.
  intros Hr Hs Hc Ht Hto. unfold Fsx32.pack_fsx32. cbn [Fsx32.tab Fsx32.deref bind].
  destruct (for_total
              (fun i buf => length buf = length to /\
                 forall j, 0 <= j < i ->
                   Fsx32.get_le32 buf (4 * j) = Ok (zth t (src_off + j)))
              (fun i buf => x <- aget t (src_off + i) ;; Fsx32.put_le32 buf (4 * i) x)
              0 count to) as (buf & Hb & Hl & Hg); auto.
  - split; auto. intros j Hj. lia.
  - intros j b Hj [Hlb Hgb].
    rewrite aget_zth by lia. cbn [bind].
    destruct (put_le32_spec b (4 * j) (zth t (src_off + j))) as (b' & E & L & G & U);
      try lia.
    { apply Hr. unfold zth. apply nth_In. lia. }
    exists b'. split; auto. split; [lia|].
    intros j' Hj'. destruct (Z.eq_dec j' j) as [->|Hne]; auto.
    rewrite <- Hgb by lia. apply get_le32_ext; try lia.
    intros k Hk. apply U; lia.
  - exists buf. auto.
Qed.

Lemma unpack_spec (t tab' from : list Z) (src_off dst_off count : Z) :
  0 <= dst_off -> 0 <= count ->
  dst_off + count <= Z.of_nat (length tab') ->
  (forall j, 0 <= j < count ->
             Fsx32.get_le32 from (4 * j) = Ok (zth t (src_off + j))) ->
  exists t'',
    Fsx32.unpack_fsx32 tab' from dst_off count = Ok t'' /\
    length t'' = length tab' /\
    (forall j, 0 <= j < count -> zth t'' (dst_off + j) = zth t (src_off + j)) /\
    (forall k, 0 <= k -> ~ (dst_off <= k < dst_off + count) ->
               zth t'' k = zth tab' k).
Proof.
  intros Hd Hc Hlen Hg. unfold Fsx32.unpack_fsx32.
  destruct (for_total
              (fun i u => length u = length tab' /\
                 (forall j, 0 <= j < i ->
                    zth u (dst_off + j) = zth t (src_off + j)) /\
                 (forall k, 0 <= k -> ~ (dst_off <= k < dst_off + i) ->
                    zth u k = zth tab' k))
              (fun i u => x <- Fsx32.get_le32 from (4 * i) ;; aset u (dst_off + i) x)
              0 count tab') as (u & Hu & HP); auto.
  - repeat split; auto. intros j Hj. lia.
  - intros j u Hj (Hl & Hin & Hout).
    rewrite Hg by lia. cbn [bind].
    destruct (aset u (dst_off + j) (zth t (src_off + j))) as [u'| |] eqn:E;
      [|rewrite aset_Ok in E by lia; discriminate..].
    exists u'. split; auto. split; [|split].
    + rewrite (aset_length _ _ _ _ E). assumption.
    + intros j' Hj'. destruct (Z.eq_dec j' j) as [->|Hne].
      * apply (zth_aset_eq _ _ _ _ E).
      * rewrite (zth_aset_neq _ _ (dst_off + j') _ _ E) by lia. apply Hin. lia.
    + intros k Hk Hnot.
      rewrite (zth_aset_neq _ _ k _ _ E) by lia. apply Hout; lia.
  - exists u. tauto.
Qed.

Lemma zth_ext (a b : list Z) :
  length a = length b ->
  (forall k, 0 <= k < Z.of_nat (length a) -> zth a k = zth b k) -> a = b.
Proof.
  intros Hl H. apply nth_ext with (d := 0) (d' := 0); auto.
  intros n Hn. specialize (H (Z.of_nat n)). unfold zth in H.
  rewrite Nat2Z.id in H. apply H. lia.
Qed.

(** C7.  [unpack] inverts [pack].  Packing the [count] entries of the
    context's table from [src_off] on into a buffer of at least
    [4 * count] bytes succeeds; unpacking that buffer at [dst_off] into
    any table that has room for them succeeds and leaves there exactly
    the packed entries, every other entry of that table being untouched.
    In particular unpacking into the table at the offset that was packed
    gives the table back. *)
Theorem unpack_pack_roundtrip :
  forall (dcx : Fsx32.fsx32_dcx) (t to tab' : list Z)
         (src_off dst_off count : Z),
    Fsx32.tab dcx = Some t ->
    (forall x, In x t -> 0 <= x < 2 ^ 32) ->
    0 <= src_off -> 0 <= count ->
    src_off + count <= Z.of_nat (length t) ->
    4 * count <= Z.of_nat (length to) ->
    0 <= dst_off ->
    dst_off + count <= Z.of_nat (length tab') ->
    exists buf t'',
      Fsx32.pack_fsx32 dcx to src_off count = Ok buf /\
      Fsx32.unpack_fsx32 tab' buf dst_off count = Ok t'' /\
      length t'' = length tab' /\
      (forall j, 0 <= j < count ->
                 zth t'' (dst_off + j) = zth t (src_off + j)) /\
      (forall k, 0 <= k -> ~ (dst_off <= k < dst_off + count) ->
                 zth t'' k = zth tab' k) /\
      Fsx32.unpack_fsx32 t buf src_off count = Ok t.
Proof.
  intros dcx t to tab' src_off dst_off count Ht Hr Hs Hc Hl Hto Hd Hl'.
  destruct (pack_spec t to src_off count) as (buf & Hp & Hlb & Hg); auto.
  assert (Hp' : Fsx32.pack_fsx32 dcx to src_off count = Ok buf).
  { unfold Fsx32.pack_fsx32 in *. rewrite Ht. exact Hp. }
  destruct (unpack_spec t tab' buf src_off dst_off count)
    as (t'' & Hu & Hlt & Hin & Hout); auto.
  exists buf, t''. repeat split; auto.
  destruct (unpack_spec t t buf src_off src_off count)
    as (u & Hu' & Hlu & Hin' & Hout'); auto.
  rewrite Hu'. f_equal. apply zth_ext; auto.
  intros k Hk. rewrite Hlu in Hk.
  destruct (Z_le_dec src_off k) as [H1|H1];
    [destruct (Z_lt_dec k (src_off + count)) as [H2|H2]|].
  - replace k with (src_off + (k - src_off)) by lia. apply Hin'. lia.
  - apply Hout'; lia.
  - apply Hout'; lia.
Qed.

(** The round trip on a four-entry table, two entries from offset 1. *)
Lemma unpack_pack_roundtrip_witness :
  exists buf t'',
    Fsx32.pack_fsx32 (Fsx32.mk_dcx 2 2 None (Some [7; 4294967295; 258; 0]))
                     (repeat 0 8) 1 2 = Ok buf /\
    Fsx32.unpack_fsx32 [9; 9; 9; 9] buf 2 2 = Ok t'' /\
    length t'' = 4%nat /\
    (forall j, 0 <= j < 2 ->
               zth t'' (2 + j) = zth [7; 4294967295; 258; 0] (1 + j)) /\
    (forall k, 0 <= k -> ~ (2 <= k < 2 + 2) -> zth t'' k = zth [9; 9; 9; 9] k) /\
    Fsx32.unpack_fsx32 [7; 4294967295; 258; 0] buf 1 2
      = Ok [7; 4294967295; 258; 0].
Proof.
  apply (unpack_pack_roundtrip
           (Fsx32.mk_dcx 2 2 None (Some [7; 4294967295; 258; 0]))
           [7; 4294967295; 258; 0] (repeat 0 8) [9; 9; 9; 9] 1 2 2).
  - reflexivity.
  - simpl. intros x [<-|[<-|[<-|[<-|[]]]]]; lia.
  - lia.
  - lia.
  - simpl. lia.
  - simpl. lia.
  - lia.
  - simpl. lia.
Defined.

(** ** Extent migration *)

Section MigrateFacts.

Import Migrate.

Variable tree : Type.
Variable PAGE_SHIFT : Z.
Variable nosplit_migration_mode : bool.
Variable current_stripe_size : Z.
Variable calc_data_subvol : Z -> Z.
Variable reiser4_extent_size : tree -> coord_t -> Z.
Variable lookup_extent : tree -> Z -> coord_t -> coord_t.
Variable unit_key_offset : tree -> coord_t -> Z.
Variable zload : tree -> coord_t -> Z.
Variable try_merge_with_right_item : coord_t -> tree -> tree.
Variable do_split_extent :
  extent_migrate_context -> tree -> Z * extent_migrate_context * tree.
Variable do_migrate_extent :
  extent_migrate_context -> tree -> Z * extent_migrate_context * tree.

Let S := current_stripe_size.

Lemma normalize_stripe (b x : Z) :
  0 <= b -> S = 2 ^ b -> x - Z.land x (S - 1) = S * (x / S).
Proof.
  intros Hb HS. rewrite HS.
  replace (2 ^ b - 1) with (Z.ones b) by (rewrite Z.ones_equiv; lia).
  rewrite Z.land_ones by assumption.
  pose proof (Z.div_mod x (2 ^ b)) as H.
  assert (0 < 2 ^ b) by (apply Z.pow_pos_nonneg; lia). lia.
Qed.

Lemma find_split_off_none (loc : Z) :
  0 < S ->
  forall (n : nat) (fuel : nat) (q1 q2 : Z),
    q2 - q1 <= Z.of_nat n -> (n < fuel)%nat ->
    (forall q, q1 <= q < q2 -> calc_data_subvol (S * q) = loc) ->
    find_split_off current_stripe_size calc_data_subvol fuel
                   (S * q1) (S * q2) loc = Some None.
Proof.
  intros HS. induction n as [|n IH]; intros fuel q1 q2 Hq Hf Hall.
  - destruct fuel as [|fuel]; [lia|]. simpl.
    destruct (S * q1 <? S * q2) eqn:E; auto.
    apply Z.ltb_lt in E. nia.
  - destruct fuel as [|fuel]; [lia|]. simpl.
    destruct (S * q1 <? S * q2) eqn:E; auto.
    apply Z.ltb_lt in E. assert (q1 < q2) by nia.
    fold S. replace (S * q2 - S) with (S * (q2 - 1)) by lia.
    rewrite Hall by lia. rewrite Z.eqb_refl. simpl.
    apply IH; try lia. intros q Hq'. apply Hall. lia.
Qed.

(** The decision on an item all of whose stripes are on the brick named
    by its key. *)
Lemma what_to_do_skip (b : Z) (wfuel : nat) (tr : tree)
    (mctx : extent_migrate_context) (dst_id : option Z) :
  let k := key mctx in
  let size := reiser4_extent_size tr (coord mctx) in
  0 <= b -> S = 2 ^ b ->
  1 <= size -> (Z.to_nat size < wfuel)%nat ->
  0 <= key_ordering k < 2 ^ 32 ->
  dst_id = None \/ dst_id = Some (key_ordering k) ->
  (forall o, key_offset k - Z.land (key_offset k) (S - 1) <= o
             <= key_offset k + size - 1 ->
             calc_data_subvol o = key_ordering k) ->
  what_to_do tree PAGE_SHIFT nosplit_migration_mode current_stripe_size
             calc_data_subvol reiser4_extent_size lookup_extent
             unit_key_offset wfuel tr mctx dst_id
  = Some (mk_mctx SKIP_EXTENT 0 (set_unit_pos (coord mctx) 0) k
                  (key_ordering k) (key_offset k) (done_off mctx) 0 0
                  false true).
Proof.
  intros k size Hb HS Hsize Hfuel Hord Hdst Hall.
  assert (HSpos : 0 < S) by (rewrite HS; apply Z.pow_pos_nonneg; lia).
  assert (Hland : 0 <= Z.land (key_offset k) (S - 1)).
  { apply Z.land_nonneg. right. lia. }
  unfold what_to_do. destruct nosplit_migration_mode.
  - (* whole-item mode *)
    unfold what_to_do_nosplit. cbn [reset_migration_context key coord].
    fold k.
    assert (Hloc : wrap32 (match dst_id with
                           | Some d => d
                           | None => calc_data_subvol (key_offset k)
                           end) = key_ordering k).
    { unfold wrap32. destruct Hdst as [-> | ->].
      - rewrite Hall by lia. apply Z.mod_small; assumption.
      - apply Z.mod_small; assumption. }
    rewrite Hloc, Z.eqb_refl. reflexivity.
  - cbn [reset_migration_context key coord]. fold k size S.
    rewrite !(normalize_stripe b) by assumption.
    rewrite (normalize_stripe b) in Hall by assumption.
    set (q1 := key_offset k / S). set (q2 := (key_offset k + size - 1) / S).
    assert (Hq : q1 <= q2).
    { apply Z.div_le_mono; lia. }
    assert (Hq2 : S * q2 <= key_offset k + size - 1).
    { apply Z.mul_div_le; lia. }
    assert (Hq1 : key_offset k < S * q1 + S).
    { pose proof (Z.div_mod (key_offset k) S).
      pose proof (Z.mod_pos_bound (key_offset k) S HSpos).
      fold q1 in H. lia. }
    fold q1 in Hall.
    assert (Hloc : wrap32 (match dst_id with
                           | Some d => d
                           | None => calc_data_subvol (S * q2)
                           end) = key_ordering k).
    { unfold wrap32. destruct Hdst as [-> | ->].
      - rewrite Hall by nia. apply Z.mod_small; assumption.
      - apply Z.mod_small; assumption. }
    rewrite Hloc.
    rewrite (find_split_off_none (key_ordering k) HSpos (Z.to_nat size)).
    + rewrite Z.eqb_refl. reflexivity.
    + assert (S * (q2 - q1) < size + S) by lia.
      assert (q2 - q1 <= size); [|lia]. nia.
    + assumption.
    + intros q Hq'. apply Hall. nia.
Qed.

(** C8, as the code has it.  On an item every stripe of which maps to
    the brick of its key, with a destination that (if given) is that same
    brick, a call of [reiser4_migrate_extent] returns whenever the loop
    is given at least one iteration and the stripe walk more steps than
    the item has bytes.  It chooses SKIP_EXTENT, stops the item, and
    migrates no block; neither the split nor the migrate primitive is
    run.  If the load of the item's node succeeds, the call returns 0,
    sets [done_off] to the item's offset and the only thing done to the
    tree is the attempt to merge with the right neighbour.  If that load
    fails, the call returns the load's error and leaves both [done_off]
    and the tree as they were. *)
Theorem migrate_extent_skip :
  forall (b : Z) (fuel wfuel : nat) (c : coord_t) (k : reiser4_key)
         (done_off0 : Z) (dst_id : option Z) (tr : tree),
    let size := reiser4_extent_size tr c in
    let c0 := set_unit_pos c 0 in
    0 <= b -> current_stripe_size = 2 ^ b ->
    (0 < fuel)%nat ->
    1 <= size -> (Z.to_nat size < wfuel)%nat ->
    0 <= key_ordering k < 2 ^ 32 ->
    dst_id = None \/ dst_id = Some (key_ordering k) ->
    (forall o, key_offset k - Z.land (key_offset k) (current_stripe_size - 1)
               <= o <= key_offset k + size - 1 ->
               calc_data_subvol o = key_ordering k) ->
    exists r,
      reiser4_migrate_extent tree PAGE_SHIFT nosplit_migration_mode
        current_stripe_size calc_data_subvol reiser4_extent_size
        lookup_extent unit_key_offset zload try_merge_with_right_item
        do_split_extent do_migrate_extent fuel wfuel c k done_off0 dst_id tr
      = Some r /\
      act (last_mctx tree r) = SKIP_EXTENT /\
      stop (last_mctx tree r) = true /\
      stop_off (last_mctx tree r) = key_offset k /\
      key (last_mctx tree r) = k /\
      blocks_migrated (last_mctx tree r) = 0 /\
      total_blocks_migrated tree r = 0 /\
      (zload tr c0 = 0 ->
         ret tree r = 0 /\ out_done_off tree r = key_offset k /\
         out_tree tree r = try_merge_with_right_item c0 tr) /\
      (zload tr c0 <> 0 ->
         ret tree r = zload tr c0 /\ out_done_off tree r = done_off0 /\
         out_tree tree r = tr).
Proof.
  intros b fuel wfuel c k done_off0 dst_id tr size c0
         Hb HS Hfuel Hsize Hw Hord Hdst Hall.
  destruct fuel as [|fuel]; [lia|].
  unfold reiser4_migrate_extent. cbn [migrate_loop init_migration_context stop].
  rewrite (what_to_do_skip b); auto.
  cbn [act coord key init_migration_context key_offset key_ordering
       done_off stop_off].
  fold c0.
  destruct (zload tr c0 =? 0) eqn:E; cbn [negb].
  - apply Z.eqb_eq in E. eexists. split; [reflexivity|].
    cbn. repeat split; auto; try contradiction; try congruence.
  - apply Z.eqb_neq in E. eexists. split; [reflexivity|].
    cbn. repeat split; auto; try contradiction; try congruence.
Qed.

End MigrateFacts.

(** The skip on an item of four pages at offset 8192 whose bytes all
    live on brick 3, stripes of 4096 bytes, destination given. *)
Lemma migrate_extent_skip_witness :
  exists r,
    Migrate.reiser4_migrate_extent unit 12 false 4096 (fun _ => 3)
      (fun _ _ => 16384) (fun _ _ c => c) (fun _ _ => 8192) (fun _ _ => 0)
      (fun _ t => t) (fun m t => (0, m, t)) (fun m t => (0, m, t))
      1 (Z.to_nat 16385) (Migrate.mk_coord 1 0 2) (Migrate.mk_key 3 8192) 77 (Some 3) tt
    = Some r /\
    Migrate.act (Migrate.last_mctx unit r) = Migrate.SKIP_EXTENT /\
    Migrate.total_blocks_migrated unit r = 0 /\
    Migrate.ret unit r = 0 /\
    Migrate.out_done_off unit r = 8192.
Proof.
  destruct (migrate_extent_skip unit 12 false 4096 (fun _ => 3)
              (fun _ _ => 16384) (fun _ _ c => c) (fun _ _ => 8192)
              (fun _ _ => 0) (fun _ t => t) (fun m t => (0, m, t))
              (fun m t => (0, m, t))
              12 1%nat (Z.to_nat 16385) (Migrate.mk_coord 1 0 2)
              (Migrate.mk_key 3 8192) 77 (Some 3) tt)
    as (r & Hr & Ha & _ & _ & _ & _ & Ht & Hok & _).
  - lia.
  - reflexivity.
  - lia.
  - simpl. lia.
  - simpl. lia.
  - simpl. lia.
  - right. reflexivity.
  - intros o _. reflexivity.
  - exists r. destruct (Hok eq_refl) as (H1 & H2 & _). auto.
Defined.

(** C8 as stated fails when the node cannot be loaded: SKIP_EXTENT is
    chosen and nothing is migrated, but the call returns the error (here
    -5) before [done_off] is written, so that it still holds the
    caller's 77 and not the item's offset 8192. *)
Lemma migrate_extent_skip_done_off_unset :
  exists r,
    Migrate.reiser4_migrate_extent unit 12 false 4096 (fun _ => 3)
      (fun _ _ => 16384) (fun _ _ c => c) (fun _ _ => 8192) (fun _ _ => -5)
      (fun _ t => t) (fun m t => (0, m, t)) (fun m t => (0, m, t))
      1 (Z.to_nat 16385) (Migrate.mk_coord 1 0 2) (Migrate.mk_key 3 8192) 77 (Some 3) tt
    = Some r /\
    Migrate.act (Migrate.last_mctx unit r) = Migrate.SKIP_EXTENT /\
    Migrate.stop_off (Migrate.last_mctx unit r) = 8192 /\
    Migrate.ret unit r = -5 /\
    Migrate.out_done_off unit r = 77 /\
    Migrate.out_done_off unit r <> Migrate.stop_off (Migrate.last_mctx unit r).
Proof.
  eexists. split; [vm_compute; reflexivity|].
  cbn. repeat split; auto. discriminate.
Qed.

(** ** The calibrator *)

Import Fsx32.

(** Allocation: only a request of zero words fails. *)
Lemma alloc32_Ok (len : Z) : len <> 0 -> alloc32 len = Ok (zeros len).
Proof.
  intros H. unfold alloc32, fsx32_alloc.
  destruct (Z.eqb_spec len 0); [contradiction|reflexivity].
Qed.

Lemma alloc32_Ok_inv (len : Z) (a : list Z) :
  alloc32 len = Ok a -> len <> 0 /\ a = zeros len.
Proof.
  unfold alloc32, fsx32_alloc.
  destruct (Z.eqb_spec len 0); [discriminate|].
  intros H. injection H as <-. auto.
Qed.

Lemma alloc64_Ok (len : Z) : len <> 0 -> alloc64 len = Ok (zeros len).
Proof.
  intros H. unfold alloc64, fsx64_alloc.
  destruct (Z.eqb_spec len 0); [contradiction|reflexivity].
Qed.

Lemma alloc64_Ok_inv (len : Z) (a : list Z) :
  alloc64 len = Ok a -> len <> 0 /\ a = zeros len.
Proof.
  unfold alloc64, fsx64_alloc.
  destruct (Z.eqb_spec len 0); [discriminate|].
  intros H. injection H as <-. auto.
Qed.

Lemma clone_systab_Ok_inv (dcx : fsx32_dcx) (tab : list Z)
    (dcx1 : fsx32_dcx) :
  clone_systab dcx tab = Ok dcx1 ->
  shl1 (nums_bits dcx) <> 0 /\
  shl1 (nums_bits dcx) <= Z.of_nat (length tab) /\
  dcx1 = mk_dcx (numb dcx) (nums_bits dcx) (weights dcx)
                (Some (firstn (Z.to_nat (shl1 (nums_bits dcx))) tab)).
Proof.
  unfold clone_systab. intros H.
  apply bind_Ok_inv in H. destruct H as (a & Ea & H).
  apply alloc32_Ok_inv in Ea. destruct Ea as [Hne _].
  destruct (Z.ltb_spec (Z.of_nat (length tab)) (shl1 (nums_bits dcx)));
    [discriminate|].
  injection H as <-. auto.
Qed.

Lemma fsx32_alloc_Some (len : Z) :
  len <> 0 -> fsx32_alloc len = Some (zeros len).
Proof.
  intros H. unfold fsx32_alloc.
  destruct (Z.eqb_spec len 0); [contradiction|reflexivity].
Qed.

Lemma sumZ_app (l1 l2 : list Z) : sumZ (l1 ++ l2) = sumZ l1 + sumZ l2.
Proof. induction l1 as [|x t IH]; simpl; lia. Qed.

Lemma sumZ_upd (n : nat) (v : Z) (l : list Z) :
  (n < length l)%nat -> sumZ (upd n v l) = sumZ l + v - nth n l 0.
Proof.
  revert n; induction l as [|h t IH]; intros [|n]; simpl; intros H; try lia.
  rewrite IH by lia. lia.
Qed.

Lemma firstn_upd (m n : nat) (v : Z) (l : list Z) :
  firstn m (upd n v l) = upd n v (firstn m l).
Proof.
  revert m n; induction l as [|h t IH]; intros [|m] [|n]; simpl; auto.
  now rewrite IH.
Qed.

Lemma firstn_snoc {A : Type} (n : nat) (l : list A) (d : A) :
  (n < length l)%nat -> firstn (Datatypes.S n) l = firstn n l ++ [nth n l d].
Proof.
  revert n; induction l as [|h t IH]; intros [|n]; simpl; intros H;
    try lia; auto.
  f_equal. apply IH. lia.
Qed.

Lemma sumZ_nonneg (l : list Z) :
  (forall x, In x l -> 0 <= x) -> 0 <= sumZ l.
Proof.
  induction l as [|x t IH]; simpl; intros H; [lia|].
  assert (0 <= x) by (apply H; auto).
  assert (0 <= sumZ t) by (apply IH; intros; apply H; auto). lia.
Qed.

Lemma caps_of_snoc (i : Z) (vec : list bucket) :
  0 <= i < Z.of_nat (length vec) ->
  caps_of (i + 1) vec = caps_of i vec ++ [b_cap (nth (Z.to_nat i) vec bucket0)].
Proof.
  intros H. unfold caps_of.
  replace (Z.to_nat (i + 1)) with (Datatypes.S (Z.to_nat i)) by lia.
  rewrite (firstn_snoc _ _ bucket0) by lia.
  rewrite map_app. reflexivity.
Qed.

Lemma caps_of_length (num : Z) (vec : list bucket) :
  0 <= num <= Z.of_nat (length vec) ->
  Z.of_nat (length (caps_of num vec)) = num.
Proof.
  intros H. unfold caps_of. rewrite length_map, length_firstn. lia.
Qed.

Lemma zth_caps_of (num i : Z) (vec : list bucket) :
  0 <= i < num -> num <= Z.of_nat (length vec) ->
  zth (caps_of num vec) i = b_cap (nth (Z.to_nat i) vec bucket0).
Proof.
  intros Hi Hn. unfold zth, caps_of.
  change 0 with (b_cap bucket0) at 1. rewrite map_nth.
  rewrite nth_firstn.
  destruct (Nat.ltb_spec (Z.to_nat i) (Z.to_nat num)); [reflexivity|lia].
Qed.

Lemma cap_at_Ok (vec : list bucket) (i : Z) :
  0 <= i < Z.of_nat (length vec) ->
  cap_at vec i = Ok (b_cap (nth (Z.to_nat i) vec bucket0)).
Proof.
  intros H. unfold cap_at, bucket_at, vec_in_range.
  replace ((0 <=? i) && (i <? Z.of_nat (length vec))) with true; [reflexivity|].
  symmetry. rewrite andb_true_iff, Z.leb_le, Z.ltb_lt. lia.
Qed.

(** The first loop: the sum of the capacities, modulo [2 ^ 64]. *)
Lemma calibrate_sum_loop (vec : list bucket) (num : Z) :
  0 <= num <= Z.of_nat (length vec) ->
  for_ 0 num (fun i s => c <- cap_at vec i ;; Ok (wrap64 (s + c))) 0
  = Ok (wrap64 (sumZ (caps_of num vec))).
Proof.
  intros Hn.
  destruct (for_total
              (fun i s => 0 <= i <= num /\ s = wrap64 (sumZ (caps_of i vec)))
              (fun i s => c <- cap_at vec i ;; Ok (wrap64 (s + c)))
              0 num 0) as (s & Hs & _ & ->); try lia; auto.
  - split; [lia|]. reflexivity.
  - intros j t Hj [_ ->]. rewrite cap_at_Ok by lia. cbn [bind].
    eexists. split; [reflexivity|]. split; [lia|].
    rewrite caps_of_snoc by lia. rewrite sumZ_app. simpl.
    unfold wrap64. rewrite Z.add_0_r. rewrite Zplus_mod_idemp_l. reflexivity.
Qed.


Section CalibrateLoops.

(** The output array is accessed through a getter and a setter that
    truncates to the width of its elements: [M] is [2 ^ 32] for
    [array32_el_set] and [2 ^ 64] for [array64_el_set]. *)
Variable M : Z.
Variable ret_el_get : list Z -> Z -> res Z.
Variable ret_el_set : list Z -> Z -> Z -> res (list Z).
Hypothesis get_eq : forall a i, ret_el_get a i = aget a i.
Hypothesis set_eq : forall a i v, ret_el_set a i v = aset a i (v mod M).

(** What the second loop stores for a capacity [c]. *)
Let raw (val S c : Z) : Z := wrap64 (val * c) / S.

Lemma calibrate_scale_loop (vec : list bucket) (num val S : Z) (ret : list Z) :
  0 <= num <= Z.of_nat (length vec) ->
  num <= Z.of_nat (length ret) ->
  S <> 0 ->
  exists r,
    for_ 0 num
      (fun i '(r, ss) =>
         c <- cap_at vec i ;;
         result <- div64_u64 (wrap64 (val * c)) S ;;
         r' <- ret_el_set r i result ;;
         Ok (r', wrap64 (ss + result)))
      (ret, 0)
    = Ok (r, wrap64 (sumZ (map (raw val S) (caps_of num vec)))) /\
    length r = length ret /\
    (forall j, 0 <= j < num ->
               zth r j = raw val S (zth (caps_of num vec) j) mod M) /\
    (forall j, num <= j -> zth r j = zth ret j).
Proof.
  intros Hn Hr HS.
  destruct (for_total
              (fun i (st : list Z * Z) =>
                 0 <= i <= num /\
                 snd st = wrap64 (sumZ (map (raw val S) (caps_of i vec))) /\
                 length (fst st) = length ret /\
                 (forall j, 0 <= j < i ->
                    zth (fst st) j = raw val S (zth (caps_of num vec) j) mod M) /\
                 (forall j, i <= j -> zth (fst st) j = zth ret j))
              (fun i '(r, ss) =>
                 c <- cap_at vec i ;;
                 result <- div64_u64 (wrap64 (val * c)) S ;;
                 r' <- ret_el_set r i result ;;
                 Ok (r', wrap64 (ss + result)))
              0 num (ret, 0)) as ([r ss] & Hl & _ & Hss & Hlen & Hin & Hout);
    try lia.
  - simpl. repeat split; auto; try (intros; lia).
  - intros j [r ss] Hj (_ & Hss & Hlen & Hin & Hout). simpl in *.
    rewrite cap_at_Ok by lia. cbn [bind]. unfold div64_u64.
    destruct (Z.eqb_spec S 0) as [|_]; [contradiction|]. cbn [bind].
    rewrite set_eq.
    destruct (aset r j _) as [r'| |] eqn:E;
      [|rewrite aset_Ok in E by lia; discriminate..].
    cbn [bind]. eexists. split; [reflexivity|]. simpl.
    split; [lia|]. split; [|split; [|split]].
    + rewrite caps_of_snoc by lia. rewrite map_app, sumZ_app. simpl.
      rewrite Hss. unfold wrap64. rewrite Z.add_0_r, Zplus_mod_idemp_l.
      reflexivity.
    + rewrite (aset_length _ _ _ _ E). assumption.
    + intros j' Hj'. destruct (Z.eq_dec j' j) as [->|Hne].
      * rewrite (zth_aset_eq _ _ _ _ E). rewrite zth_caps_of by lia.
        reflexivity.
      * rewrite (zth_aset_neq _ _ j' _ _ E) by lia. apply Hin. lia.
    + intros j' Hj'. rewrite (zth_aset_neq _ _ j' _ _ E) by lia.
      apply Hout. lia.
  - simpl in *. exists r. rewrite Hl, Hss. auto.
Qed.

Lemma calibrate_rest_loop (r : list Z) (rest : Z) :
  0 <= rest <= Z.of_nat (length r) ->
  exists out,
    for_ 0 rest
      (fun i r => x <- ret_el_get r i ;; ret_el_set r i (wrap64 (x + 1))) r
    = Ok out /\
    length out = length r /\
    (forall j, 0 <= j < rest -> zth out j = wrap64 (zth r j + 1) mod M) /\
    (forall j, rest <= j -> zth out j = zth r j).
Proof.
  intros Hrest.
  destruct (for_total
              (fun i u =>
                 0 <= i <= rest /\ length u = length r /\
                 (forall j, 0 <= j < i -> zth u j = wrap64 (zth r j + 1) mod M) /\
                 (forall j, i <= j -> zth u j = zth r j))
              (fun i r => x <- ret_el_get r i ;; ret_el_set r i (wrap64 (x + 1)))
              0 rest r) as (out & Hl & _ & Hlen & Hin & Hout); try lia.
  - repeat split; auto; try (intros; lia).
  - intros j u Hj (_ & Hlen & Hin & Hout).
    rewrite get_eq, aget_zth by lia. cbn [bind]. rewrite set_eq.
    destruct (aset u j _) as [u'| |] eqn:E;
      [|rewrite aset_Ok in E by lia; discriminate..].
    eexists. split; [reflexivity|]. split; [lia|]. split; [|split].
    + rewrite (aset_length _ _ _ _ E). assumption.
    + intros j' Hj'. destruct (Z.eq_dec j' j) as [->|Hne].
      * rewrite (zth_aset_eq _ _ _ _ E). rewrite Hout by lia. reflexivity.
      * rewrite (zth_aset_neq _ _ j' _ _ E) by lia. apply Hin. lia.
    + intros j' Hj'. rewrite (zth_aset_neq _ _ j' _ _ E) by lia.
      apply Hout. lia.
  - exists out. auto.
Qed.

(** [calibrate] in full, wrap-around included: it succeeds whenever the
    capacities' 64-bit sum is not zero and the remainder fits the output
    array. *)
Lemma calibrate_general (vec : list bucket) (num val : Z) (ret : list Z) :
  let cs := caps_of num vec in
  let S := wrap64 (sumZ cs) in
  let rs := map (raw val S) cs in
  let rest := wrap64 (val - wrap64 (sumZ rs)) in
  0 <= num <= Z.of_nat (length vec) ->
  num <= Z.of_nat (length ret) ->
  S <> 0 ->
  rest <= Z.of_nat (length ret) ->
  exists out,
    calibrate num val vec cap_at ret ret_el_get ret_el_set = Ok out /\
    length out = length ret /\
    (forall j, 0 <= j < num ->
       zth out j =
       if j <? rest then wrap64 (raw val S (zth cs j) mod M + 1) mod M
       else raw val S (zth cs j) mod M) /\
    (forall j, num <= j ->
       zth out j =
       if j <? rest then wrap64 (zth ret j + 1) mod M else zth ret j).
Proof.
  intros cs S rs rest Hn Hr HS Hrest.
  unfold calibrate. rewrite calibrate_sum_loop by assumption. cbn [bind].
  fold cs. fold S.
  destruct (calibrate_scale_loop vec num val S ret Hn Hr HS)
    as (r & Hl & Hlen & Hin & Hout).
  rewrite Hl. cbn [bind]. fold cs rs rest.
  assert (0 <= rest) by (apply Z.mod_pos_bound; lia).
  destruct (calibrate_rest_loop r rest) as (out & Ho & Hlo & Hino & Houto);
    try lia.
  exists out. split; [assumption|]. split; [lia|]. split.
  - intros j Hj. destruct (Z.ltb_spec j rest).
    + rewrite Hino by lia. rewrite Hin by lia. reflexivity.
    + rewrite Houto by lia. apply Hin. lia.
  - intros j Hj. destruct (Z.ltb_spec j rest).
    + rewrite Hino by lia. rewrite Hout by lia. reflexivity.
    + rewrite Houto by lia. apply Hout. lia.
Qed.


End CalibrateLoops.

(** *** Exactness when nothing wraps *)

Lemma shares_bounds (val S : Z) (cs : list Z) :
  0 < S ->
  S * sumZ (map (share val S) cs) <= val * sumZ cs /\
  val * sumZ cs <= S * sumZ (map (share val S) cs)
                   + (S - 1) * Z.of_nat (length cs).
Proof.
  intros HS. induction cs as [|c t [IH1 IH2]].
  - simpl. lia.
  - cbn [map sumZ length]. unfold share at 1 3.
    pose proof (Z.div_mod (val * c) S ltac:(lia)) as Hd.
    pose proof (Z.mod_pos_bound (val * c) S HS) as Hm.
    nia.
Qed.

Lemma In_le_sumZ (cs : list Z) (c : Z) :
  (forall x, In x cs -> 0 <= x) -> In c cs -> c <= sumZ cs.
Proof.
  induction cs as [|h t IH]; simpl; intros Hnn Hc; [contradiction|].
  destruct Hc as [->|Hin].
  - assert (0 <= sumZ t) by (apply sumZ_nonneg; auto). lia.
  - assert (0 <= h) by auto. assert (c <= sumZ t) by auto. lia.
Qed.

Lemma share_bounds (val S c : Z) :
  0 < S -> 0 <= val -> 0 <= c <= S -> 0 <= share val S c <= val.
Proof.
  intros HS Hv Hc. unfold share. split.
  - apply Z.div_pos; nia.
  - apply Z.div_le_upper_bound; nia.
Qed.

Lemma sumZ_map_le (f : Z -> Z) (cs : list Z) (x : Z) :
  (forall c, In c cs -> 0 <= f c) -> In x cs -> f x <= sumZ (map f cs).
Proof.
  intros H Hx. apply In_le_sumZ.
  - intros y Hy. apply in_map_iff in Hy. destruct Hy as (c & <- & Hc). auto.
  - apply in_map. assumption.
Qed.

Lemma sumZ_bump (l l' : list Z) (rest : nat) :
  length l' = length l -> (rest <= length l)%nat ->
  (forall j, (j < rest)%nat -> nth j l' 0 = nth j l 0 + 1) ->
  (forall j, (rest <= j)%nat -> nth j l' 0 = nth j l 0) ->
  sumZ l' = sumZ l + Z.of_nat rest.
Proof.
  revert l' rest. induction l as [|h t IH]; intros [|h' t'] rest Hl Hr Hin Hout;
    cbn [length sumZ] in *; try lia.
  destruct rest as [|r].
  - pose proof (Hout 0%nat ltac:(lia)) as H0. simpl in H0.
    rewrite (IH t' 0%nat); try lia.
    intros j Hj. apply (Hout (Datatypes.S j)). lia.
  - pose proof (Hin 0%nat ltac:(lia)) as H0. simpl in H0.
    rewrite (IH t' r); try lia;
      intros j Hj;
      [apply (Hin (Datatypes.S j)) | apply (Hout (Datatypes.S j))]; lia.
Qed.

Lemma zth_firstn (n : nat) (l : list Z) (j : Z) :
  0 <= j < Z.of_nat n -> zth (firstn n l) j = zth l j.
Proof.
  intros Hj. unfold zth. rewrite nth_firstn.
  destruct (Nat.ltb_spec (Z.to_nat j) n); [reflexivity|lia].
Qed.

Lemma zth_map_caps (f : Z -> Z) (cs : list Z) (j : Z) :
  0 <= j < Z.of_nat (length cs) -> zth (map f cs) j = f (zth cs j).
Proof.
  intros Hj. unfold zth.
  rewrite (nth_indep _ 0 (f 0)) by (rewrite length_map; lia).
  apply map_nth.
Qed.

Lemma zth_In (l : list Z) (j : Z) :
  0 <= j < Z.of_nat (length l) -> In (zth l j) l.
Proof. intros H. unfold zth. apply nth_In. lia. Qed.

Section CalibrateExact.

Variable M : Z.
Variable ret_el_get : list Z -> Z -> res Z.
Variable ret_el_set : list Z -> Z -> Z -> res (list Z).
Hypothesis get_eq : forall a i, ret_el_get a i = aget a i.
Hypothesis set_eq : forall a i v, ret_el_set a i v = aset a i (v mod M).
Hypothesis M_le : M <= 2 ^ 64.

Lemma calibrate_exact_width (vec : list bucket) (num val : Z) (ret : list Z) :
  let cs := caps_of num vec in
  1 <= num <= Z.of_nat (length vec) ->
  num <= Z.of_nat (length ret) ->
  0 < sumZ cs -> no_wrap val cs -> 0 <= val < M ->
  exists out,
    calibrate num val vec cap_at ret ret_el_get ret_el_set = Ok out /\
    calibrated num val cs ret out /\
    0 <= val - sumZ (shares val cs) < num.
Proof.
  intros cs Hn Hr HS [Hc Hsum] Hv.
  assert (Hlen : Z.of_nat (length cs) = num) by (apply caps_of_length; lia).
  assert (Hnn : forall x, In x cs -> 0 <= x) by (intros x Hx; apply Hc; auto).
  assert (HwS : wrap64 (sumZ cs) = sumZ cs).
  { unfold wrap64. apply Z.mod_small. lia. }
  assert (Hraw : forall c, In c cs ->
            wrap64 (val * c) / sumZ cs = share val (sumZ cs) c).
  { intros c Hin. unfold wrap64, share. rewrite Z.mod_small; auto.
    destruct (Hc c Hin). split; [nia|lia]. }
  assert (Hsh : forall c, In c cs -> 0 <= share val (sumZ cs) c <= val).
  { intros c Hin. apply share_bounds; try lia.
    split; [auto|]. apply In_le_sumZ; auto. }
  assert (Hmap : map (fun c => wrap64 (val * c) / sumZ cs) cs = shares val cs).
  { unfold shares. apply map_ext_in. exact Hraw. }
  destruct (shares_bounds val (sumZ cs) cs HS) as [B1 B2]. fold (shares val cs) in B1, B2.
  set (F := sumZ (shares val cs)) in *.
  assert (HF : 0 <= F <= val).
  { split; [|nia]. apply sumZ_nonneg. intros x Hx.
    apply in_map_iff in Hx. destruct Hx as (c & <- & Hin). apply Hsh; auto. }
  assert (Hrest : 0 <= val - F < num) by nia.
  assert (HwF : wrap64 F = F) by (unfold wrap64; apply Z.mod_small; lia).
  assert (Hwr : wrap64 (val - F) = val - F)
    by (unfold wrap64; apply Z.mod_small; lia).
  destruct (calibrate_general M ret_el_get ret_el_set get_eq set_eq
              vec num val ret) as (out & Ho & Hlo & Hin & Hout); try lia.
  { fold cs. lia. }
  { fold cs. rewrite HwS, Hmap. fold F. rewrite HwF, Hwr. lia. }
  fold cs in Hin, Hout. rewrite HwS, Hmap in Hin, Hout. fold F in Hin, Hout.
  rewrite HwF, Hwr in Hin, Hout.
  assert (Hval : forall j, 0 <= j < num ->
            zth out j = calibrate_ideal_at val cs j).
  { intros j Hj. rewrite Hin by lia. unfold calibrate_ideal_at. fold F.
    assert (Hinj : In (zth cs j) cs) by (apply zth_In; lia).
    rewrite Hraw by assumption. destruct (Hsh _ Hinj) as [S1 S2].
    rewrite (Z.mod_small (share val (sumZ cs) (zth cs j)) M) by lia.
    destruct (Z.ltb_spec j (val - F)); [|lia].
    assert (share val (sumZ cs) (zth cs j) <= F).
    { unfold F, shares. apply sumZ_map_le; auto. intros c Hc'. apply Hsh; auto. }
    unfold wrap64. rewrite (Z.mod_small _ (2 ^ 64)) by lia.
    apply Z.mod_small. lia. }
  exists out. split; [assumption|]. split; [|assumption].
  split; [assumption|]. split; [assumption|]. split.
  - intros j Hj. rewrite Hout by lia.
    destruct (Z.ltb_spec j (val - F)); [lia|reflexivity].
  - rewrite (sumZ_bump (shares val cs) (firstn (Z.to_nat num) out)
                       (Z.to_nat (val - F))).
    + fold F. lia.
    + unfold shares. rewrite length_firstn, length_map. lia.
    + unfold shares. rewrite length_map. lia.
    + intros j Hj.
      change (zth (firstn (Z.to_nat num) out) (Z.of_nat j)
              = nth j (shares val cs) 0 + 1) || idtac.
      pose proof (zth_firstn (Z.to_nat num) out (Z.of_nat j) ltac:(lia)) as E1.
      unfold zth in E1. rewrite Nat2Z.id in E1. rewrite E1.
      pose proof (Hval (Z.of_nat j) ltac:(lia)) as E2.
      unfold zth in E2 at 1. rewrite Nat2Z.id in E2. rewrite E2.
      unfold calibrate_ideal_at. fold F.
      destruct (Z.ltb_spec (Z.of_nat j) (val - F)); [|lia].
      pose proof (zth_map_caps (share val (sumZ cs)) cs (Z.of_nat j) ltac:(lia)) as E3.
      unfold zth in E3 at 1. rewrite Nat2Z.id in E3.
      unfold shares. rewrite E3. reflexivity.
    + intros j Hj.
      destruct (Nat.lt_ge_cases j (Z.to_nat num)) as [Hlt|Hge].
      * pose proof (zth_firstn (Z.to_nat num) out (Z.of_nat j) ltac:(lia)) as E1.
        unfold zth in E1. rewrite Nat2Z.id in E1. rewrite E1.
        pose proof (Hval (Z.of_nat j) ltac:(lia)) as E2.
        unfold zth in E2 at 1. rewrite Nat2Z.id in E2. rewrite E2.
        unfold calibrate_ideal_at. fold F.
        destruct (Z.ltb_spec (Z.of_nat j) (val - F)); [lia|].
        pose proof (zth_map_caps (share val (sumZ cs)) cs (Z.of_nat j) ltac:(lia)) as E3.
        unfold zth in E3 at 1. rewrite Nat2Z.id in E3.
        unfold shares. rewrite E3. lia.
      * rewrite !nth_overflow; auto.
        -- unfold shares. rewrite length_map. lia.
        -- rewrite length_firstn. lia.
Qed.

End CalibrateExact.

Lemma calibrate32_exact (vec : list bucket) (num val : Z) (ret : list Z) :
  let cs := caps_of num vec in
  1 <= num <= Z.of_nat (length vec) ->
  num <= Z.of_nat (length ret) -> num < 2 ^ 32 ->
  0 < sumZ cs -> no_wrap val cs -> 0 <= val < 2 ^ 32 ->
  exists out,
    calibrate32 num val vec cap_at ret = Ok out /\
    calibrated num val cs ret out /\
    0 <= val - sumZ (shares val cs) < num.
Proof.
  intros cs Hn Hr Hn32 HS Hw Hv. unfold calibrate32, wrap32.
  rewrite (Z.mod_small num) by lia. rewrite (Z.mod_small val) by lia.
  apply (calibrate_exact_width (2 ^ 32)); auto; lia.
Qed.

Lemma calibrate64_exact (vec : list bucket) (num val : Z) (ret : list Z) :
  let cs := caps_of num vec in
  1 <= num <= Z.of_nat (length vec) ->
  num <= Z.of_nat (length ret) -> num < 2 ^ 64 ->
  0 < sumZ cs -> no_wrap val cs -> 0 <= val < 2 ^ 64 ->
  exists out,
    calibrate64 num val vec cap_at ret = Ok out /\
    calibrated num val cs ret out /\
    0 <= val - sumZ (shares val cs) < num.
Proof.
  intros cs Hn Hr Hn64 HS Hw Hv. unfold calibrate64, wrap64.
  rewrite (Z.mod_small num) by lia. rewrite (Z.mod_small val) by lia.
  apply (calibrate_exact_width (2 ^ 64)); auto; lia.
Qed.

(** C2, as the code has it.  For [num >= 1] buckets whose capacities have
    a positive sum [S], and a budget [val], provided the 64-bit arithmetic
    of the code does not wrap (the capacities are non-negative with
    [S < 2 ^ 64] and every product [val * cap i] is below [2 ^ 64]) and
    [val] and [num] fit the width of the output, [calibrate] returns, and
    its output is [floor (val * cap i / S)] plus one for each of the first
    [val - sum of the floors] indices; the entries of the output array
    past [num] are untouched and the [num] outputs sum to [val].  This
    holds for the 32-bit and for the 64-bit output width. *)
Theorem calibrate_floor_plus_remainder :
  forall (vec : list bucket) (num val : Z) (ret : list Z),
    let cs := caps_of num vec in
    1 <= num <= Z.of_nat (length vec) ->
    num <= Z.of_nat (length ret) ->
    0 < sumZ cs -> no_wrap val cs ->
    (0 <= val < 2 ^ 32 -> num < 2 ^ 32 ->
       exists out, calibrate32 num val vec cap_at ret = Ok out /\
                   calibrated num val cs ret out) /\
    (0 <= val < 2 ^ 64 -> num < 2 ^ 64 ->
       exists out, calibrate64 num val vec cap_at ret = Ok out /\
                   calibrated num val cs ret out).
Proof.
  intros vec num val ret cs Hn Hr HS Hw. split; intros Hv Hnum.
  - destruct (calibrate32_exact vec num val ret) as (out & H1 & H2 & _); auto.
    exists out. auto.
  - destruct (calibrate64_exact vec num val ret) as (out & H1 & H2 & _); auto.
    exists out. auto.
Qed.

(** 1024 slots over three bricks of capacity 1: [342; 341; 341]. *)
Lemma calibrate_floor_plus_remainder_witness :
  exists out,
    calibrate32 3 1024 (bricks [(1, 10); (1, 11); (1, 12)]) cap_at [0; 0; 0]
    = Ok out /\
    calibrated 3 1024 [1; 1; 1] [0; 0; 0] out.
Proof.
  apply (calibrate_floor_plus_remainder
           (bricks [(1, 10); (1, 11); (1, 12)]) 3 1024 [0; 0; 0]).
  - simpl. lia.
  - simpl. lia.
  - simpl. lia.
  - split.
    + simpl. intros c [<-|[<-|[<-|[]]]]; lia.
    + simpl. lia.
  - lia.
  - lia.
Defined.

(** C2 as stated fails when a product [val * cap i] exceeds 64 bits: with
    capacities [2 ^ 63], [2 ^ 63 - 1] and [0] (sum [2 ^ 64 - 1]) and a
    budget of 3 the code returns [1; 1; 1], while the floors are
    [1; 1; 0] and the single extra unit belongs to index 0. *)
Lemma calibrate_wraps :
  let vec := bricks [(2 ^ 63, 10); (2 ^ 63 - 1, 11); (0, 12)] in
  0 < sumZ (caps_of 3 vec) /\
  calibrate32 3 3 vec cap_at [0; 0; 0] = Ok [1; 1; 1] /\
  calibrate64 3 3 vec cap_at [0; 0; 0] = Ok [1; 1; 1] /\
  calibrate_ideal_at 3 (caps_of 3 vec) 0 = 2 /\
  calibrate_ideal_at 3 (caps_of 3 vec) 2 = 0.
Proof. vm_compute. repeat split; reflexivity. Qed.

Lemma ideal_monotone (val : Z) (cs : list Z) (i j : Z) :
  0 < sumZ cs -> 0 <= val -> zth cs j <= zth cs i ->
  calibrate_ideal_at val cs j <= calibrate_ideal_at val cs i + 1 /\
  (i <= j -> calibrate_ideal_at val cs j <= calibrate_ideal_at val cs i).
Proof.
  intros HS Hv Hc. unfold calibrate_ideal_at.
  assert (share val (sumZ cs) (zth cs j) <= share val (sumZ cs) (zth cs i)).
  { unfold share. apply Z.div_le_mono; nia. }
  split.
  - destruct (j <? _), (i <? _); lia.
  - intros Hij.
    destruct (Z.ltb_spec j (val - sumZ (shares val cs)));
      destruct (Z.ltb_spec i (val - sumZ (shares val cs))); lia.
Qed.

(** C3, as the code has it.  Under the conditions of C2, whenever
    [cap i >= cap j] the output of brick [j] exceeds that of brick [i] by
    at most the one unit of remainder, and does not exceed it at all when
    [i] is not the later index. *)
Theorem calibrate_monotone_up_to_remainder :
  forall (vec : list bucket) (num val : Z) (ret : list Z) (i j : Z),
    let cs := caps_of num vec in
    1 <= num <= Z.of_nat (length vec) ->
    num <= Z.of_nat (length ret) ->
    0 < sumZ cs -> no_wrap val cs ->
    0 <= i < num -> 0 <= j < num ->
    zth cs j <= zth cs i ->
    (0 <= val < 2 ^ 32 -> num < 2 ^ 32 ->
       exists out, calibrate32 num val vec cap_at ret = Ok out /\
                   zth out j <= zth out i + 1 /\
                   (i <= j -> zth out j <= zth out i)) /\
    (0 <= val < 2 ^ 64 -> num < 2 ^ 64 ->
       exists out, calibrate64 num val vec cap_at ret = Ok out /\
                   zth out j <= zth out i + 1 /\
                   (i <= j -> zth out j <= zth out i)).
Proof.
  intros vec num val ret i j cs Hn Hr HS Hw Hi Hj Hc.
  split; intros Hv Hnum.
  - destruct (calibrate32_exact vec num val ret)
      as (out & H1 & (_ & H2 & _) & _); auto.
    exists out. split; auto. rewrite !H2 by lia.
    apply ideal_monotone; auto; lia.
  - destruct (calibrate64_exact vec num val ret)
      as (out & H1 & (_ & H2 & _) & _); auto.
    exists out. split; auto. rewrite !H2 by lia.
    apply ideal_monotone; auto; lia.
Qed.

(** Capacities 1 and 2, budget 1024: [342; 682]. *)
Lemma calibrate_monotone_up_to_remainder_witness :
  exists out,
    calibrate32 2 1024 (bricks [(1, 10); (2, 11)]) cap_at [0; 0] = Ok out /\
    zth out 0 <= zth out 1 + 1 /\
    (1 <= 0 -> zth out 0 <= zth out 1).
Proof.
  apply (calibrate_monotone_up_to_remainder
           (bricks [(1, 10); (2, 11)]) 2 1024 [0; 0] 1 0).
  - simpl. lia.
  - simpl. lia.
  - simpl. lia.
  - split.
    + simpl. intros c [<-|[<-|[]]]; lia.
    + simpl. lia.
  - lia.
  - lia.
  - vm_compute. discriminate.
  - lia.
  - lia.
Defined.

(** C3 as stated fails: with capacities 1 and 2 and a budget of 1 the
    output is [1; 0], so the brick of the larger capacity gets less. *)
Lemma calibrate_not_monotone :
  let vec := bricks [(1, 10); (2, 11)] in
  exists out,
    calibrate32 2 1 vec cap_at [0; 0] = Ok out /\
    zth (caps_of 2 vec) 1 >= zth (caps_of 2 vec) 0 /\
    zth (caps_of 2 vec) 1 <> zth (caps_of 2 vec) 0 /\
    ~ (zth out 1 >= zth out 0).
Proof.
  exists [1; 0]. vm_compute. repeat split; intros H; try discriminate.
  apply H. reflexivity.
Qed.

(** *** The divisor *)

Lemma In_firstn_In {A : Type} (n : nat) (l : list A) (x : A) :
  In x (firstn n l) -> In x l.
Proof.
  revert n; induction l as [|h t IH]; intros [|n]; simpl; try tauto.
  intros [->|H]; eauto.
Qed.








(** ** Removal with a NULL bucket *)

(** C6 (a defect of the code).  [balance_dec] reads [removeme->id] before
    it looks whether [removeme] is NULL, and [dec_fsx32] releases the
    fiber of [removeme] unconditionally: with [removeme == NULL] the
    balancing step is a NULL dereference, and no call of [dec_fsx32]
    returns success. *)
Theorem dec_null_removeme_never_succeeds :
  (forall new_numb tab old_weights new_weights target_pos vec,
     balance_dec new_numb tab old_weights new_weights target_pos vec None
     = Fault NullPointer) /\
  (forall vec occ dcx tab target_pos r,
     dec_fsx32 vec occ dcx tab target_pos None <> Ok r).
Proof.
  split.
  - intros. reflexivity.
  - intros vec occ dcx tab target_pos r H. unfold dec_fsx32 in H.
    cbv zeta in H.
    bind_inv H. bind_inv H. bind_inv H. bind_inv H. bind_inv H.
    discriminate.
Qed.

(** Past the NULL dereference the NULL branch does not work either: on a
    two-brick table of eight slots whose second brick is to shrink from
    six slots to four, the loop over the bricks from [target_pos] on
    reads [old_weights] one past its end. *)
Lemma balance_dec_body_null_out_of_bounds :
  let vec :=
    [mk_bucket 1 10 (Some [0; 1]) 2;
     mk_bucket 1 11 (Some [2; 3; 4; 5; 6; 7]) 6] in
  balance_dec_body 2 [10; 10; 11; 11; 11; 11; 11; 11] (Some [2; 6]) [4; 4]
                   1 vec None
  = Fault OutOfBounds.
Proof. vm_compute. reflexivity. Qed.

(** ** Splitting *)

(** C1 (a defect of the code).  On three bricks of equal capacity and a
    table of [2 ^ 11] slots that satisfies the invariant, [spl] with
    [fact_bits = 1] returns success and leaves weights
    [1366; 1365; 1365] over a table in which the bricks hold 1366, 1366
    and 1364 slots: the invariant is lost. *)
Theorem spl_breaks_invariant :
  match spl_example with
  | Ok (d, v) =>
      numb d = 3 /\ nums_bits d = 12 /\
      weights d = Some [1366; 1365; 1365] /\
      option_map (fun t => map (fun id => count_id id t) (tab_ids v)) (tab d)
      = Some [1366; 1366; 1364] /\
      option_map (fsx_invariantb v d) (tab d) = Some false
  | _ => False
  end.
Proof. vm_compute. repeat split; reflexivity. Qed.

(** *** The pure stretch *)

Lemma shl1_pow (b : Z) : 0 <= b <= 31 -> shl1 b = 2 ^ b.
Proof.
  intros Hb. unfold shl1, wrap32. rewrite Z.shiftl_1_l.
  apply Z.mod_small. split.
  - apply Z.pow_nonneg. lia.
  - apply Z.pow_lt_mono_r; lia.
Qed.

Lemma length_stretch (f : Z) (t : list Z) :
  0 <= f -> Z.of_nat (length (stretch f t)) = Z.of_nat (length t) * f.
Proof.
  intros Hf. unfold stretch. induction t as [|x t IH]; cbn [flat_map length].
  - lia.
  - rewrite length_app, repeat_length, Nat2Z.inj_add, IH, Nat2Z.inj_succ. lia.
Qed.

Lemma zth_stretch (f : Z) (t : list Z) (k : Z) :
  0 < f -> 0 <= k < Z.of_nat (length t) * f ->
  zth (stretch f t) k = zth t (k / f).
Proof.
  intros Hf. revert k. induction t as [|x t IH]; intros k Hk.
  - simpl in Hk. lia.
  - unfold stretch. cbn [flat_map]. fold (stretch f t).
    unfold zth at 1.
    destruct (Z_lt_dec k f) as [Hlt|Hge].
    + rewrite app_nth1 by (rewrite repeat_length; lia).
      rewrite Z.div_small by lia. unfold zth. simpl.
      apply nth_repeat_lt. lia.
    + rewrite app_nth2 by (rewrite repeat_length; lia).
      rewrite repeat_length.
      replace (Z.to_nat k - Z.to_nat f)%nat with (Z.to_nat (k - f)) by lia.
      fold (zth (stretch f t) (k - f)).
      rewrite IH by (cbn [length] in Hk; lia).
      replace k with ((k - f) + 1 * f) at 2 by lia.
      rewrite Z.div_add by lia.
      assert (0 <= (k - f) / f) by (apply Z.div_pos; lia).
      unfold zth.
      replace (Z.to_nat ((k - f) / f + 1))
        with (Datatypes.S (Z.to_nat ((k - f) / f))) by lia.
      reflexivity.
Qed.

Lemma count_id_app (id : Z) (l1 l2 : list Z) :
  count_id id (l1 ++ l2) = count_id id l1 + count_id id l2.
Proof. unfold count_id. rewrite filter_app, length_app. lia. Qed.

Lemma count_id_repeat (id x : Z) (n : nat) :
  count_id id (repeat x n) = if id =? x then Z.of_nat n else 0.
Proof.
  unfold count_id. induction n as [|n IH]; simpl.
  - destruct (id =? x); reflexivity.
  - destruct (id =? x) eqn:E; simpl; lia.
Qed.

Lemma count_id_cons (id x : Z) (t : list Z) :
  count_id id (x :: t) = (if id =? x then 1 else 0) + count_id id t.
Proof.
  unfold count_id. cbn [filter]. destruct (id =? x); cbn [length];
    rewrite ?Nat2Z.inj_succ; lia.
Qed.

Lemma count_id_stretch (id f : Z) (t : list Z) :
  0 <= f -> count_id id (stretch f t) = f * count_id id t.
Proof.
  intros Hf. unfold stretch. induction t as [|x t IH]; simpl.
  - unfold count_id. simpl. lia.
  - rewrite count_id_app, IH, count_id_repeat, count_id_cons.
    destruct (id =? x); lia.
Qed.

Lemma stretch_tab_spec (nums factor : Z) (old : list Z) :
  Z.of_nat (length old) = nums -> 0 < nums -> 0 < factor ->
  nums * factor < 2 ^ 32 ->
  stretch_tab nums factor (Some old) = Ok (stretch factor old).
Proof.
  intros Hlen Hn0 Hf Hlt. unfold stretch_tab.
  assert (Hn : 0 <= nums) by lia.
  assert (HN : wrap32 (nums * factor) = nums * factor).
  { unfold wrap32. apply Z.mod_small. nia. }
  rewrite HN. rewrite alloc32_Ok by nia. cbn [bind].
  destruct (for_total
              (fun i u =>
                 0 <= i <= nums /\
                 Z.of_nat (length u) = nums * factor /\
                 forall k, 0 <= k < i * factor -> zth u k = zth old (k / factor))
              (fun i t =>
                 for_ 0 factor
                   (fun j u =>
                      x <- pget (Some old) i ;;
                      aset u (wrap32 (i * factor + j)) x)
                   t)
              0 nums (zeros (nums * factor)))
    as (u & Hu & _ & Hlu & Hk); try lia.
  - split; [lia|]. split; [|intros k Hk; lia].
    unfold zeros. rewrite repeat_length. nia.
  - intros i u Hi (_ & Hlu & Hk).
    destruct (for_total
                (fun j v =>
                   0 <= j <= factor /\
                   Z.of_nat (length v) = nums * factor /\
                   forall k, 0 <= k < i * factor + j ->
                             zth v k = zth old (k / factor))
                (fun j u =>
                   x <- pget (Some old) i ;;
                   aset u (wrap32 (i * factor + j)) x)
                0 factor u) as (v & Hv & _ & Hlv & Hkv); try lia.
    + split; [lia|]. split; [assumption|].
      intros k Hk'. apply Hk. lia.
    + intros j v Hj (_ & Hlv & Hkv).
      unfold pget. cbn [deref bind].
      rewrite aget_zth by lia. cbn [bind].
      assert (Hidx : wrap32 (i * factor + j) = i * factor + j).
      { unfold wrap32. apply Z.mod_small. nia. }
      rewrite Hidx.
      destruct (aset v (i * factor + j) (zth old i)) as [v'| |] eqn:E;
        [|rewrite aset_Ok in E by nia; discriminate..].
      exists v'. split; [reflexivity|]. split; [lia|]. split.
      * rewrite (aset_length _ _ _ _ E). assumption.
      * intros k Hk'. destruct (Z.eq_dec k (i * factor + j)) as [->|Hne].
        -- rewrite (zth_aset_eq _ _ _ _ E).
           rewrite Z.add_comm, Z.div_add by lia.
           rewrite Z.div_small by lia. reflexivity.
        -- rewrite (zth_aset_neq _ _ k _ _ E) by lia. apply Hkv. lia.
    + exists v. split; [assumption|]. split; [lia|]. split; [assumption|].
      intros k Hk'. apply Hkv. lia.
  - rewrite Hu. f_equal. apply zth_ext.
    + apply Nat2Z.inj. rewrite length_stretch by lia. lia.
    + intros k Hk'. rewrite Hk by lia. symmetry. apply zth_stretch; lia.
Qed.

Lemma map_upd {A B : Type} (f : A -> B) (n : nat) (v : A) (l : list A) (d : A) :
  (n < length l)%nat -> f v = f (nth n l d) -> map f (upd n v l) = map f l.
Proof.
  revert n; induction l as [|h t IH]; intros [|n]; simpl; intros Hn Hf;
    try lia.
  - now rewrite Hf.
  - f_equal. apply IH; auto. lia.
Qed.

Lemma bucket_at_Ok (vec : list bucket) (i : Z) :
  0 <= i < Z.of_nat (length vec) ->
  bucket_at vec i = Ok (nth (Z.to_nat i) vec bucket0).
Proof.
  intros H. unfold bucket_at, vec_in_range.
  replace ((0 <=? i) && (i <? Z.of_nat (length vec))) with true; [reflexivity|].
  symmetry. rewrite andb_true_iff, Z.leb_le, Z.ltb_lt. lia.
Qed.

Lemma fib_set_at_spec (vec : list bucket) (i : Z) (f : option (list Z)) :
  0 <= i < Z.of_nat (length vec) ->
  exists vec',
    fib_set_at vec i f = Ok vec' /\
    length vec' = length vec /\
    map b_cap vec' = map b_cap vec /\
    map b_id vec' = map b_id vec /\
    b_fib (nth (Z.to_nat i) vec' bucket0) = f /\
    (forall j, j <> Z.to_nat i ->
               nth j vec' bucket0 = nth j vec bucket0).
Proof.
  intros Hi. unfold fib_set_at. rewrite bucket_at_Ok by assumption.
  cbn [bind]. eexists. split; [reflexivity|]. unfold upd_bucket.
  split; [apply length_upd|].
  split; [apply map_upd with (d := bucket0); [lia|reflexivity]|].
  split; [apply map_upd with (d := bucket0); [lia|reflexivity]|].
  split.
  - rewrite nth_upd_eq by lia. reflexivity.
  - intros j Hj. apply nth_upd_neq. lia.
Qed.

Lemma release_fibers_spec (numb : Z) (vec : list bucket) :
  0 <= numb <= Z.of_nat (length vec) ->
  exists vec',
    release_fibers numb vec = Ok vec' /\
    length vec' = length vec /\
    map b_cap vec' = map b_cap vec /\
    map b_id vec' = map b_id vec.
Proof.
  intros Hn. unfold release_fibers.
  destruct (for_total
              (fun i v =>
                 0 <= i <= numb /\ length v = length vec /\
                 map b_cap v = map b_cap vec /\ map b_id v = map b_id vec)
              (fun i v => _ <- fib_at v i ;; fib_set_at v i None)
              0 numb vec) as (v & Hv & _ & H1 & H2 & H3); try lia.
  - repeat split; auto; lia.
  - intros i v Hi (_ & H1 & H2 & H3).
    unfold fib_at. rewrite bucket_at_Ok by lia. cbn [bind].
    destruct (fib_set_at_spec v i None) as (v' & E & L & C & I & _); [lia|].
    exists v'. split; [assumption|]. split; [lia|].
    split; [congruence|]. split; congruence.
  - exists v. auto.
Qed.

(** A positive divisor of a power of two is a power of two. *)
Lemma pow2_divisor (n : nat) (d : Z) :
  0 < d -> (d | 2 ^ Z.of_nat n) -> exists k, 0 <= k <= Z.of_nat n /\ d = 2 ^ k.
Proof.
  revert d. induction n as [|n IH]; intros d Hd Hdiv.
  - exists 0. split; [lia|]. simpl in Hdiv.
    apply Z.divide_1_r_nonneg in Hdiv; lia.
  - rewrite Nat2Z.inj_succ, Z.pow_succ_r in Hdiv by lia.
    destruct (Z.even d) eqn:Ev.
    + apply Z.even_spec in Ev. destruct Ev as [d' ->].
      apply Z.mul_divide_cancel_l in Hdiv; [|lia].
      destruct (IH d' ltac:(lia) Hdiv) as (k & Hk & ->).
      exists (k + 1). split; [lia|].
      rewrite Z.pow_add_r by lia. lia.
    + destruct Hdiv as [q Hq].
      assert (Eq : Z.even q = true).
      { assert (E : Z.even (q * d) = true).
        { rewrite <- Hq. rewrite Z.even_mul. reflexivity. }
        rewrite Z.even_mul, Ev in E.
        destruct (Z.even q); [reflexivity|discriminate]. }
      apply Z.even_spec in Eq. destruct Eq as [q' ->].
      destruct (IH d Hd) as (k & Hk & ->).
      * exists q'. lia.
      * exists k. split; [lia|reflexivity].
Qed.

Lemma pow2_divides (numb nb fb : Z) :
  0 <= nb -> 0 <= fb -> 1 <= numb <= 2 ^ nb ->
  (2 ^ nb * 2 ^ fb) mod numb = 0 -> 2 ^ nb mod numb = 0.
Proof.
  intros Hnb Hfb Hn Hmod.
  rewrite <- Z.pow_add_r in Hmod by lia.
  apply Z.mod_divide in Hmod; [|lia].
  replace (nb + fb) with (Z.of_nat (Z.to_nat (nb + fb))) in Hmod by lia.
  destruct (pow2_divisor _ numb ltac:(lia) Hmod) as (k & Hk & ->).
  assert (k <= nb).
  { destruct (Z_le_dec k nb); auto. exfalso.
    assert (2 ^ nb < 2 ^ k) by (apply Z.pow_lt_mono_r; lia). lia. }
  apply Z.mod_divide.
  - assert (0 < 2 ^ k) by (apply Z.pow_pos_nonneg; lia). lia.
  - exists (2 ^ (nb - k)). rewrite <- Z.pow_add_r by lia. f_equal. lia.
Qed.

Lemma sumZ_repeat (x : Z) (n : nat) : sumZ (repeat x n) = Z.of_nat n * x.
Proof.
  induction n as [|n IH]; cbn [repeat sumZ]; [reflexivity|].
  rewrite IH, Nat2Z.inj_succ. lia.
Qed.

Lemma map_const {A B : Type} (f : A -> B) (c : B) (l : list A) :
  (forall x, In x l -> f x = c) -> map f l = repeat c (length l).
Proof.
  induction l as [|h t IH]; simpl; intros H; auto.
  rewrite (H h) by auto. f_equal. apply IH. auto.
Qed.

Lemma ideal_equal_caps (val c : Z) (n : nat) (i : Z) :
  0 < c -> (0 < n)%nat -> val mod Z.of_nat n = 0 ->
  0 <= i < Z.of_nat n ->
  calibrate_ideal_at val (repeat c n) i = val / Z.of_nat n.
Proof.
  intros Hc Hn Hmod Hi. unfold calibrate_ideal_at, shares.
  rewrite sumZ_repeat, map_repeat, sumZ_repeat.
  assert (Hsh : forall x, In x (repeat c n) ->
                  share val (Z.of_nat n * c) x = val / Z.of_nat n).
  { intros x Hx. apply repeat_spec in Hx. subst x. unfold share.
    apply Z.div_mul_cancel_r; lia. }
  rewrite !Hsh;
    try first [ apply zth_In; rewrite repeat_length; lia
              | destruct n; [lia|]; left; reflexivity ].
  pose proof (Z.div_exact val (Z.of_nat n) ltac:(lia)) as [_ He].
  specialize (He Hmod).
  destruct (Z.ltb_spec i (val - Z.of_nat n * (val / Z.of_nat n))); lia.
Qed.

(** The pure stretch.  When [nums * factor] is divisible by the
    number of bricks, [spl] succeeds as a pure stretch: the new table is
    the old one with each slot copied into its [factor] consecutive new
    slots, nothing is relocated, every brick holds [factor] times the
    slots it held, and the new weights are the calibration of
    [nums * factor].  The stretched table agrees with these weights when
    the capacities are all equal and the old table was perfectly
    balanced ([nums / numb] slots for every brick). *)
Lemma spl_pure_stretch :
  forall (vec : list bucket) (dcx : fsx32_dcx) (fact_bits : Z) (t : list Z),
    let nb := nums_bits dcx in
    let nums := 2 ^ nb in
    let factor := 2 ^ fact_bits in
    let n := Fsx32.numb dcx in
    let cs := caps_of n vec in
    tab dcx = Some t -> Z.of_nat (length t) = nums ->
    0 <= nb -> 0 <= fact_bits -> nb + fact_bits <= MAX_SHIFT ->
    1 <= n <= nums -> n <= Z.of_nat (length vec) ->
    (nums * factor) mod n = 0 ->
    0 < sumZ cs -> no_wrap (nums * factor) cs ->
    exists dcx' vec' w',
      spl_fsx32 vec dcx fact_bits = Ok (dcx', vec') /\
      tab dcx' = Some (stretch factor t) /\
      (forall id, count_id id (stretch factor t) = factor * count_id id t) /\
      nums_bits dcx' = nb + fact_bits /\
      Fsx32.numb dcx' = n /\
      weights dcx' = Some w' /\
      calibrated n (nums * factor) cs (zeros n) w' /\
      tab_ids vec' = tab_ids vec /\
      (forall c,
         0 < c ->
         (forall b, In b (firstn (Z.to_nat n) vec) -> b_cap b = c) ->
         (forall i, 0 <= i < n ->
                    count_id (zth (tab_ids vec) i) t = nums / n) ->
         forall i, 0 <= i < n ->
                   count_id (zth (tab_ids vec') i) (stretch factor t)
                   = zth w' i).
Proof.
  intros vec dcx fact_bits t nb nums factor n cs
         Ht Hlen Hnb Hfb Hbits Hn Hvec Hdiv HS Hw.
  unfold MAX_SHIFT in Hbits.
  assert (Hnums : 0 < nums) by (apply Z.pow_pos_nonneg; lia).
  assert (Hfac : 0 < factor) by (apply Z.pow_pos_nonneg; lia).
  assert (Hprod : nums * factor = 2 ^ (nb + fact_bits))
    by (unfold nums, factor; rewrite Z.pow_add_r by lia; reflexivity).
  assert (Hlt : nums * factor < 2 ^ 32).
  { rewrite Hprod. apply Z.pow_lt_mono_r; lia. }
  assert (Hnums32 : nums <= 2 ^ 31).
  { unfold nums. apply Z.pow_le_mono_r; lia. }
  assert (Hmod : nums mod n = 0) by (apply (pow2_divides n nb fact_bits); auto).
  assert (Hwb : wrap32 (nb + fact_bits) = nb + fact_bits).
  { unfold wrap32. apply Z.mod_small. lia. }
  assert (Hwn : wrap32 n = n).
  { unfold wrap32. apply Z.mod_small. lia. }
  unfold spl_fsx32. fold nb n. rewrite Hwb.
  destruct (Z.ltb_spec MAX_SHIFT (nb + fact_bits));
    [unfold MAX_SHIFT in *; lia|].
  rewrite shl1_pow by lia. rewrite <- Hprod.
  destruct (calibrate32_exact vec n (nums * factor) (zeros n))
    as (w' & Hcal & Hcd & _); auto; try lia.
  { unfold zeros. rewrite repeat_length. lia. }
  fold cs in Hcd. rewrite alloc32_Ok by lia. cbn [bind].
  rewrite Hcal. cbn [bind].
  unfold balance_spl. rewrite Hwn.
  destruct (Z.eqb_spec n 0); [lia|]. cbn [bind].
  rewrite !shl1_pow by lia. fold nums factor.
  rewrite Hmod. cbn [Z.eqb bind]. rewrite Ht. cbn [deref bind].
  rewrite stretch_tab_spec by (auto; lia). cbn [bind].
  destruct (release_fibers_spec n vec ltac:(lia)) as (vec' & Hrel & Hl' & Hc' & Hi').
  rewrite Hrel. cbn [bind].
  assert (Hids : tab_ids vec' = tab_ids vec).
  { unfold tab_ids. rewrite <- !(map_map b_id wrap32). congruence. }
  eexists _, vec', w'. split; [reflexivity|]. cbn [Fsx32.tab Fsx32.nums_bits Fsx32.numb weights].
  split; [reflexivity|].
  split; [intros id; apply count_id_stretch; lia|].
  split; [reflexivity|]. split; [reflexivity|]. split; [reflexivity|].
  split; [assumption|]. split; [assumption|].
  intros c Hc Heq Hbal i Hi.
  rewrite Hids, count_id_stretch, Hbal by lia.
  destruct Hcd as (_ & Hval & _). rewrite Hval by lia.
  assert (Hcs : cs = repeat c (Z.to_nat n)).
  { unfold cs, caps_of. rewrite (map_const b_cap c) by assumption.
    rewrite length_firstn. f_equal. lia. }
  rewrite Hcs, ideal_equal_caps; try lia.
  - rewrite Z2Nat.id by lia.
    apply Z.mod_divide in Hmod; [|lia]. destruct Hmod as [q Hq].
    rewrite Hq. rewrite Z.div_mul by lia.
    replace (q * n * factor) with (q * factor * n) by lia.
    rewrite Z.div_mul by lia. lia.
  - rewrite Z2Nat.id by lia. assumption.
Qed.

(** Four bricks of capacity 5 on a balanced table of [2 ^ 10] slots,
    doubled. *)
Lemma spl_pure_stretch_witness :
  let vec := bricks [(5, 10); (5, 11); (5, 12); (5, 13)] in
  let t := repeat 10 256 ++ repeat 11 256 ++ repeat 12 256 ++ repeat 13 256 in
  exists dcx' vec' w',
    spl_fsx32 vec (mk_dcx 4 10 None (Some t)) 1 = Ok (dcx', vec') /\
    tab dcx' = Some (stretch 2 t) /\
    weights dcx' = Some w' /\
    forall i, 0 <= i < 4 ->
              count_id (zth (tab_ids vec') i) (stretch 2 t) = zth w' i.
Proof.
  intros vec t.
  destruct (spl_pure_stretch vec (mk_dcx 4 10 None (Some t)) 1 t)
    as (dcx' & vec' & w' & H1 & H2 & _ & _ & _ & H3 & _ & _ & H4).
  - reflexivity.
  - reflexivity.
  - simpl. lia.
  - lia.
  - unfold MAX_SHIFT. simpl. lia.
  - simpl. lia.
  - simpl. lia.
  - reflexivity.
  - simpl. lia.
  - split.
    + simpl. intros c [<-|[<-|[<-|[<-|[]]]]]; lia.
    + simpl. lia.
  - exists dcx', vec', w'. split; [exact H1|]. split; [exact H2|].
    split; [exact H3|]. apply (H4 5).
    + lia.
    + simpl. intros b [<-|[<-|[<-|[<-|[]]]]]; reflexivity.
    + intros i Hi. cbn [Fsx32.numb] in Hi.
      assert (Hc : i = 0 \/ i = 1 \/ i = 2 \/ i = 3) by lia.
      destruct Hc as [-> | [-> | [-> | ->]]]; vm_compute; reflexivity.
Defined.

(** C5 (a defect of the code).  [balance_spl] takes the number of slots
    being divisible by the number of bricks for "everything is balanced"
    and leaves the stretched table as it is, whatever the new weights.
    On two bricks of capacities 1 and 2 and a table of [2 ^ 10] slots that
    satisfies the invariant (342 and 682 slots), [spl] with
    [fact_bits = 1] returns success with the pure stretch of the table,
    in which the bricks hold 684 and 1364 slots, and with the freshly
    calibrated weights 683 and 1365: the stretched table is not
    calibrated against the new weights and the invariant is lost. *)
Theorem spl_divisible_breaks_invariant :
  match stretch_example with
  | Ok (d, v, tab0) =>
      (2 ^ 10 * 2 ^ 1) mod Fsx32.numb d = 0 /\
      2 ^ 10 mod Fsx32.numb d = 0 /\
      nums_bits d = 11 /\
      map (fun id => count_id id tab0) (tab_ids v) = [342; 682] /\
      tab d = Some (stretch 2 tab0) /\
      weights d = Some [683; 1365] /\
      option_map (fun t => map (fun id => count_id id t) (tab_ids v)) (tab d)
      = Some [684; 1364] /\
      option_map (fsx_invariantb v d) (tab d) = Some false
  | _ => False
  end.
Proof. vm_compute. repeat split; reflexivity. Qed.

(** ** Reconfiguration: fibers, writes and differences *)

Lemma slots_from_In (id : Z) (tab : list Z) (p s : Z) :
  In s (slots_from id tab p) ->
  p <= s < p + Z.of_nat (length tab) /\ zth tab (s - p) = id.
Proof.
  revert p. induction tab as [|x t IH]; intros p H; [contradiction|].
  cbn [slots_from] in H. cbn [length]. rewrite Nat2Z.inj_succ.
  destruct (Z.eqb_spec x id) as [->|Hne].
  - destruct H as [<-|H].
    + split; [lia|]. rewrite Z.sub_diag. reflexivity.
    + destruct (IH _ H) as [Hr Hz]. split; [lia|].
      unfold zth in *.
      replace (Z.to_nat (s - p)) with (Datatypes.S (Z.to_nat (s - (p + 1))))
        by lia.
      exact Hz.
  - destruct (IH _ H) as [Hr Hz]. split; [lia|].
    unfold zth in *.
    replace (Z.to_nat (s - p)) with (Datatypes.S (Z.to_nat (s - (p + 1))))
      by lia.
    exact Hz.
Qed.

Lemma slots_from_NoDup (id : Z) (tab : list Z) (p : Z) :
  NoDup (slots_from id tab p).
Proof.
  revert p. induction tab as [|x t IH]; intros p; cbn [slots_from].
  - constructor.
  - destruct (x =? id); [|apply IH].
    constructor; [|apply IH].
    intros H. apply slots_from_In in H. lia.
Qed.

Lemma slots_of_In (id : Z) (tab : list Z) (s : Z) :
  In s (slots_of id tab) ->
  0 <= s < Z.of_nat (length tab) /\ zth tab s = id.
Proof.
  intros H. apply slots_from_In in H. rewrite Z.sub_0_r in H. lia.
Qed.

Lemma write_list_app (W1 W2 : list (Z * Z)) (t : list Z) :
  write_list (W1 ++ W2) t = write_list W2 (write_list W1 t).
Proof.
  revert t. induction W1 as [|[s v] r IH]; intros t; simpl; auto.
Qed.

Lemma length_write_list (W : list (Z * Z)) (t : list Z) :
  length (write_list W t) = length t.
Proof.
  revert t. induction W as [|[s v] r IH]; intros t; simpl; auto.
  rewrite IH. apply length_upd.
Qed.

Lemma zth_write_list_notin (W : list (Z * Z)) (t : list Z) (s : Z) :
  0 <= s -> (forall p, In p W -> 0 <= fst p) -> ~ In s (map fst W) ->
  zth (write_list W t) s = zth t s.
Proof.
  revert t. induction W as [|[s' v] r IH]; intros t Hs Hnn Hnot; simpl; auto.
  rewrite IH; auto.
  - unfold zth. apply nth_upd_neq.
    assert (0 <= s') by (apply (Hnn (s', v)); left; reflexivity).
    simpl in Hnot. intros E. apply Hnot. left. lia.
  - intros p Hp. apply Hnn. right. assumption.
  - simpl in Hnot. tauto.
Qed.

Lemma zth_write_list_in (W : list (Z * Z)) (t : list Z) (s v : Z) :
  NoDup (map fst W) ->
  (forall p, In p W -> 0 <= fst p < Z.of_nat (length t)) ->
  In (s, v) W ->
  zth (write_list W t) s = v.
Proof.
  revert t. induction W as [|[s' v'] r IH]; intros t Hnd Hr Hin;
    [contradiction|].
  simpl in Hnd. inversion Hnd as [|? ? Hnot Hnd']; subst.
  simpl. destruct Hin as [E|Hin].
  - inversion E; subst.
    assert (0 <= s < Z.of_nat (length t)) by (apply (Hr (s, v)); left; auto).
    rewrite zth_write_list_notin; auto; try lia.
    + unfold zth. apply nth_upd_eq. lia.
    + intros p Hp. apply Hr. right. assumption.
  - apply IH; auto.
    intros p Hp. rewrite length_upd. apply Hr. right. assumption.
Qed.

Lemma diff_count_upd (n : nat) (v : Z) (a b : list Z) :
  (n < length a)%nat -> length a = length b ->
  nth n b 0 = v -> nth n a 0 <> v ->
  diff_count a b = diff_count (upd n v a) b + 1.
Proof.
  revert n b. induction a as [|x a IH]; intros n [|y b] Hn Hl Hb Ha;
    simpl in Hn, Hl; try lia.
  destruct n as [|n]; simpl in Hb, Ha; cbn [upd diff_count].
  - subst y. destruct (Z.eqb_spec x v); [contradiction|].
    rewrite Z.eqb_refl. lia.
  - rewrite (IH n b); auto; lia.
Qed.

Lemma diff_count_refl (a : list Z) : diff_count a a = 0.
Proof.
  induction a as [|x a IH]; simpl; auto. rewrite Z.eqb_refl. lia.
Qed.

Lemma diff_count_write_list (W : list (Z * Z)) (t : list Z) :
  NoDup (map fst W) ->
  (forall s v, In (s, v) W -> 0 <= s < Z.of_nat (length t) /\ zth t s <> v) ->
  diff_count t (write_list W t) = Z.of_nat (length W).
Proof.
  revert t. induction W as [|[s v] r IH]; intros t Hnd HW.
  - simpl. apply diff_count_refl.
  - simpl in Hnd. inversion Hnd as [|? ? Hnot Hnd']; subst.
    destruct (HW s v ltac:(left; reflexivity)) as [Hs Hv].
    cbn [write_list length]. rewrite Nat2Z.inj_succ.
    rewrite (diff_count_upd (Z.to_nat s) v t).
    + rewrite IH; [lia|exact Hnd'|].
      intros s' v' Hin. rewrite length_upd.
      destruct (HW s' v' ltac:(right; assumption)) as [Hs' Hv'].
      split; [assumption|].
      assert (s' <> s).
      { intros ->. apply Hnot. change s with (fst (s, v')).
        apply in_map. assumption. }
      unfold zth. rewrite nth_upd_neq by lia. exact Hv'.
    + lia.
    + rewrite length_write_list, length_upd. reflexivity.
    + fold (zth (write_list r (upd (Z.to_nat s) v t)) s).
      rewrite zth_write_list_notin; auto; try lia.
      * unfold zth. apply nth_upd_eq. lia.
      * intros p Hp. destruct p as [s' v'].
        destruct (HW s' v' ltac:(right; assumption)). simpl. lia.
    + exact Hv.
Qed.

Lemma zrange_snoc (lo i : Z) :
  lo <= i -> zrange lo (i + 1) = zrange lo i ++ [i].
Proof.
  intros H. unfold zrange.
  replace (Z.to_nat (i + 1 - lo)) with (Datatypes.S (Z.to_nat (i - lo))) by lia.
  rewrite seq_S, map_app. simpl. do 2 f_equal. lia.
Qed.

Lemma zrange_empty (lo hi : Z) : hi <= lo -> zrange lo hi = [].
Proof.
  intros H. unfold zrange. replace (Z.to_nat (hi - lo)) with 0%nat by lia.
  reflexivity.
Qed.

Lemma zrange_In (lo hi i : Z) : In i (zrange lo hi) <-> lo <= i < hi.
Proof.
  unfold zrange. rewrite in_map_iff. split.
  - intros (k & <- & Hk). apply in_seq in Hk. lia.
  - intros H. exists (Z.to_nat (i - lo)). split; [lia|].
    apply in_seq. lia.
Qed.

(** A loop each iteration of which performs a list of writes that
    depends on the index only. *)
Lemma for_write_list (g : Z -> list (Z * Z))
    (body : Z -> list Z -> res (list Z)) (lo hi : Z) (t t' : list Z) :
  lo <= hi ->
  (forall i u u', lo <= i < hi -> body i u = Ok u' -> u' = write_list (g i) u) ->
  for_ lo hi body t = Ok t' ->
  t' = write_list (flat_map g (zrange lo hi)) t.
Proof.
  intros Hle Hstep H.
  apply (for_inv (fun i u => lo <= i /\
                    u = write_list (flat_map g (zrange lo i)) t)
                 body lo hi t t' Hle); auto.
  - split; [lia|]. rewrite zrange_empty by lia. reflexivity.
  - intros i u u' Hi [_ ->] Hb. split; [lia|].
    rewrite zrange_snoc by lia. rewrite flat_map_app, write_list_app.
    simpl. rewrite app_nil_r. eapply Hstep; eauto.
Qed.

(** What every successful iteration establishes holds for every index. *)
Lemma for_facts {St : Type} (Q : Z -> Prop) (body : Z -> St -> res St)
    (lo hi : Z) (s s' : St) :
  lo <= hi ->
  (forall i u u', lo <= i < hi -> body i u = Ok u' -> Q i) ->
  for_ lo hi body s = Ok s' ->
  forall i, lo <= i < hi -> Q i.
Proof.
  intros Hle Hstep H.
  apply (for_inv (fun i (_ : St) => forall k, lo <= k < i -> Q k)
                 body lo hi s s' Hle); auto.
  - intros k Hk. lia.
  - intros i u u' Hi HQ Hb k Hk.
    destruct (Z.eq_dec k i) as [->|]; [eapply Hstep; eauto|apply HQ; lia].
Qed.

Lemma for_first {St : Type} (body : Z -> St -> res St) (lo hi : Z) (s s' : St) :
  lo < hi -> for_ lo hi body s = Ok s' -> exists x, body lo s = Ok x.
Proof.
  intros Hlt H. unfold for_ in H.
  replace (Z.to_nat (hi - lo)) with (Datatypes.S (Z.to_nat (hi - lo - 1)))
    in H by lia.
  cbn [for_loop] in H. bind_inv H. eauto.
Qed.

(** *** The sum of a 32-bit calibration, whatever wraps *)

Lemma cong_add (a a' b b' m : Z) :
  m <> 0 -> a mod m = a' mod m -> b mod m = b' mod m ->
  (a + b) mod m = (a' + b') mod m.
Proof.
  intros Hm Ha Hb. rewrite Z.add_mod, Ha, Hb, <- Z.add_mod by assumption.
  reflexivity.
Qed.

Lemma wrap64_mod32 (a : Z) : wrap64 a mod 2 ^ 32 = a mod 2 ^ 32.
Proof.
  unfold wrap64. apply Z.mod_mod_divide. exists (2 ^ 32). reflexivity.
Qed.

Lemma In_upd (n : nat) (v x : Z) (l : list Z) :
  In x (upd n v l) -> x = v \/ In x l.
Proof.
  revert n. induction l as [|h t IH]; intros [|n]; simpl; try tauto.
  - intros [<-|H]; auto.
  - intros [<-|H]; auto. destruct (IH _ H); auto.
Qed.

Lemma calibrate32_sum_mod (vec : list bucket) (num val : Z) (out : list Z) :
  0 <= num ->
  calibrate num val vec cap_at (zeros num)
            array32_el_get array32_el_set = Ok out ->
  Z.of_nat (length out) = num /\
  (forall x, In x out -> 0 <= x < 2 ^ 32) /\
  sumZ out mod 2 ^ 32 = val mod 2 ^ 32.
Proof.
  intros Hn H. unfold calibrate in H.
  apply bind_Ok_inv in H. destruct H as (S & _ & H).
  apply bind_Ok_inv in H. destruct H as ([r ss] & H2 & H3).
  assert (Hret : Z.of_nat (length (zeros num)) = num).
  { unfold zeros. rewrite repeat_length. lia. }
  assert (P2 : Z.of_nat (length r) = num /\
               (forall x, In x r -> 0 <= x < 2 ^ 32) /\
               sumZ r mod 2 ^ 32 = ss mod 2 ^ 32).
  { pose (P := fun (i : Z) (st : list Z * Z) =>
         Z.of_nat (length (fst st)) = num /\
         (forall x, In x (fst st) -> 0 <= x < 2 ^ 32) /\
         (forall j, i <= j -> zth (fst st) j = 0) /\
         sumZ (fst st) mod 2 ^ 32 = snd st mod 2 ^ 32).
    assert (Hinv : P num (r, ss)); [|unfold P in Hinv; cbn [fst snd] in Hinv; tauto].
    refine (for_inv P _ _ _ _ _ Hn _ _ H2); unfold P; cbn [fst snd].
    - split; [assumption|]. split; [|split].
      + intros x Hx. apply repeat_spec in Hx. subst. lia.
      + intros j Hj. unfold zth, zeros.
        destruct (Nat.lt_ge_cases (Z.to_nat j) (Z.to_nat num)).
        * apply nth_repeat_lt. assumption.
        * apply nth_overflow. rewrite repeat_length. assumption.
      + unfold zeros. rewrite sumZ_repeat. rewrite Z.mul_0_r.
        reflexivity.
    - intros j [u us] [u' us'] Hj (A & B & C & D) Hb. cbn [fst snd] in *.
      bind_inv Hb. bind_inv Hb. bind_inv Hb. inversion Hb; subst u' us'.
      unfold array32_el_set in E1. apply aset_Ok_inv in E1.
      destruct E1 as [Hr ->]. split; [|split; [|split]].
      + rewrite length_upd. assumption.
      + intros y Hy. apply In_upd in Hy. destruct Hy as [->|Hy]; auto.
        unfold wrap32. apply Z.mod_pos_bound. lia.
      + intros k Hk. unfold zth. rewrite nth_upd_neq by lia. apply C. lia.
      + rewrite sumZ_upd by lia. fold (zth u j). rewrite (C j) by lia.
        rewrite Z.sub_0_r. rewrite wrap64_mod32.
        apply cong_add; [lia|assumption|].
        unfold wrap32. apply Z.mod_mod. lia. }
  destruct P2 as (A & B & D).
  assert (Hrest : 0 <= wrap64 (val - ss))
    by (unfold wrap64; apply Z.mod_pos_bound; lia).
  pose (P := fun (i : Z) (u : list Z) =>
         Z.of_nat (length u) = num /\
         (forall x, In x u -> 0 <= x < 2 ^ 32) /\
         sumZ u mod 2 ^ 32 = (ss + i) mod 2 ^ 32).
  assert (Hinv : P (wrap64 (val - ss)) out).
  { refine (for_inv P _ _ _ _ _ Hrest _ _ H3); unfold P.
  - split; [assumption|]. split; [assumption|].
    rewrite Z.add_0_r. assumption.
  - intros j u u' Hj (A' & B' & D') Hb.
    bind_inv Hb. unfold array32_el_get in E. apply aget_Ok_inv in E.
    destruct E as [Hr ->].
    unfold array32_el_set in Hb. apply aset_Ok_inv in Hb.
    destruct Hb as [_ ->]. split; [|split].
    + rewrite length_upd. assumption.
    + intros y Hy. apply In_upd in Hy. destruct Hy as [->|Hy]; auto.
      unfold wrap32. apply Z.mod_pos_bound. lia.
    + rewrite sumZ_upd by lia.
      replace (sumZ u + wrap32 (wrap64 (nth (Z.to_nat j) u 0 + 1))
               - nth (Z.to_nat j) u 0)
        with ((sumZ u - nth (Z.to_nat j) u 0)
              + wrap32 (wrap64 (nth (Z.to_nat j) u 0 + 1))) by lia.
      replace (ss + (j + 1))
        with ((ss + j - nth (Z.to_nat j) u 0) + (nth (Z.to_nat j) u 0 + 1))
        by lia.
      apply cong_add; [lia| |].
      * rewrite <- !Z.add_opp_r. apply cong_add; [lia|assumption|reflexivity].
      * unfold wrap32. rewrite Z.mod_mod by lia. apply wrap64_mod32. }
  unfold P in Hinv. destruct Hinv as (A' & B' & D').
  split; [assumption|]. split; [assumption|].
  rewrite D'. replace val with (ss + (val - ss)) at 2 by lia.
  apply cong_add; [lia|reflexivity|apply wrap64_mod32].
Qed.

(** *** [balance_inc] *)

Lemma fib_at_Ok (vec : list bucket) (i : Z) :
  0 <= i < Z.of_nat (length vec) ->
  fib_at vec i = Ok (b_fib (nth (Z.to_nat i) vec bucket0)).
Proof.
  intros H. unfold fib_at. rewrite bucket_at_Ok by assumption. reflexivity.
Qed.

Lemma idx2id_Ok (vec : list bucket) (i : Z) :
  0 <= i < Z.of_nat (length vec) ->
  idx2id vec i = Ok (b_id (nth (Z.to_nat i) vec bucket0)).
Proof.
  intros H. unfold idx2id. rewrite bucket_at_Ok by assumption. reflexivity.
Qed.

Lemma zth_tab_ids (vec : list bucket) (i : Z) :
  0 <= i < Z.of_nat (length vec) ->
  zth (tab_ids vec) i = wrap32 (b_id (nth (Z.to_nat i) vec bucket0)).
Proof.
  intros H. unfold zth, tab_ids.
  rewrite (nth_indep _ 0 (wrap32 (b_id bucket0)))
    by (rewrite length_map; lia).
  apply (map_nth (fun b => wrap32 (b_id b))).
Qed.

Lemma NoDup_skipn {A : Type} (n : nat) (l : list A) :
  NoDup l -> NoDup (skipn n l).
Proof.
  intros H. rewrite <- (firstn_skipn n l) in H.
  eapply NoDup_app_remove_l; eauto.
Qed.

Lemma NoDup_firstn {A : Type} (n : nat) (l : list A) :
  NoDup l -> NoDup (firstn n l).
Proof.
  intros H. rewrite <- (firstn_skipn n l) in H.
  eapply NoDup_app_remove_r; eauto.
Qed.

Lemma In_skipn_In {A : Type} (n : nat) (l : list A) (x : A) :
  In x (skipn n l) -> In x l.
Proof.
  intros H. rewrite <- (firstn_skipn n l). apply in_or_app. auto.
Qed.

Lemma firstn_skipn_snoc (a j : nat) (f : list Z) :
  (a + j < length f)%nat ->
  firstn (Datatypes.S j) (skipn a f) = firstn j (skipn a f) ++ [nth (a + j) f 0].
Proof.
  intros H. rewrite (firstn_snoc j (skipn a f) 0).
  - rewrite nth_skipn. reflexivity.
  - rewrite length_skipn. lia.
Qed.

Lemma hand_app (id : Z) (l1 l2 : list Z) :
  hand id (l1 ++ l2) = hand id l1 ++ hand id l2.
Proof. unfold hand. apply map_app. Qed.

Lemma map_fst_hand (id : Z) (l : list Z) : map fst (hand id l) = l.
Proof.
  unfold hand. rewrite map_map. simpl. apply map_id.
Qed.

(** The inner loop of [balance_inc] on a brick whose fiber [f] is
    attached and whose excess is computed from its length: if it
    succeeds, the new weight does not exceed the length, and the whole
    tail of the fiber from the new weight on goes to the target. *)
Lemma steal_tail_inv (vec : list bucket) (nw : list Z) (tp i e : Z)
    (f u u' : list Z) :
  0 <= i < Z.of_nat (length vec) -> 0 <= tp < Z.of_nat (length vec) ->
  b_fib (nth (Z.to_nat i) vec bucket0) = Some f ->
  Z.of_nat (length f) < 2 ^ 32 ->
  0 <= zth nw i < 2 ^ 32 -> 0 <= i < Z.of_nat (length nw) ->
  e = wrap32 (Z.of_nat (length f) - zth nw i) ->
  steal_tail vec nw tp i e u = Ok u' ->
  zth nw i <= Z.of_nat (length f) /\
  u' = write_list
         (hand (wrap32 (b_id (nth (Z.to_nat tp) vec bucket0)))
               (skipn (Z.to_nat (zth nw i)) f)) u.
Proof.
  intros Hi Htp Hf Hlf Hnw Hinw He H.
  set (n := zth nw i) in *. set (len := Z.of_nat (length f)) in *.
  set (v := wrap32 (b_id (nth (Z.to_nat tp) vec bucket0))).
  assert (He0 : 0 <= e) by (subst e; apply Z.mod_pos_bound; lia).
  unfold steal_tail in H.
  assert (Hcase : n <= len /\ e = len - n).
  { destruct (Z.eq_dec e 0) as [E0|E0].
    - assert (n = len); [|lia].
      rewrite E0 in He. symmetry in He. unfold wrap32 in He.
      apply Z.mod_divide in He; [|lia]. destruct He as [q Hq]. lia.
    - destruct (for_first _ 0 e u u' ltac:(lia) H) as (x & Hx).
      bind_inv Hx. bind_inv Hx. bind_inv Hx.
      apply aget_Ok_inv in E. destruct E as [_ ->]. fold (zth nw i) in E1.
      fold n in E1. unfold fib_read in E1. rewrite fib_at_Ok in E1 by lia.
      cbn [bind] in E1. rewrite Hf in E1. cbn [deref bind] in E1.
      apply aget_Ok_inv in E1. destruct E1 as [Hr _].
      rewrite Z.add_0_r in Hr. unfold wrap32 in Hr.
      rewrite Z.mod_small in Hr by lia. fold len in Hr.
      split; [lia|]. subst e. unfold wrap32. apply Z.mod_small. lia. }
  destruct Hcase as [Hle He']. split; [assumption|].
  pose (P := fun (j : Z) (t : list Z) =>
               t = write_list
                     (hand v (firstn (Z.to_nat j) (skipn (Z.to_nat n) f))) u).
  assert (HP : P e u').
  { refine (for_inv P _ _ _ _ _ He0 _ _ H); unfold P.
    - reflexivity.
    - intros j t t' Hj -> Hb.
      bind_inv Hb. bind_inv Hb. bind_inv Hb.
      apply aget_Ok_inv in E. destruct E as [_ ->]. fold (zth nw i) in E0.
      fold n in E0. unfold fib_read in E0. rewrite fib_at_Ok in E0 by lia.
      cbn [bind] in E0. rewrite Hf in E0. cbn [deref bind] in E0.
      assert (Hw : wrap32 (n + j) = n + j)
        by (unfold wrap32; apply Z.mod_small; lia).
      rewrite Hw in E0.
      apply aget_Ok_inv in E0. destruct E0 as [Hr ->].
      rewrite idx2id_Ok in E1 by lia. inversion E1; subst x1.
      apply aset_Ok_inv in Hb. destruct Hb as [_ ->].
      replace (Z.to_nat (j + 1)) with (Datatypes.S (Z.to_nat j)) by lia.
      rewrite firstn_skipn_snoc by lia.
      rewrite hand_app, write_list_app. cbn [hand map write_list].
      fold v. do 3 f_equal. lia. }
  unfold P in HP. rewrite HP. do 2 f_equal.
  apply firstn_all2. rewrite length_skipn. lia.
Qed.

(** A loop that stores [h i] at index [i] of an array. *)
Lemma for_fill (h : Z -> Z) (body : Z -> list Z -> res (list Z))
    (lo hi : Z) (x x' : list Z) :
  0 <= lo <= hi ->
  (forall i u u', lo <= i < hi -> body i u = Ok u' ->
                  u' = upd (Z.to_nat i) (h i) u /\
                  i < Z.of_nat (length u)) ->
  for_ lo hi body x = Ok x' ->
  length x' = length x /\
  (forall i, lo <= i < hi -> zth x' i = h i) /\
  (forall i, 0 <= i -> ~ (lo <= i < hi) -> zth x' i = zth x i).
Proof.
  intros Hle Hstep H.
  pose (P := fun (k : Z) (u : list Z) =>
               length u = length x /\
               (forall i, lo <= i < k -> zth u i = h i) /\
               (forall i, 0 <= i -> ~ (lo <= i < k) -> zth u i = zth x i)).
  assert (HP : P hi x').
  { refine (for_inv P _ _ _ _ _ (proj2 Hle) _ _ H); unfold P.
    - split; [reflexivity|]. split; [intros; lia|auto].
    - intros k u u' Hk (A & B & C) Hb.
      destruct (Hstep k u u' Hk Hb) as [-> Hr].
      split; [rewrite length_upd; assumption|]. split.
      + intros i Hi. destruct (Z.eq_dec i k) as [->|Hne].
        * unfold zth. apply nth_upd_eq. lia.
        * unfold zth. rewrite nth_upd_neq by lia. apply B. lia.
      + intros i Hi Hnot. unfold zth. rewrite nth_upd_neq by lia.
        apply C; [assumption|lia]. }
  exact HP.
Qed.

Lemma map_seq_shift (b : nat) :
  forall (lo : Z) (a : nat),
    map (fun k => lo + Z.of_nat k) (seq a b)
    = map (fun k => lo + Z.of_nat a + Z.of_nat k) (seq 0 b).
Proof.
  induction b as [|b IH]; intros lo a; cbn [seq map]; [reflexivity|].
  f_equal; [lia|].
  rewrite (IH lo (Datatypes.S a)), (IH (lo + Z.of_nat a) 1%nat).
  apply map_ext. intros k. lia.
Qed.

Lemma zrange_split (lo mid hi : Z) :
  lo <= mid < hi -> zrange lo hi = zrange lo mid ++ mid :: zrange (mid + 1) hi.
Proof.
  intros H. unfold zrange.
  replace (Z.to_nat (hi - lo))
    with (Z.to_nat (mid - lo) + Datatypes.S (Z.to_nat (hi - (mid + 1))))%nat
    by lia.
  rewrite seq_app, map_app. f_equal. cbn [seq map]. f_equal; [lia|].
  rewrite map_seq_shift. apply map_ext. intros k. lia.
Qed.

Lemma NoDup_zrange (lo hi : Z) : NoDup (zrange lo hi).
Proof.
  unfold zrange. apply Injective_map_NoDup.
  - intros a b Hab. lia.
  - apply seq_NoDup.
Qed.

Section BalanceInc.

Variables (vec : list bucket) (tab ow nw : list Z) (tp : Z)
          (new : option bucket).

Let n := Z.of_nat (length vec).

(** The fiber of the brick at position [i]. *)
Let fib (i : Z) : list Z :=
  slots_of (wrap32 (b_id (nth (Z.to_nat i) vec bucket0))) tab.

Let v := wrap32 (b_id (nth (Z.to_nat tp) vec bucket0)).

Hypothesis Hn : n < 2 ^ 32.
Hypothesis Htp : 0 <= tp < n.
Hypothesis Hnw : Z.of_nat (length nw) = n.
Hypothesis Hnw_range : forall i, 0 <= i < n -> 0 <= zth nw i < 2 ^ 32.
Hypothesis Hold :
  Z.of_nat (length ow) = n - match new with Some _ => 1 | None => 0 end.
Hypothesis Htab : Z.of_nat (length tab) < 2 ^ 32.
Hypothesis Hfib :
  forall i, 0 <= i < n -> i <> tp ->
            fiber_ok tab (nth (Z.to_nat i) vec bucket0)
                     (zth ow (old_pos_inc tp new i)).

Lemma fib_length_bound (i : Z) : Z.of_nat (length (fib i)) < 2 ^ 32.
Proof.
  assert (H : forall id t p,
            (length (slots_from id t p) <= length t)%nat).
  { intros id t. induction t as [|x t IH]; intros p; simpl; [lia|].
    destruct (x =? id); simpl; specialize (IH (p + 1)); lia. }
  unfold fib, slots_of. specialize (H (wrap32 (b_id (nth (Z.to_nat i) vec bucket0))) tab 0).
  lia.
Qed.

(** The writes of [balance_inc]: every donor hands the tail of its
    fiber, from its new weight on, to the target. *)
Let tail (i : Z) : list (Z * Z) :=
  hand v (skipn (Z.to_nat (zth nw i)) (fib i)).

Let donors : list Z := zrange 0 tp ++ zrange (tp + 1) n.

Lemma balance_inc_inv (t' : list Z) :
  balance_inc n tab (Some ow) nw tp vec new = Ok t' ->
  (forall i, 0 <= i < n -> i <> tp ->
             zth nw i <= zth ow (old_pos_inc tp new i)) /\
  t' = write_list (flat_map tail donors) tab.
Proof.
  intros H. unfold balance_inc in H.
  assert (Hw : wrap32 (tp + 1) = tp + 1)
    by (unfold wrap32; apply Z.mod_small; lia).
  rewrite Hw in H.
  bind_inv H. apply alloc32_Ok_inv in E. destruct E as [_ ->].
  bind_inv H. bind_inv H. bind_inv H.
  rename x into exc1, x0 into exc2, x1 into tab1.
  set (h := fun i => wrap32 (zth ow (old_pos_inc tp new i) - zth nw i)).
  assert (Lalloc : Z.of_nat (length (zeros n)) = n).
  { unfold zeros. rewrite repeat_length. lia. }
  (* the excess vector *)
  pose proof (fun Hs => for_fill h _ 0 tp _ _ ltac:(lia) Hs E) as F1.
  destruct F1 as (L1 & V1 & _).
  { intros i u u' Hi Hb. bind_inv Hb. bind_inv Hb.
    unfold pget in E2. cbn [deref bind] in E2.
    apply aget_Ok_inv in E2. destruct E2 as [_ ->].
    apply aget_Ok_inv in E3. destruct E3 as [_ ->].
    apply aset_Ok_inv in Hb. destruct Hb as [Hr ->].
    split; [|lia]. f_equal. unfold h, old_pos_inc, zth.
    destruct new; [|reflexivity].
    destruct (Z.ltb_spec tp i); [lia|reflexivity]. }
  pose proof (fun Hs => for_fill h _ (tp + 1) n _ _ ltac:(lia) Hs E0) as F2.
  destruct F2 as (L2 & V2 & U2).
  { intros i u u' Hi Hb. bind_inv Hb. bind_inv Hb.
    apply aget_Ok_inv in E3. destruct E3 as [_ ->].
    apply aset_Ok_inv in Hb. destruct Hb as [Hr ->].
    split; [|lia]. f_equal. unfold h, old_pos_inc, zth.
    destruct new.
    - unfold pget in E2. cbn [deref bind] in E2.
      apply aget_Ok_inv in E2. destruct E2 as [_ ->].
      destruct (Z.ltb_spec tp i); [reflexivity|lia].
    - unfold pget in E2. cbn [deref bind] in E2.
      apply aget_Ok_inv in E2. destruct E2 as [_ ->]. reflexivity. }
  assert (Hexc : forall i, 0 <= i < n -> i <> tp -> zth exc2 i = h i).
  { intros i Hi Hne. destruct (Z_lt_dec i tp).
    - rewrite U2 by lia. apply V1. lia.
    - apply V2. lia. }
  assert (Lexc : Z.of_nat (length exc2) = n) by lia.
  (* one donor *)
  assert (Hsteal : forall i u u',
            0 <= i < n -> i <> tp ->
            steal_tail vec nw tp i (zth exc2 i) u = Ok u' ->
            zth nw i <= zth ow (old_pos_inc tp new i) /\
            u' = write_list (tail i) u).
  { intros i u u' Hi Hne Hs.
    destruct (Hfib i Hi Hne) as [Hf Hl].
    destruct (steal_tail_inv vec nw tp i (zth exc2 i) (fib i) u u')
      as [A B]; auto; try lia.
    - apply fib_length_bound.
    - rewrite Hexc by assumption. unfold h. rewrite Hl. reflexivity.
    - rewrite Hl. split; assumption. }
  assert (Hleft : forall i u u',
            0 <= i < tp ->
            (e <- aget exc2 i ;; steal_tail vec nw tp i e u) = Ok u' ->
            zth nw i <= zth ow (old_pos_inc tp new i) /\
            u' = write_list (tail i) u).
  { intros i u u' Hi Hb. bind_inv Hb.
    apply aget_Ok_inv in E2. destruct E2 as [_ ->].
    apply Hsteal; auto; lia. }
  assert (Hright : forall i u u',
            tp + 1 <= i < n ->
            (nwi <- aget nw i ;;
             _ <- for_ 0 nwi (fun _ w => _ <- fib_at vec i ;; Ok w) tt ;;
             e <- aget exc2 i ;;
             steal_tail vec nw tp i e u) = Ok u' ->
            zth nw i <= zth ow (old_pos_inc tp new i) /\
            u' = write_list (tail i) u).
  { intros i u u' Hi Hb. bind_inv Hb. bind_inv Hb. bind_inv Hb.
    apply aget_Ok_inv in E4. destruct E4 as [_ ->].
    apply Hsteal; auto; lia. }
  split.
  - intros i Hi Hne. destruct (Z_lt_dec i tp).
    + apply (for_facts (fun i => zth nw i <= zth ow (old_pos_inc tp new i))
                       _ 0 tp _ _ ltac:(lia)
                       (fun i u u' Hi Hb => proj1 (Hleft i u u' Hi Hb)) E1).
      lia.
    + apply (for_facts (fun i => zth nw i <= zth ow (old_pos_inc tp new i))
                       _ (tp + 1) n _ _ ltac:(lia)
                       (fun i u u' Hi Hb => proj1 (Hright i u u' Hi Hb)) H).
      lia.
  - unfold donors. rewrite flat_map_app, write_list_app.
    rewrite <- (for_write_list tail _ 0 tp tab tab1 ltac:(lia)
                  (fun i u u' Hi Hb => proj2 (Hleft i u u' Hi Hb)) E1).
    apply (for_write_list tail _ (tp + 1) n tab1 t' ltac:(lia)
             (fun i u u' Hi Hb => proj2 (Hright i u u' Hi Hb)) H).
Qed.

End BalanceInc.

(** *** Counting the writes *)

Lemma NoDup_flat_map_disjoint {A : Type} (g : Z -> list A) (L : list Z) :
  NoDup L ->
  (forall i, In i L -> NoDup (g i)) ->
  (forall i j x, In i L -> In j L -> i <> j -> In x (g i) -> ~ In x (g j)) ->
  NoDup (flat_map g L).
Proof.
  induction L as [|i L IH]; intros Hnd Hg Hdis; simpl; [constructor|].
  inversion Hnd as [|? ? Hnot Hnd']; subst.
  apply NoDup_app.
  - apply Hg. left. reflexivity.
  - apply IH; auto.
    + intros j Hj. apply Hg. right. assumption.
    + intros a b x Ha Hb. apply Hdis; right; assumption.
  - intros x Hx Hin. apply in_flat_map in Hin. destruct Hin as (j & Hj & Hxj).
    apply (Hdis i j x); auto.
    + left. reflexivity.
    + right. assumption.
    + intros ->. contradiction.
Qed.

Lemma map_flat_map {A B C : Type} (f : B -> C) (g : A -> list B) (l : list A) :
  map f (flat_map g l) = flat_map (fun x => map f (g x)) l.
Proof.
  induction l as [|x l IH]; simpl; auto. rewrite map_app, IH. reflexivity.
Qed.

Lemma length_flat_map_sum {A : Type} (g : Z -> list A) (L : list Z) :
  Z.of_nat (length (flat_map g L))
  = sumZ (map (fun i => Z.of_nat (length (g i))) L).
Proof.
  induction L as [|i L IH]; simpl; [reflexivity|].
  rewrite length_app, Nat2Z.inj_add, IH. reflexivity.
Qed.

Lemma sumZ_map_ext (f g : Z -> Z) (L : list Z) :
  (forall x, In x L -> f x = g x) -> sumZ (map f L) = sumZ (map g L).
Proof. intros H. f_equal. apply map_ext_in. assumption. Qed.

Lemma sumZ_map_le_pointwise (f g : Z -> Z) (L : list Z) :
  (forall x, In x L -> f x <= g x) -> sumZ (map f L) <= sumZ (map g L).
Proof.
  induction L as [|x L IH]; simpl; intros H; [lia|].
  assert (f x <= g x) by (apply H; auto).
  assert (sumZ (map f L) <= sumZ (map g L)) by (apply IH; auto). lia.
Qed.

Lemma sumZ_zrange (l : list Z) :
  sumZ l = sumZ (map (zth l) (zrange 0 (Z.of_nat (length l)))).
Proof.
  f_equal. apply nth_ext with (d := 0) (d' := 0).
  - unfold zrange. rewrite !length_map, length_seq. lia.
  - intros k Hk. unfold zrange. rewrite map_map.
    set (L := seq 0 (Z.to_nat (Z.of_nat (length l) - 0))).
    rewrite (nth_indep (map (fun x => zth l (0 + Z.of_nat x)) L)
                       0 (zth l (0 + Z.of_nat 0)))
      by (unfold L; rewrite length_map, length_seq; lia).
    rewrite (map_nth (fun x => zth l (0 + Z.of_nat x)) L 0%nat k).
    unfold L. rewrite seq_nth by lia. unfold zth. f_equal. lia.
Qed.

Lemma NoDup_nth_neq (l : list Z) (i j : Z) :
  NoDup l -> 0 <= i < Z.of_nat (length l) -> 0 <= j < Z.of_nat (length l) ->
  i <> j -> zth l i <> zth l j.
Proof.
  intros Hnd Hi Hj Hne E. unfold zth in E.
  apply (proj1 (NoDup_nth l 0) Hnd) in E; lia.
Qed.

Lemma length_tab_ids (vec : list bucket) : length (tab_ids vec) = length vec.
Proof. unfold tab_ids. apply length_map. Qed.

(** If two weight vectors of the same length are congruent in sum
    modulo [2 ^ 32], the old one sums to at most [2 ^ 31], and no entry
    but [tp] has grown, then entry [tp] has not shrunk. *)
Lemma target_not_shrunk (ow nw : list Z) (tp total : Z) :
  length ow = length nw ->
  0 <= tp < Z.of_nat (length nw) ->
  sumZ ow = total -> 0 <= total <= 2 ^ 31 ->
  sumZ nw mod 2 ^ 32 = total mod 2 ^ 32 ->
  (forall x, In x nw -> 0 <= x) ->
  (forall i, 0 <= i < Z.of_nat (length nw) -> i <> tp -> zth nw i <= zth ow i) ->
  zth ow tp <= zth nw tp.
Proof.
  intros Hl Htp Hs Ht Hm Hnn Hle.
  destruct (Z_le_dec (zth ow tp) (zth nw tp)) as [|Hlt]; [assumption|].
  exfalso.
  assert (Hsum : sumZ nw < sumZ ow).
  { rewrite (sumZ_zrange nw), (sumZ_zrange ow), Hl.
    rewrite (zrange_split 0 tp) by lia.
    rewrite !map_app, !sumZ_app. cbn [map sumZ].
    assert (sumZ (map (zth nw) (zrange 0 tp))
            <= sumZ (map (zth ow) (zrange 0 tp))).
    { apply sumZ_map_le_pointwise. intros x Hx. apply zrange_In in Hx.
      apply Hle; lia. }
    assert (sumZ (map (zth nw) (zrange (tp + 1) (Z.of_nat (length nw))))
            <= sumZ (map (zth ow) (zrange (tp + 1) (Z.of_nat (length nw))))).
    { apply sumZ_map_le_pointwise. intros x Hx. apply zrange_In in Hx.
      apply Hle; lia. }
    lia. }
  assert (Hnw0 : 0 <= sumZ nw) by (apply sumZ_nonneg; assumption).
  assert (Hd : (sumZ ow - sumZ nw) mod 2 ^ 32 = 0).
  { rewrite Zminus_mod, Hm, Hs, Z.sub_diag. reflexivity. }
  rewrite Z.mod_small in Hd by lia. lia.
Qed.

(** *** [inc] moves no more than the excess *)

Lemma inc_minimal (vec : list bucket) (dcx : fsx32_dcx) (tab : list Z)
    (tp : Z) (new : option bucket) (ow : list Z)
    (dcx' : fsx32_dcx) (vec' : list bucket) :
  wf_inc vec dcx tab tp new ow ->
  inc_fsx32 vec dcx tab tp new = Ok (dcx', vec') ->
  exists t' nw,
    Fsx32.tab dcx' = Some t' /\ weights dcx' = Some nw /\
    length t' = length tab /\
    Z.of_nat (length nw) = Z.of_nat (length vec) /\
    diff_count tab t' = moved_inc ow nw tp new /\
    (forall s, 0 <= s -> zth t' s <> zth tab s ->
               zth t' s = zth (tab_ids vec) tp /\
               exists i, 0 <= i < Z.of_nat (length vec) /\ i <> tp /\
                         zth tab s = zth (tab_ids vec) i).
Proof.
  intros [Hw Hbits Htab Hsum Hnumb Hmax Hvec Htp Hids Hfib] H.
  unfold MAX_SHIFT in Hbits. unfold MAX_BUCKETS, MAX_SHIFT in Hmax.
  set (n := Z.of_nat (length vec)) in *.
  assert (Hnumb0 : 0 <= Fsx32.numb dcx) by lia.
  assert (Hnums : shl1 (nums_bits dcx) = 2 ^ nums_bits dcx)
    by (apply shl1_pow; lia).
  assert (Hnums31 : 0 < 2 ^ nums_bits dcx <= 2 ^ 31).
  { split; [apply Z.pow_pos_nonneg; lia|apply Z.pow_le_mono_r; lia]. }
  unfold inc_fsx32 in H. cbv zeta in H.
  replace (wrap32 (Fsx32.numb dcx)) with (Fsx32.numb dcx) in H
    by (unfold wrap32; rewrite Z.mod_small; lia).
  bind_inv H. rename x into new_numb.
  assert (Hnn : new_numb = n).
  { destruct new.
    - destruct (Fsx32.numb dcx =? MAX_BUCKETS); [discriminate|].
      inversion E. unfold wrap32. rewrite Z.mod_small; lia.
    - inversion E. lia. }
  subst new_numb. clear E. rewrite Hnums in H.
  destruct (Z.ltb_spec (2 ^ nums_bits dcx) n) as [|Hle]; [discriminate|].
  bind_inv H. apply alloc32_Ok_inv in E. destruct E as [_ ->].
  bind_inv H. rename x into dcx1.
  apply clone_systab_Ok_inv in E. rewrite Hnums in E.
  destruct E as (_ & _ & ->).
  cbn [Fsx32.tab weights Fsx32.nums_bits deref bind] in H.
  rewrite firstn_all2 in H by lia.
  bind_inv H. rename x into nw.
  unfold calibrate32 in E.
  replace (wrap32 n) with n in E by (unfold wrap32; rewrite Z.mod_small; lia).
  replace (wrap32 (2 ^ nums_bits dcx)) with (2 ^ nums_bits dcx) in E
    by (unfold wrap32; rewrite Z.mod_small; lia).
  destruct (calibrate32_sum_mod vec n _ nw ltac:(lia) E) as (Lnw & Rnw & Snw).
  bind_inv H. rename x into t'.
  replace (wrap32 tp) with tp in E0
    by (unfold wrap32; rewrite Z.mod_small; lia).
  rewrite Hw in E0.
  bind_inv H. rename x into vecr. inversion H; subst dcx' vecr. clear H.
  assert (Hnwr : forall i, 0 <= i < n -> 0 <= zth nw i < 2 ^ 32).
  { intros i Hi. apply Rnw. apply zth_In. lia. }
  assert (Hfib' : forall i, 0 <= i < n -> i <> tp ->
            fiber_ok tab (nth (Z.to_nat i) vec bucket0)
                     (zth ow (old_pos_inc tp new i))).
  { intros i Hi Hne. apply Hfib; [assumption|].
    unfold survivor_inc. destruct new; [|reflexivity].
    destruct (Z.eqb_spec i tp); [lia|reflexivity]. }
  destruct (balance_inc_inv vec tab ow nw tp new
              ltac:(fold n; lia) Htp Lnw Hnwr
              ltac:(fold n; destruct new; lia) ltac:(lia) Hfib' t' E0)
    as [Hle' Ht'].
  fold n in Hle', Ht'.
  set (v := wrap32 (b_id (nth (Z.to_nat tp) vec bucket0))) in *.
  set (fib := fun i => slots_of (wrap32 (b_id (nth (Z.to_nat i) vec bucket0)))
                                tab) in *.
  set (donors := zrange 0 tp ++ zrange (tp + 1) n) in *.
  set (tail := fun i => hand v (skipn (Z.to_nat (zth nw i)) (fib i))) in *.
  assert (Hdon : forall i, In i donors <-> 0 <= i < n /\ i <> tp).
  { intros i. unfold donors. rewrite in_app_iff, !zrange_In. lia. }
  assert (Hdnd : NoDup donors).
  { unfold donors. apply NoDup_app; try apply NoDup_zrange.
    intros a Ha Hb. apply zrange_In in Ha, Hb. lia. }
  assert (Hfl : forall i, In i donors ->
            Z.of_nat (length (fib i)) = zth ow (old_pos_inc tp new i)).
  { intros i Hi. apply Hdon in Hi. destruct (Hfib i) as [_ ->].
    - lia.
    - unfold survivor_inc. destruct new; [|reflexivity].
      destruct (Z.eqb_spec i tp); [lia|reflexivity].
    - reflexivity. }
  assert (Hslot : forall i s, In i donors -> In s (skipn (Z.to_nat (zth nw i)) (fib i)) ->
            0 <= s < Z.of_nat (length tab) /\
            zth tab s = zth (tab_ids vec) i).
  { intros i s Hi Hs. apply In_skipn_In in Hs. apply slots_of_In in Hs.
    apply Hdon in Hi. rewrite zth_tab_ids by lia. exact Hs. }
  assert (Hv : v = zth (tab_ids vec) tp) by (rewrite zth_tab_ids by lia; reflexivity).
  assert (Hmapfst : map fst (flat_map tail donors)
                    = flat_map (fun i => skipn (Z.to_nat (zth nw i)) (fib i))
                               donors).
  { rewrite map_flat_map. apply flat_map_ext. intros i.
    unfold tail. apply map_fst_hand. }
  assert (HW1 : NoDup (map fst (flat_map tail donors))).
  { rewrite Hmapfst. apply NoDup_flat_map_disjoint; auto.
    - intros i Hi. apply NoDup_skipn. apply slots_from_NoDup.
    - intros i j x Hi Hj Hne Hx Hx'.
      destruct (Hslot i x Hi Hx) as [_ A].
      destruct (Hslot j x Hj Hx') as [_ B].
      apply Hdon in Hi, Hj.
      apply (NoDup_nth_neq (tab_ids vec) i j); auto;
        try (rewrite length_tab_ids; lia). congruence. }
  assert (HW2 : forall s x, In (s, x) (flat_map tail donors) ->
            0 <= s < Z.of_nat (length tab) /\ zth tab s <> x /\ x = v /\
            exists i, In i donors /\ zth tab s = zth (tab_ids vec) i).
  { intros s x Hin. apply in_flat_map in Hin. destruct Hin as (i & Hi & Hin).
    unfold tail, hand in Hin. apply in_map_iff in Hin.
    destruct Hin as (s' & Heq & Hs'). inversion Heq; subst s' x.
    destruct (Hslot i s Hi Hs') as [A B].
    split; [assumption|]. split; [|split; [reflexivity|eauto]].
    rewrite B, Hv. apply Hdon in Hi.
    apply NoDup_nth_neq; auto; rewrite ?length_tab_ids; lia. }
  exists t', nw. cbn [Fsx32.tab weights].
  split; [reflexivity|]. split; [reflexivity|].
  split; [rewrite Ht'; apply length_write_list|].
  split; [assumption|]. split.
  - rewrite Ht'. rewrite diff_count_write_list; auto.
    2:{ intros s x Hin. destruct (HW2 s x Hin) as (A & B & _). auto. }
    rewrite length_flat_map_sum.
    unfold moved_inc. rewrite Lnw. fold n.
    rewrite (zrange_split 0 tp n) by lia.
    unfold donors. rewrite !map_app, !sumZ_app. cbn [map sumZ].
    assert (Hterm : forall i, In i donors ->
              Z.of_nat (length (tail i))
              = (if survivor_inc tp new i
                 then decrease (zth ow (old_pos_inc tp new i)) (zth nw i)
                 else 0)).
    { intros i Hi. unfold tail, hand. rewrite length_map, length_skipn.
      pose proof (Hfl i Hi) as Hl. apply Hdon in Hi.
      pose proof (Hle' i (proj1 Hi) (proj2 Hi)).
      pose proof (Hnwr i (proj1 Hi)).
      replace (survivor_inc tp new i) with true.
      - unfold decrease. lia.
      - unfold survivor_inc. destruct new; [|reflexivity].
        destruct (Z.eqb_spec i tp); [lia|reflexivity]. }
    assert (S1 : sumZ (map (fun i => Z.of_nat (length (tail i))) (zrange 0 tp))
                 = sumZ (map (fun i =>
                               if survivor_inc tp new i
                               then decrease (zth ow (old_pos_inc tp new i))
                                             (zth nw i)
                               else 0) (zrange 0 tp))).
    { apply sumZ_map_ext. intros i Hi. apply Hterm. apply Hdon.
      apply zrange_In in Hi. lia. }
    assert (S2 : sumZ (map (fun i => Z.of_nat (length (tail i)))
                           (zrange (tp + 1) n))
                 = sumZ (map (fun i =>
                               if survivor_inc tp new i
                               then decrease (zth ow (old_pos_inc tp new i))
                                             (zth nw i)
                               else 0) (zrange (tp + 1) n))).
    { apply sumZ_map_ext. intros i Hi. apply Hterm. apply Hdon.
      apply zrange_In in Hi. lia. }
    unfold tail, fib in S1, S2. rewrite S1, S2.
    assert (Htarget : (if survivor_inc tp new tp
                       then decrease (zth ow (old_pos_inc tp new tp)) (zth nw tp)
                       else 0) = 0).
    { unfold survivor_inc, old_pos_inc. destruct new.
      - rewrite Z.eqb_refl. reflexivity.
      - unfold decrease.
        assert (zth ow tp <= zth nw tp); [|lia].
        apply (target_not_shrunk ow nw tp (2 ^ nums_bits dcx)); auto; try lia.
        + intros x Hx. apply Rnw. assumption.
        + intros i Hi Hne. apply (Hle' i); lia. }
    rewrite Htarget. lia.
  - intros s Hs Hch. rewrite Ht' in Hch |- *.
    destruct (in_dec Z.eq_dec s (map fst (flat_map tail donors))) as [Hin|Hnot].
    + apply in_map_iff in Hin. destruct Hin as ([s' x] & Hfst & Hin).
      simpl in Hfst. subst s'.
      destruct (HW2 s x Hin) as (A & B & C & i & Hi & D).
      rewrite (zth_write_list_in _ _ s x); auto.
      * split; [congruence|]. exists i. apply Hdon in Hi. tauto.
      * intros p Hp. destruct p as [s' x'].
        destruct (HW2 s' x' Hp) as (A' & _). exact A'.
    + exfalso. apply Hch. apply zth_write_list_notin; auto.
      intros p Hp. destruct p as [s' x'].
      destruct (HW2 s' x' Hp) as (A' & _). simpl. lia.
Qed.

(** *** [balance_dec] *)

Lemma firstn_add {A : Type} (a b : nat) (l : list A) :
  firstn (a + b) l = firstn a l ++ firstn b (skipn a l).
Proof.
  revert l; induction a as [|a IH]; intros l; simpl; [reflexivity|].
  destruct l as [|x l]; simpl.
  - rewrite firstn_nil. reflexivity.
  - f_equal. apply IH.
Qed.

Lemma skipn_add {A : Type} (a b : nat) (l : list A) :
  skipn b (skipn a l) = skipn (a + b) l.
Proof.
  revert l; induction a as [|a IH]; intros l; simpl; [reflexivity|].
  destruct l as [|x l]; simpl.
  - apply skipn_nil.
  - apply IH.
Qed.

Lemma hand_seq_app (f : list Z) (idv cnt : Z -> Z) (L1 L2 : list Z) (off : Z) :
  hand_seq f idv cnt (L1 ++ L2) off
  = hand_seq f idv cnt L1 off
    ++ hand_seq f idv cnt L2 (off + sumZ (map cnt L1)).
Proof.
  revert off. induction L1 as [|i L1 IH]; intros off; cbn [app hand_seq map sumZ].
  - rewrite Z.add_0_r. reflexivity.
  - rewrite IH, <- app_assoc. do 3 f_equal. lia.
Qed.

Lemma hand_seq_slots (f : list Z) (idv cnt : Z -> Z) (L : list Z) (off : Z) :
  0 <= off -> (forall i, In i L -> 0 <= cnt i) ->
  map fst (hand_seq f idv cnt L off)
  = firstn (Z.to_nat (sumZ (map cnt L))) (skipn (Z.to_nat off) f).
Proof.
  revert off. induction L as [|i L IH]; intros off Hoff Hc;
    cbn [hand_seq map sumZ].
  - reflexivity.
  - assert (0 <= cnt i) by (apply Hc; left; reflexivity).
    assert (0 <= sumZ (map cnt L)).
    { apply sumZ_nonneg. intros x Hx. apply in_map_iff in Hx.
      destruct Hx as (k & <- & Hk). apply Hc. right. assumption. }
    rewrite map_app, map_fst_hand, IH; try lia.
    + rewrite (Z2Nat.inj_add (cnt i)) by lia. rewrite firstn_add. f_equal.
      rewrite skipn_add. do 2 f_equal. lia.
    + intros k Hk. apply Hc. right. assumption.
Qed.

Lemma hand_seq_values (f : list Z) (idv cnt : Z -> Z) (L : list Z) (off s x : Z) :
  In (s, x) (hand_seq f idv cnt L off) -> exists i, In i L /\ x = idv i.
Proof.
  revert off. induction L as [|i L IH]; intros off Hin; cbn [hand_seq] in Hin;
    [contradiction|].
  apply in_app_or in Hin. destruct Hin as [Hin|Hin].
  - unfold hand in Hin. apply in_map_iff in Hin.
    destruct Hin as (s' & Heq & _). inversion Heq. exists i. split; auto.
    left. reflexivity.
  - destruct (IH _ Hin) as (k & Hk & ->). exists k. split; auto.
    right. assumption.
Qed.

(** One inner loop of [balance_dec]: if it succeeds, the source fiber
    is long enough, the offset advances by [cnt], and the [cnt] slots
    from the offset on go to brick [i]. *)
Lemma hand_out_inv (vec : list bucket) (f : list Z) (i cnt : Z)
    (t : list Z) (off : Z) (t' : list Z) (off' : Z) :
  0 <= i < Z.of_nat (length vec) ->
  Z.of_nat (length f) < 2 ^ 32 ->
  0 <= off <= Z.of_nat (length f) -> 0 <= cnt ->
  hand_out vec (Some f) i cnt (t, off) = Ok (t', off') ->
  off' = off + cnt /\ off' <= Z.of_nat (length f) /\
  t' = write_list
         (hand (wrap32 (b_id (nth (Z.to_nat i) vec bucket0)))
               (firstn (Z.to_nat cnt) (skipn (Z.to_nat off) f))) t.
Proof.
  intros Hi Hlf Hoff Hcnt H. unfold hand_out in H.
  set (v := wrap32 (b_id (nth (Z.to_nat i) vec bucket0))).
  pose (P := fun (j : Z) (st : list Z * Z) =>
               snd st = off + j /\ off + j <= Z.of_nat (length f) /\
               fst st = write_list
                          (hand v (firstn (Z.to_nat j)
                                          (skipn (Z.to_nat off) f))) t).
  assert (HP : P cnt (t', off')).
  { refine (for_inv P _ _ _ _ _ Hcnt _ _ H); unfold P.
    - cbn [fst snd]. repeat split; try lia.
    - intros j [t1 o] [t2 o2] Hj (A & B & C) Hb. cbn [fst snd] in *.
      cbn [deref bind] in Hb. bind_inv Hb. bind_inv Hb. bind_inv Hb.
      apply aget_Ok_inv in E. destruct E as [Hr ->].
      rewrite idx2id_Ok in E0 by lia. inversion E0; subst x0.
      apply aset_Ok_inv in E1. destruct E1 as [_ ->].
      inversion Hb; subst t2 o2. clear Hb E0.
      assert (Hw : wrap32 (o + 1) = o + 1)
        by (unfold wrap32; apply Z.mod_small; lia).
      rewrite Hw. split; [lia|]. split; [lia|].
      replace (Z.to_nat (j + 1)) with (Datatypes.S (Z.to_nat j)) by lia.
      rewrite firstn_skipn_snoc by lia.
      rewrite hand_app, write_list_app. cbn [hand map write_list].
      fold v. rewrite C. do 3 f_equal. lia. }
  unfold P in HP. cbn [fst snd] in HP. destruct HP as (A & B & C).
  subst off'. auto.
Qed.

Lemma zrange_app (lo mid hi : Z) :
  lo <= mid <= hi -> zrange lo hi = zrange lo mid ++ zrange mid hi.
Proof.
  intros H. destruct (Z.eq_dec mid hi) as [->|Hne].
  - rewrite (zrange_empty hi hi) by lia. now rewrite app_nil_r.
  - rewrite (zrange_split lo mid hi) by lia.
    rewrite (zrange_split mid mid hi) by lia.
    rewrite (zrange_empty mid mid) by lia. reflexivity.
Qed.

(** An outer loop of [balance_dec]: the bricks [lo .. hi - 1] are served
    in turn from the running offset. *)
Lemma hand_loop_inv (vec : list bucket) (f : list Z) (cnt : Z -> Z)
    (body : Z -> list Z * Z -> res (list Z * Z))
    (lo hi : Z) (t : list Z) (off : Z) (t' : list Z) (off' : Z) :
  0 <= lo <= hi -> hi <= Z.of_nat (length vec) ->
  Z.of_nat (length f) < 2 ^ 32 ->
  0 <= off <= Z.of_nat (length f) ->
  (forall i, lo <= i < hi -> 0 <= cnt i) ->
  (forall i st st', lo <= i < hi -> body i st = Ok st' ->
                    hand_out vec (Some f) i (cnt i) st = Ok st') ->
  for_ lo hi body (t, off) = Ok (t', off') ->
  off' = off + sumZ (map cnt (zrange lo hi)) /\
  off <= off' <= Z.of_nat (length f) /\
  t' = write_list
         (hand_seq f (fun i => wrap32 (b_id (nth (Z.to_nat i) vec bucket0)))
                   cnt (zrange lo hi) off) t.
Proof.
  intros Hlo Hhi Hlf Hoff Hcnt Hbody H.
  set (idv := fun i => wrap32 (b_id (nth (Z.to_nat i) vec bucket0))).
  pose (P := fun (j : Z) (st : list Z * Z) =>
               snd st = off + sumZ (map cnt (zrange lo j)) /\
               off <= snd st <= Z.of_nat (length f) /\
               fst st = write_list (hand_seq f idv cnt (zrange lo j) off) t).
  assert (HP : P hi (t', off')).
  { refine (for_inv P _ _ _ _ _ (proj2 Hlo) _ _ H); unfold P.
    - rewrite zrange_empty by lia. cbn [fst snd map sumZ hand_seq write_list].
      repeat split; lia.
    - intros j [t1 o] [t2 o2] Hj (A & B & C) Hb. cbn [fst snd] in *.
      apply Hbody in Hb; [|assumption].
      apply hand_out_inv in Hb; try lia; [|apply Hcnt; assumption].
      destruct Hb as (A' & B' & C').
      assert (0 <= cnt j) by (apply Hcnt; assumption).
      rewrite zrange_snoc by lia.
      rewrite map_app, sumZ_app, hand_seq_app, write_list_app.
      cbn [map sumZ hand_seq]. rewrite app_nil_r, <- A, <- C.
      fold (idv j) in C'. repeat split; try lia. exact C'. }
  exact HP.
Qed.

(** [balance_dec] on a removed brick whose fiber [f] is attached: if it
    succeeds, the shortages of the survivors fit into the fiber, and the
    table is rewritten on the first slots of the fiber only. *)
Lemma balance_dec_body_inv (vec : list bucket) (victim : bucket)
    (f ow nw tab t' : list Z) (tp : Z) :
  b_fib victim = Some f ->
  Z.of_nat (length f) < 2 ^ 32 ->
  Z.of_nat (length nw) = Z.of_nat (length vec) ->
  0 <= tp <= Z.of_nat (length vec) ->
  balance_dec_body (Z.of_nat (length vec)) tab (Some ow) nw tp vec
                   (Some victim) = Ok t' ->
  let cnt := fun i => wrap32 (zth nw i - zth ow (old_pos_dec tp i)) in
  sumZ (map cnt (zrange 0 (Z.of_nat (length vec)))) <= Z.of_nat (length f) /\
  t' = write_list
         (hand_seq f (fun i => wrap32 (b_id (nth (Z.to_nat i) vec bucket0)))
                   cnt (zrange 0 (Z.of_nat (length vec))) 0) tab.
Proof.
  intros Hf Hlf Lnw Htp H cnt.
  set (n := Z.of_nat (length vec)) in *.
  assert (Hc0 : forall i, 0 <= cnt i)
    by (intros i; unfold cnt; apply Z.mod_pos_bound; lia).
  unfold balance_dec_body in H.
  bind_inv H. apply alloc32_Ok_inv in E. destruct E as [_ ->].
  bind_inv H. rename x into sho1.
  bind_inv H. rename x into sho2. cbn [bind] in H. rewrite Hf in H.
  bind_inv H. destruct x as [t1 o1]. bind_inv H. destruct x as [t2 o2].
  inversion H; subst t2. clear H.
  pose proof (fun Hs => for_fill cnt _ 0 tp _ _ ltac:(lia) Hs E) as F1.
  destruct F1 as (L1 & V1 & K1).
  { intros i u u' Hi Hb. bind_inv Hb. bind_inv Hb.
    apply aget_Ok_inv in E3. destruct E3 as [_ ->].
    unfold pget in E4. cbn [deref bind] in E4.
    apply aget_Ok_inv in E4. destruct E4 as [_ ->].
    apply aset_Ok_inv in Hb. destruct Hb as [Hr ->]. split; [|lia].
    unfold cnt, old_pos_dec, zth.
    destruct (Z.ltb_spec i tp); [reflexivity|lia]. }
  pose proof (fun Hs => for_fill cnt _ tp n _ _ ltac:(lia) Hs E0) as F2.
  destruct F2 as (L2 & V2 & K2).
  { intros i u u' Hi Hb. bind_inv Hb. bind_inv Hb.
    apply aget_Ok_inv in E3. destruct E3 as [_ ->].
    unfold pget in E4. cbn [deref bind] in E4.
    apply aget_Ok_inv in E4. destruct E4 as [_ ->].
    apply aset_Ok_inv in Hb. destruct Hb as [Hr ->]. split; [|lia].
    unfold cnt, old_pos_dec, zth.
    destruct (Z.ltb_spec i tp); [lia|reflexivity]. }
  assert (Hsho : forall i, 0 <= i < n -> zth sho2 i = cnt i).
  { intros i Hi. destruct (Z.lt_ge_cases i tp).
    - rewrite K2 by lia. apply V1. lia.
    - apply V2. lia. }
  apply (hand_loop_inv vec f cnt) in E1; try lia; auto.
  2:{ intros i st st' Hi Hb. bind_inv Hb.
      apply aget_Ok_inv in E3. destruct E3 as [_ ->].
      fold (zth sho2 i) in Hb. rewrite Hsho in Hb by lia. exact Hb. }
  destruct E1 as (A1 & B1 & C1).
  apply (hand_loop_inv vec f cnt) in E2; try lia; auto.
  2:{ intros i st st' Hi Hb. bind_inv Hb. bind_inv Hb. bind_inv Hb.
      apply aget_Ok_inv in E4. destruct E4 as [_ ->].
      fold (zth sho2 i) in Hb. rewrite Hsho in Hb by lia. exact Hb. }
  destruct E2 as (A2 & B2 & C2).
  rewrite (zrange_app 0 tp n) by lia.
  rewrite map_app, sumZ_app, hand_seq_app, write_list_app.
  rewrite Z.add_0_l in *. rewrite <- A1, <- C1. split; [lia|exact C2].
Qed.

Lemma zrange_shift (a b : Z) :
  zrange (a + 1) (b + 1) = map (fun i => i + 1) (zrange a b).
Proof.
  unfold zrange. replace (b + 1 - (a + 1)) with (b - a) by lia.
  rewrite map_map. apply map_ext. intros k. lia.
Qed.

Lemma sumZ_map_cong (f g : Z -> Z) (L : list Z) (m : Z) :
  m <> 0 -> (forall x, In x L -> f x mod m = g x mod m) ->
  sumZ (map f L) mod m = sumZ (map g L) mod m.
Proof.
  intros Hm. induction L as [|x L IH]; intros H; cbn [map sumZ];
    [reflexivity|].
  apply cong_add; [assumption| |].
  - apply H. left. reflexivity.
  - apply IH. intros y Hy. apply H. right. assumption.
Qed.

Lemma sumZ_map_sub (f g : Z -> Z) (L : list Z) :
  sumZ (map (fun i => f i - g i) L) = sumZ (map f L) - sumZ (map g L).
Proof. induction L as [|x L IH]; cbn [map sumZ]; lia. Qed.

(** The old weights of the survivors sum to the total less the weight
    of the removed brick. *)
Lemma survivors_sum (ow : list Z) (n tp : Z) :
  Z.of_nat (length ow) = n + 1 -> 0 <= tp <= n ->
  sumZ (map (fun i => zth ow (old_pos_dec tp i)) (zrange 0 n))
  = sumZ ow - zth ow tp.
Proof.
  intros Hl Htp. rewrite (sumZ_zrange ow), Hl.
  rewrite (zrange_split 0 tp (n + 1)) by lia.
  rewrite (zrange_app 0 tp n) by lia.
  rewrite !map_app, !sumZ_app. cbn [map sumZ].
  rewrite zrange_shift, map_map.
  rewrite (sumZ_map_ext (fun i => zth ow (old_pos_dec tp i)) (zth ow)
                        (zrange 0 tp)).
  - rewrite (sumZ_map_ext (fun i => zth ow (old_pos_dec tp i))
                          (fun i => zth ow (i + 1)) (zrange tp n)); [lia|].
    intros i Hi. apply zrange_In in Hi. unfold old_pos_dec.
    destruct (Z.ltb_spec i tp); [lia|reflexivity].
  - intros i Hi. apply zrange_In in Hi. unfold old_pos_dec.
    destruct (Z.ltb_spec i tp); [reflexivity|lia].
Qed.

(** When the shortages, computed modulo [2 ^ 32], fit into the weight of
    the removed brick, none of them has wrapped, and they use up that
    weight. *)
Lemma dec_counts_exact (ow nw : list Z) (tp total : Z) :
  Z.of_nat (length ow) = Z.of_nat (length nw) + 1 ->
  0 <= tp <= Z.of_nat (length nw) ->
  sumZ ow = total -> 0 <= total <= 2 ^ 31 ->
  (forall x, In x ow -> 0 <= x) ->
  (forall x, In x nw -> 0 <= x < 2 ^ 32) ->
  sumZ nw mod 2 ^ 32 = total mod 2 ^ 32 ->
  let cnt := fun i => wrap32 (zth nw i - zth ow (old_pos_dec tp i)) in
  sumZ (map cnt (zrange 0 (Z.of_nat (length nw)))) <= zth ow tp ->
  sumZ (map cnt (zrange 0 (Z.of_nat (length nw)))) = zth ow tp /\
  forall i, 0 <= i < Z.of_nat (length nw) ->
            cnt i = zth nw i - zth ow (old_pos_dec tp i).
Proof.
  intros Hl Htp Hsum Htot Hown Hnwr Hmod cnt Hfit.
  set (n := Z.of_nat (length nw)) in *.
  set (g := fun i => zth ow (old_pos_dec tp i)).
  assert (Hg : sumZ (map g (zrange 0 n)) = total - zth ow tp)
    by (unfold g; rewrite (survivors_sum ow n tp); lia).
  assert (Htpn : 0 <= zth ow tp <= total).
  { split; [apply Hown; apply zth_In; lia|].
    rewrite <- Hsum. apply In_le_sumZ; [assumption|apply zth_In; lia]. }
  assert (Hg0 : forall x, In x (map g (zrange 0 n)) -> 0 <= x).
  { intros x Hx. apply in_map_iff in Hx. destruct Hx as (i & <- & Hi).
    apply zrange_In in Hi. apply Hown. apply zth_In. unfold old_pos_dec.
    destruct (Z.ltb_spec i tp); lia. }
  assert (Hc0 : forall x, In x (map cnt (zrange 0 n)) -> 0 <= x).
  { intros x Hx. apply in_map_iff in Hx. destruct Hx as (i & <- & Hi).
    unfold cnt. apply Z.mod_pos_bound. lia. }
  assert (HT : sumZ (map cnt (zrange 0 n)) = zth ow tp).
  { assert (0 <= sumZ (map cnt (zrange 0 n))) by (apply sumZ_nonneg; exact Hc0).
    assert (Hm : sumZ (map cnt (zrange 0 n)) mod 2 ^ 32
                 = zth ow tp mod 2 ^ 32).
    { rewrite (sumZ_map_cong cnt (fun i => zth nw i - g i) _ (2 ^ 32))
        by (try lia; intros x _; unfold cnt, wrap32; apply Z.mod_mod; lia).
      rewrite sumZ_map_sub, Hg. unfold n. rewrite <- (sumZ_zrange nw).
      replace (sumZ nw - (total - zth ow tp))
        with (sumZ nw + (zth ow tp - total)) by lia.
      replace (zth ow tp) with (total + (zth ow tp - total)) at 2 by lia.
      apply cong_add; [lia|assumption|reflexivity]. }
    rewrite !Z.mod_small in Hm by lia. exact Hm. }
  split; [exact HT|]. intros i Hi.
  assert (Hci : cnt i <= zth ow tp).
  { rewrite <- HT. apply In_le_sumZ; [exact Hc0|].
    apply in_map. apply zrange_In. lia. }
  assert (Hgi : 0 <= g i <= total - zth ow tp).
  { split.
    - apply Hg0. apply in_map. apply zrange_In. lia.
    - rewrite <- Hg. apply In_le_sumZ; [exact Hg0|].
      apply in_map. apply zrange_In. lia. }
  assert (Hni : 0 <= zth nw i < 2 ^ 32) by (apply Hnwr; apply zth_In; lia).
  fold (g i) in *. unfold cnt in *. fold (g i) in *. unfold wrap32 in *.
  destruct (Z.lt_ge_cases (zth nw i) (g i)) as [Hlt|Hge].
  - exfalso.
    assert (E : (zth nw i - g i) mod 2 ^ 32 = zth nw i - g i + 2 ^ 32).
    { symmetry. apply Z.mod_unique with (q := -1); lia. }
    rewrite E in Hci. lia.
  - apply Z.mod_small. lia.
Qed.

(** Every successful [dec] that removes the brick [victim] rewrites
    exactly the slots of the victim's fiber: no survivor loses a slot. *)
Lemma dec_minimal (vec : list bucket) (occ : Z) (dcx : fsx32_dcx)
    (tab : list Z) (tp : Z) (victim : bucket) (ow : list Z)
    (dcx' : fsx32_dcx) (vec' : list bucket) (v' : option bucket) :
  wf_dec vec dcx tab tp victim ow ->
  dec_fsx32 vec occ dcx tab tp (Some victim) = Ok (dcx', vec', v') ->
  exists t' nw,
    Fsx32.tab dcx' = Some t' /\ weights dcx' = Some nw /\
    length t' = length tab /\
    Z.of_nat (length nw) = Z.of_nat (length vec) /\
    diff_count tab t' = moved_dec ow nw tp /\
    (forall s, 0 <= s -> zth t' s <> zth tab s ->
               zth tab s = wrap32 (b_id victim) /\
               exists i, 0 <= i < Z.of_nat (length vec) /\
                         zth t' s = zth (tab_ids vec) i).
Proof.
  intros [Hw Hbits Htab Hsum Hown Hnumb Hmax Hvec Htp Hids [Hfv Hfl]] H.
  unfold MAX_SHIFT in Hbits. unfold MAX_BUCKETS, MAX_SHIFT in Hmax.
  set (n := Z.of_nat (length vec)) in *.
  set (vid := wrap32 (b_id victim)) in *.
  set (f := slots_of vid tab) in *.
  assert (Hnums : shl1 (nums_bits dcx) = 2 ^ nums_bits dcx)
    by (apply shl1_pow; lia).
  assert (Hnums31 : 0 < 2 ^ nums_bits dcx <= 2 ^ 31).
  { split; [apply Z.pow_pos_nonneg; lia|apply Z.pow_le_mono_r; lia]. }
  unfold dec_fsx32 in H. cbv zeta in H.
  replace (wrap32 (Fsx32.numb dcx)) with (Fsx32.numb dcx) in H
    by (unfold wrap32; rewrite Z.mod_small; lia).
  replace (wrap32 (Fsx32.numb dcx - 1)) with n in H
    by (unfold wrap32; rewrite Z.mod_small; lia).
  bind_inv H. clear E x. rewrite Hnums in H.
  bind_inv H. apply alloc32_Ok_inv in E. destruct E as [_ ->].
  bind_inv H. rename x into dcx1.
  apply clone_systab_Ok_inv in E. rewrite Hnums in E.
  destruct E as (_ & _ & ->).
  cbn [Fsx32.tab weights Fsx32.nums_bits deref bind] in H.
  rewrite firstn_all2 in H by lia.
  bind_inv H. rename x into nw.
  unfold calibrate32 in E.
  replace (wrap32 n) with n in E by (unfold wrap32; rewrite Z.mod_small; lia).
  replace (wrap32 (2 ^ nums_bits dcx)) with (2 ^ nums_bits dcx) in E
    by (unfold wrap32; rewrite Z.mod_small; lia).
  destruct (calibrate32_sum_mod vec n _ nw ltac:(lia) E) as (Lnw & Rnw & Snw).
  bind_inv H. rename x into t'.
  replace (wrap32 tp) with tp in E0
    by (unfold wrap32; rewrite Z.mod_small; lia).
  rewrite Hw in E0. unfold balance_dec in E0. cbn [deref bind] in E0.
  bind_inv H. rename x into vecr. inversion H; subst dcx' vecr v'. clear H.
  assert (Hlf : Z.of_nat (length f) <= 2 ^ nums_bits dcx).
  { rewrite <- Hfl, <- Hsum. apply In_le_sumZ; [assumption|].
    apply zth_In. lia. }
  destruct (balance_dec_body_inv vec victim f ow nw tab t' tp Hfv
              ltac:(lia) Lnw ltac:(fold n; lia) E0) as [Hfit Ht'].
  fold n in Hfit, Ht'.
  set (cnt := fun i => wrap32 (zth nw i - zth ow (old_pos_dec tp i))) in *.
  set (idv := fun i => wrap32 (b_id (nth (Z.to_nat i) vec bucket0))) in *.
  set (W := hand_seq f idv cnt (zrange 0 n) 0) in *.
  destruct (dec_counts_exact ow nw tp (2 ^ nums_bits dcx)) as [HT Hex];
    auto; try lia.
  { rewrite Lnw. fold n. fold cnt. lia. }
  rewrite Lnw in HT, Hex. fold n cnt in HT, Hex.
  assert (Hc0 : forall i, In i (zrange 0 n) -> 0 <= cnt i)
    by (intros i _; unfold cnt; apply Z.mod_pos_bound; lia).
  assert (Hslots : map fst W = f).
  { unfold W. rewrite hand_seq_slots by (auto; lia).
    rewrite HT, Hfl. cbn [Z.to_nat skipn]. rewrite Nat2Z.id.
    apply firstn_all. }
  assert (HW : forall s x, In (s, x) W ->
            0 <= s < Z.of_nat (length tab) /\ zth tab s = vid /\
            exists i, 0 <= i < n /\ x = zth (tab_ids vec) i).
  { intros s x Hin.
    assert (Hs : In s f).
    { rewrite <- Hslots. change s with (fst (s, x)). apply in_map. exact Hin. }
    apply slots_of_In in Hs. destruct Hs as [A B].
    split; [assumption|]. split; [assumption|].
    apply hand_seq_values in Hin. destruct Hin as (i & Hi & ->).
    apply zrange_In in Hi. exists i. split; [lia|].
    rewrite zth_tab_ids by (fold n; lia). reflexivity. }
  assert (HW' : forall s x, In (s, x) W ->
            0 <= s < Z.of_nat (length tab) /\ zth tab s <> x).
  { intros s x Hin. destruct (HW s x Hin) as (A & B & i & Hi & ->).
    split; [assumption|]. rewrite B. intros Heq. apply Hids.
    rewrite Heq. apply zth_In. rewrite length_tab_ids. fold n. lia. }
  assert (Hnd : NoDup (map fst W))
    by (rewrite Hslots; apply slots_from_NoDup).
  exists t', nw. cbn [Fsx32.tab weights].
  split; [reflexivity|]. split; [reflexivity|].
  split; [rewrite Ht'; apply length_write_list|].
  split; [assumption|]. split.
  - rewrite Ht'. rewrite diff_count_write_list by assumption.
    rewrite <- (length_map fst W), Hslots, <- Hfl.
    unfold moved_dec. rewrite Lnw. fold n.
    rewrite (sumZ_map_ext _ (fun _ => 0)).
    + rewrite (map_const (fun _ : Z => 0) 0) by reflexivity.
      rewrite sumZ_repeat. lia.
    + intros i Hi. apply zrange_In in Hi.
      assert (0 <= zth nw i - zth ow (old_pos_dec tp i)).
      { rewrite <- (Hex i Hi). apply Hc0. apply zrange_In. lia. }
      unfold decrease. lia.
  - intros s Hs Hch. rewrite Ht' in Hch |- *.
    destruct (in_dec Z.eq_dec s (map fst W)) as [Hin|Hnot].
    + apply in_map_iff in Hin. destruct Hin as ([s' x] & Hfst & Hin).
      simpl in Hfst. subst s'.
      destruct (HW s x Hin) as (A & B & i & Hi & ->).
      split; [assumption|]. exists i. split; [assumption|].
      apply zth_write_list_in; auto.
      intros p Hp. destruct p as [s' x'].
      destruct (HW s' x' Hp) as (A' & _). exact A'.
    + exfalso. apply Hch. apply zth_write_list_notin; auto.
      intros p Hp. destruct p as [s' x'].
      destruct (HW s' x' Hp) as (A' & _). simpl. lia.
Qed.

(** The weights that a successful [inc] leaves: one for each brick of
    the new vector, as [calibrate32] computes them for that vector. *)
Lemma inc_new_weights (vec : list bucket) (dcx : fsx32_dcx) (tab : list Z)
    (tp : Z) (new : option bucket) (ow : list Z)
    (dcx' : fsx32_dcx) (vec' : list bucket) :
  wf_inc vec dcx tab tp new ow ->
  inc_fsx32 vec dcx tab tp new = Ok (dcx', vec') ->
  let n := Z.of_nat (length vec) in
  exists nw,
    weights dcx' = Some nw /\ numb dcx' = n /\
    calibrate32 n (2 ^ nums_bits dcx) vec cap_at (zeros n) = Ok nw.
Proof.
  intros [Hw Hbits Htab Hsum Hnumb Hmax Hvec Htp Hids Hfib] H n.
  unfold MAX_SHIFT in Hbits. unfold MAX_BUCKETS, MAX_SHIFT in Hmax.
  fold n in Hvec, Htp.
  assert (Hnumb0 : 0 <= Fsx32.numb dcx) by lia.
  assert (Hnums : shl1 (nums_bits dcx) = 2 ^ nums_bits dcx)
    by (apply shl1_pow; lia).
  assert (Hnums31 : 0 < 2 ^ nums_bits dcx <= 2 ^ 31).
  { split; [apply Z.pow_pos_nonneg; lia|apply Z.pow_le_mono_r; lia]. }
  unfold inc_fsx32 in H. cbv zeta in H.
  replace (wrap32 (Fsx32.numb dcx)) with (Fsx32.numb dcx) in H
    by (unfold wrap32; rewrite Z.mod_small; lia).
  bind_inv H. rename x into new_numb.
  assert (Hnn : new_numb = n).
  { destruct new.
    - destruct (Fsx32.numb dcx =? MAX_BUCKETS); [discriminate|].
      inversion E. unfold wrap32. rewrite Z.mod_small; lia.
    - inversion E. lia. }
  subst new_numb. clear E. rewrite Hnums in H.
  destruct (Z.ltb_spec (2 ^ nums_bits dcx) n) as [|Hle]; [discriminate|].
  bind_inv H. apply alloc32_Ok_inv in E. destruct E as [_ ->].
  bind_inv H. rename x into dcx1. clear E.
  bind_inv H. rename x into nw.
  bind_inv H. bind_inv H. bind_inv H.
  inversion H; subst dcx'. exists nw. cbn [weights numb]. auto.
Qed.

(** The weights that a successful [dec] leaves: one for each surviving
    brick, as [calibrate32] computes them for the vector of survivors. *)
Lemma dec_new_weights (vec : list bucket) (occ : Z) (dcx : fsx32_dcx)
    (tab : list Z) (tp : Z) (victim : bucket) (ow : list Z)
    (dcx' : fsx32_dcx) (vec' : list bucket) (v' : option bucket) :
  wf_dec vec dcx tab tp victim ow ->
  dec_fsx32 vec occ dcx tab tp (Some victim) = Ok (dcx', vec', v') ->
  let n := Z.of_nat (length vec) in
  exists nw,
    weights dcx' = Some nw /\ numb dcx' = n /\
    calibrate32 n (2 ^ nums_bits dcx) vec cap_at (zeros n) = Ok nw.
Proof.
  intros [Hw Hbits Htab Hsum Hown Hnumb Hmax Hvec Htp Hids [Hfv Hfl]] H n.
  unfold MAX_SHIFT in Hbits. unfold MAX_BUCKETS, MAX_SHIFT in Hmax.
  fold n in Hvec.
  assert (Hnums : shl1 (nums_bits dcx) = 2 ^ nums_bits dcx)
    by (apply shl1_pow; lia).
  unfold dec_fsx32 in H. cbv zeta in H.
  replace (wrap32 (Fsx32.numb dcx)) with (Fsx32.numb dcx) in H
    by (unfold wrap32; rewrite Z.mod_small; lia).
  replace (wrap32 (Fsx32.numb dcx - 1)) with n in H
    by (unfold wrap32; rewrite Z.mod_small; lia).
  bind_inv H. clear E x. rewrite Hnums in H.
  bind_inv H. apply alloc32_Ok_inv in E. destruct E as [_ ->].
  bind_inv H. rename x into dcx1. clear E.
  bind_inv H. rename x into nw.
  bind_inv H. bind_inv H. bind_inv H. cbn [deref bind] in H.
  inversion H; subst dcx'. exists nw. cbn [weights numb]. auto.
Qed.

(** C4. Reconfiguration minimality.  On a well-formed state, every
    successful [inc] and every successful [dec] leaves the weights that
    [calibrate32] computes for the new vector, one for each of its bricks,
    and a table that differs from the old one in exactly as many slots as
    the surviving bricks lose weight, the sum being taken over the bricks
    of the new vector other than the added one (plus, for [dec], the
    whole weight of the removed brick).  No other slot changes: a slot
    rewritten by [inc] belonged to another brick of the vector and now
    belongs to the target, and a slot rewritten by [dec] belonged to the
    removed brick and now belongs to a survivor.  A successful [dec]
    always has a brick to remove. *)
Theorem reconfiguration_minimality :
  (forall vec dcx tab tp new ow dcx' vec',
     wf_inc vec dcx tab tp new ow ->
     inc_fsx32 vec dcx tab tp new = Ok (dcx', vec') ->
     exists t' nw,
       Fsx32.tab dcx' = Some t' /\ weights dcx' = Some nw /\
       length t' = length tab /\
       diff_count tab t' = moved_inc ow nw tp new /\
       (forall s, 0 <= s -> zth t' s <> zth tab s ->
                  zth t' s = zth (tab_ids vec) tp /\
                  exists i, 0 <= i < Z.of_nat (length vec) /\ i <> tp /\
                            zth tab s = zth (tab_ids vec) i) /\
       length nw = length vec /\
       numb dcx' = Z.of_nat (length vec) /\
       calibrate32 (Z.of_nat (length vec)) (2 ^ nums_bits dcx) vec cap_at
                   (zeros (Z.of_nat (length vec))) = Ok nw) /\
  (forall vec occ dcx tab tp removeme ow dcx' vec' v',
     (forall victim, removeme = Some victim ->
                     wf_dec vec dcx tab tp victim ow) ->
     dec_fsx32 vec occ dcx tab tp removeme = Ok (dcx', vec', v') ->
     exists victim t' nw,
       removeme = Some victim /\
       Fsx32.tab dcx' = Some t' /\ weights dcx' = Some nw /\
       length t' = length tab /\
       diff_count tab t' = moved_dec ow nw tp /\
       (forall s, 0 <= s -> zth t' s <> zth tab s ->
                  zth tab s = wrap32 (b_id victim) /\
                  exists i, 0 <= i < Z.of_nat (length vec) /\
                            zth t' s = zth (tab_ids vec) i) /\
       length nw = length vec /\
       numb dcx' = Z.of_nat (length vec) /\
       calibrate32 (Z.of_nat (length vec)) (2 ^ nums_bits dcx) vec cap_at
                   (zeros (Z.of_nat (length vec))) = Ok nw).
Proof.
  split.
  - intros vec dcx tab tp new ow dcx' vec' Hwf H.
    destruct (inc_minimal _ _ _ _ _ _ _ _ Hwf H)
      as (t' & nw & A & B & C & L & D & E).
    destruct (inc_new_weights _ _ _ _ _ _ _ _ Hwf H) as (nw' & B' & N & K).
    rewrite B in B'. injection B' as <-.
    exists t', nw. repeat (split; [assumption|]).
    split; [lia|]. split; assumption.
  - intros vec occ dcx tab tp removeme ow dcx' vec' v' Hwf H.
    destruct removeme as [victim|].
    + destruct (dec_minimal _ _ _ _ _ _ _ _ _ _ (Hwf victim eq_refl) H)
        as (t' & nw & A & B & C & L & D & E).
      destruct (dec_new_weights _ _ _ _ _ _ _ _ _ _ (Hwf victim eq_refl) H)
        as (nw' & B' & N & K).
      rewrite B in B'. injection B' as <-.
      exists victim, t', nw. split; [reflexivity|].
      repeat (split; [assumption|]).
      split; [lia|]. split; assumption.
    + exfalso. unfold dec_fsx32 in H. cbv zeta in H.
      bind_inv H. bind_inv H. bind_inv H. bind_inv H. bind_inv H.
      discriminate.
Qed.

Lemma reconfiguration_minimality_witness :
  (exists dcx' vec',
     inc_fsx32 inc_example_vec inc_example_dcx inc_example_tab 2
               (Some inc_example_new) = Ok (dcx', vec') /\
     exists t' nw,
       Fsx32.tab dcx' = Some t' /\ weights dcx' = Some nw /\
       length t' = length inc_example_tab /\
       diff_count inc_example_tab t'
       = moved_inc [4; 4] nw 2 (Some inc_example_new) /\
       (forall s, 0 <= s -> zth t' s <> zth inc_example_tab s ->
                  zth t' s = zth (tab_ids inc_example_vec) 2 /\
                  exists i, 0 <= i < Z.of_nat (length inc_example_vec) /\
                            i <> 2 /\
                            zth inc_example_tab s
                            = zth (tab_ids inc_example_vec) i) /\
       length nw = length inc_example_vec /\
       numb dcx' = Z.of_nat (length inc_example_vec) /\
       calibrate32 (Z.of_nat (length inc_example_vec))
                   (2 ^ nums_bits inc_example_dcx) inc_example_vec cap_at
                   (zeros (Z.of_nat (length inc_example_vec))) = Ok nw) /\
  (exists dcx' vec' v',
     dec_fsx32 dec_example_vec 0 dec_example_dcx dec_example_tab 1
               (Some dec_example_victim) = Ok (dcx', vec', v') /\
     exists victim t' nw,
       Some dec_example_victim = Some victim /\
       Fsx32.tab dcx' = Some t' /\ weights dcx' = Some nw /\
       length t' = length dec_example_tab /\
       diff_count dec_example_tab t' = moved_dec [3; 3; 2] nw 1 /\
       (forall s, 0 <= s -> zth t' s <> zth dec_example_tab s ->
                  zth dec_example_tab s = wrap32 (b_id victim) /\
                  exists i, 0 <= i < Z.of_nat (length dec_example_vec) /\
                            zth t' s = zth (tab_ids dec_example_vec) i) /\
       length nw = length dec_example_vec /\
       numb dcx' = Z.of_nat (length dec_example_vec) /\
       calibrate32 (Z.of_nat (length dec_example_vec))
                   (2 ^ nums_bits dec_example_dcx) dec_example_vec cap_at
                   (zeros (Z.of_nat (length dec_example_vec))) = Ok nw).
Proof.
  split.
  - eexists. eexists. split; [vm_compute; reflexivity|].
    eapply (proj1 reconfiguration_minimality inc_example_vec inc_example_dcx
                 inc_example_tab 2 (Some inc_example_new) [4; 4]);
      [|vm_compute; reflexivity].
    constructor;
      try (lazymatch goal with
           | |- forall _ : Z, _ => fail
           | _ => vm_compute; intuition congruence
           end).
    + vm_compute. repeat constructor; simpl; intuition congruence.
    + intros i Hi Hs. cbn [length inc_example_vec] in Hi.
      assert (Hc : i = 0 \/ i = 1 \/ i = 2) by lia.
      destruct Hc as [-> | [-> | ->]];
        [split; reflexivity|split; reflexivity|discriminate].
  - eexists. eexists. eexists. split; [vm_compute; reflexivity|].
    eapply (proj2 reconfiguration_minimality dec_example_vec 0 dec_example_dcx
                 dec_example_tab 1 (Some dec_example_victim) [3; 3; 2]);
      [|vm_compute; reflexivity].
    intros victim Hv. inversion Hv; subst victim.
    constructor;
      try (lazymatch goal with
           | |- forall _ : Z, _ => fail
           | _ => vm_compute; intuition congruence
           end).
    intros x Hx. simpl in Hx. lia.
Defined.

(** * Further properties of the code *)

(** ** Serialization: bounds, frame and the other round trip *)

Lemma put_le32_inv (buf : list Z) (off x : Z) (buf' : list Z) :
  put_le32 buf off x = Ok buf' ->
  0 <= off /\ off + 4 <= Z.of_nat (length buf) /\
  length buf' = length buf /\
  zth buf' off = x mod 256 /\
  zth buf' (off + 1) = (x / 256) mod 256 /\
  zth buf' (off + 2) = (x / 65536) mod 256 /\
  zth buf' (off + 3) = (x / 16777216) mod 256 /\
  (forall k, 0 <= k -> ~ (off <= k < off + 4) -> zth buf' k = zth buf k).
Proof.
  intros H. unfold put_le32 in H.
  bind_inv H. rename x0 into b0. bind_inv H. rename x0 into b1.
  bind_inv H. rename x0 into b2.
  pose proof (aset_length _ _ _ _ E) as L0.
  pose proof (aset_length _ _ _ _ E0) as L1.
  pose proof (aset_length _ _ _ _ E1) as L2.
  pose proof (aset_length _ _ _ _ H) as L3.
  pose proof (proj1 (aset_Ok_inv _ _ _ _ E)) as R0.
  pose proof (proj1 (aset_Ok_inv _ _ _ _ H)) as R3.
  split; [lia|]. split; [lia|]. split; [lia|].
  repeat split.
  - rewrite (zth_aset_neq _ _ off _ _ H) by lia.
    rewrite (zth_aset_neq _ _ off _ _ E1) by lia.
    rewrite (zth_aset_neq _ _ off _ _ E0) by lia.
    apply (zth_aset_eq _ _ _ _ E).
  - rewrite (zth_aset_neq _ _ (off + 1) _ _ H) by lia.
    rewrite (zth_aset_neq _ _ (off + 1) _ _ E1) by lia.
    apply (zth_aset_eq _ _ _ _ E0).
  - rewrite (zth_aset_neq _ _ (off + 2) _ _ H) by lia.
    apply (zth_aset_eq _ _ _ _ E1).
  - apply (zth_aset_eq _ _ _ _ H).
  - intros k Hk Hout.
    rewrite (zth_aset_neq _ _ k _ _ H) by lia.
    rewrite (zth_aset_neq _ _ k _ _ E1) by lia.
    rewrite (zth_aset_neq _ _ k _ _ E0) by lia.
    rewrite (zth_aset_neq _ _ k _ _ E) by lia.
    reflexivity.
Qed.

(** What a successful [pack_fsx32] has done. *)
Lemma pack_inv (dcx : fsx32_dcx) (to buf : list Z) (src_off count : Z) :
  0 <= src_off -> 0 <= count ->
  pack_fsx32 dcx to src_off count = Ok buf ->
  exists t,
    tab dcx = Some t /\
    length buf = length to /\
    (0 < count ->
       src_off + count <= Z.of_nat (length t) /\
       4 * count <= Z.of_nat (length to)) /\
    (forall j, 0 <= j < count ->
       zth buf (4 * j) = zth t (src_off + j) mod 256 /\
       zth buf (4 * j + 1) = (zth t (src_off + j) / 256) mod 256 /\
       zth buf (4 * j + 2) = (zth t (src_off + j) / 65536) mod 256 /\
       zth buf (4 * j + 3) = (zth t (src_off + j) / 16777216) mod 256) /\
    (forall k, 4 * count <= k -> zth buf k = zth to k).
Proof.
  intros Hs Hc H. unfold pack_fsx32 in H. bind_inv H. rename x into t.
  destruct (tab dcx) as [t0|]; [|discriminate]. inversion E; subst t0.
  exists t. split; [reflexivity|].
  pose (P := fun (i : Z) (b : list Z) =>
    length b = length to /\
    (0 < i -> src_off + i <= Z.of_nat (length t) /\
              4 * i <= Z.of_nat (length to)) /\
    (forall j, 0 <= j < i ->
       zth b (4 * j) = zth t (src_off + j) mod 256 /\
       zth b (4 * j + 1) = (zth t (src_off + j) / 256) mod 256 /\
       zth b (4 * j + 2) = (zth t (src_off + j) / 65536) mod 256 /\
       zth b (4 * j + 3) = (zth t (src_off + j) / 16777216) mod 256) /\
    (forall k, 4 * i <= k -> zth b k = zth to k)).
  assert (HP : P count buf).
  { refine (for_inv P _ _ _ _ _ Hc _ _ H); unfold P.
    - split; [reflexivity|]. split; [lia|]. split; [intros; lia|auto].
    - intros i b b' Hi (L & B & V & F) Hb. bind_inv Hb.
      apply aget_Ok_inv in E0. destruct E0 as [Hr ->].
      fold (zth t (src_off + i)) in Hb.
      apply put_le32_inv in Hb.
      destruct Hb as (O1 & O2 & L' & V0 & V1 & V2 & V3 & F').
      split; [lia|]. split; [lia|]. split.
      + intros j Hj. destruct (Z.eq_dec j i) as [->|Hne]; [tauto|].
        rewrite !F' by lia. apply V. lia.
      + intros k Hk. rewrite F' by lia. apply F. lia. }
  exact HP.
Qed.

(** X1. [pack_fsx32] stays within its arrays exactly when the entries it
    reads lie in the table and the buffer has room for four bytes per
    entry; it then writes bytes into the first [4 * count] positions of
    the buffer and leaves the rest of the buffer as it was. *)
Theorem pack_fsx32_bounds (dcx : fsx32_dcx) (t to : list Z)
    (src_off count : Z) :
  tab dcx = Some t ->
  (forall x, In x t -> 0 <= x < 2 ^ 32) ->
  0 <= src_off -> 0 < count ->
  ((exists buf, pack_fsx32 dcx to src_off count = Ok buf) <->
   src_off + count <= Z.of_nat (length t) /\
   4 * count <= Z.of_nat (length to)) /\
  (forall buf,
     pack_fsx32 dcx to src_off count = Ok buf ->
     length buf = length to /\
     (forall k, 0 <= k < 4 * count -> 0 <= zth buf k < 256) /\
     (forall k, 4 * count <= k -> zth buf k = zth to k)).
Proof.
  intros Ht Hr Hs Hc. split; [split|].
  - intros (buf & H).
    destruct (pack_inv dcx to buf src_off count Hs ltac:(lia) H)
      as (t' & Ht' & _ & B & _).
    rewrite Ht in Ht'. inversion Ht'; subst t'. apply B. lia.
  - intros [B1 B2].
    destruct (pack_spec t to src_off count Hr Hs ltac:(lia) B1 B2)
      as (buf & H & _).
    exists buf. unfold pack_fsx32 in *. rewrite Ht. exact H.
  - intros buf H.
    destruct (pack_inv dcx to buf src_off count Hs ltac:(lia) H)
      as (t' & Ht' & L & _ & V & F).
    split; [assumption|]. split; [|assumption].
    intros k Hk.
    assert (Hk' : k = 4 * (k / 4) + k mod 4) by (apply Z.div_mod; lia).
    assert (0 <= k mod 4 < 4) by (apply Z.mod_pos_bound; lia).
    assert (Hq : 0 <= k / 4 < count).
    { split; [apply Z.div_pos; lia|apply Z.div_lt_upper_bound; lia]. }
    destruct (V (k / 4) Hq) as (V0 & V1 & V2 & V3).
    assert (Hc4 : k mod 4 = 0 \/ k mod 4 = 1 \/ k mod 4 = 2 \/ k mod 4 = 3)
      by lia.
    rewrite Hk'.
    destruct Hc4 as [-> | [-> | [-> | ->]]];
      [rewrite Z.add_0_r, V0|rewrite V1|rewrite V2|rewrite V3];
      apply Z.mod_pos_bound; lia.
Qed.

Lemma pack_fsx32_bounds_witness :
  exists buf,
    pack_fsx32 (mk_dcx 2 1 None (Some [10; 11])) (repeat 0 8%nat) 0 2 = Ok buf.
Proof.
  apply (proj1 (pack_fsx32_bounds (mk_dcx 2 1 None (Some [10; 11])) [10; 11]
                  (repeat 0 8%nat) 0 2 eq_refl
                  ltac:(intros x [<- | [<- | []]]; lia)
                  ltac:(lia) ltac:(lia))).
  cbn [length repeat]. lia.
Defined.

Lemma get_le32_inv (buf : list Z) (off x : Z) :
  get_le32 buf off = Ok x ->
  0 <= off /\ off + 4 <= Z.of_nat (length buf) /\ x = le32_of buf off.
Proof.
  intros H. unfold get_le32 in H.
  bind_inv H. bind_inv H. bind_inv H. bind_inv H.
  apply aget_Ok_inv in E, E0, E1, E2.
  destruct E as [R0 ->], E0 as [R1 ->], E1 as [R2 ->], E2 as [R3 ->].
  inversion H. split; [lia|]. split; [lia|]. reflexivity.
Qed.

Lemma get_le32_Ok (buf : list Z) (off : Z) :
  0 <= off -> off + 4 <= Z.of_nat (length buf) ->
  get_le32 buf off = Ok (le32_of buf off).
Proof.
  intros H1 H2. unfold get_le32. rewrite !aget_zth by lia. reflexivity.
Qed.

Lemma le32_of_bytes (buf : list Z) (off : Z) :
  (forall k, off <= k < off + 4 -> 0 <= zth buf k < 256) ->
  let x := le32_of buf off in
  0 <= x < 2 ^ 32 /\
  x mod 256 = zth buf off /\
  (x / 256) mod 256 = zth buf (off + 1) /\
  (x / 65536) mod 256 = zth buf (off + 2) /\
  (x / 16777216) mod 256 = zth buf (off + 3).
Proof.
  intros Hb x.
  pose proof (Hb off ltac:(lia)) as B0.
  pose proof (Hb (off + 1) ltac:(lia)) as B1.
  pose proof (Hb (off + 2) ltac:(lia)) as B2.
  pose proof (Hb (off + 3) ltac:(lia)) as B3.
  unfold x, le32_of, wrap32.
  set (b0 := zth buf off) in *. set (b1 := zth buf (off + 1)) in *.
  set (b2 := zth buf (off + 2)) in *. set (b3 := zth buf (off + 3)) in *.
  change (2 ^ 32) with 4294967296.
  rewrite Z.mod_small by lia.
  split; [lia|].
  repeat split.
  - symmetry. apply Z.mod_unique with (q := b1 + 256 * b2 + 65536 * b3); lia.
  - replace ((b0 + 256 * b1 + 65536 * b2 + 16777216 * b3) / 256)
      with (b1 + 256 * b2 + 65536 * b3)
      by (apply Z.div_unique with (r := b0); lia).
    symmetry. apply Z.mod_unique with (q := b2 + 256 * b3); lia.
  - replace ((b0 + 256 * b1 + 65536 * b2 + 16777216 * b3) / 65536)
      with (b2 + 256 * b3)
      by (apply Z.div_unique with (r := b0 + 256 * b1); lia).
    symmetry. apply Z.mod_unique with (q := b3); lia.
  - replace ((b0 + 256 * b1 + 65536 * b2 + 16777216 * b3) / 16777216)
      with b3
      by (apply Z.div_unique with (r := b0 + 256 * b1 + 65536 * b2); lia).
    apply Z.mod_small. lia.
Qed.

(** What a successful [unpack_fsx32] has done. *)
Lemma unpack_inv (tab from t' : list Z) (dst_off count : Z) :
  0 <= dst_off -> 0 <= count ->
  unpack_fsx32 tab from dst_off count = Ok t' ->
  length t' = length tab /\
  (0 < count ->
     4 * count <= Z.of_nat (length from) /\
     dst_off + count <= Z.of_nat (length tab)) /\
  (forall j, 0 <= j < count ->
             zth t' (dst_off + j) = le32_of from (4 * j)) /\
  (forall k, 0 <= k -> ~ (dst_off <= k < dst_off + count) ->
             zth t' k = zth tab k).
Proof.
  intros Hd Hc H. unfold unpack_fsx32 in H.
  pose (P := fun (i : Z) (u : list Z) =>
    length u = length tab /\
    (0 < i -> 4 * i <= Z.of_nat (length from) /\
              dst_off + i <= Z.of_nat (length tab)) /\
    (forall j, 0 <= j < i -> zth u (dst_off + j) = le32_of from (4 * j)) /\
    (forall k, 0 <= k -> ~ (dst_off <= k < dst_off + i) ->
               zth u k = zth tab k)).
  assert (HP : P count t').
  { refine (for_inv P _ _ _ _ _ Hc _ _ H); unfold P.
    - split; [reflexivity|]. split; [lia|]. split; [intros; lia|auto].
    - intros i u u' Hi (L & B & V & F) Hb. bind_inv Hb.
      apply get_le32_inv in E. destruct E as (G1 & G2 & ->).
      pose proof (aset_length _ _ _ _ Hb) as L'.
      pose proof (proj1 (aset_Ok_inv _ _ _ _ Hb)) as R.
      split; [lia|]. split; [lia|]. split.
      + intros j Hj. destruct (Z.eq_dec j i) as [->|Hne].
        * apply (zth_aset_eq _ _ _ _ Hb).
        * rewrite (zth_aset_neq _ _ (dst_off + j) _ _ Hb) by lia.
          apply V. lia.
      + intros k Hk Hn. rewrite (zth_aset_neq _ _ k _ _ Hb) by lia.
        apply F; lia. }
  exact HP.
Qed.

Lemma unpack_total (tab from : list Z) (dst_off count : Z) :
  0 <= dst_off -> 0 <= count ->
  4 * count <= Z.of_nat (length from) ->
  dst_off + count <= Z.of_nat (length tab) ->
  exists t', unpack_fsx32 tab from dst_off count = Ok t'.
Proof.
  intros Hd Hc Hf Ht. unfold unpack_fsx32.
  destruct (for_total (fun (_ : Z) (u : list Z) => length u = length tab)
              (fun i t => x <- get_le32 from (4 * i) ;; aset t (dst_off + i) x)
              0 count tab) as (u & Hu & _); auto.
  - intros j u Hj L. rewrite get_le32_Ok by lia. cbn [bind].
    rewrite aset_Ok by lia. eexists. split; [reflexivity|].
    rewrite length_upd. assumption.
  - eauto.
Qed.

(** X2. [unpack_fsx32] stays within its arrays exactly when the buffer
    holds four bytes per entry and the entries it writes lie in the
    table; it writes 32-bit values there and nothing elsewhere. *)
Theorem unpack_fsx32_bounds (tab from : list Z) (dst_off count : Z) :
  0 <= dst_off -> 0 < count ->
  ((exists t', unpack_fsx32 tab from dst_off count = Ok t') <->
   4 * count <= Z.of_nat (length from) /\
   dst_off + count <= Z.of_nat (length tab)) /\
  (forall t',
     unpack_fsx32 tab from dst_off count = Ok t' ->
     length t' = length tab /\
     (forall j, 0 <= j < count -> 0 <= zth t' (dst_off + j) < 2 ^ 32) /\
     (forall k, 0 <= k -> ~ (dst_off <= k < dst_off + count) ->
                zth t' k = zth tab k)).
Proof.
  intros Hd Hc. split; [split|].
  - intros (t' & H).
    destruct (unpack_inv tab from t' dst_off count Hd ltac:(lia) H)
      as (_ & B & _). apply B. lia.
  - intros [B1 B2]. apply unpack_total; lia.
  - intros t' H.
    destruct (unpack_inv tab from t' dst_off count Hd ltac:(lia) H)
      as (L & _ & V & F).
    split; [assumption|]. split; [|assumption].
    intros j Hj. rewrite V by assumption. unfold le32_of, wrap32.
    apply Z.mod_pos_bound. lia.
Qed.

Lemma unpack_fsx32_bounds_witness :
  exists t', unpack_fsx32 [0; 0; 0] [1; 2; 3; 4; 5; 6; 7; 8] 1 2 = Ok t'.
Proof.
  apply (proj1 (unpack_fsx32_bounds [0; 0; 0] [1; 2; 3; 4; 5; 6; 7; 8] 1 2
                  ltac:(lia) ltac:(lia))).
  cbn [length]. lia.
Defined.

(** X3. [pack] inverts [unpack]: a buffer of bytes unpacked into a table
    and packed again from the same offset comes back byte for byte, the
    rest of the target buffer being left as it was. *)
Theorem pack_unpack_roundtrip (tab from to : list Z) (dst_off count : Z) :
  (forall k, 0 <= k < 4 * count -> 0 <= zth from k < 256) ->
  (forall x, In x tab -> 0 <= x < 2 ^ 32) ->
  0 <= dst_off -> 0 <= count ->
  4 * count <= Z.of_nat (length from) ->
  dst_off + count <= Z.of_nat (length tab) ->
  4 * count <= Z.of_nat (length to) ->
  exists t',
    unpack_fsx32 tab from dst_off count = Ok t' /\
    forall dcx, Fsx32.tab dcx = Some t' ->
      exists buf,
        pack_fsx32 dcx to dst_off count = Ok buf /\
        length buf = length to /\
        (forall k, 0 <= k < 4 * count -> zth buf k = zth from k) /\
        (forall k, 4 * count <= k -> zth buf k = zth to k).
Proof.
  intros Hbytes Hu32 Hd Hc Hf Ht Hto.
  destruct (unpack_total tab from dst_off count Hd Hc Hf Ht) as (t' & Hun).
  exists t'. split; [assumption|]. intros dcx Hdcx.
  destruct (unpack_inv tab from t' dst_off count Hd Hc Hun)
    as (L & _ & V & F).
  assert (Hu32' : forall x, In x t' -> 0 <= x < 2 ^ 32).
  { intros x Hx. apply In_nth with (d := 0) in Hx.
    destruct Hx as (n & Hn & <-).
    destruct (Z_lt_dec (Z.of_nat n) dst_off) as [Hlt|Hge].
    - pose proof (F (Z.of_nat n) ltac:(lia) ltac:(lia)) as Hz.
      unfold zth in Hz. rewrite Nat2Z.id in Hz. rewrite Hz.
      apply Hu32. apply nth_In. lia.
    - destruct (Z_lt_dec (Z.of_nat n) (dst_off + count)) as [Hlt'|Hge'].
      + pose proof (V (Z.of_nat n - dst_off) ltac:(lia)) as Hz.
        replace (dst_off + (Z.of_nat n - dst_off)) with (Z.of_nat n) in Hz
          by lia.
        unfold zth at 1 in Hz. rewrite Nat2Z.id in Hz. rewrite Hz.
        unfold le32_of, wrap32. apply Z.mod_pos_bound. lia.
      + pose proof (F (Z.of_nat n) ltac:(lia) ltac:(lia)) as Hz.
        unfold zth in Hz. rewrite Nat2Z.id in Hz. rewrite Hz.
        apply Hu32. apply nth_In. lia. }
  destruct (pack_spec t' to dst_off count Hu32' Hd Hc ltac:(lia) Hto)
    as (buf & Hp & _).
  assert (Hp' : pack_fsx32 dcx to dst_off count = Ok buf).
  { unfold pack_fsx32 in *. rewrite Hdcx. exact Hp. }
  destruct (pack_inv dcx to buf dst_off count Hd Hc Hp')
    as (t0 & Ht0 & Lb & _ & Vb & Fb).
  rewrite Hdcx in Ht0. inversion Ht0; subst t0.
  exists buf. split; [assumption|]. split; [assumption|].
  split; [|assumption].
  intros k Hk.
  assert (Hk' : k = 4 * (k / 4) + k mod 4) by (apply Z.div_mod; lia).
  assert (0 <= k mod 4 < 4) by (apply Z.mod_pos_bound; lia).
  assert (Hq : 0 <= k / 4 < count).
  { split; [apply Z.div_pos; lia|apply Z.div_lt_upper_bound; lia]. }
  destruct (Vb (k / 4) Hq) as (V0 & V1 & V2 & V3).
  rewrite (V (k / 4) Hq) in V0, V1, V2, V3.
  destruct (le32_of_bytes from (4 * (k / 4))) as (_ & D0 & D1 & D2 & D3).
  { intros i Hi. apply Hbytes. lia. }
  assert (Hc4 : k mod 4 = 0 \/ k mod 4 = 1 \/ k mod 4 = 2 \/ k mod 4 = 3)
    by lia.
  rewrite Hk'.
  destruct Hc4 as [-> | [-> | [-> | ->]]].
  - rewrite Z.add_0_r. congruence.
  - congruence.
  - congruence.
  - congruence.
Qed.

Lemma pack_unpack_roundtrip_witness :
  exists t',
    unpack_fsx32 [0; 0; 0] [1; 2; 3; 4; 5; 6; 7; 8] 1 2 = Ok t' /\
    forall dcx, Fsx32.tab dcx = Some t' ->
      exists buf,
        pack_fsx32 dcx (repeat 9 10%nat) 1 2 = Ok buf /\
        length buf = length (repeat 9 10%nat) /\
        (forall k, 0 <= k < 4 * 2 ->
                   zth buf k = zth [1; 2; 3; 4; 5; 6; 7; 8] k) /\
        (forall k, 4 * 2 <= k -> zth buf k = zth (repeat 9 10%nat) k).
Proof.
  apply (pack_unpack_roundtrip [0; 0; 0] [1; 2; 3; 4; 5; 6; 7; 8]
           (repeat 9 10%nat) 1 2).
  - intros k Hk.
    assert (Hc : k = 0 \/ k = 1 \/ k = 2 \/ k = 3 \/ k = 4 \/ k = 5 \/
                 k = 6 \/ k = 7) by lia.
    destruct Hc as [-> | [-> | [-> | [-> | [-> | [-> | [-> | ->]]]]]]];
      vm_compute; split; congruence.
  - intros x [<- | [<- | [<- | []]]]; lia.
  - lia.
  - lia.
  - cbn [length]. lia.
  - cbn [length]. lia.
  - cbn [length repeat]. lia.
Defined.

(** ** Lookup *)

Lemma hash_index_bound (h nb : Z) :
  0 <= h < 2 ^ 32 -> 0 <= nb <= 32 ->
  0 <= h / 2 ^ (32 - nb) < 2 ^ nb.
Proof.
  intros Hh Hnb.
  assert (0 < 2 ^ (32 - nb)) by (apply Z.pow_pos_nonneg; lia).
  split; [apply Z.div_pos; lia|].
  apply Z.div_lt_upper_bound; [lia|].
  rewrite <- Z.pow_add_r by lia. replace (32 - nb + nb) with 32 by lia. lia.
Qed.

(** X4. On a table of [2 ^ nums_bits] slots, [lookup_fsx32m] never reads
    outside the table, whatever the hash: it answers the entry at the
    index made of the [nums_bits] most significant bits of the hash. *)
Theorem lookup_hits_table (murmur3 : list Z -> Z -> Z -> Z)
    (dcx : fsx32_dcx) (str : list Z) (len seed : Z) (tab : list Z) :
  1 <= nums_bits dcx <= 31 ->
  Z.of_nat (length tab) = 2 ^ nums_bits dcx ->
  exists x,
    lookup_fsx32m murmur3 dcx str len seed tab = Ok x /\ In x tab /\
    x = zth tab (wrap32 (murmur3 str len seed) / 2 ^ (32 - nums_bits dcx)).
Proof.
  intros Hnb Hlen. unfold lookup_fsx32m. cbv zeta.
  set (h := wrap32 (murmur3 str len seed)).
  assert (Hh : 0 <= h < 2 ^ 32) by (apply Z.mod_pos_bound; lia).
  replace (wrap32 (32 - nums_bits dcx)) with (32 - nums_bits dcx)
    by (unfold wrap32; rewrite Z.mod_small; lia).
  rewrite Z.shiftr_div_pow2 by lia.
  pose proof (hash_index_bound h (nums_bits dcx) Hh ltac:(lia)) as Hi.
  rewrite aget_Ok by lia. eexists. split; [reflexivity|].
  split; [|reflexivity]. apply nth_In. lia.
Qed.

Lemma lookup_hits_table_witness :
  exists x,
    lookup_fsx32m lookup_example_hash lookup_example_dcx [] 0 0 [10; 11]
    = Ok x /\ In x [10; 11] /\
    x = zth [10; 11]
            (wrap32 (lookup_example_hash [] 0 0)
             / 2 ^ (32 - nums_bits lookup_example_dcx)).
Proof.
  apply (lookup_hits_table lookup_example_hash lookup_example_dcx [] 0 0
           [10; 11]).
  - cbn [nums_bits lookup_example_dcx]. lia.
  - reflexivity.
Defined.

(** X5. Stretching the table, as [spl] does, moves no key: a lookup in
    the stretched table with the larger [nums_bits] answers what the
    lookup in the old table answered, for every key. *)
Theorem lookup_stable_under_stretch (murmur3 : list Z -> Z -> Z -> Z)
    (dcx dcx' : fsx32_dcx) (fact_bits : Z) (str : list Z) (len seed : Z)
    (tab tab' : list Z) :
  1 <= nums_bits dcx -> 0 <= fact_bits ->
  nums_bits dcx' = nums_bits dcx + fact_bits -> nums_bits dcx' <= 31 ->
  Z.of_nat (length tab) = 2 ^ nums_bits dcx ->
  stretch_tab (shl1 (nums_bits dcx)) (shl1 fact_bits) (Some tab) = Ok tab' ->
  lookup_fsx32m murmur3 dcx' str len seed tab'
  = lookup_fsx32m murmur3 dcx str len seed tab.
Proof.
  intros Hnb Hf Hnb' Hmax Hlen Hs.
  rewrite !shl1_pow in Hs by lia.
  assert (Hpf : 0 < 2 ^ fact_bits) by (apply Z.pow_pos_nonneg; lia).
  assert (Hpn : 0 < 2 ^ nums_bits dcx) by (apply Z.pow_pos_nonneg; lia).
  rewrite stretch_tab_spec in Hs; auto.
  2:{ rewrite <- Z.pow_add_r by lia. apply Z.pow_lt_mono_r; lia. }
  inversion Hs; subst tab'; clear Hs.
  unfold lookup_fsx32m. cbv zeta.
  set (h := wrap32 (murmur3 str len seed)).
  assert (Hh : 0 <= h < 2 ^ 32) by (apply Z.mod_pos_bound; lia).
  replace (wrap32 (32 - nums_bits dcx)) with (32 - nums_bits dcx)
    by (unfold wrap32; rewrite Z.mod_small; lia).
  replace (wrap32 (32 - nums_bits dcx')) with (32 - nums_bits dcx')
    by (unfold wrap32; rewrite Z.mod_small; lia).
  rewrite !Z.shiftr_div_pow2 by lia.
  pose proof (hash_index_bound h (nums_bits dcx) Hh ltac:(lia)) as Hi.
  pose proof (hash_index_bound h (nums_bits dcx') Hh ltac:(lia)) as Hi'.
  pose proof (length_stretch (2 ^ fact_bits) tab ltac:(lia)) as Hl.
  rewrite Hlen, <- Z.pow_add_r, <- Hnb' in Hl by lia.
  rewrite !aget_Ok by lia. f_equal.
  fold (zth (stretch (2 ^ fact_bits) tab) (h / 2 ^ (32 - nums_bits dcx'))).
  rewrite zth_stretch.
  - unfold zth. do 2 f_equal. rewrite Z.div_div by lia.
    rewrite <- Z.pow_add_r by lia. do 2 f_equal. lia.
  - lia.
  - rewrite Hlen, <- Z.pow_add_r, <- Hnb' by lia. lia.
Qed.

Lemma lookup_stable_under_stretch_witness :
  lookup_fsx32m lookup_example_hash lookup_example_dcx' [] 0 0
                [10; 10; 11; 11]
  = lookup_fsx32m lookup_example_hash lookup_example_dcx [] 0 0 [10; 11].
Proof.
  apply (lookup_stable_under_stretch lookup_example_hash lookup_example_dcx
           lookup_example_dcx' 1 [] 0 0 [10; 11] [10; 10; 11; 11]);
    cbn [nums_bits lookup_example_dcx lookup_example_dcx'];
    try lia; reflexivity.
Defined.

(** ** Fibers built from the table, and the table rebuilt from them *)

Lemma find_id_Some (vec : list bucket) (id p i : Z) :
  find_id vec id p = Some i ->
  p <= i < p + Z.of_nat (length vec) /\
  b_id (nth (Z.to_nat (i - p)) vec bucket0) = id.
Proof.
  revert p. induction vec as [|b vec IH]; intros p H; cbn [find_id] in H;
    [discriminate|].
  destruct (Z.eqb_spec (b_id b) id) as [Heq|Hne].
  - inversion H; subst i. cbn [length]. rewrite Z.sub_diag. cbn [Z.to_nat nth].
    split; [lia|assumption].
  - apply IH in H. destruct H as [Hr Hid]. cbn [length]. split; [lia|].
    replace (Z.to_nat (i - p)) with (Datatypes.S (Z.to_nat (i - (p + 1))))
      by lia.
    exact Hid.
Qed.

Lemma find_id_first (vec : list bucket) (id p : Z) (j : nat) :
  NoDup (map b_id vec) -> (j < length vec)%nat ->
  b_id (nth j vec bucket0) = id ->
  find_id vec id p = Some (p + Z.of_nat j).
Proof.
  revert p j. induction vec as [|b vec IH]; intros p j Hnd Hj Hid;
    cbn [length] in Hj; [lia|].
  cbn [find_id]. cbn [map] in Hnd. apply NoDup_cons_iff in Hnd.
  destruct Hnd as [Hnot Hnd'].
  destruct j as [|j]; cbn [nth] in Hid.
  - subst id. rewrite Z.eqb_refl. f_equal. lia.
  - destruct (Z.eqb_spec (b_id b) id) as [Heq|Hne].
    + exfalso. apply Hnot. rewrite Heq, <- Hid. apply in_map. apply nth_In. lia.
    + rewrite (IH (p + 1) j); auto; [f_equal; lia|lia].
Qed.

Lemma slots_from_app (id : Z) (l1 l2 : list Z) (p : Z) :
  slots_from id (l1 ++ l2) p
  = slots_from id l1 p ++ slots_from id l2 (p + Z.of_nat (length l1)).
Proof.
  revert p. induction l1 as [|x l1 IH]; intros p; cbn [app slots_from length].
  - rewrite Z.add_0_r. reflexivity.
  - rewrite IH. replace (p + 1 + Z.of_nat (length l1))
      with (p + Z.of_nat (Datatypes.S (length l1))) by lia.
    destruct (x =? id); reflexivity.
Qed.

Lemma slots_from_count (id : Z) (l : list Z) (p : Z) :
  Z.of_nat (length (slots_from id l p)) = count_id id l.
Proof.
  revert p. induction l as [|x l IH]; intros p; cbn [slots_from].
  - reflexivity.
  - rewrite count_id_cons. rewrite (Z.eqb_sym id x).
    destruct (x =? id); cbn [length]; rewrite ?Nat2Z.inj_succ, IH; lia.
Qed.

Lemma upd_app_mid {A : Type} (a b : list A) (x v : A) :
  upd (length a) v (a ++ x :: b) = a ++ v :: b.
Proof. induction a as [|y a IH]; cbn [length app upd]; [reflexivity|]. now rewrite IH. Qed.

Lemma fib_set_at_Ok (vec : list bucket) (i : Z) (f : option (list Z)) :
  0 <= i < Z.of_nat (length vec) ->
  fib_set_at vec i f
  = Ok (upd (Z.to_nat i)
            (mk_bucket (b_cap (nth (Z.to_nat i) vec bucket0))
                       (b_id (nth (Z.to_nat i) vec bucket0)) f
                       (b_fiblen (nth (Z.to_nat i) vec bucket0))) vec).
Proof.
  intros H. unfold fib_set_at. rewrite bucket_at_Ok by assumption. reflexivity.
Qed.

Lemma fib_lenp_set_Ok (vec : list bucket) (i len : Z) :
  0 <= i < Z.of_nat (length vec) ->
  fib_lenp_set vec i len
  = Ok (upd (Z.to_nat i)
            (mk_bucket (b_cap (nth (Z.to_nat i) vec bucket0))
                       (b_id (nth (Z.to_nat i) vec bucket0))
                       (b_fib (nth (Z.to_nat i) vec bucket0)) len) vec).
Proof.
  intros H. unfold fib_lenp_set. rewrite bucket_at_Ok by assumption. reflexivity.
Qed.

Lemma bucket_at_Ok_inv (vec : list bucket) (i : Z) (b : bucket) :
  bucket_at vec i = Ok b ->
  0 <= i < Z.of_nat (length vec) /\ b = nth (Z.to_nat i) vec bucket0.
Proof.
  unfold bucket_at, vec_in_range. intros H.
  destruct (Z.leb_spec 0 i); destruct (Z.ltb_spec i (Z.of_nat (length vec)));
    cbn [andb] in H; inversion H. split; [lia|reflexivity].
Qed.

Lemma nth_map_b_id (vec : list bucket) (n : nat) :
  nth n (map b_id vec) 0 = b_id (nth n vec bucket0).
Proof. exact (map_nth b_id vec bucket0 n). Qed.

Lemma b_id_inj (vec : list bucket) (i j : Z) :
  NoDup (map b_id vec) ->
  0 <= i < Z.of_nat (length vec) -> 0 <= j < Z.of_nat (length vec) ->
  b_id (nth (Z.to_nat i) vec bucket0) = b_id (nth (Z.to_nat j) vec bucket0) ->
  i = j.
Proof.
  intros Hids Hi Hj H.
  assert (E : Z.to_nat i = Z.to_nat j); [|lia].
  apply (proj1 (NoDup_nth (map b_id vec) 0) Hids);
    rewrite ?length_map; try lia.
  rewrite !nth_map_b_id. exact H.
Qed.

Section CreateFibers.

Variables (vec : list bucket) (tab nw : list Z) (numb : Z).
Hypothesis Hlen : Z.of_nat (length vec) = numb.
Hypothesis Hnw : Z.of_nat (length nw) = numb.
Hypothesis Hids : NoDup (map b_id vec).
Hypothesis Hw32 : forall x, In x nw -> 0 <= x < 2 ^ 32.

Let idj (j : Z) : Z := b_id (nth (Z.to_nat j) vec bucket0).
Let capj (j : Z) : Z := b_cap (nth (Z.to_nat j) vec bucket0).
Let sl (j k : Z) : list Z := slots_from (idj j) (firstn (Z.to_nat k) tab) 0.
Let cnt (j k : Z) : Z := Z.of_nat (length (sl j k)).
Let fibj (j k : Z) : list Z :=
  sl j k ++ repeat 0 (Z.to_nat (zth nw j - cnt j k)).

Let scan_inv (k : Z) (st : list bucket * list Z) : Prop :=
  length (fst st) = length vec /\ length (snd st) = length nw /\
  forall j, 0 <= j < numb ->
    nth (Z.to_nat j) (fst st) bucket0
    = mk_bucket (capj j) (idj j) (Some (fibj j k)) (zth nw j) /\
    zth (snd st) j = cnt j k /\ cnt j k <= zth nw j.

Let known (k : Z) : Prop :=
  forall k', 0 <= k' < k -> exists j, 0 <= j < numb /\ zth tab k' = idj j.

Lemma sl_step (j k : Z) :
  0 <= k < Z.of_nat (length tab) ->
  sl j (k + 1) = sl j k ++ (if zth tab k =? idj j then [k] else []).
Proof.
  intros Hk. unfold sl.
  replace (Z.to_nat (k + 1)) with (Datatypes.S (Z.to_nat k)) by lia.
  rewrite (firstn_snoc (Z.to_nat k) tab 0) by lia.
  rewrite slots_from_app. f_equal.
  rewrite length_firstn, Nat.min_l by lia.
  cbn [slots_from]. fold (zth tab k).
  replace (0 + Z.of_nat (Z.to_nat k)) with k by lia. reflexivity.
Qed.

Lemma idj_inj (i j : Z) :
  0 <= i < numb -> 0 <= j < numb -> idj i = idj j -> i = j.
Proof.
  intros Hi Hj H. apply (b_id_inj vec); auto; lia.
Qed.

Lemma scan_step (k : Z) (v : list bucket) (w : list Z)
    (st' : list bucket * list Z) :
  0 <= k < Z.of_nat (length tab) ->
  scan_inv k (v, w) ->
  (t <- aget tab k ;;
   idx <- id2idx v t ;;
   p <- fib_at v idx ;;
   c <- aget w idx ;;
   w' <- aset w idx (wrap32 (c + 1)) ;;
   fib <- deref p ;;
   fib' <- aset fib c k ;;
   v' <- fib_set_at v idx (Some fib') ;;
   Ok (v', w')) = Ok st' ->
  scan_inv (k + 1) st' /\
  exists j, 0 <= j < numb /\ zth tab k = idj j.
Proof.
  intros Hk (Lv & Lw & Hj) H. cbn [fst snd] in *.
  bind_inv H. apply aget_Ok_inv in E. destruct E as [_ ->].
  fold (zth tab k) in H.
  bind_inv H. rename x into idx. unfold id2idx in E.
  destruct (find_id v (zth tab k) 0) as [i0|] eqn:Ef; [|discriminate].
  inversion E; subst i0. clear E.
  apply find_id_Some in Ef. rewrite Z.sub_0_r in Ef. destruct Ef as [Ridx Hid].
  assert (Ridx' : 0 <= idx < numb) by lia.
  destruct (Hj idx Ridx') as (Hb & Hwi & Hci).
  rewrite Hb in Hid. cbn [b_id] in Hid.
  rewrite fib_at_Ok in H by lia. cbn [bind] in H. rewrite Hb in H.
  cbn [b_fib] in H.
  bind_inv H. apply aget_Ok_inv in E. destruct E as [_ ->].
  fold (zth w idx) in H. rewrite Hwi in H.
  bind_inv H. rename x into w'. apply aset_Ok_inv in E. destruct E as [_ ->].
  cbn [deref bind] in H.
  bind_inv H. rename x into fib'. apply aset_Ok_inv in E.
  destruct E as [Rc ->].
  rewrite fib_set_at_Ok in H by lia. inversion H; subst st'. clear H.
  rewrite Hb. cbn [b_cap b_id b_fiblen fst snd].
  assert (Hlenf : Z.of_nat (length (fibj idx k))
                  = cnt idx k + Z.of_nat (Z.to_nat (zth nw idx - cnt idx k))).
  { unfold fibj. rewrite length_app, repeat_length. unfold cnt. lia. }
  assert (Hroom : cnt idx k + 1 <= zth nw idx) by lia.
  assert (Hwr : 0 <= zth nw idx < 2 ^ 32).
  { apply Hw32. apply zth_In. lia. }
  assert (Hw : wrap32 (cnt idx k + 1) = cnt idx k + 1).
  { unfold wrap32. apply Z.mod_small. unfold cnt in *. lia. }
  rewrite Hw. unfold scan_inv. cbn [fst snd].
  split; [|exists idx; auto].
  split; [rewrite length_upd; assumption|].
  split; [rewrite length_upd; assumption|].
  intros j Rj. destruct (Z.eq_dec j idx) as [->|Hne].
  - rewrite nth_upd_eq by lia.
    assert (Hs : sl idx (k + 1) = sl idx k ++ [k]).
    { rewrite sl_step by assumption. rewrite <- Hid, Z.eqb_refl. reflexivity. }
    assert (Hc : cnt idx (k + 1) = cnt idx k + 1).
    { unfold cnt. rewrite Hs, length_app. cbn [length]. lia. }
    split; [|split].
    + f_equal. f_equal. unfold fibj at 2. rewrite Hs, Hc.
      unfold fibj. unfold cnt at 1.
      replace (Z.to_nat (zth nw idx - cnt idx k))
        with (Datatypes.S (Z.to_nat (zth nw idx - (cnt idx k + 1)))) by lia.
      cbn [repeat]. rewrite Nat2Z.id, upd_app_mid, <- app_assoc. reflexivity.
    + unfold zth. rewrite nth_upd_eq by lia. lia.
    + lia.
  - rewrite nth_upd_neq by lia.
    destruct (Hj j Rj) as (Hbj & Hwj & Hcj).
    assert (Hs : sl j (k + 1) = sl j k).
    { rewrite sl_step by assumption.
      destruct (Z.eqb_spec (zth tab k) (idj j)) as [Heq|_];
        [|apply app_nil_r].
      exfalso. apply Hne. apply idj_inj; auto. congruence. }
    assert (Hc : cnt j (k + 1) = cnt j k) by (unfold cnt; now rewrite Hs).
    split; [|split].
    + rewrite Hbj. unfold fibj. rewrite Hs, Hc. reflexivity.
    + unfold zth. rewrite nth_upd_neq by lia. fold (zth w j). lia.
    + lia.
Qed.

Lemma alloc_loop (vec1 : list bucket) :
  for_ 0 numb
    (fun i v =>
       wi <- aget nw i ;;
       fib <- alloc32 wi ;;
       v' <- fib_set_at v i (Some fib) ;;
       fib_lenp_set v' i wi)
    vec = Ok vec1 ->
  length vec1 = length vec /\
  forall j, 0 <= j < numb ->
    nth (Z.to_nat j) vec1 bucket0
    = mk_bucket (capj j) (idj j) (Some (zeros (zth nw j))) (zth nw j).
Proof.
  intros H.
  pose (P := fun (i : Z) (v : list bucket) =>
    length v = length vec /\
    forall j, 0 <= j < numb ->
      nth (Z.to_nat j) v bucket0
      = if j <? i
        then mk_bucket (capj j) (idj j) (Some (zeros (zth nw j)))
                       (zth nw j)
        else nth (Z.to_nat j) vec bucket0).
  assert (HP : P numb vec1).
  { refine (for_inv P _ _ _ _ _ _ _ _ H); unfold P; [lia| |].
    - split; [reflexivity|]. intros j Hj.
      destruct (Z.ltb_spec j 0); [lia|reflexivity].
    - intros i v v' Hi (L & B) Hb. bind_inv Hb.
      apply aget_Ok_inv in E. destruct E as [_ ->]. fold (zth nw i) in *.
      bind_inv Hb. apply alloc32_Ok_inv in E. destruct E as [_ ->].
      bind_inv Hb. rewrite fib_set_at_Ok in E by lia. inversion E; subst x.
      clear E. rewrite fib_lenp_set_Ok in Hb by (rewrite length_upd; lia).
      inversion Hb; subst v'. clear Hb.
      rewrite nth_upd_eq by lia. cbn [b_cap b_id b_fib].
      rewrite (B i Hi). destruct (Z.ltb_spec i i); [lia|].
      split; [rewrite !length_upd; assumption|].
      intros j Hj. destruct (Z.eq_dec j i) as [->|Hne].
      + rewrite nth_upd_eq by (rewrite length_upd; lia).
        destruct (Z.ltb_spec i (i + 1)); [reflexivity|lia].
      + rewrite !nth_upd_neq by lia. rewrite (B j Hj).
        destruct (Z.ltb_spec j i); destruct (Z.ltb_spec j (i + 1));
          try lia; reflexivity. }
  destruct HP as [L B]. split; [assumption|].
  intros j Hj. rewrite (B j Hj).
  destruct (Z.ltb_spec j numb); [reflexivity|lia].
Qed.

Lemma create_fibers_scan (nums_bits : Z) (vec' : list bucket) (w' : list Z) :
  create_fibers nums_bits tab numb nw vec = Ok (vec', w') ->
  (0 < shl1 nums_bits -> shl1 nums_bits <= Z.of_nat (length tab)) /\
  scan_inv (shl1 nums_bits) (vec', w') /\ known (shl1 nums_bits).
Proof.
  intros H. unfold create_fibers in H. bind_inv H. rename x into vec1.
  apply alloc_loop in E. destruct E as [L1 B1].
  unfold init_fibers_by_tab in H. cbv zeta in H.
  bind_inv H. rename x into w0.
  assert (Hnumb : 0 <= numb) by lia.
  pose proof (fun Hs => for_fill (fun _ => 0) _ 0 numb _ _ ltac:(lia) Hs E)
    as F.
  destruct F as (L0 & V0 & _).
  { intros i u u' Hi Hb. apply aset_Ok_inv in Hb. destruct Hb as [R ->].
    split; [reflexivity|lia]. }
  set (nums := shl1 nums_bits) in *.
  assert (Hnums : 0 <= nums) by (apply Z.mod_pos_bound; lia).
  pose (P := fun (k : Z) (st : list bucket * list Z) =>
    (0 < k -> k <= Z.of_nat (length tab)) /\ scan_inv k st /\ known k).
  assert (HP : P nums (vec', w')).
  { refine (for_inv P _ _ _ _ _ Hnums _ _ H); unfold P.
    - split; [lia|]. split.
      + unfold scan_inv. cbn [fst snd]. split; [assumption|].
        split; [assumption|]. intros j Hj.
        assert (Hz : cnt j 0 = 0) by reflexivity.
        assert (0 <= zth nw j < 2 ^ 32) by (apply Hw32; apply zth_In; lia).
        split; [|split].
        * rewrite (B1 j Hj). unfold fibj. rewrite Hz, Z.sub_0_r. reflexivity.
        * rewrite V0 by lia. lia.
        * lia.
      + intros k' Hk'. lia.
    - intros k [v w] st' Hk (B & I & K) Hb.
      assert (Rk : 0 <= k < Z.of_nat (length tab)).
      { pose proof Hb as Hb'. bind_inv Hb'. apply aget_Ok_inv in E0. lia. }
      destruct (scan_step k v w st' Rk I Hb) as [I' K'].
      split; [lia|]. split; [assumption|].
      intros k' Hk'. destruct (Z.eq_dec k' k) as [->|Hne]; [assumption|].
      apply K. lia. }
  exact HP.
Qed.

Lemma cnt_count (j k : Z) :
  cnt j k = count_id (idj j) (firstn (Z.to_nat k) tab).
Proof. unfold cnt, sl. apply slots_from_count. Qed.

Lemma cnt_mono (j k n : Z) : 0 <= k <= n -> cnt j k <= cnt j n.
Proof.
  intros H. unfold cnt, sl.
  rewrite <- (firstn_skipn (Z.to_nat k) (firstn (Z.to_nat n) tab)).
  rewrite firstn_firstn, Nat.min_l by lia.
  rewrite slots_from_app, length_app. lia.
Qed.

Lemma create_fibers_inv (nums_bits : Z) (vec' : list bucket)
    (w' : list Z) :
  0 <= nums_bits <= 31 ->
  create_fibers nums_bits tab numb nw vec = Ok (vec', w') ->
  let t := firstn (Z.to_nat (2 ^ nums_bits)) tab in
  2 ^ nums_bits <= Z.of_nat (length tab) /\
  length vec' = length vec /\ length w' = length nw /\
  (forall x, In x t -> In x (map b_id vec)) /\
  forall j, 0 <= j < numb ->
    let b := nth (Z.to_nat j) vec bucket0 in
    let b' := nth (Z.to_nat j) vec' bucket0 in
    b_cap b' = b_cap b /\ b_id b' = b_id b /\ b_fiblen b' = zth nw j /\
    zth w' j = count_id (b_id b) t /\
    count_id (b_id b) t <= zth nw j /\
    b_fib b' = Some (slots_of (b_id b) t
                     ++ repeat 0 (Z.to_nat (zth nw j - count_id (b_id b) t))).
Proof.
  intros Hnb H t.
  apply create_fibers_scan in H. rewrite shl1_pow in H by lia.
  assert (Hpos : 0 < 2 ^ nums_bits) by (apply Z.pow_pos_nonneg; lia).
  destruct H as (Hb & (Lv & Lw & Hj) & K). cbn [fst snd] in *.
  split; [auto|]. split; [assumption|]. split; [assumption|]. split.
  - intros x Hx. apply In_nth with (d := 0) in Hx.
    destruct Hx as (n & Hn & <-). unfold t in *.
    rewrite length_firstn in Hn. rewrite nth_firstn.
    destruct (Nat.ltb_spec n (Z.to_nat (2 ^ nums_bits))); [|lia].
    destruct (K (Z.of_nat n) ltac:(lia)) as (j & Rj & Hid).
    unfold zth in Hid. rewrite Nat2Z.id in Hid. rewrite Hid.
    unfold idj. rewrite <- nth_map_b_id. apply nth_In. rewrite length_map. lia.
  - intros j Rj. destruct (Hj j Rj) as (Hbj & Hwj & Hcj).
    rewrite Hbj. cbn [b_cap b_id b_fib b_fiblen].
    rewrite cnt_count in Hwj, Hcj. fold t in Hwj, Hcj.
    repeat split; auto.
    unfold fibj. rewrite cnt_count. reflexivity.
Qed.

Lemma scan_step_total (k : Z) (v : list bucket) (w : list Z) :
  0 <= k < Z.of_nat (length tab) ->
  scan_inv k (v, w) ->
  (exists j, 0 <= j < numb /\ zth tab k = idj j) ->
  (forall j, 0 <= j < numb -> cnt j (k + 1) <= zth nw j) ->
  exists st',
    (t <- aget tab k ;;
     idx <- id2idx v t ;;
     p <- fib_at v idx ;;
     c <- aget w idx ;;
     w' <- aset w idx (wrap32 (c + 1)) ;;
     fib <- deref p ;;
     fib' <- aset fib c k ;;
     v' <- fib_set_at v idx (Some fib') ;;
     Ok (v', w')) = Ok st'.
Proof.
  intros Hk (Lv & Lw & Hj) (j & Rj & Hid) Hfit. cbn [fst snd] in *.
  rewrite aget_zth by lia. cbn [bind].
  assert (Hmap : map b_id v = map b_id vec).
  { apply nth_ext with (d := 0) (d' := 0); rewrite !length_map; [lia|].
    intros n Hn. rewrite !nth_map_b_id.
    destruct (Hj (Z.of_nat n) ltac:(lia)) as (Hb & _).
    rewrite Nat2Z.id in Hb. rewrite Hb. cbn [b_id]. unfold idj.
    now rewrite Nat2Z.id. }
  destruct (Hj j Rj) as (Hb & Hwj & Hcj).
  assert (Hf : find_id v (zth tab k) 0 = Some j).
  { rewrite (find_id_first v (zth tab k) 0 (Z.to_nat j)).
    - f_equal. lia.
    - rewrite Hmap. assumption.
    - lia.
    - rewrite Hb. cbn [b_id]. congruence. }
  unfold id2idx. rewrite Hf. cbn [bind].
  rewrite fib_at_Ok by lia. cbn [bind]. rewrite Hb. cbn [b_fib].
  rewrite aget_zth by lia. cbn [bind]. rewrite aset_Ok by lia.
  cbn [bind deref].
  assert (Hs : sl j (k + 1) = sl j k ++ [k]).
  { rewrite sl_step by assumption. rewrite Hid, Z.eqb_refl. reflexivity. }
  assert (Hc : cnt j (k + 1) = cnt j k + 1).
  { unfold cnt. rewrite Hs, length_app. cbn [length]. lia. }
  pose proof (Hfit j Rj) as Hr. rewrite Hc in Hr.
  rewrite Hwj. rewrite aset_Ok.
  - cbn [bind]. rewrite fib_set_at_Ok by lia. cbn [bind]. eauto.
  - unfold fibj. rewrite length_app, repeat_length. unfold cnt in *. lia.
Qed.

Lemma create_fibers_succeeds (nums_bits : Z) :
  0 <= nums_bits <= 31 ->
  let t := firstn (Z.to_nat (2 ^ nums_bits)) tab in
  2 ^ nums_bits <= Z.of_nat (length tab) ->
  (forall x, In x t -> In x (map b_id vec)) ->
  (forall j, 0 <= j < numb ->
     count_id (b_id (nth (Z.to_nat j) vec bucket0)) t <= zth nw j) ->
  (forall j, 0 <= j < numb -> zth nw j <> 0) ->
  exists vec' w', create_fibers nums_bits tab numb nw vec = Ok (vec', w').
Proof.
  intros Hnb t Hlt Hknown Hfit Hnz.
  assert (Hpos : 0 < 2 ^ nums_bits) by (apply Z.pow_pos_nonneg; lia).
  assert (Hnumb : 0 <= numb) by lia.
  unfold create_fibers.
  destruct (for_total
              (fun (_ : Z) (v : list bucket) => length v = length vec)
              (fun i v =>
                 wi <- aget nw i ;;
                 fib <- alloc32 wi ;;
                 v' <- fib_set_at v i (Some fib) ;;
                 fib_lenp_set v' i wi)
              0 numb vec) as (vec1 & E1 & _); auto.
  { intros i v Hi L. rewrite aget_zth by lia. cbn [bind].
    rewrite alloc32_Ok by (apply Hnz; lia). cbn [bind].
    rewrite fib_set_at_Ok by lia. cbn [bind].
    rewrite fib_lenp_set_Ok by (rewrite length_upd; lia).
    eexists. split; [reflexivity|]. rewrite !length_upd. assumption. }
  rewrite E1. cbn [bind].
  pose proof (alloc_loop vec1 E1) as [L1 B1].
  unfold init_fibers_by_tab. cbv zeta.
  destruct (for_total
              (fun (i : Z) (w : list Z) =>
                 length w = length nw /\
                 forall j, 0 <= j < i -> zth w j = 0)
              (fun i w => aset w i 0) 0 numb nw) as (w0 & E0 & L0 & V0); auto.
  { split; [reflexivity|]. intros; lia. }
  { intros i w Hi [L V]. rewrite aset_Ok by lia. eexists.
    split; [reflexivity|]. split; [rewrite length_upd; assumption|].
    intros j Hj. unfold zth. destruct (Z.eq_dec j i) as [->|Hne].
    - apply nth_upd_eq. lia.
    - rewrite nth_upd_neq by lia. apply V. lia. }
  rewrite E0. cbn [bind]. rewrite shl1_pow by lia.
  destruct (for_total scan_inv
              (fun i '(v, w) =>
                 t <- aget tab i ;;
                 idx <- id2idx v t ;;
                 p <- fib_at v idx ;;
                 c <- aget w idx ;;
                 w' <- aset w idx (wrap32 (c + 1)) ;;
                 fib <- deref p ;;
                 fib' <- aset fib c i ;;
                 v' <- fib_set_at v idx (Some fib') ;;
                 Ok (v', w'))
              0 (2 ^ nums_bits) (vec1, w0)) as ([v' w'] & E & _).
  - lia.
  - unfold scan_inv. cbn [fst snd]. split; [assumption|].
    split; [assumption|]. intros j Hj.
    assert (Hz : cnt j 0 = 0) by reflexivity.
    assert (0 <= zth nw j < 2 ^ 32) by (apply Hw32; apply zth_In; lia).
    split; [|split].
    + rewrite (B1 j Hj). unfold fibj. rewrite Hz, Z.sub_0_r. reflexivity.
    + rewrite V0 by lia. lia.
    + lia.
  - intros k [v w] Hk I.
    assert (Hex : exists j, 0 <= j < numb /\ zth tab k = idj j).
    { assert (Hin : In (zth tab k) t).
      { unfold t. replace (zth tab k)
          with (nth (Z.to_nat k) (firstn (Z.to_nat (2 ^ nums_bits)) tab) 0).
        - apply nth_In. rewrite length_firstn. lia.
        - rewrite nth_firstn.
          destruct (Nat.ltb_spec (Z.to_nat k) (Z.to_nat (2 ^ nums_bits)));
            [reflexivity|lia]. }
      apply Hknown in Hin. apply In_nth with (d := 0) in Hin.
      destruct Hin as (n & Hn & Heq). rewrite length_map in Hn.
      exists (Z.of_nat n). split; [lia|]. unfold idj.
      rewrite Nat2Z.id, <- nth_map_b_id. auto. }
    assert (Hfit' : forall j, 0 <= j < numb -> cnt j (k + 1) <= zth nw j).
    { intros j Hj. pose proof (cnt_mono j (k + 1) (2 ^ nums_bits) ltac:(lia)).
      pose proof (Hfit j Hj) as Hf. fold (idj j) in Hf. unfold t in Hf.
      rewrite <- cnt_count in Hf. lia. }
    destruct (scan_step_total k v w ltac:(lia) I Hex Hfit') as (st' & Hst).
    exists st'. split; [exact Hst|].
    apply (scan_step k v w st' ltac:(lia) I Hst).
  - exists v', w'. exact E.
Qed.

(** The allocation loop stops at the first fiber of weight zero: its
    allocation yields NULL. *)
Lemma alloc_loop_nomem :
  forall (n : nat) (lo : Z) (v : list bucket),
    0 <= lo -> lo + Z.of_nat n <= numb -> length v = length vec ->
    (exists j, lo <= j < lo + Z.of_nat n /\ zth nw j = 0) ->
    for_loop n lo
      (fun i v =>
         wi <- aget nw i ;;
         fib <- alloc32 wi ;;
         v' <- fib_set_at v i (Some fib) ;;
         fib_lenp_set v' i wi)
      v = Err ENOMEM.
Proof.
  induction n as [|n IH]; intros lo v Hlo Hhi Lv (j & Hj & Hz); [lia|].
  cbn [for_loop]. rewrite aget_zth by lia. cbn [bind].
  destruct (Z.eq_dec (zth nw lo) 0) as [E0|Hne].
  - rewrite E0. reflexivity.
  - rewrite alloc32_Ok by assumption. cbn [bind].
    rewrite fib_set_at_Ok by lia. cbn [bind].
    rewrite fib_lenp_set_Ok by (rewrite length_upd; lia). cbn [bind].
    apply IH; try lia.
    + unfold upd_bucket. rewrite !length_upd. assumption.
    + exists j. split; [|assumption].
      destruct (Z.eq_dec j lo) as [->|]; [contradiction|lia].
Qed.

Lemma create_fibers_nomem (nums_bits j : Z) :
  0 <= j < numb -> zth nw j = 0 ->
  create_fibers nums_bits tab numb nw vec = Err ENOMEM.
Proof.
  intros Hj Hz. unfold create_fibers, for_.
  rewrite (alloc_loop_nomem (Z.to_nat (numb - 0)) 0 vec); try lia;
    [reflexivity|].
  exists j. split; [lia|assumption].
Qed.

End CreateFibers.

(** X7. When every weight is positive, [create_fibers] succeeds whenever
    the first [2 ^ nums_bits] slots of the table hold identifiers of bricks
    of the vector and no brick occupies more slots than the weight its
    fiber is allocated for.  When a weight is zero it answers [-ENOMEM]:
    a fiber of no slots cannot be allocated. *)
Theorem create_fibers_total (vec : list bucket) (tab nw : list Z)
    (nums_bits : Z) :
  length nw = length vec ->
  NoDup (map b_id vec) ->
  (forall x, In x nw -> 0 <= x < 2 ^ 32) ->
  0 <= nums_bits <= 31 ->
  let t := firstn (Z.to_nat (2 ^ nums_bits)) tab in
  2 ^ nums_bits <= Z.of_nat (length tab) ->
  (forall x, In x t -> In x (map b_id vec)) ->
  (forall j, 0 <= j < Z.of_nat (length vec) ->
     count_id (b_id (nth (Z.to_nat j) vec bucket0)) t <= zth nw j) ->
  (~ In 0 nw ->
   exists vec' w',
     create_fibers nums_bits tab (Z.of_nat (length vec)) nw vec
     = Ok (vec', w')) /\
  (In 0 nw ->
   create_fibers nums_bits tab (Z.of_nat (length vec)) nw vec
   = Err ENOMEM).
Proof.
  intros Hnw Hids Hw32 Hnb t Hlt Hknown Hfit. split.
  - intros Hnz.
    apply (create_fibers_succeeds vec tab nw (Z.of_nat (length vec)) eq_refl
             ltac:(lia) Hids Hw32 nums_bits Hnb Hlt Hknown Hfit).
    intros j Hj Hz. apply Hnz. rewrite <- Hz. apply zth_In. lia.
  - intros H0. apply In_nth with (d := 0) in H0.
    destruct H0 as (n & Hn & Hz).
    apply (create_fibers_nomem vec tab nw (Z.of_nat (length vec)) eq_refl
             ltac:(lia) nums_bits (Z.of_nat n)); [lia|].
    unfold zth. rewrite Nat2Z.id. assumption.
Qed.

(** X6. [create_fibers] scans the first [2 ^ nums_bits] slots of the table.
    When it succeeds, every one of these slots holds the identifier of a
    brick of the vector, no brick occupies more slots than its weight,
    the weights array holds the number of slots of each brick, and the
    fiber of each brick lists its slots in ascending order, padded with
    zeros up to the weight it was allocated for. *)
Theorem create_fibers_spec (vec : list bucket) (tab nw : list Z)
    (nums_bits : Z) (vec' : list bucket) (w' : list Z) :
  length nw = length vec ->
  NoDup (map b_id vec) ->
  (forall x, In x nw -> 0 <= x < 2 ^ 32) ->
  0 <= nums_bits <= 31 ->
  create_fibers nums_bits tab (Z.of_nat (length vec)) nw vec = Ok (vec', w') ->
  let t := firstn (Z.to_nat (2 ^ nums_bits)) tab in
  2 ^ nums_bits <= Z.of_nat (length tab) /\
  (forall x, In x t -> In x (map b_id vec)) /\
  (forall j, 0 <= j < Z.of_nat (length vec) ->
             count_id (b_id (nth (Z.to_nat j) vec bucket0)) t <= zth nw j) /\
  fibers_built vec nw t vec' w'.
Proof.
  intros Hnw Hids Hw32 Hnb H t.
  destruct (create_fibers_inv vec tab nw (Z.of_nat (length vec)) eq_refl
              ltac:(lia) Hids Hw32 nums_bits vec' w' Hnb H)
    as (A & B & C & D & E).
  fold t in D, E. split; [assumption|]. split; [assumption|]. split.
  - intros j Hj. apply (E j Hj).
  - split; [assumption|]. split; [assumption|].
    intros j Hj. destruct (E j Hj) as (E1 & E2 & E3 & E4 & _ & E6). auto.
Qed.

Lemma create_fibers_spec_witness :
  exists vec' w',
    create_fibers 2 fibers_example_tab 2 [3; 1] fibers_example_vec
    = Ok (vec', w') /\
    fibers_built fibers_example_vec [3; 1] fibers_example_tab vec' w'.
Proof.
  eexists. eexists. split; [vm_compute; reflexivity|].
  apply (create_fibers_spec fibers_example_vec fibers_example_tab [3; 1] 2).
  - reflexivity.
  - vm_compute. repeat constructor; simpl; intuition congruence.
  - intros x [<- | [<- | []]]; lia.
  - lia.
  - vm_compute. reflexivity.
Defined.

Lemma create_fibers_total_witness :
  (~ In 0 [3; 1] ->
   exists vec' w',
     create_fibers 2 fibers_example_tab 2 [3; 1] fibers_example_vec
     = Ok (vec', w')) /\
  (In 0 [3; 1] ->
   create_fibers 2 fibers_example_tab 2 [3; 1] fibers_example_vec
   = Err ENOMEM).
Proof.
  apply (create_fibers_total fibers_example_vec fibers_example_tab [3; 1] 2).
  - reflexivity.
  - vm_compute. repeat constructor; simpl; intuition congruence.
  - intros x [<- | [<- | []]]; lia.
  - lia.
  - cbn [length fibers_example_tab]. lia.
  - intros x Hx. vm_compute in Hx |- *. tauto.
  - intros j Hj.
    change (Z.of_nat (length fibers_example_vec)) with 2 in Hj.
    assert (Hc : j = 0 \/ j = 1) by lia.
    destruct Hc as [-> | ->]; vm_compute; congruence.
Defined.

Lemma slots_from_In_iff (id : Z) (tab : list Z) (p s : Z) :
  In s (slots_from id tab p) <->
  p <= s < p + Z.of_nat (length tab) /\ zth tab (s - p) = id.
Proof.
  split; [apply slots_from_In|].
  revert p. induction tab as [|x t IH]; intros p [Hr Hz]; cbn [length] in Hr;
    [lia|].
  cbn [slots_from]. destruct (Z.eq_dec s p) as [->|Hne].
  - rewrite Z.sub_diag in Hz. unfold zth in Hz. cbn [Z.to_nat nth] in Hz.
    subst x. rewrite Z.eqb_refl. left. reflexivity.
  - assert (Hin : In s (slots_from id t (p + 1))).
    { apply IH. split; [lia|]. unfold zth in *.
      replace (Z.to_nat (s - p)) with (Datatypes.S (Z.to_nat (s - (p + 1))))
        in Hz by lia.
      exact Hz. }
    destruct (x =? id); [right|]; assumption.
Qed.

Lemma slots_of_In_iff (id : Z) (tab : list Z) (s : Z) :
  In s (slots_of id tab) <->
  0 <= s < Z.of_nat (length tab) /\ zth tab s = id.
Proof.
  unfold slots_of. rewrite slots_from_In_iff, Z.sub_0_r. lia.
Qed.

(** One inner loop of [init_tab_by_fibers]. *)
Lemma fiber_to_tab (vec : list bucket) (i wi : Z) (f t : list Z) :
  0 <= i < Z.of_nat (length vec) ->
  b_fib (nth (Z.to_nat i) vec bucket0) = Some f ->
  0 <= wi <= Z.of_nat (length f) ->
  (forall s, In s (firstn (Z.to_nat wi) f) -> 0 <= s < Z.of_nat (length t)) ->
  for_ 0 wi
    (fun j u =>
       p <- fib_at vec i ;;
       fib <- deref p ;;
       s <- aget fib j ;;
       id <- idx2id vec i ;;
       u0 <- deref u ;;
       u' <- aset u0 s (wrap32 id) ;;
       Ok (Some u'))
    (Some t)
  = Ok (Some (write_list
                (hand (wrap32 (b_id (nth (Z.to_nat i) vec bucket0)))
                      (firstn (Z.to_nat wi) f)) t)).
Proof.
  intros Hi Hf Hwi Hr.
  set (v := wrap32 (b_id (nth (Z.to_nat i) vec bucket0))).
  destruct (for_total
              (fun (j : Z) (u : option (list Z)) =>
                 u = Some (write_list (hand v (firstn (Z.to_nat j) f)) t))
              (fun j u =>
                 p <- fib_at vec i ;;
                 fib <- deref p ;;
                 s <- aget fib j ;;
                 id <- idx2id vec i ;;
                 u0 <- deref u ;;
                 u' <- aset u0 s (wrap32 id) ;;
                 Ok (Some u'))
              0 wi (Some t)) as (u & E & ->); [lia|reflexivity| |exact E].
  intros j u Hj ->.
  rewrite fib_at_Ok by lia. cbn [bind]. rewrite Hf. cbn [deref bind].
  rewrite aget_zth by lia. cbn [bind]. rewrite idx2id_Ok by lia.
  cbn [deref bind].
  assert (Hs : 0 <= zth f j < Z.of_nat (length t)).
  { apply Hr. unfold zth.
    rewrite <- (firstn_skipn (Z.to_nat (j + 1)) (firstn (Z.to_nat wi) f)).
    rewrite firstn_firstn, Nat.min_l by lia. apply in_or_app. left.
    replace (Z.to_nat (j + 1)) with (Datatypes.S (Z.to_nat j)) by lia.
    rewrite (firstn_snoc (Z.to_nat j) f 0) by lia.
    apply in_or_app. right. left. reflexivity. }
  rewrite aset_Ok by (rewrite length_write_list; lia). cbn [bind].
  eexists. split; [reflexivity|].
  replace (Z.to_nat (j + 1)) with (Datatypes.S (Z.to_nat j)) by lia.
  rewrite (firstn_snoc (Z.to_nat j) f 0) by lia.
  rewrite hand_app, write_list_app. reflexivity.
Qed.

(** X8. [create_systab] inverts [create_fibers]: from the fibers and the
    weights that [create_fibers] has built for a table, it rebuilds the
    first [2 ^ nums_bits] slots of that table. *)
Theorem systab_fibers_roundtrip (vec : list bucket) (tab nw : list Z)
    (numb nums_bits : Z) (vec' : list bucket) (w' : list Z) :
  Z.of_nat (length vec) = numb ->
  Z.of_nat (length nw) = numb ->
  NoDup (map b_id vec) ->
  (forall x, In x nw -> 0 <= x < 2 ^ 32) ->
  (forall x, In x tab -> 0 <= x < 2 ^ 32) ->
  0 <= nums_bits <= 31 ->
  create_fibers nums_bits tab numb nw vec = Ok (vec', w') ->
  create_systab nums_bits numb w' vec'
  = Ok (Some (firstn (Z.to_nat (2 ^ nums_bits)) tab)).
Proof.
  intros Hlen Hnw Hids Hw32 Ht32 Hnb H.
  destruct (create_fibers_inv vec tab nw numb Hlen Hnw Hids Hw32
              nums_bits vec' w' Hnb H) as (Hlt & Lv & Lw & Hknown & Hj).
  set (nums := 2 ^ nums_bits) in *.
  set (t := firstn (Z.to_nat nums) tab) in *.
  assert (Hpos : 0 < nums) by (apply Z.pow_pos_nonneg; lia).
  assert (Lt : Z.of_nat (length t) = nums).
  { unfold t. rewrite length_firstn. lia. }
  set (idj := fun j => b_id (nth (Z.to_nat j) vec bucket0)).
  set (g := fun j => hand (wrap32 (idj j)) (slots_of (idj j) t)).
  unfold create_systab. rewrite shl1_pow by lia. fold nums.
  rewrite fsx32_alloc_Some by lia.
  unfold init_tab_by_fibers.
  assert (Hnumb : 0 <= numb) by lia.
  destruct (for_total
              (fun (i : Z) (u : option (list Z)) =>
                 u = Some (write_list (flat_map g (zrange 0 i)) (zeros nums)))
              (fun i u =>
                 wi <- aget w' i ;;
                 for_ 0 wi
                   (fun j u =>
                      p <- fib_at vec' i ;;
                      fib <- deref p ;;
                      s <- aget fib j ;;
                      id <- idx2id vec' i ;;
                      u0 <- deref u ;;
                      u' <- aset u0 s (wrap32 id) ;;
                      Ok (Some u'))
                   u)
              0 numb (Some (zeros nums))) as (u & E & ->).
  - lia.
  - rewrite zrange_empty by lia. reflexivity.
  - intros i u Hi ->. destruct (Hj i Hi) as (_ & Hid & _ & Hwi & Hci & Hfi).
    fold (idj i) in Hwi, Hci, Hfi.
    rewrite aget_zth by lia. cbn [bind].
    assert (Hc0 : 0 <= count_id (idj i) t).
    { rewrite <- (slots_from_count (idj i) t 0). lia. }
    assert (Hfirst : firstn (Z.to_nat (zth w' i))
                       (slots_of (idj i) t
                        ++ repeat 0 (Z.to_nat (zth nw i - count_id (idj i) t)))
                     = slots_of (idj i) t).
    { rewrite Hwi. rewrite firstn_app.
      rewrite <- (slots_from_count (idj i) t 0) at 2. unfold slots_of.
      rewrite Nat2Z.id, Nat.sub_diag, firstn_O, app_nil_r.
      apply firstn_all2. rewrite <- (slots_from_count (idj i) t 0).
      unfold slots_of. lia. }
    rewrite (fiber_to_tab vec' i (zth w' i) _ _ ltac:(lia) Hfi).
    + eexists. split; [reflexivity|].
      rewrite zrange_snoc by lia. rewrite flat_map_app, write_list_app.
      cbn [flat_map]. rewrite app_nil_r. unfold g. rewrite Hid. fold (idj i).
      rewrite Hfirst. reflexivity.
    + rewrite length_app, repeat_length. rewrite Hwi.
      rewrite <- (slots_from_count (idj i) t 0). unfold slots_of. lia.
    + rewrite Hfirst. intros s Hs. apply slots_of_In_iff in Hs.
      rewrite length_write_list. unfold zeros.
      rewrite repeat_length. lia.
  - rewrite E. do 2 f_equal.
    assert (Hmapfst : map fst (flat_map g (zrange 0 numb))
                      = flat_map (fun j => slots_of (idj j) t) (zrange 0 numb)).
    { rewrite map_flat_map. apply flat_map_ext. intros j. unfold g.
      apply map_fst_hand. }
    assert (Hnd : NoDup (map fst (flat_map g (zrange 0 numb)))).
    { rewrite Hmapfst. apply NoDup_flat_map_disjoint.
      - apply NoDup_zrange.
      - intros i _. apply slots_from_NoDup.
      - intros i j x Hi Hj' Hne Hx Hx'. apply zrange_In in Hi, Hj'.
        apply slots_of_In_iff in Hx, Hx'. apply Hne.
        apply (b_id_inj vec i j Hids ltac:(lia) ltac:(lia)).
        fold (idj i) (idj j). destruct Hx, Hx'. congruence. }
    assert (Hrange : forall p, In p (flat_map g (zrange 0 numb)) ->
              0 <= fst p < Z.of_nat (length (zeros nums))).
    { intros p Hp. apply in_flat_map in Hp. destruct Hp as (j & _ & Hp).
      unfold g, hand in Hp. apply in_map_iff in Hp.
      destruct Hp as (s & <- & Hs). apply slots_of_In_iff in Hs.
      cbn [fst]. unfold zeros. rewrite repeat_length. lia. }
    apply zth_ext.
    + rewrite length_write_list. unfold zeros. rewrite repeat_length.
      lia.
    + intros k Hk. rewrite length_write_list in Hk.
      unfold zeros in Hk. rewrite repeat_length in Hk.
      assert (Hin : In (zth t k) (map b_id vec)).
      { apply Hknown. apply zth_In. lia. }
      apply In_nth with (d := 0) in Hin. destruct Hin as (n & Hn & Heq).
      rewrite length_map in Hn. rewrite nth_map_b_id in Heq.
      assert (Hidn : idj (Z.of_nat n) = zth t k).
      { unfold idj. now rewrite Nat2Z.id. }
      assert (H32 : 0 <= zth t k < 2 ^ 32).
      { apply Ht32. unfold t, zth. rewrite nth_firstn.
        destruct (Nat.ltb_spec (Z.to_nat k) (Z.to_nat nums)); [|lia].
        apply nth_In. lia. }
      apply zth_write_list_in; auto.
      apply in_flat_map. exists (Z.of_nat n). split.
      * apply zrange_In. lia.
      * unfold g, hand. apply in_map_iff. exists k. split.
        -- f_equal. rewrite Hidn. unfold wrap32. apply Z.mod_small. lia.
        -- apply slots_of_In_iff. split; [lia|congruence].
Qed.

Lemma systab_fibers_roundtrip_witness :
  exists vec' w',
    create_fibers 2 fibers_example_tab 2 [3; 1] fibers_example_vec
    = Ok (vec', w') /\
    create_systab 2 2 w' vec'
    = Ok (Some (firstn (Z.to_nat (2 ^ 2)) fibers_example_tab)).
Proof.
  eexists. eexists. split; [vm_compute; reflexivity|].
  apply (systab_fibers_roundtrip fibers_example_vec fibers_example_tab
           [3; 1] 2 2).
  - reflexivity.
  - reflexivity.
  - vm_compute. repeat constructor; simpl; intuition congruence.
  - intros x [<- | [<- | []]]; lia.
  - intros x [<- | [<- | [<- | [<- | []]]]]; lia.
  - lia.
  - vm_compute. reflexivity.
Defined.

(** ** The table built from scratch *)

Lemma repeat_snoc {A : Type} (x : A) (n : nat) :
  repeat x (Datatypes.S n) = repeat x n ++ [x].
Proof. cbn [repeat]. apply repeat_cons. Qed.

(** One inner loop of [init_tab_from_scratch]. *)
Lemma scratch_run (vec : list bucket) (i wi k0 : Z) (R : list Z) (m : nat) :
  0 <= i < Z.of_nat (length vec) ->
  0 <= wi <= Z.of_nat m ->
  k0 = Z.of_nat (length R) ->
  Z.of_nat (length R) + Z.of_nat m < 2 ^ 32 ->
  for_ 0 wi
    (fun _ '(t, k) =>
       id <- idx2id vec i ;;
       t' <- aset t k (wrap32 id) ;;
       Ok (t', wrap32 (k + 1)))
    (R ++ repeat 0 m, k0)
  = Ok (R ++ repeat (wrap32 (b_id (nth (Z.to_nat i) vec bucket0)))
                    (Z.to_nat wi)
          ++ repeat 0 (m - Z.to_nat wi),
        k0 + wi).
Proof.
  intros Hi Hwi -> Hb.
  set (v := wrap32 (b_id (nth (Z.to_nat i) vec bucket0))).
  destruct (for_total
              (fun (j : Z) (st : list Z * Z) =>
                 st = (R ++ repeat v (Z.to_nat j)
                         ++ repeat 0 (m - Z.to_nat j),
                       Z.of_nat (length R) + j))
              (fun _ '(t, k) =>
                 id <- idx2id vec i ;;
                 t' <- aset t k (wrap32 id) ;;
                 Ok (t', wrap32 (k + 1)))
              0 wi (R ++ repeat 0 m, Z.of_nat (length R)))
    as (st & E & ->); [lia| | |exact E].
  - cbn [Z.to_nat repeat app]. rewrite Nat.sub_0_r, Z.add_0_r. reflexivity.
  - intros j st Hj ->. rewrite idx2id_Ok by lia. cbn [bind]. fold v.
    replace (m - Z.to_nat j)%nat
      with (Datatypes.S (m - Z.to_nat (j + 1)))%nat by lia.
    cbn [repeat]. rewrite app_assoc.
    replace (Z.of_nat (length R) + j)
      with (Z.of_nat (length (R ++ repeat v (Z.to_nat j))))
      by (rewrite length_app, repeat_length; lia).
    rewrite aset_Ok by (rewrite !length_app, !repeat_length; cbn [length]; lia).
    rewrite Nat2Z.id, upd_app_mid. cbn [bind].
    eexists. split; [reflexivity|]. f_equal.
    + replace (Z.to_nat (j + 1)) with (Datatypes.S (Z.to_nat j)) by lia.
      rewrite repeat_snoc, <- !app_assoc. reflexivity.
    + rewrite length_app, repeat_length. unfold wrap32.
      rewrite Z.mod_small; lia.
Qed.

(** X9. [init_tab_from_scratch] lays the bricks out one after the other:
    brick [i] gets the next [weights[i]] slots, and what the weights
    leave of the table stays zero. *)
Theorem init_tab_from_scratch_spec (weights : list Z) (numb nums_bits : Z)
    (vec : list bucket) :
  0 <= nums_bits <= 31 ->
  0 <= numb <= Z.of_nat (length vec) ->
  numb <= Z.of_nat (length weights) ->
  (forall i, 0 <= i < numb -> 0 <= zth weights i) ->
  sumZ (map (zth weights) (zrange 0 numb)) <= 2 ^ nums_bits ->
  init_tab_from_scratch weights numb nums_bits vec
  = Ok (Some (scratch_tab weights numb (2 ^ nums_bits) vec)).
Proof.
  intros Hnb Hnumb Hlw Hw0 Hsum.
  unfold init_tab_from_scratch. cbv zeta. rewrite shl1_pow by lia.
  set (nums := 2 ^ nums_bits) in *.
  assert (Hn31 : 0 < nums <= 2 ^ 31).
  { split; [apply Z.pow_pos_nonneg; lia|apply Z.pow_le_mono_r; lia]. }
  rewrite fsx32_alloc_Some by lia.
  set (S := fun i => sumZ (map (zth weights) (zrange 0 i))).
  set (R := fun i =>
    flat_map (fun i => repeat (wrap32 (b_id (nth (Z.to_nat i) vec bucket0)))
                              (Z.to_nat (zth weights i)))
             (zrange 0 i)).
  assert (HS : forall i, 0 <= i < numb -> S (i + 1) = S i + zth weights i).
  { intros i Hi. unfold S. rewrite zrange_snoc by lia.
    rewrite map_app, sumZ_app. cbn [map sumZ]. lia. }
  assert (HS0 : forall i, 0 <= i <= numb -> 0 <= S i <= S numb).
  { intros i Hi. unfold S. rewrite (zrange_app 0 i numb) by lia.
    rewrite map_app, sumZ_app.
    assert (0 <= sumZ (map (zth weights) (zrange 0 i))).
    { apply sumZ_nonneg. intros x Hx. apply in_map_iff in Hx.
      destruct Hx as (j & <- & Hj'). apply zrange_In in Hj'. apply Hw0. lia. }
    assert (0 <= sumZ (map (zth weights) (zrange i numb))).
    { apply sumZ_nonneg. intros x Hx. apply in_map_iff in Hx.
      destruct Hx as (j & <- & Hj'). apply zrange_In in Hj'. apply Hw0. lia. }
    lia. }
  destruct (for_total
              (fun (i : Z) (st : list Z * Z) =>
                 Z.of_nat (length (R i)) = S i /\
                 st = (R i ++ repeat 0 (Z.to_nat (nums - S i)), S i))
              (fun i '(t, k) =>
                 wi <- aget weights i ;;
                 for_ 0 wi
                   (fun _ '(t, k) =>
                      id <- idx2id vec i ;;
                      t' <- aset t k (wrap32 id) ;;
                      Ok (t', wrap32 (k + 1)))
                   (t, k))
              0 numb (zeros nums, 0)) as (st & E & L & ->).
  - lia.
  - unfold R, S. rewrite zrange_empty by lia. cbn [flat_map map sumZ length app].
    rewrite Z.sub_0_r. split; reflexivity.
  - intros i st Hi [L ->].
    rewrite aget_zth by lia. cbn [bind].
    pose proof (Hw0 i Hi) as Hwi. pose proof (HS i Hi) as HSi.
    pose proof (HS0 i ltac:(lia)). pose proof (HS0 (i + 1) ltac:(lia)).
    fold (S numb) in Hsum.
    rewrite (scratch_run vec i (zth weights i) (S i) (R i)
                         (Z.to_nat (nums - S i))) by lia.
    eexists. split; [reflexivity|].
    assert (HR : R (i + 1)
                 = R i ++ repeat (wrap32 (b_id (nth (Z.to_nat i) vec bucket0)))
                                 (Z.to_nat (zth weights i))).
    { unfold R. rewrite zrange_snoc by lia. rewrite flat_map_app.
      cbn [flat_map]. now rewrite app_nil_r. }
    split.
    + rewrite HR, length_app, repeat_length. lia.
    + rewrite HR, <- app_assoc. f_equal; [|lia]. do 3 f_equal. lia.
  - rewrite E. reflexivity.
Qed.

Lemma init_tab_from_scratch_spec_witness :
  init_tab_from_scratch [3; 1] 2 2 fibers_example_vec
  = Ok (Some (scratch_tab [3; 1] 2 (2 ^ 2) fibers_example_vec)).
Proof.
  apply (init_tab_from_scratch_spec [3; 1] 2 2 fibers_example_vec).
  - lia.
  - cbn [length fibers_example_vec bricks map]. lia.
  - cbn [length]. lia.
  - intros i Hi. assert (Hc : i = 0 \/ i = 1) by lia.
    destruct Hc as [-> | ->]; vm_compute; congruence.
  - vm_compute. congruence.
Defined.

(** ** The space check of [dec] *)

Lemma zrange_cons (lo hi : Z) :
  lo < hi -> zrange lo hi = lo :: zrange (lo + 1) hi.
Proof.
  intros H. rewrite (zrange_split lo lo hi) by lia.
  rewrite (zrange_empty lo lo) by lia. reflexivity.
Qed.

(** A loop that checks each index and leaves at the first bad one. *)
Lemma for_check (bad : Z -> bool) (e : Z) (body : Z -> unit -> res unit) :
  forall (n : nat) (lo : Z),
    (forall i u, lo <= i < lo + Z.of_nat n ->
                 body i u = if bad i then Err e else Ok tt) ->
    for_loop n lo body tt
    = if existsb bad (zrange lo (lo + Z.of_nat n)) then Err e else Ok tt.
Proof.
  induction n as [|n IH]; intros lo Hb.
  - rewrite zrange_empty by lia. reflexivity.
  - rewrite zrange_cons by lia. cbn [for_loop existsb].
    rewrite Hb by lia. destruct (bad lo); cbn [bind orb]; [reflexivity|].
    rewrite IH.
    + replace (lo + 1 + Z.of_nat n) with (lo + Z.of_nat (Datatypes.S n))
        by lia. reflexivity.
    + intros i u Hi. apply Hb. lia.
Qed.

Lemma sumZ_firstn_zrange (l : list Z) (n : Z) :
  0 <= n <= Z.of_nat (length l) ->
  sumZ (firstn (Z.to_nat n) l) = sumZ (map (zth l) (zrange 0 n)).
Proof.
  intros H. rewrite (sumZ_zrange (firstn (Z.to_nat n) l)).
  rewrite length_firstn, Nat.min_l by lia. rewrite Z2Nat.id by lia.
  apply sumZ_map_ext. intros i Hi. apply zrange_In in Hi.
  unfold zth. rewrite nth_firstn.
  destruct (Nat.ltb_spec (Z.to_nat i) (Z.to_nat n)); [reflexivity|lia].
Qed.

Lemma check_space_run (vec : list bucket) (numb occ : Z) :
  let cs := caps_of numb vec in
  1 <= numb <= Z.of_nat (length vec) -> numb < 2 ^ 64 ->
  0 < sumZ cs -> no_wrap occ cs -> 0 <= occ < 2 ^ 64 ->
  (check_space vec numb occ = Ok tt \/
   check_space vec numb occ = Err ENOSPC) /\
  (check_space vec numb occ = Ok tt <->
   forall i, 0 <= i < numb -> calibrate_ideal_at occ cs i <= zth cs i) /\
  (sumZ cs < occ -> check_space vec numb occ = Err ENOSPC).
Proof.
  intros cs Hnumb H64 Hsum Hnw Hocc.
  destruct (calibrate64_exact vec numb occ (zeros numb))
    as (out & Hcal & (Lout & Vout & _ & Sout) & _); auto.
  { unfold zeros. rewrite repeat_length. lia. }
  fold cs in Vout, Sout.
  assert (Lo : Z.of_nat (length out) = numb).
  { rewrite Lout. unfold zeros. rewrite repeat_length. lia. }
  set (bad := fun i => zth cs i <? calibrate_ideal_at occ cs i).
  assert (Hrun : check_space vec numb occ
                 = if existsb bad (zrange 0 numb) then Err ENOSPC else Ok tt).
  { unfold check_space. rewrite alloc64_Ok by lia. cbn [bind].
    rewrite Hcal. cbn [bind]. unfold for_.
    rewrite (for_check bad ENOSPC).
    - replace (0 + Z.of_nat (Z.to_nat (numb - 0))) with numb by lia.
      reflexivity.
    - intros i u Hi. rewrite cap_at_Ok by lia. cbn [bind].
      rewrite aget_zth by lia. cbn [bind]. unfold bad.
      rewrite Vout by lia. unfold cs. rewrite zth_caps_of by lia.
      destruct u. reflexivity. }
  assert (Hex : existsb bad (zrange 0 numb) = false <->
                forall i, 0 <= i < numb ->
                          calibrate_ideal_at occ cs i <= zth cs i).
  { split.
    - intros Hf i Hi.
      destruct (Z.ltb_spec (zth cs i) (calibrate_ideal_at occ cs i)) as [Hlt|];
        [|assumption].
      assert (Ht : existsb bad (zrange 0 numb) = true).
      { apply existsb_exists. exists i. split; [apply zrange_In; lia|].
        unfold bad. apply Z.ltb_lt. assumption. }
      congruence.
    - intros Hall. destruct (existsb bad (zrange 0 numb)) eqn:E; [|reflexivity].
      apply existsb_exists in E. destruct E as (i & Hi & Hb).
      apply zrange_In in Hi. unfold bad in Hb. apply Z.ltb_lt in Hb.
      specialize (Hall i Hi). lia. }
  split; [|split].
  - rewrite Hrun. destruct (existsb bad (zrange 0 numb)); auto.
  - rewrite Hrun, <- Hex. destruct (existsb bad (zrange 0 numb)); split;
      intros; congruence.
  - intros Hover. rewrite Hrun.
    destruct (existsb bad (zrange 0 numb)); [reflexivity|].
    exfalso. pose proof (proj1 Hex eq_refl) as E.
    assert (Lcs : Z.of_nat (length cs) = numb)
      by (unfold cs; apply caps_of_length; lia).
    assert (Hle : sumZ (map (zth out) (zrange 0 numb))
                  <= sumZ (map (zth cs) (zrange 0 numb))).
    { apply sumZ_map_le_pointwise. intros i Hi. apply zrange_In in Hi.
      rewrite Vout by lia. apply E. lia. }
    rewrite <- sumZ_firstn_zrange, Sout in Hle by lia.
    rewrite <- Lcs, <- sumZ_zrange in Hle. lia.
Qed.



(** X11. When the capacities of the bricks that remain have a positive
    sum and the 64-bit products [occ * capacity] of the calibrator do not
    wrap, [dec_fsx32] answers [-ENOSPC] whenever the space occupied on the
    volume exceeds the total capacity of the bricks that remain. *)
Theorem dec_fsx32_enospc (vec : list bucket) (occ : Z) (dcx : fsx32_dcx)
    (tab : list Z) (target_pos : Z) (removeme : bucket) :
  let new_numb := numb dcx - 1 in
  let cs := caps_of new_numb vec in
  2 <= numb dcx <= MAX_BUCKETS ->
  new_numb <= Z.of_nat (length vec) ->
  0 < sumZ cs -> no_wrap occ cs -> sumZ cs < occ < 2 ^ 64 ->
  dec_fsx32 vec occ dcx tab target_pos (Some removeme) = Err ENOSPC.
Proof.
  intros new_numb cs Hn Hlen Hsum Hnw Hocc.
  unfold MAX_BUCKETS, MAX_SHIFT in Hn.
  unfold dec_fsx32. cbv zeta.
  replace (wrap32 (numb dcx)) with (numb dcx)
    by (unfold wrap32; rewrite Z.mod_small; lia).
  replace (wrap32 (numb dcx - 1)) with new_numb
    by (unfold wrap32, new_numb; rewrite Z.mod_small; lia).
  destruct (check_space_run vec new_numb occ) as (_ & _ & He);
    try (unfold new_numb; lia); auto.
  rewrite He by (fold cs; lia). reflexivity.
Qed.

Lemma dec_fsx32_enospc_witness :
  dec_fsx32 fibers_example_vec 3 dec_example_dcx dec_example_tab 1
            (Some dec_example_victim) = Err ENOSPC.
Proof.
  apply (dec_fsx32_enospc fibers_example_vec 3 dec_example_dcx
           dec_example_tab 1 dec_example_victim).
  - cbn [numb dec_example_dcx]. unfold MAX_BUCKETS, MAX_SHIFT. lia.
  - cbn [numb dec_example_dcx length fibers_example_vec bricks map]. lia.
  - vm_compute. reflexivity.
  - split; [|vm_compute; reflexivity].
    intros c Hc. vm_compute in Hc. destruct Hc as [<- | [<- | []]]; lia.
  - split; [vm_compute; reflexivity|lia].
Defined.

(** ** The invariant of the table under [initv], [inc] and [dec] *)

Lemma filter_none {A : Type} (P : A -> bool) (l : list A) :
  (forall x, In x l -> P x = false) -> filter P l = [].
Proof.
  induction l as [|x l IH]; intros H; cbn [filter]; [reflexivity|].
  rewrite (H x) by (left; reflexivity). apply IH.
  intros y Hy. apply H. right. assumption.
Qed.

Lemma filter_all {A : Type} (P : A -> bool) (l : list A) :
  (forall x, In x l -> P x = true) -> filter P l = l.
Proof.
  induction l as [|x l IH]; intros H; cbn [filter]; [reflexivity|].
  rewrite (H x) by (left; reflexivity). f_equal. apply IH.
  intros y Hy. apply H. right. assumption.
Qed.

Lemma count_id_nonneg (id : Z) (t : list Z) : 0 <= count_id id t.
Proof. unfold count_id. lia. Qed.

Lemma count_id_upd (id v : Z) (n : nat) (t : list Z) :
  (n < length t)%nat ->
  count_id id (upd n v t)
  = count_id id t - (if id =? nth n t 0 then 1 else 0)
    + (if id =? v then 1 else 0).
Proof.
  revert n. induction t as [|x t IH]; intros n Hn; cbn [length] in Hn; [lia|].
  destruct n as [|n]; cbn [upd nth]; rewrite !count_id_cons.
  - lia.
  - rewrite IH by lia. lia.
Qed.

(** How many slots of a brick a list of writes to distinct slots leaves:
    the slots it had, less those overwritten, plus those written with its
    identifier. *)
Lemma count_id_write_list (id : Z) (W : list (Z * Z)) (t : list Z) :
  NoDup (map fst W) ->
  (forall p, In p W -> 0 <= fst p < Z.of_nat (length t)) ->
  count_id id (write_list W t)
  = count_id id t
    - Z.of_nat (length (filter (fun p => id =? zth t (fst p)) W))
    + Z.of_nat (length (filter (fun p => id =? snd p) W)).
Proof.
  revert t. induction W as [|[s v] W IH]; intros t Hnd Hr.
  - cbn [write_list filter length]. lia.
  - cbn [map fst] in Hnd. apply NoDup_cons_iff in Hnd.
    destruct Hnd as [Hnot Hnd].
    pose proof (Hr (s, v) ltac:(left; reflexivity)) as Hs. cbn [fst] in Hs.
    cbn [write_list]. rewrite IH.
    + rewrite count_id_upd by lia.
      assert (Hf : filter (fun p => id =? zth (upd (Z.to_nat s) v t) (fst p)) W
                   = filter (fun p => id =? zth t (fst p)) W).
      { apply filter_ext_in. intros [s' v'] Hin. cbn [fst].
        assert (s' <> s).
        { intros ->. apply Hnot. change s with (fst (s, v')).
          apply in_map. assumption. }
        pose proof (Hr (s', v') ltac:(right; assumption)) as Hs'.
        cbn [fst] in Hs'.
        unfold zth. rewrite nth_upd_neq by lia. reflexivity. }
      rewrite Hf. cbn [filter fst snd]. fold (zth t s).
      destruct (id =? zth t s); destruct (id =? v); cbn [length];
        rewrite ?Nat2Z.inj_succ; lia.
    + assumption.
    + intros p Hp. rewrite length_upd. apply Hr. right. assumption.
Qed.

Lemma indicator_sum (L : list Z) (x : Z) :
  NoDup L ->
  sumZ (map (fun id => if id =? x then 1 else 0) L)
  = if existsb (Z.eqb x) L then 1 else 0.
Proof.
  induction L as [|y L IH]; intros Hnd; cbn [map sumZ existsb];
    [reflexivity|].
  apply NoDup_cons_iff in Hnd. destruct Hnd as [Hnot Hnd].
  rewrite IH by assumption. rewrite (Z.eqb_sym y x).
  destruct (Z.eqb_spec x y) as [->|Hne]; cbn [orb]; [|lia].
  destruct (existsb (Z.eqb y) L) eqn:E; [|lia].
  exfalso. apply existsb_exists in E. destruct E as (z & Hz & Heq).
  apply Z.eqb_eq in Heq. subst z. contradiction.
Qed.

Lemma count_all_cons (L : list Z) (x : Z) (t : list Z) :
  count_all L (x :: t)
  = sumZ (map (fun id => if id =? x then 1 else 0) L) + count_all L t.
Proof.
  unfold count_all. induction L as [|y L IH]; cbn [map sumZ]; [reflexivity|].
  rewrite IH, count_id_cons. lia.
Qed.

Lemma count_all_le (L t : list Z) :
  NoDup L -> count_all L t <= Z.of_nat (length t).
Proof.
  intros Hnd. induction t as [|x t IH].
  - unfold count_all. cbn [length].
    assert (H : sumZ (map (fun id => count_id id []) L) = 0); [|lia].
    induction L as [|y L IHL]; cbn [map sumZ]; [reflexivity|].
    apply NoDup_cons_iff in Hnd. rewrite IHL by tauto. reflexivity.
  - rewrite count_all_cons, indicator_sum by assumption.
    cbn [length]. destruct (existsb (Z.eqb x) L); lia.
Qed.

Lemma count_all_cover (L t : list Z) :
  NoDup L ->
  (count_all L t = Z.of_nat (length t) <-> forall x, In x t -> In x L).
Proof.
  intros Hnd. induction t as [|x t IH].
  - split; [intros _ x []|]. intros _.
    pose proof (count_all_le L [] Hnd) as Hle. cbn [length] in *.
    assert (0 <= count_all L []); [|lia].
    unfold count_all. apply sumZ_nonneg. intros y Hy.
    apply in_map_iff in Hy. destruct Hy as (id & <- & _).
    apply count_id_nonneg.
  - rewrite count_all_cons, indicator_sum by assumption.
    pose proof (count_all_le L t Hnd) as Hle. cbn [length].
    destruct (existsb (Z.eqb x) L) eqn:E.
    + apply existsb_exists in E. destruct E as (z & Hz & Heq).
      apply Z.eqb_eq in Heq. subst z.
      split.
      * intros Hs y [<-|Hy]; [assumption|]. apply IH; [lia|assumption].
      * intros Hall. assert (count_all L t = Z.of_nat (length t)); [|lia].
        apply IH. intros y Hy. apply Hall. right. assumption.
    + split; [lia|]. intros Hall. exfalso.
      assert (Hx : In x L) by (apply Hall; left; reflexivity).
      assert (Ht : existsb (Z.eqb x) L = true).
      { apply existsb_exists. exists x. split; [assumption|apply Z.eqb_refl]. }
      congruence.
Qed.

(** The checker of the invariant accepts a state that satisfies it. *)
Lemma fsx_invariantb_intro (vec : list bucket) (dcx : fsx32_dcx)
    (t w : list Z) :
  weights dcx = Some w ->
  sumZ w = 2 ^ nums_bits dcx ->
  Z.of_nat (length w) = numb dcx ->
  Z.of_nat (length vec) = numb dcx ->
  (forall i, 0 <= i < numb dcx ->
             count_id (zth (tab_ids vec) i) t = zth w i) ->
  (forall x, In x t -> In x (tab_ids vec)) ->
  fsx_invariantb vec dcx t = true.
Proof.
  intros Hw Hs Lw Lv Hc Hin. unfold fsx_invariantb. rewrite Hw.
  repeat (apply andb_true_intro; split); try (apply Z.eqb_eq; assumption).
  - apply forallb_forall. intros [id x] Hp.
    apply In_nth with (d := (0, 0)) in Hp. destruct Hp as (k & Hk & Heq).
    rewrite length_combine, length_tab_ids in Hk.
    rewrite combine_nth in Heq by (rewrite length_tab_ids; lia).
    inversion Heq. cbn [fst snd]. apply Z.eqb_eq.
    pose proof (Hc (Z.of_nat k) ltac:(lia)) as H. unfold zth in H.
    rewrite Nat2Z.id in H. exact H.
  - apply forallb_forall. intros x Hx. apply existsb_exists.
    exists x. split; [apply Hin; assumption|apply Z.eqb_refl].
Qed.

Lemma list_zrange (l : list Z) :
  l = map (zth l) (zrange 0 (Z.of_nat (length l))).
Proof.
  apply nth_ext with (d := 0) (d' := 0).
  - unfold zrange. rewrite !length_map, length_seq. lia.
  - intros k Hk. unfold zrange. rewrite map_map.
    set (L := seq 0 (Z.to_nat (Z.of_nat (length l) - 0))).
    rewrite (nth_indep (map (fun x => zth l (0 + Z.of_nat x)) L)
                       0 (zth l (0 + Z.of_nat 0)))
      by (unfold L; rewrite length_map, length_seq; lia).
    rewrite (map_nth (fun x => zth l (0 + Z.of_nat x)) L 0%nat k).
    unfold L. rewrite seq_nth by lia. unfold zth. f_equal. lia.
Qed.

Lemma NoDup_map_on {A : Type} (f : Z -> A) (L : list Z) :
  NoDup L ->
  (forall i j, In i L -> In j L -> i <> j -> f i <> f j) ->
  NoDup (map f L).
Proof.
  induction L as [|x L IH]; intros Hnd Hinj; cbn [map]; [constructor|].
  apply NoDup_cons_iff in Hnd. destruct Hnd as [Hnot Hnd].
  constructor.
  - intros Hin. apply in_map_iff in Hin. destruct Hin as (y & Heq & Hy).
    apply (Hinj y x); auto; [right; assumption|left; reflexivity|].
    intros ->. contradiction.
  - apply IH; auto. intros i j Hi Hj. apply Hinj; right; assumption.
Qed.

Lemma count_all_map (f : Z -> Z) (L t : list Z) :
  count_all (map f L) t = sumZ (map (fun i => count_id (f i) t) L).
Proof. unfold count_all. rewrite map_map. reflexivity. Qed.

(** The old weights of the bricks that [inc] keeps sum to the total. *)
Lemma survivors_sum_inc (ow : list Z) (n tp : Z) (new : option bucket) :
  0 <= tp < n ->
  Z.of_nat (length ow) = n - match new with Some _ => 1 | None => 0 end ->
  sumZ (map (fun i => zth ow (old_pos_inc tp new i))
            (match new with
             | Some _ => zrange 0 tp ++ zrange (tp + 1) n
             | None => zrange 0 n
             end))
  = sumZ ow.
Proof.
  intros Htp Hl. destruct new as [b|]; unfold old_pos_inc.
  - rewrite (sumZ_zrange ow), Hl.
    rewrite (zrange_app 0 tp (n - 1)) by lia.
    rewrite !map_app, !sumZ_app. f_equal.
    + apply sumZ_map_ext. intros i Hi. apply zrange_In in Hi.
      destruct (Z.ltb_spec tp i); [lia|reflexivity].
    + replace n with (n - 1 + 1) at 1 by lia.
      rewrite zrange_shift, map_map. apply sumZ_map_ext.
      intros i Hi. apply zrange_In in Hi.
      destruct (Z.ltb_spec tp (i + 1)); [f_equal; lia|lia].
  - rewrite (sumZ_zrange ow), Hl, Z.sub_0_r. reflexivity.
Qed.

(** A sum that is congruent to a total below [2 ^ 31] and lies below
    [2 ^ 32] plus the total is the total. *)
Lemma exact_from_mod (s total : Z) :
  s mod 2 ^ 32 = total mod 2 ^ 32 ->
  0 <= total <= 2 ^ 31 -> 0 <= s < total + 2 ^ 32 -> s = total.
Proof.
  intros Hm Ht Hs.
  rewrite (Z.mod_small total) in Hm by lia.
  pose proof (Z.div_mod s (2 ^ 32) ltac:(lia)) as Hd. rewrite Hm in Hd.
  assert (Hq : s / 2 ^ 32 = 0); [|lia].
  assert (0 <= s / 2 ^ 32) by (apply Z.div_pos; lia).
  assert (s / 2 ^ 32 < 2); [|nia].
  apply Z.div_lt_upper_bound; lia.
Qed.

(** What a successful [inc] leaves: the writes on the table, and what the
    calibrated weights satisfy. *)
Lemma inc_result (vec : list bucket) (dcx : fsx32_dcx) (tab : list Z)
    (tp : Z) (new : option bucket) (ow : list Z)
    (dcx' : fsx32_dcx) (vec' : list bucket) :
  wf_inc vec dcx tab tp new ow ->
  inc_fsx32 vec dcx tab tp new = Ok (dcx', vec') ->
  let n := Z.of_nat (length vec) in
  let v := wrap32 (b_id (nth (Z.to_nat tp) vec bucket0)) in
  exists nw,
    dcx' = mk_dcx n (nums_bits dcx) (Some nw)
             (Some (write_list
                      (flat_map
                         (fun i =>
                            hand v
                              (skipn (Z.to_nat (zth nw i))
                                 (slots_of
                                    (wrap32 (b_id (nth (Z.to_nat i) vec
                                                       bucket0))) tab)))
                         (zrange 0 tp ++ zrange (tp + 1) n))
                      tab)) /\
    Z.of_nat (length nw) = n /\
    (forall x, In x nw -> 0 <= x < 2 ^ 32) /\
    sumZ nw mod 2 ^ 32 = 2 ^ nums_bits dcx mod 2 ^ 32 /\
    (forall i, 0 <= i < n -> i <> tp ->
               zth nw i <= zth ow (old_pos_inc tp new i)) /\
    map b_id vec' = map b_id vec.
Proof.
  intros [Hw Hbits Htab Hsum Hnumb Hmax Hvec Htp Hids Hfib] H n v.
  unfold MAX_SHIFT in Hbits. unfold MAX_BUCKETS, MAX_SHIFT in Hmax.
  fold n in Hvec, Htp.
  assert (Hnumb0 : 0 <= Fsx32.numb dcx) by lia.
  assert (Hnums : shl1 (nums_bits dcx) = 2 ^ nums_bits dcx)
    by (apply shl1_pow; lia).
  assert (Hnums31 : 0 < 2 ^ nums_bits dcx <= 2 ^ 31).
  { split; [apply Z.pow_pos_nonneg; lia|apply Z.pow_le_mono_r; lia]. }
  unfold inc_fsx32 in H. cbv zeta in H.
  replace (wrap32 (Fsx32.numb dcx)) with (Fsx32.numb dcx) in H
    by (unfold wrap32; rewrite Z.mod_small; lia).
  bind_inv H. rename x into new_numb.
  assert (Hnn : new_numb = n).
  { destruct new.
    - destruct (Fsx32.numb dcx =? MAX_BUCKETS); [discriminate|].
      inversion E. unfold wrap32. rewrite Z.mod_small; lia.
    - inversion E. lia. }
  subst new_numb. clear E. rewrite Hnums in H.
  destruct (Z.ltb_spec (2 ^ nums_bits dcx) n) as [|Hle]; [discriminate|].
  bind_inv H. apply alloc32_Ok_inv in E. destruct E as [_ ->].
  bind_inv H. rename x into dcx1.
  apply clone_systab_Ok_inv in E. rewrite Hnums in E.
  destruct E as (_ & _ & ->).
  cbn [Fsx32.tab weights Fsx32.nums_bits deref bind] in H.
  rewrite firstn_all2 in H by lia.
  bind_inv H. rename x into nw.
  unfold calibrate32 in E.
  replace (wrap32 n) with n in E by (unfold wrap32; rewrite Z.mod_small; lia).
  replace (wrap32 (2 ^ nums_bits dcx)) with (2 ^ nums_bits dcx) in E
    by (unfold wrap32; rewrite Z.mod_small; lia).
  destruct (calibrate32_sum_mod vec n _ nw ltac:(lia) E) as (Lnw & Rnw & Snw).
  bind_inv H. rename x into t'.
  replace (wrap32 tp) with tp in E0
    by (unfold wrap32; rewrite Z.mod_small; lia).
  rewrite Hw in E0.
  bind_inv H. rename x into vecr. inversion H; subst dcx' vecr. clear H.
  assert (Hnwr : forall i, 0 <= i < n -> 0 <= zth nw i < 2 ^ 32).
  { intros i Hi. apply Rnw. apply zth_In. lia. }
  assert (Hfib' : forall i, 0 <= i < n -> i <> tp ->
            fiber_ok tab (nth (Z.to_nat i) vec bucket0)
                     (zth ow (old_pos_inc tp new i))).
  { intros i Hi Hne. apply Hfib; [assumption|].
    unfold survivor_inc. destruct new; [|reflexivity].
    destruct (Z.eqb_spec i tp); [lia|reflexivity]. }
  destruct (balance_inc_inv vec tab ow nw tp new
              ltac:(fold n; lia) Htp Lnw Hnwr
              ltac:(fold n; destruct new; lia) ltac:(lia) Hfib' t' E0)
    as [Hle' Ht'].
  exists nw. split; [rewrite Ht'; reflexivity|].
  split; [assumption|]. split; [assumption|]. split; [assumption|].
  split; [assumption|].
  destruct (release_fibers_spec n vec ltac:(lia)) as (vr & Hr & _ & _ & Hid).
  fold n in E. rewrite Hr in E1. inversion E1; subst vr. exact Hid.
Qed.

(** X12. [inc] keeps the invariant of the table: on a well-formed state, a
    successful [inc] leaves weights that sum to the size of the table, a
    table in which every brick of the vector holds as many slots as its
    new weight, and no slot that belongs to none of the bricks. *)
Theorem inc_keeps_invariant (vec : list bucket) (dcx : fsx32_dcx)
    (tab : list Z) (tp : Z) (new : option bucket) (ow : list Z)
    (dcx' : fsx32_dcx) (vec' : list bucket) :
  wf_inc vec dcx tab tp new ow ->
  inc_fsx32 vec dcx tab tp new = Ok (dcx', vec') ->
  exists t',
    Fsx32.tab dcx' = Some t' /\
    Z.of_nat (length t') = 2 ^ nums_bits dcx' /\
    nums_bits dcx' = nums_bits dcx /\
    numb dcx' = Z.of_nat (length vec') /\
    fsx_invariantb vec' dcx' t' = true.
Proof.
  intros Hwf H.
  destruct (inc_result vec dcx tab tp new ow dcx' vec' Hwf H)
    as (nw & Hdcx & Lnw & Rnw & Snw & Hle & Hidmap).
  destruct Hwf as [Hw Hbits Htab Hsum Hnumb Hmax Hvec Htp Hids Hfib].
  unfold MAX_SHIFT in Hbits.
  set (n := Z.of_nat (length vec)) in *.
  set (nums := 2 ^ nums_bits dcx) in *.
  assert (Hnums31 : 0 < nums <= 2 ^ 31).
  { split; [apply Z.pow_pos_nonneg; lia|apply Z.pow_le_mono_r; lia]. }
  set (idv := fun i => wrap32 (b_id (nth (Z.to_nat i) vec bucket0))).
  set (v := idv tp) in *.
  set (fib := fun i => slots_of (idv i) tab).
  set (donors := zrange 0 tp ++ zrange (tp + 1) n) in *.
  set (tail := fun i => hand v (skipn (Z.to_nat (zth nw i)) (fib i))).
  set (W := flat_map tail donors).
  assert (Hids' : tab_ids vec' = tab_ids vec).
  { unfold tab_ids. rewrite <- (map_map b_id wrap32 vec'), Hidmap.
    apply map_map. }
  assert (Lvec' : length vec' = length vec).
  { rewrite <- (length_map b_id vec'), Hidmap. apply length_map. }
  assert (Hidv : forall i, 0 <= i < n -> zth (tab_ids vec) i = idv i).
  { intros i Hi. apply zth_tab_ids. assumption. }
  assert (Hinj : forall i j, 0 <= i < n -> 0 <= j < n -> i <> j ->
                             idv i <> idv j).
  { intros i j Hi Hj Hne. rewrite <- !Hidv by assumption.
    apply NoDup_nth_neq; auto; rewrite length_tab_ids; assumption. }
  assert (Hdon : forall i, In i donors <-> 0 <= i < n /\ i <> tp).
  { intros i. unfold donors. rewrite in_app_iff, !zrange_In. lia. }
  assert (Hdnd : NoDup donors).
  { unfold donors. apply NoDup_app; try apply NoDup_zrange.
    intros a Ha Hb. apply zrange_In in Ha, Hb. lia. }
  (* the fibers of the bricks that stay *)
  set (surv := match new with Some _ => donors | None => zrange 0 n end).
  assert (Hsurv : forall i, In i surv ->
            0 <= i < n /\ survivor_inc tp new i = true).
  { intros i Hi. unfold surv, survivor_inc in *. destruct new.
    - apply Hdon in Hi. split; [tauto|].
      destruct (Z.eqb_spec i tp); [lia|reflexivity].
    - apply zrange_In in Hi. split; [lia|reflexivity]. }
  assert (Hdsurv : forall i, In i donors -> In i surv).
  { intros i Hi. unfold surv. destruct new; [assumption|].
    apply Hdon in Hi. apply zrange_In. lia. }
  assert (Hsnd : NoDup surv).
  { unfold surv. destruct new; [assumption|apply NoDup_zrange]. }
  assert (Hcnt : forall i, In i surv ->
            count_id (idv i) tab = zth ow (old_pos_inc tp new i)).
  { intros i Hi. destruct (Hsurv i Hi) as [Ri Si].
    destruct (Hfib i Ri Si) as [_ ->]. symmetry. apply slots_from_count. }
  assert (Hfl : forall i, In i surv ->
            Z.of_nat (length (fib i)) = zth ow (old_pos_inc tp new i)).
  { intros i Hi. rewrite <- (Hcnt i Hi). apply slots_from_count. }
  (* every slot of the old table belongs to a brick that stays *)
  assert (Hold : forall x, In x tab -> exists i, In i surv /\ x = idv i).
  { assert (Hc : forall x, In x tab -> In x (map idv surv)).
    { apply count_all_cover.
      - apply NoDup_map_on; [assumption|].
        intros i j Hi Hj. apply Hinj; apply Hsurv; assumption.
      - rewrite count_all_map.
        rewrite (sumZ_map_ext _ (fun i => zth ow (old_pos_inc tp new i)))
          by exact Hcnt.
        unfold surv, donors.
        rewrite (survivors_sum_inc ow n tp new Htp); [lia|].
        destruct new; lia. }
    intros x Hx. apply Hc in Hx. apply in_map_iff in Hx.
    destruct Hx as (i & <- & Hi). eauto. }
  (* the writes *)
  assert (Hslot : forall i s, In i donors ->
            In s (skipn (Z.to_nat (zth nw i)) (fib i)) ->
            0 <= s < Z.of_nat (length tab) /\ zth tab s = idv i).
  { intros i s Hi Hs. apply In_skipn_In in Hs. apply slots_of_In in Hs.
    exact Hs. }
  assert (Hmapfst : map fst W
                    = flat_map (fun i => skipn (Z.to_nat (zth nw i)) (fib i))
                               donors).
  { unfold W. rewrite map_flat_map. apply flat_map_ext. intros i.
    unfold tail. apply map_fst_hand. }
  assert (HW1 : NoDup (map fst W)).
  { rewrite Hmapfst. apply NoDup_flat_map_disjoint; auto.
    - intros i Hi. apply NoDup_skipn. apply slots_from_NoDup.
    - intros i j x Hi Hj Hne Hx Hx'.
      destruct (Hslot i x Hi Hx) as [_ A].
      destruct (Hslot j x Hj Hx') as [_ B].
      apply Hdon in Hi, Hj. apply (Hinj i j); try tauto. congruence. }
  assert (HW2 : forall s x, In (s, x) W ->
            0 <= s < Z.of_nat (length tab) /\ x = v /\
            exists i, In i donors /\ zth tab s = idv i).
  { intros s x Hin. apply in_flat_map in Hin. destruct Hin as (i & Hi & Hin).
    unfold tail, hand in Hin. apply in_map_iff in Hin.
    destruct Hin as (s' & Heq & Hs'). inversion Heq; subst s' x.
    destruct (Hslot i s Hi Hs') as [A B]. eauto. }
  assert (HWr : forall p, In p W -> 0 <= fst p < Z.of_nat (length tab)).
  { intros [s x] Hp. apply HW2 in Hp. cbn [fst]. tauto. }
  set (t' := write_list W tab).
  assert (Lt' : Z.of_nat (length t') = nums).
  { unfold t'. rewrite length_write_list. assumption. }
  (* the donors hold their new weights *)
  assert (Hdonor : forall j, In j donors -> count_id (idv j) t' = zth nw j).
  { intros j Hj. unfold t'. rewrite count_id_write_list by assumption.
    assert (Hne : idv j <> v) by (apply Hinj; apply Hdon in Hj; tauto).
    rewrite (filter_none (fun p => idv j =? snd p)).
    2:{ intros [s x] Hp. apply HW2 in Hp. destruct Hp as (_ & -> & _).
        cbn [snd]. apply Z.eqb_neq. assumption. }
    destruct (in_split j donors Hj) as (D1 & D2 & HD).
    assert (Hj1 : ~ In j D1 /\ ~ In j D2).
    { rewrite HD in Hdnd. apply NoDup_remove_2 in Hdnd.
      split; intros Hin; apply Hdnd; apply in_or_app; auto. }
    assert (Hother : forall D, (forall i, In i D -> In i donors) ->
              ~ In j D ->
              filter (fun p => idv j =? zth tab (fst p)) (flat_map tail D)
              = []).
    { intros D HDin Hnot. apply filter_none. intros [s x] Hp.
      apply in_flat_map in Hp. destruct Hp as (i & Hi & Hp).
      unfold tail, hand in Hp. apply in_map_iff in Hp.
      destruct Hp as (s' & Heq & Hs'). inversion Heq; subst s' x.
      destruct (Hslot i s (HDin i Hi) Hs') as [_ B]. cbn [fst]. rewrite B.
      apply Z.eqb_neq. apply Hinj.
      - apply Hdon in Hj. tauto.
      - apply Hdon. auto.
      - intros ->. contradiction. }
    unfold W. rewrite HD, flat_map_app. cbn [flat_map].
    rewrite !filter_app.
    rewrite (Hother D1), (Hother D2); try tauto.
    2:{ intros i Hi. rewrite HD. apply in_or_app. right. right. assumption. }
    2:{ intros i Hi. rewrite HD. apply in_or_app. left. assumption. }
    rewrite (filter_all _ (tail j)).
    2:{ intros [s x] Hp. unfold tail, hand in Hp. apply in_map_iff in Hp.
        destruct Hp as (s' & Heq & Hs'). inversion Heq; subst s' x.
        destruct (Hslot j s Hj Hs') as [_ B]. cbn [fst]. rewrite B.
        apply Z.eqb_refl. }
    cbn [app length]. rewrite app_nil_r.
    unfold tail, hand. rewrite length_map, length_skipn.
    pose proof (Hfl j (Hdsurv j Hj)) as Hl.
    rewrite (Hcnt j (Hdsurv j Hj)).
    apply Hdon in Hj. pose proof (Hle j (proj1 Hj) (proj2 Hj)).
    assert (0 <= zth nw j) by (apply Rnw; apply zth_In; lia).
    lia. }
  (* every slot of the new table belongs to a brick of the vector *)
  assert (Hnew : forall x, In x t' -> In x (tab_ids vec)).
  { intros x Hx. apply In_nth with (d := 0) in Hx.
    destruct Hx as (k & Hk & <-).
    assert (Hidin : forall i, 0 <= i < n -> In (idv i) (tab_ids vec)).
    { intros i Hi. rewrite <- Hidv by assumption. apply zth_In.
      rewrite length_tab_ids. assumption. }
    change (nth k t' 0) with (nth k t' 0).
    replace (nth k t' 0) with (zth t' (Z.of_nat k))
      by (unfold zth; now rewrite Nat2Z.id).
    unfold t' in *. rewrite length_write_list in Hk.
    destruct (in_dec Z.eq_dec (Z.of_nat k) (map fst W)) as [Hin|Hnot].
    - apply in_map_iff in Hin. destruct Hin as ([s x] & Hfst & Hin).
      cbn [fst] in Hfst. subst s.
      rewrite (zth_write_list_in _ _ (Z.of_nat k) x); auto.
      destruct (HW2 _ _ Hin) as (_ & -> & _). apply Hidin. assumption.
    - rewrite zth_write_list_notin; auto; try lia.
      + destruct (Hold (zth tab (Z.of_nat k))) as (i & Hi & ->).
        { apply zth_In. lia. }
        apply Hidin. apply Hsurv. assumption.
      + intros p Hp. apply HWr in Hp. lia. }
  (* the weights sum to the size of the table *)
  assert (Hsplit : forall f : Z -> Z,
            sumZ (map f (zrange 0 n)) = f tp + sumZ (map f donors)).
  { intros f. rewrite (zrange_split 0 tp n) by lia. unfold donors.
    rewrite !map_app, !sumZ_app. cbn [map sumZ]. lia. }
  assert (Hdsum : sumZ (map (zth nw) donors)
                  <= sumZ ow - match new with
                                | Some _ => 0
                                | None => zth ow tp
                                end).
  { pose proof (survivors_sum_inc ow n tp new Htp
                  ltac:(destruct new; lia)) as Hs.
    assert (Hd : sumZ (map (zth nw) donors)
                 <= sumZ (map (fun i => zth ow (old_pos_inc tp new i)) donors)).
    { apply sumZ_map_le_pointwise. intros i Hi. apply Hdon in Hi.
      apply Hle; tauto. }
    destruct new; fold donors in Hs; [lia|].
    rewrite (Hsplit (fun i => zth ow (old_pos_inc tp None i))) in Hs.
    unfold old_pos_inc at 1 in Hs. lia. }
  assert (Hd0 : 0 <= sumZ (map (zth nw) donors)).
  { apply sumZ_nonneg. intros x Hx. apply in_map_iff in Hx.
    destruct Hx as (i & <- & Hi). apply Hdon in Hi.
    apply Rnw. apply zth_In. lia. }
  assert (Hsumnw : sumZ nw = nums).
  { apply exact_from_mod; auto; [lia|].
    rewrite (sumZ_zrange nw), Lnw, (Hsplit (zth nw)).
    assert (0 <= zth nw tp < 2 ^ 32) by (apply Rnw; apply zth_In; lia).
    assert (0 <= match new with Some _ => 0 | None => zth ow tp end).
    { destruct new; [lia|].
      destruct (Hfib tp Htp eq_refl) as [_ Hl]. unfold old_pos_inc in Hl.
      lia. }
    lia. }
  (* the target holds its new weight *)
  assert (Htarget : count_id v t' = zth nw tp).
  { assert (Hall : count_all (tab_ids vec) t' = Z.of_nat (length t')).
    { apply count_all_cover; assumption. }
    rewrite (list_zrange (tab_ids vec)) in Hall at 1.
    rewrite length_tab_ids in Hall. fold n in Hall.
    rewrite count_all_map in Hall.
    rewrite (Hsplit (fun i => count_id (zth (tab_ids vec) i) t')) in Hall.
    rewrite (Hidv tp Htp) in Hall. fold v in Hall.
    rewrite (sumZ_map_ext _ (zth nw) donors) in Hall.
    2:{ intros i Hi. rewrite Hidv by (apply Hdon in Hi; tauto).
        apply Hdonor. assumption. }
    rewrite (sumZ_zrange nw), Lnw, (Hsplit (zth nw)) in Hsumnw. lia. }
  exists t'. rewrite Hdcx. cbn [Fsx32.tab weights numb Fsx32.nums_bits].
  fold nums.
  split; [reflexivity|]. split; [assumption|]. split; [reflexivity|].
  split; [unfold n; lia|].
  apply (fsx_invariantb_intro _ _ t' nw);
    cbn [Fsx32.tab weights numb Fsx32.nums_bits]; rewrite ?Hids'; auto;
    try (unfold n; lia).
  intros i Hi. rewrite Hidv by assumption.
  destruct (Z.eq_dec i tp) as [->|Hne]; [assumption|].
  apply Hdonor. apply Hdon. lia.
Qed.

Lemma inc_example_wf :
  wf_inc inc_example_vec inc_example_dcx inc_example_tab 2
         (Some inc_example_new) [4; 4].
Proof.
  constructor;
    try (lazymatch goal with
         | |- forall _ : Z, _ => fail
         | _ => vm_compute; intuition congruence
         end).
  - vm_compute. repeat constructor; simpl; intuition congruence.
  - intros i Hi Hs. cbn [length inc_example_vec] in Hi.
    assert (Hc : i = 0 \/ i = 1 \/ i = 2) by lia.
    destruct Hc as [-> | [-> | ->]];
      [split; reflexivity|split; reflexivity|discriminate].
Qed.

Lemma inc_keeps_invariant_witness :
  exists dcx' vec',
    inc_fsx32 inc_example_vec inc_example_dcx inc_example_tab 2
              (Some inc_example_new) = Ok (dcx', vec') /\
    exists t',
      Fsx32.tab dcx' = Some t' /\
      Z.of_nat (length t') = 2 ^ nums_bits dcx' /\
      nums_bits dcx' = nums_bits inc_example_dcx /\
      numb dcx' = Z.of_nat (length vec') /\
      fsx_invariantb vec' dcx' t' = true.
Proof.
  eexists. eexists. split; [vm_compute; reflexivity|].
  eapply (inc_keeps_invariant inc_example_vec inc_example_dcx
            inc_example_tab 2 (Some inc_example_new) [4; 4]);
    [exact inc_example_wf|vm_compute; reflexivity].
Defined.

(** What a successful [dec] leaves: the writes on the table, and what the
    calibrated weights satisfy. *)
Lemma dec_result (vec : list bucket) (occ : Z) (dcx : fsx32_dcx)
    (tab : list Z) (tp : Z) (victim : bucket) (ow : list Z)
    (dcx' : fsx32_dcx) (vec' : list bucket) (v' : option bucket) :
  wf_dec vec dcx tab tp victim ow ->
  dec_fsx32 vec occ dcx tab tp (Some victim) = Ok (dcx', vec', v') ->
  let n := Z.of_nat (length vec) in
  let f := slots_of (wrap32 (b_id victim)) tab in
  let idv := fun i => wrap32 (b_id (nth (Z.to_nat i) vec bucket0)) in
  exists nw,
    let cnt := fun i => wrap32 (zth nw i - zth ow (old_pos_dec tp i)) in
    let W := hand_seq f idv cnt (zrange 0 n) 0 in
    dcx' = mk_dcx n (nums_bits dcx) (Some nw) (Some (write_list W tab)) /\
    Z.of_nat (length nw) = n /\
    (forall x, In x nw -> 0 <= x < 2 ^ 32) /\
    sumZ (map cnt (zrange 0 n)) = zth ow tp /\
    (forall i, 0 <= i < n -> cnt i = zth nw i - zth ow (old_pos_dec tp i)) /\
    map fst W = f /\
    map b_id vec' = map b_id vec.
Proof.
  intros [Hw Hbits Htab Hsum Hown Hnumb Hmax Hvec Htp Hids [Hfv Hfl]] H n f idv.
  unfold MAX_SHIFT in Hbits. unfold MAX_BUCKETS, MAX_SHIFT in Hmax.
  fold n in Hvec. set (vid := wrap32 (b_id victim)) in *. fold f in Hfv, Hfl.
  assert (Hnums : shl1 (nums_bits dcx) = 2 ^ nums_bits dcx)
    by (apply shl1_pow; lia).
  assert (Hnums31 : 0 < 2 ^ nums_bits dcx <= 2 ^ 31).
  { split; [apply Z.pow_pos_nonneg; lia|apply Z.pow_le_mono_r; lia]. }
  unfold dec_fsx32 in H. cbv zeta in H.
  replace (wrap32 (Fsx32.numb dcx)) with (Fsx32.numb dcx) in H
    by (unfold wrap32; rewrite Z.mod_small; lia).
  replace (wrap32 (Fsx32.numb dcx - 1)) with n in H
    by (unfold wrap32; rewrite Z.mod_small; lia).
  bind_inv H. clear E x. rewrite Hnums in H.
  bind_inv H. apply alloc32_Ok_inv in E. destruct E as [_ ->].
  bind_inv H. rename x into dcx1.
  apply clone_systab_Ok_inv in E. rewrite Hnums in E.
  destruct E as (_ & _ & ->).
  cbn [Fsx32.tab weights Fsx32.nums_bits deref bind] in H.
  rewrite firstn_all2 in H by lia.
  bind_inv H. rename x into nw.
  unfold calibrate32 in E.
  replace (wrap32 n) with n in E by (unfold wrap32; rewrite Z.mod_small; lia).
  replace (wrap32 (2 ^ nums_bits dcx)) with (2 ^ nums_bits dcx) in E
    by (unfold wrap32; rewrite Z.mod_small; lia).
  destruct (calibrate32_sum_mod vec n _ nw ltac:(lia) E) as (Lnw & Rnw & Snw).
  bind_inv H. rename x into t'.
  replace (wrap32 tp) with tp in E0
    by (unfold wrap32; rewrite Z.mod_small; lia).
  rewrite Hw in E0. unfold balance_dec in E0. cbn [deref bind] in E0.
  bind_inv H. rename x into vecr. inversion H; subst dcx' vecr v'. clear H.
  assert (Hlf : Z.of_nat (length f) <= 2 ^ nums_bits dcx).
  { rewrite <- Hfl, <- Hsum. apply In_le_sumZ; [assumption|].
    apply zth_In. lia. }
  destruct (balance_dec_body_inv vec victim f ow nw tab t' tp Hfv
              ltac:(lia) Lnw ltac:(fold n; lia) E0) as [Hfit Ht'].
  fold n in Hfit, Ht'.
  exists nw. intros cnt W. fold idv cnt in Ht', Hfit. fold W in Ht'.
  destruct (dec_counts_exact ow nw tp (2 ^ nums_bits dcx)) as [HT Hex];
    auto; try lia.
  { rewrite Lnw. fold cnt. lia. }
  rewrite Lnw in HT, Hex. fold cnt in HT, Hex.
  assert (Hc0 : forall i, In i (zrange 0 n) -> 0 <= cnt i)
    by (intros i _; unfold cnt; apply Z.mod_pos_bound; lia).
  split; [rewrite Ht'; reflexivity|].
  split; [assumption|]. split; [assumption|]. split; [assumption|].
  split; [assumption|]. split.
  - unfold W. rewrite hand_seq_slots by (auto; lia).
    rewrite HT, Hfl. cbn [Z.to_nat skipn]. rewrite Nat2Z.id.
    apply firstn_all.
  - destruct (release_fibers_spec n vec ltac:(lia)) as (vr & Hr & _ & _ & Hid).
    rewrite Hr in E1. inversion E1; subst vr. exact Hid.
Qed.

(** The writes of [balance_dec] that hand slots to the brick [j]. *)
Lemma hand_seq_for (f : list Z) (idv cnt : Z -> Z) (j : Z) :
  forall (L : list Z) (off : Z),
    NoDup L ->
    (forall i, In i L -> i <> j -> idv i <> idv j) ->
    (forall i, In i L -> 0 <= cnt i) ->
    0 <= off -> off + sumZ (map cnt L) <= Z.of_nat (length f) ->
    Z.of_nat (length (filter (fun p => idv j =? snd p)
                             (hand_seq f idv cnt L off)))
    = if in_dec Z.eq_dec j L then cnt j else 0.
Proof.
  induction L as [|i L IH]; intros off Hnd Hinj Hc Hoff Hfit;
    cbn [hand_seq map sumZ] in *.
  - destruct (in_dec Z.eq_dec j []) as [[]|]. reflexivity.
  - apply NoDup_cons_iff in Hnd. destruct Hnd as [Hnot Hnd].
    assert (0 <= cnt i) by (apply Hc; left; reflexivity).
    assert (0 <= sumZ (map cnt L)).
    { apply sumZ_nonneg. intros x Hx. apply in_map_iff in Hx.
      destruct Hx as (k & <- & Hk). apply Hc. right. assumption. }
    rewrite filter_app, length_app, Nat2Z.inj_add.
    rewrite IH; auto; try lia.
    2:{ intros k Hk. apply Hinj. right. assumption. }
    2:{ intros k Hk. apply Hc. right. assumption. }
    destruct (Z.eq_dec i j) as [->|Hne].
    + rewrite filter_all.
      2:{ intros [s x] Hp. unfold hand in Hp. apply in_map_iff in Hp.
          destruct Hp as (s' & Heq & _). inversion Heq. cbn [snd].
          apply Z.eqb_refl. }
      unfold hand. rewrite length_map, length_firstn, length_skipn.
      destruct (in_dec Z.eq_dec j (j :: L)) as [_|Hn];
        [|exfalso; apply Hn; left; reflexivity].
      destruct (in_dec Z.eq_dec j L) as [Hin|_]; [contradiction|]. lia.
    + rewrite filter_none.
      2:{ intros [s x] Hp. unfold hand in Hp. apply in_map_iff in Hp.
          destruct Hp as (s' & Heq & _). inversion Heq. cbn [snd].
          apply Z.eqb_neq. intros Heq'. apply (Hinj i); auto.
          left. reflexivity. }
      cbn [length].
      destruct (in_dec Z.eq_dec j (i :: L)) as [[Heq|Hin]|Hn];
        destruct (in_dec Z.eq_dec j L) as [Hin'|Hn']; try lia;
        try contradiction.
      exfalso. apply Hn. right. assumption.
Qed.

(** X13. [dec] keeps the invariant of the table: on a well-formed state in
    which every surviving brick holds as many slots as its old weight, a
    successful [dec] leaves weights that sum to the size of the table, a
    table in which every surviving brick holds as many slots as its new
    weight, and no slot of the removed brick or of any other brick. *)
Theorem dec_keeps_invariant (vec : list bucket) (occ : Z) (dcx : fsx32_dcx)
    (tab : list Z) (tp : Z) (victim : bucket) (ow : list Z)
    (dcx' : fsx32_dcx) (vec' : list bucket) (v' : option bucket) :
  wf_dec vec dcx tab tp victim ow ->
  NoDup (tab_ids vec) ->
  (forall i, 0 <= i < Z.of_nat (length vec) ->
             count_id (zth (tab_ids vec) i) tab = zth ow (old_pos_dec tp i)) ->
  dec_fsx32 vec occ dcx tab tp (Some victim) = Ok (dcx', vec', v') ->
  exists t',
    Fsx32.tab dcx' = Some t' /\
    Z.of_nat (length t') = 2 ^ nums_bits dcx' /\
    nums_bits dcx' = nums_bits dcx /\
    numb dcx' = Z.of_nat (length vec') /\
    fsx_invariantb vec' dcx' t' = true.
Proof.
  intros Hwf Hnd Hcnt H.
  destruct (dec_result vec occ dcx tab tp victim ow dcx' vec' v' Hwf H)
    as (nw & Hdcx & Lnw & Rnw & HT & Hex & Hslots & Hidmap).
  destruct Hwf as [Hw Hbits Htab Hsum Hown Hnumb Hmax Hvec Htp Hids [Hfv Hfl]].
  unfold MAX_SHIFT in Hbits.
  set (n := Z.of_nat (length vec)) in *.
  set (nums := 2 ^ nums_bits dcx) in *.
  set (vid := wrap32 (b_id victim)) in *.
  set (f := slots_of vid tab) in *.
  set (idv := fun i => wrap32 (b_id (nth (Z.to_nat i) vec bucket0))) in *.
  set (cnt := fun i => wrap32 (zth nw i - zth ow (old_pos_dec tp i))) in *.
  set (W := hand_seq f idv cnt (zrange 0 n) 0) in *.
  set (t' := write_list W tab) in *.
  assert (Hids' : tab_ids vec' = tab_ids vec).
  { unfold tab_ids. rewrite <- (map_map b_id wrap32 vec'), Hidmap.
    apply map_map. }
  assert (Lvec' : length vec' = length vec).
  { rewrite <- (length_map b_id vec'), Hidmap. apply length_map. }
  assert (Hidv : forall i, 0 <= i < n -> zth (tab_ids vec) i = idv i).
  { intros i Hi. apply zth_tab_ids. assumption. }
  assert (Hidin : forall i, 0 <= i < n -> In (idv i) (tab_ids vec)).
  { intros i Hi. rewrite <- Hidv by assumption. apply zth_In.
    rewrite length_tab_ids. assumption. }
  assert (Hinj : forall i j, 0 <= i < n -> 0 <= j < n -> i <> j ->
                             idv i <> idv j).
  { intros i j Hi Hj Hne. rewrite <- !Hidv by assumption.
    apply NoDup_nth_neq; auto; rewrite length_tab_ids; assumption. }
  assert (Hc0 : forall i, 0 <= cnt i)
    by (intros i; unfold cnt; apply Z.mod_pos_bound; lia).
  assert (HWnd : NoDup (map fst W))
    by (rewrite Hslots; apply slots_from_NoDup).
  assert (HWs : forall p, In p W ->
            0 <= fst p < Z.of_nat (length tab) /\ zth tab (fst p) = vid).
  { intros p Hp. apply slots_of_In. fold f. rewrite <- Hslots.
    apply in_map. assumption. }
  assert (HWr : forall p, In p W -> 0 <= fst p < Z.of_nat (length tab)).
  { intros p Hp. apply HWs. assumption. }
  assert (Lt' : Z.of_nat (length t') = nums).
  { unfold t'. rewrite length_write_list. assumption. }
  (* the survivors hold their new weights *)
  assert (Hsurv : forall j, 0 <= j < n -> count_id (idv j) t' = zth nw j).
  { intros j Hj. unfold t'. rewrite count_id_write_list by assumption.
    rewrite (filter_none (fun p => idv j =? zth tab (fst p))).
    2:{ intros p Hp. destruct (HWs p Hp) as [_ ->]. apply Z.eqb_neq.
        intros Heq. apply Hids. rewrite <- Heq. apply Hidin. assumption. }
    unfold W. rewrite (hand_seq_for f idv cnt j (zrange 0 n) 0).
    - destruct (in_dec Z.eq_dec j (zrange 0 n)) as [_|Hn];
        [|exfalso; apply Hn; apply zrange_In; lia].
      pose proof (Hex j Hj) as Hx.
      rewrite <- Hidv, Hcnt by assumption. cbn [length].
      unfold cnt in *. lia.
    - apply NoDup_zrange.
    - intros i Hi Hne. apply zrange_In in Hi. apply Hinj; auto; lia.
    - intros i _. apply Hc0.
    - lia.
    - rewrite HT, Hfl. lia. }
  (* the weights sum to the size of the table *)
  assert (Hsumnw : sumZ nw = nums).
  { rewrite (sumZ_zrange nw), Lnw.
    rewrite (sumZ_map_ext (zth nw)
               (fun i => cnt i - (0 - zth ow (old_pos_dec tp i)))).
    2:{ intros i Hi. apply zrange_In in Hi. pose proof (Hex i Hi) as Hx.
        unfold cnt in *. lia. }
    rewrite sumZ_map_sub.
    rewrite (sumZ_map_sub (fun _ => 0)
               (fun i => zth ow (old_pos_dec tp i))).
    rewrite (survivors_sum ow n tp) by lia.
    rewrite (map_const (fun _ : Z => 0) 0) by reflexivity.
    rewrite sumZ_repeat. lia. }
  (* every slot of the old table belongs to the victim or to a survivor *)
  assert (Hold : forall x, In x tab -> x = vid \/ In x (tab_ids vec)).
  { assert (Hc : forall x, In x tab -> In x (vid :: tab_ids vec)).
    { apply count_all_cover.
      - constructor; assumption.
      - unfold count_all. cbn [map sumZ]. fold (count_all (tab_ids vec) tab).
        rewrite (list_zrange (tab_ids vec)) at 1.
        rewrite length_tab_ids. fold n. rewrite count_all_map.
        rewrite (sumZ_map_ext _ (fun i => zth ow (old_pos_dec tp i)))
          by (intros i Hi; apply zrange_In in Hi; apply Hcnt; lia).
        rewrite (survivors_sum ow n tp) by lia.
        rewrite <- (slots_from_count vid tab 0). fold (slots_of vid tab).
        fold f. lia. }
    intros x Hx. apply Hc in Hx. destruct Hx as [<-|Hx]; auto. }
  assert (Hnew : forall x, In x t' -> In x (tab_ids vec)).
  { intros x Hx. apply In_nth with (d := 0) in Hx.
    destruct Hx as (k & Hk & <-).
    replace (nth k t' 0) with (zth t' (Z.of_nat k))
      by (unfold zth; now rewrite Nat2Z.id).
    unfold t' in *. rewrite length_write_list in Hk.
    destruct (in_dec Z.eq_dec (Z.of_nat k) (map fst W)) as [Hin|Hnot].
    - apply in_map_iff in Hin. destruct Hin as ([s x] & Hfst & Hin).
      cbn [fst] in Hfst. subst s.
      rewrite (zth_write_list_in _ _ (Z.of_nat k) x); auto.
      apply hand_seq_values in Hin. destruct Hin as (i & Hi & ->).
      apply zrange_In in Hi. apply Hidin. lia.
    - rewrite zth_write_list_notin; auto; try lia.
      + destruct (Hold (zth tab (Z.of_nat k))) as [Hv|Hs]; auto.
        { apply zth_In. lia. }
        exfalso. apply Hnot. rewrite Hslots. apply slots_of_In_iff.
        split; [lia|assumption].
      + intros p Hp. apply HWr in Hp. lia. }
  exists t'. rewrite Hdcx. cbn [Fsx32.tab weights numb Fsx32.nums_bits].
  fold nums.
  split; [reflexivity|]. split; [assumption|]. split; [reflexivity|].
  split; [unfold n; lia|].
  apply (fsx_invariantb_intro _ _ t' nw);
    cbn [Fsx32.tab weights numb Fsx32.nums_bits]; rewrite ?Hids'; auto;
    try (unfold n; lia).
  intros i Hi. rewrite Hidv by assumption. apply Hsurv. assumption.
Qed.

Lemma dec_example_wf :
  wf_dec dec_example_vec dec_example_dcx dec_example_tab 1
         dec_example_victim [3; 3; 2].
Proof.
  constructor;
    try (lazymatch goal with
         | |- forall _ : Z, _ => fail
         | _ => vm_compute; intuition congruence
         end).
  intros x Hx. simpl in Hx. lia.
Qed.

Lemma dec_keeps_invariant_witness :
  exists dcx' vec' v',
    dec_fsx32 dec_example_vec 0 dec_example_dcx dec_example_tab 1
              (Some dec_example_victim) = Ok (dcx', vec', v') /\
    exists t',
      Fsx32.tab dcx' = Some t' /\
      Z.of_nat (length t') = 2 ^ nums_bits dcx' /\
      nums_bits dcx' = nums_bits dec_example_dcx /\
      numb dcx' = Z.of_nat (length vec') /\
      fsx_invariantb vec' dcx' t' = true.
Proof.
  eexists. eexists. eexists. split; [vm_compute; reflexivity|].
  eapply (dec_keeps_invariant dec_example_vec 0 dec_example_dcx
            dec_example_tab 1 dec_example_victim [3; 3; 2]).
  - exact dec_example_wf.
  - vm_compute. repeat constructor; simpl; intuition congruence.
  - intros i Hi. cbn [length dec_example_vec] in Hi.
    assert (Hc : i = 0 \/ i = 1) by lia.
    destruct Hc as [-> | ->]; reflexivity.
  - vm_compute. reflexivity.
Defined.

Lemma tab_ids_small (vec : list bucket) :
  (forall b, In b vec -> 0 <= b_id b < 2 ^ 32) ->
  tab_ids vec = map b_id vec.
Proof.
  intros H. unfold tab_ids. apply map_ext_in. intros b Hb.
  unfold wrap32. apply Z.mod_small. apply H. assumption.
Qed.

(** X14. [initv] on a table read from disk establishes the invariant: when
    it succeeds, the weights it leaves are the numbers of slots that the
    bricks hold in the table, they sum to the size of the table, every
    slot holds the identifier of a brick, and the fiber of each brick
    begins with the slots of the brick, in ascending order. *)
Theorem initv_establishes_invariant (vec : list bucket) (t : list Z)
    (numb nums_bits : Z) (dcx dcx' : fsx32_dcx) (vec' : list bucket)
    (t' : list Z) :
  numb = Z.of_nat (length vec) ->
  NoDup (map b_id vec) ->
  (forall b, In b vec -> 0 <= b_id b < 2 ^ 32) ->
  Fsx32.nums_bits dcx = nums_bits ->
  Z.of_nat (length t) = 2 ^ nums_bits ->
  initv_fsx32 vec (Some t) numb nums_bits dcx = Ok (dcx', vec', t') ->
  t' = t /\
  Fsx32.numb dcx' = Z.of_nat (length vec') /\
  fsx_invariantb vec' dcx' t = true /\
  forall j, 0 <= j < numb ->
    exists pad,
      b_fib (nth (Z.to_nat j) vec' bucket0)
      = Some (slots_of (zth (tab_ids vec') j) t ++ repeat 0 pad).
Proof.
  intros Hnumb Hids Hsmall Hdnb Hlt H.
  unfold initv_fsx32 in H. unfold MAX_SHIFT in H.
  destruct (Z.eqb_spec numb 0) as [|Hn0]; [discriminate|].
  destruct (Z.leb_spec 31 nums_bits) as [|Hnb]; [discriminate|].
  cbn [orb] in H. cbv zeta in H.
  assert (Hnb0 : 0 <= nums_bits).
  { destruct (Z.le_gt_cases 0 nums_bits) as [|Hneg]; [assumption|].
    rewrite Z.pow_neg_r in Hlt by assumption.
    destruct t; [|discriminate Hlt]. exfalso.
    unfold shl1 in H. rewrite Z.shiftl_1_l, Z.pow_neg_r in H by assumption.
    change (wrap32 0) with 0 in H.
    destruct (Z.leb_spec 0 numb); [discriminate|lia]. }
  rewrite shl1_pow in H by lia.
  set (nums := 2 ^ nums_bits) in *.
  assert (Hn31 : 0 < nums <= 2 ^ 30).
  { split; [apply Z.pow_pos_nonneg; lia|apply Z.pow_le_mono_r; lia]. }
  destruct (Z.leb_spec nums numb) as [|Hlt']; [discriminate|].
  bind_inv H. apply alloc32_Ok_inv in E. destruct E as [_ ->].
  bind_inv H. rename x into w.
  unfold calibrate32 in E.
  replace (wrap32 numb) with numb in E
    by (unfold wrap32; rewrite Z.mod_small; lia).
  destruct (calibrate32_sum_mod vec numb _ w ltac:(lia) E) as (Lw & Rw & _).
  cbn [bind] in H. bind_inv H. destruct x as [vecf w'].
  inversion H; subst dcx' vec' t'. clear H.
  replace (wrap32 numb) with numb in E0
    by (unfold wrap32; rewrite Z.mod_small; lia).
  destruct (create_fibers_inv vec t w numb ltac:(lia) Lw Hids Rw
              nums_bits vecf w' ltac:(lia) E0)
    as (_ & Lv & Lw' & Hknown & Hj).
  fold nums in Hknown, Hj.
  rewrite firstn_all2 in Hknown, Hj by lia.
  assert (Hidmap : map b_id vecf = map b_id vec).
  { apply nth_ext with (d := 0) (d' := 0); rewrite !length_map; [lia|].
    intros k Hk. rewrite !nth_map_b_id.
    destruct (Hj (Z.of_nat k) ltac:(lia)) as (_ & Hid & _).
    rewrite Nat2Z.id in Hid. exact Hid. }
  assert (Hsmall' : forall b, In b vecf -> 0 <= b_id b < 2 ^ 32).
  { intros b Hb. apply (in_map b_id) in Hb. rewrite Hidmap in Hb.
    apply in_map_iff in Hb. destruct Hb as (b0 & <- & Hb0). auto. }
  assert (Hti : tab_ids vecf = map b_id vec).
  { rewrite tab_ids_small by assumption. assumption. }
  assert (Hzi : forall j, 0 <= j < numb ->
            zth (map b_id vec) j = b_id (nth (Z.to_nat j) vec bucket0)).
  { intros j Hj'. unfold zth. apply nth_map_b_id. }
  assert (Hcount : forall j, 0 <= j < numb ->
            count_id (zth (map b_id vec) j) t = zth w' j).
  { intros j Hj'. rewrite Hzi by assumption.
    destruct (Hj j Hj') as (_ & _ & _ & Hc & _). symmetry. exact Hc. }
  split; [reflexivity|]. split; [cbn [Fsx32.numb]; lia|]. split.
  - apply (fsx_invariantb_intro _ _ t w');
      cbn [weights Fsx32.numb Fsx32.nums_bits]; rewrite ?Hti; auto;
      try lia.
    rewrite Hdnb. fold nums. rewrite <- Hlt.
    assert (Hall : count_all (map b_id vec) t = Z.of_nat (length t)).
    { apply count_all_cover; assumption. }
    rewrite <- Hall. rewrite (list_zrange (map b_id vec)) at 1.
    rewrite count_all_map, length_map.
    rewrite (sumZ_zrange w').
    replace (Z.of_nat (length w')) with (Z.of_nat (length vec)) by lia.
    apply sumZ_map_ext. intros j Hj'. apply zrange_In in Hj'.
    symmetry. apply Hcount. lia.
  - intros j Hj'. rewrite Hti, Hzi by assumption.
    destruct (Hj j Hj') as (_ & _ & _ & _ & _ & Hf). eauto.
Qed.

Lemma initv_establishes_invariant_witness :
  exists dcx' vec' t',
    initv_fsx32 fibers_example_vec (Some [10; 11; 10; 11]) 2 2
                (mk_dcx 0 2 None None) = Ok (dcx', vec', t') /\
    t' = [10; 11; 10; 11] /\
    Fsx32.numb dcx' = Z.of_nat (length vec') /\
    fsx_invariantb vec' dcx' [10; 11; 10; 11] = true /\
    forall j, 0 <= j < 2 ->
      exists pad,
        b_fib (nth (Z.to_nat j) vec' bucket0)
        = Some (slots_of (zth (tab_ids vec') j) [10; 11; 10; 11]
                ++ repeat 0 pad).
Proof.
  eexists. eexists. eexists. split; [vm_compute; reflexivity|].
  apply (initv_establishes_invariant fibers_example_vec [10; 11; 10; 11] 2 2
           (mk_dcx 0 2 None None)).
  - reflexivity.
  - vm_compute. repeat constructor; simpl; intuition congruence.
  - intros b [<- | [<- | []]]; simpl; lia.
  - reflexivity.
  - reflexivity.
  - vm_compute. reflexivity.
Defined.

(** The loop of [initv] that fills a fresh table with the identifier of
    the only brick. *)
Lemma fill_first_brick (vec : list bucket) (nums : Z) :
  (0 < length vec)%nat -> 0 <= nums ->
  for_ 0 nums (fun i t => id <- idx2id vec 0 ;; aset t i (wrap32 id))
       (zeros nums)
  = Ok (repeat (wrap32 (b_id (nth 0 vec bucket0))) (Z.to_nat nums)).
Proof.
  intros Hv Hn. set (v := wrap32 (b_id (nth 0 vec bucket0))).
  destruct (for_total
              (fun (i : Z) (t : list Z) =>
                 t = repeat v (Z.to_nat i) ++ repeat 0 (Z.to_nat (nums - i)))
              (fun i t => id <- idx2id vec 0 ;; aset t i (wrap32 id))
              0 nums (zeros nums)) as (u & E & ->).
  - lia.
  - cbn [Z.to_nat repeat app]. rewrite Z.sub_0_r. reflexivity.
  - intros i t Hi ->. rewrite idx2id_Ok by lia. cbn [bind].
    change (Z.to_nat 0) with 0%nat. fold v.
    replace (Z.to_nat (nums - i))
      with (Datatypes.S (Z.to_nat (nums - (i + 1)))) by lia.
    cbn [repeat].
    rewrite aset_Ok by (rewrite length_app, repeat_length; cbn [length]; lia).
    eexists. split; [reflexivity|].
    replace (Z.to_nat i) with (length (repeat v (Z.to_nat i))) at 1
      by apply repeat_length.
    rewrite upd_app_mid.
    replace (Z.to_nat (i + 1)) with (Datatypes.S (Z.to_nat i)) by lia.
    rewrite repeat_snoc, <- app_assoc. reflexivity.
  - rewrite E, Z.sub_diag. cbn [Z.to_nat repeat]. now rewrite app_nil_r.
Qed.

(** X15. [initv] on a volume of one brick and no table yet builds the table
    from scratch, provided the brick has a positive capacity whose
    product with the table size fits 64 bits and an identifier that fits
    32 bits: every slot holds the brick, whose weight is the whole table
    and whose fiber lists every slot; the invariant holds. *)
Theorem initv_from_scratch (b : bucket) (nums_bits : Z) (dcx : fsx32_dcx) :
  MIN_NUMS_BITS <= nums_bits < MAX_SHIFT ->
  0 < b_cap b -> 2 ^ nums_bits * b_cap b < 2 ^ 64 ->
  0 <= b_id b < 2 ^ 32 ->
  let t := repeat (b_id b) (Z.to_nat (2 ^ nums_bits)) in
  exists dcx' vec',
    initv_fsx32 [b] None 1 nums_bits dcx = Ok (dcx', vec', t) /\
    Fsx32.nums_bits dcx' = nums_bits /\
    weights dcx' = Some [2 ^ nums_bits] /\
    fsx_invariantb vec' dcx' t = true /\
    b_fib (nth 0 vec' bucket0) = Some (slots_of (b_id b) t).
Proof.
  intros Hnb Hcap Hwrap Hid t.
  unfold MIN_NUMS_BITS, MAX_SHIFT in Hnb.
  set (nums := 2 ^ nums_bits) in *.
  assert (Hn : 2 ^ 10 <= nums <= 2 ^ 30).
  { split; apply Z.pow_le_mono_r; lia. }
  assert (Hwid : wrap32 (b_id b) = b_id b)
    by (unfold wrap32; apply Z.mod_small; assumption).
  unfold initv_fsx32. unfold MAX_SHIFT, MIN_NUMS_BITS.
  change (1 =? 0) with false.
  destruct (Z.leb_spec 31 nums_bits); [lia|]. cbn [orb]. cbv zeta.
  rewrite shl1_pow by lia. fold nums.
  destruct (Z.leb_spec nums 1); [lia|].
  (* the weights *)
  destruct (calibrate32_exact [b] 1 nums (zeros 1))
    as (w & Hcal & (Lw & Vw & _ & Sw) & _);
    try (cbn [length]; lia).
  { vm_compute. congruence. }
  { change (caps_of 1 [b]) with [b_cap b]. cbn [sumZ]. lia. }
  { change (caps_of 1 [b]) with [b_cap b]. split; [|cbn [sumZ]; lia].
    intros c [<-|[]]. lia. }
  change (caps_of 1 [b]) with [b_cap b] in *.
  assert (Hw : w = [nums]).
  { destruct w as [|x [|y w]]; cbn in Lw; try discriminate.
    change (Z.to_nat 1) with 1%nat in Sw. cbn [firstn sumZ] in Sw.
    f_equal. lia. }
  subst w. rewrite alloc32_Ok by lia. cbn [bind].
  rewrite Hcal. cbn [bind].
  (* the fresh table *)
  unfold initr_fsx32, MIN_NUMS_BITS.
  destruct (Z.ltb_spec nums_bits 10); [lia|].
  rewrite shl1_pow by lia. fold nums.
  rewrite alloc32_Ok by lia. cbn [bind deref].
  rewrite (fill_first_brick [b] nums) by (cbn [length]; lia).
  cbn [bind nth]. rewrite Hwid. fold t.
  assert (Lt : Z.of_nat (length t) = nums).
  { unfold t. rewrite repeat_length. lia. }
  (* the fibers *)
  change (wrap32 1) with 1.
  destruct (create_fibers_succeeds [b] t [nums] 1 eq_refl eq_refl
              ltac:(repeat constructor; intros [])
              ltac:(intros x [<-|[]]; lia) nums_bits ltac:(lia))
    as (vec' & w' & Hcf).
  { fold nums. lia. }
  { intros x Hx. apply In_firstn_In in Hx. unfold t in Hx.
    apply repeat_spec in Hx. subst x. left. reflexivity. }
  { intros j Hj. assert (j = 0) by lia. subst j. cbn [Z.to_nat nth].
    fold nums. rewrite firstn_all2 by lia. unfold t.
    rewrite count_id_repeat, Z.eqb_refl. unfold zth. cbn [Z.to_nat nth]. lia. }
  { intros j Hj. assert (j = 0) by lia. subst j.
    unfold zth. cbn [Z.to_nat nth]. lia. }
  rewrite Hcf. cbn [bind].
  destruct (create_fibers_inv [b] t [nums] 1 eq_refl eq_refl
              ltac:(repeat constructor; intros [])
              ltac:(intros x [<-|[]]; lia) nums_bits vec' w' ltac:(lia) Hcf)
    as (_ & Lv & Lw' & Hknown & Hj).
  fold nums in Hknown, Hj. rewrite firstn_all2 in Hknown, Hj by lia.
  destruct (Hj 0 ltac:(lia)) as (_ & Hid0 & _ & Hc0 & _ & Hf0).
  cbn [Z.to_nat nth] in Hid0, Hc0, Hf0.
  assert (Hcount : count_id (b_id b) t = nums).
  { unfold t. rewrite count_id_repeat, Z.eqb_refl. lia. }
  rewrite Hcount in Hc0, Hf0.
  assert (Hw' : w' = [nums]).
  { destruct w' as [|x [|y w']]; cbn in Lw'; try discriminate.
    unfold zth in Hc0. cbn [Z.to_nat nth] in Hc0. now subst x. }
  subst w'.
  assert (Hti : tab_ids vec' = [b_id b]).
  { destruct vec' as [|b' [|b'' vec']]; cbn in Lv; try discriminate.
    cbn [nth] in Hid0. unfold tab_ids. cbn [map]. rewrite Hid0, Hwid.
    reflexivity. }
  exists (mk_dcx 1 nums_bits (Some [nums]) (Fsx32.tab dcx)), vec'.
  split; [reflexivity|]. split; [reflexivity|]. split; [reflexivity|].
  split.
  - apply (fsx_invariantb_intro _ _ t [nums]);
      cbn [weights Fsx32.numb Fsx32.nums_bits]; rewrite ?Hti.
    + reflexivity.
    + cbn. fold nums. lia.
    + reflexivity.
    + destruct vec' as [|b' [|b'' vec']]; cbn in Lv; try discriminate.
      reflexivity.
    + intros i Hi. assert (i = 0) by lia. subst i.
      unfold zth. cbn [Z.to_nat nth]. assumption.
    + intros x Hx. unfold t in Hx. apply repeat_spec in Hx. subst x.
      left. reflexivity.
  - rewrite Hf0. unfold zth. cbn [Z.to_nat nth].
    rewrite Z.sub_diag. cbn [Z.to_nat repeat]. now rewrite app_nil_r.
Qed.

Lemma initv_from_scratch_witness :
  exists dcx' vec',
    initv_fsx32 [mk_bucket 1 10 None 0] None 1 10 (mk_dcx 0 0 None None)
    = Ok (dcx', vec', repeat 10 (Z.to_nat (2 ^ 10))) /\
    Fsx32.nums_bits dcx' = 10 /\
    weights dcx' = Some [2 ^ 10] /\
    fsx_invariantb vec' dcx' (repeat 10 (Z.to_nat (2 ^ 10))) = true /\
    b_fib (nth 0 vec' bucket0)
    = Some (slots_of 10 (repeat 10 (Z.to_nat (2 ^ 10)))).
Proof.
  apply (initv_from_scratch (mk_bucket 1 10 None 0) 10 (mk_dcx 0 0 None None)).
  - unfold MIN_NUMS_BITS, MAX_SHIFT. lia.
  - cbn [b_cap]. lia.
  - cbn [b_cap]. lia.
  - cbn [b_id]. lia.
Defined.

(** ** A split with nothing to relocate *)

(** X22. [balance_spl] can return success without a table.  When the
    number of slots is not divisible by the number of bricks and none of
    the first [nums % numb] bricks has an excess after the stretch, there
    is nothing to relocate: the allocation of the empty relocation array
    yields NULL, and the bare [goto error] that follows leaves [ret] at 0
    with the stretched table freed and [*tabp] already NULL.  So whenever
    [balance_spl] returns 0 in this case, it leaves no table. *)
Theorem spl_empty_relocation_loses_table (numb nums_bits fact_bits : Z)
    (tabp : option (list Z)) (ow nw : list Z) (vec : list bucket)
    (t : option (list Z)) (vec' : list bucket) :
  let num_exc := shl1 nums_bits mod numb in
  0 < numb -> num_exc <> 0 ->
  (forall i, 0 <= i < num_exc ->
             wrap32 (shl1 fact_bits * zth ow i - zth nw i) = 0) ->
  balance_spl numb nums_bits tabp (Some ow) nw fact_bits vec = Ok (t, vec') ->
  t = None.
Proof.
  intros num_exc Hnumb Hne Hz H.
  assert (Hr : 0 <= num_exc < numb) by (apply Z.mod_pos_bound; assumption).
  unfold balance_spl in H. cbv zeta in H. fold num_exc in H.
  destruct (Z.eqb_spec numb 0); [lia|]. cbn [bind] in H.
  destruct (Z.eqb_spec num_exc 0); [contradiction|].
  rewrite fsx32_alloc_Some in H by lia.
  bind_inv H. rename x into exc. bind_inv E. rename x into e1.
  bind_inv H. rename x into tab.
  cbn [deref bind] in H.
  bind_inv H. rename x into ow'.
  bind_inv H. destruct x as [vec1 w1].
  bind_inv H. rename x into num_reloc.
  (* the excess of the first bricks *)
  set (h := fun i => wrap32 (shl1 fact_bits * zth ow i - zth nw i)).
  pose proof (fun Hs => for_fill h _ 0 num_exc _ _ ltac:(lia) Hs E0) as F1.
  destruct F1 as (L1 & V1 & _).
  { intros i u u' Hi Hb. bind_inv Hb. bind_inv Hb.
    unfold pget in E5. cbn [deref bind] in E5.
    apply aget_Ok_inv in E5. destruct E5 as [_ ->].
    apply aget_Ok_inv in E6. destruct E6 as [_ ->].
    apply aset_Ok_inv in Hb. destruct Hb as [Hr' ->].
    split; [reflexivity|lia]. }
  assert (V2 : forall k, 0 <= k < num_exc -> zth exc k = 0).
  { pose (P := fun (_ : Z) (x : list Z) =>
                 forall k, 0 <= k < num_exc -> zth x k = 0).
    assert (Hle : 0 <= wrap32 (numb - num_exc))
      by (apply Z.mod_pos_bound; lia).
    refine (for_inv P _ _ _ _ _ Hle _ _ E); unfold P.
    - intros k Hk. rewrite V1 by lia. unfold h. apply Hz. lia.
    - intros i u u' Hi HP Hb k Hk.
      bind_inv Hb. bind_inv Hb.
      rewrite (zth_aset_neq _ _ k _ _ Hb) by lia. apply HP. lia. }
  assert (Hnr : num_reloc = 0).
  { pose (P := fun (_ : Z) (n : Z) => n = 0).
    refine (for_inv P _ _ _ _ _ (proj1 Hr) _ _ E4); unfold P;
      [reflexivity|].
    intros i m m' Hi -> Hb. bind_inv Hb.
    apply aget_Ok_inv in E5. destruct E5 as [_ ->].
    fold (zth exc i) in Hb. rewrite V2 in Hb by lia.
    injection Hb as <-. reflexivity. }
  subst num_reloc. change (fsx32_alloc 0) with (@None (list Z)) in H.
  injection H as <- _. reflexivity.
Qed.

Lemma spl_empty_relocation_loses_table_witness :
  exists t vec',
    balance_spl 3 10 (Some reloc_example_tab) (Some [256; 256; 512])
                [512; 512; 1024] 1 reloc_example_vec = Ok (t, vec') /\
    t = None.
Proof.
  eexists. eexists. split; [vm_compute; reflexivity|].
  eapply (spl_empty_relocation_loses_table 3 10 1 (Some reloc_example_tab)
            [256; 256; 512] [512; 512; 1024] reloc_example_vec).
  - lia.
  - vm_compute. congruence.
  - intros i Hi. change (shl1 10 mod 3) with 1 in Hi.
    assert (i = 0) by lia. subst i. vm_compute. reflexivity.
  - vm_compute. reflexivity.
Defined.

(** ** The decision procedure of the migration *)

Section DecisionFacts.

Import Migrate.

Variable tree : Type.
Variable PAGE_SHIFT : Z.
Variable nosplit_migration_mode : bool.
Variable current_stripe_size : Z.
Variable calc_data_subvol : Z -> Z.
Variable reiser4_extent_size : tree -> coord_t -> Z.
Variable lookup_extent : tree -> Z -> coord_t -> coord_t.
Variable unit_key_offset : tree -> coord_t -> Z.

Local Abbreviation S := current_stripe_size.

(** The stripe walk returns once it has more steps than there are
    stripes to visit. *)
Lemma find_split_off_total (loc : Z) :
  0 < S ->
  forall (fuel : nat) (q1 q2 : Z),
    (Z.to_nat (q2 - q1) < fuel)%nat ->
    exists r,
      find_split_off current_stripe_size calc_data_subvol fuel
                     (S * q1) (S * q2) loc = Some r.
Proof.
  intros HS. induction fuel as [|fuel IH]; intros q1 q2 Hf; [lia|].
  cbn [find_split_off].
  destruct (S * q1 <? S * q2) eqn:E; [|eauto].
  apply Z.ltb_lt in E. assert (q1 < q2) by nia.
  destruct (negb _); [eauto|].
  replace (S * q2 - S) with (S * (q2 - 1)) by lia.
  apply IH. lia.
Qed.

(** What the stripe walk answers: the stripe boundary to the right of the
    rightmost visited stripe that is not on [loc], if there is one. *)
Lemma find_split_off_spec (loc : Z) :
  0 < S ->
  forall (fuel : nat) (q1 q2 : Z) (r : option Z),
    find_split_off current_stripe_size calc_data_subvol fuel
                   (S * q1) (S * q2) loc = Some r ->
    match r with
    | None => forall q, q1 <= q < q2 -> calc_data_subvol (S * q) = loc
    | Some s =>
        exists q, s = S * (q + 1) /\ q1 <= q < q2 /\
                  calc_data_subvol (S * q) <> loc /\
                  forall q', q < q' < q2 -> calc_data_subvol (S * q') = loc
    end.
Proof.
  intros HS. induction fuel as [|fuel IH]; intros q1 q2 r H; [discriminate|].
  cbn [find_split_off] in H.
  destruct (S * q1 <? S * q2) eqn:E.
  - apply Z.ltb_lt in E. assert (Hq : q1 < q2) by nia.
    replace (S * q2 - S) with (S * (q2 - 1)) in H by lia.
    destruct (calc_data_subvol (S * (q2 - 1)) =? loc) eqn:Ec; cbn [negb] in H.
    + apply Z.eqb_eq in Ec. specialize (IH q1 (q2 - 1) r H).
      destruct r as [s|].
      * destruct IH as (q & -> & Hr & Hne & Hall).
        exists q. split; [reflexivity|]. split; [lia|].
        split; [assumption|].
        intros q' Hq'. destruct (Z.eq_dec q' (q2 - 1)) as [->|];
          [assumption|apply Hall; lia].
      * intros q Hq'. destruct (Z.eq_dec q (q2 - 1)) as [->|];
          [assumption|apply IH; lia].
    + apply Z.eqb_neq in Ec. injection H as <-.
      exists (q2 - 1). split; [lia|]. split; [lia|].
      split; [assumption|].
      intros q' Hq'. lia.
  - apply Z.ltb_ge in E. injection H as <-. intros q Hq. nia.
Qed.

Let wtd := what_to_do tree PAGE_SHIFT nosplit_migration_mode
             current_stripe_size calc_data_subvol reiser4_extent_size
             lookup_extent unit_key_offset.

(** X16. [what_to_do] always decides.  With stripes of [2 ^ b] bytes, the
    stripe walk ends within as many steps as the item has bytes, and the
    context that [what_to_do] leaves never holds INVALID_ACTION: the
    default branch of the driver is not reached.  The item's key and the
    progress mark are not touched; the action is MIGRATE_EXTENT exactly
    when the new location differs from the brick named in the key, and the
    loop is told to stop exactly when the action is SKIP_EXTENT, in which
    case the stop offset is the item's offset. *)
Theorem what_to_do_decides (b : Z) (wfuel : nat) (tr : tree)
    (mctx : extent_migrate_context) (dst_id : option Z) :
  let k := key mctx in
  let size := reiser4_extent_size tr (coord mctx) in
  0 <= b -> current_stripe_size = 2 ^ b ->
  (Z.to_nat size < wfuel)%nat ->
  exists m,
    wtd wfuel tr mctx dst_id = Some m /\
    act m <> INVALID_ACTION /\
    key m = k /\ done_off m = done_off mctx /\
    (act m = MIGRATE_EXTENT <-> new_loc m <> key_ordering k) /\
    (stop m = true <-> act m = SKIP_EXTENT) /\
    (act m = SKIP_EXTENT ->
       stop_off m = key_offset k /\ coord m = set_unit_pos (coord mctx) 0).
Proof.
  intros k size Hb HS Hfuel.
  assert (HSpos : 0 < S) by (rewrite HS; apply Z.pow_pos_nonneg; lia).
  unfold wtd, what_to_do. destruct nosplit_migration_mode.
  - (* whole-item mode *)
    eexists. split; [reflexivity|].
    unfold what_to_do_nosplit. cbn [reset_migration_context key coord].
    fold k size.
    set (loc := wrap32 _).
    destruct (Z.eqb_spec (key_ordering k) loc) as [He|Hne].
    + cbn. repeat split; try congruence; try discriminate.
    + destruct (size <=? _); cbn;
        repeat split; try congruence; try discriminate.
  - cbn [reset_migration_context key coord]. fold k size.
    rewrite !(normalize_stripe current_stripe_size b) by assumption.
    set (q1 := key_offset k / S). set (q2 := (key_offset k + size - 1) / S).
    set (loc := wrap32 _).
    destruct (find_split_off_total loc HSpos wfuel q1 q2) as [r Hr].
    { assert (Hd : q2 - q1 <= Z.max 0 size); [|lia].
      assert (H1 : S * q2 <= key_offset k + size - 1)
        by (apply Z.mul_div_le; lia).
      assert (H2 : key_offset k < S * q1 + S).
      { pose proof (Z.div_mod (key_offset k) S).
        pose proof (Z.mod_pos_bound (key_offset k) S HSpos).
        fold q1 in H. lia. }
      nia. }
    rewrite Hr.
    destruct r as [s|];
      destruct (Z.eqb_spec loc (key_ordering k)) as [He|Hne]; cbn [negb];
      (eexists; split; [reflexivity|]); cbn;
      repeat split; try congruence; try discriminate.
Qed.

(** X17. The split offset lies strictly inside the item.  In the
    splitting mode, with stripes of [2 ^ b] bytes, whenever [what_to_do]
    finds a split offset (it neither stops the loop nor asks for the whole
    item), that offset is a stripe boundary strictly between the item's
    first byte and its end; the stripe to its left is not on the new
    location, and every stripe from it up to, not including, the stripe
    of the item's last byte is. *)
Theorem split_offset_inside (b : Z) (wfuel : nat) (tr : tree)
    (mctx m : extent_migrate_context) (dst_id : option Z) :
  let k := key mctx in
  let size := reiser4_extent_size tr (coord mctx) in
  let last := key_offset k + size - 1
              - Z.land (key_offset k + size - 1) (current_stripe_size - 1) in
  nosplit_migration_mode = false ->
  0 <= b -> current_stripe_size = 2 ^ b ->
  wtd wfuel tr mctx dst_id = Some m ->
  stop m = false -> migrate_whole_item m = false ->
  key_offset k < stop_off m < key_offset k + size /\
  stop_off m mod current_stripe_size = 0 /\
  calc_data_subvol (stop_off m - current_stripe_size) <> new_loc m /\
  (forall o, stop_off m <= o < last -> o mod current_stripe_size = 0 ->
             calc_data_subvol o = new_loc m) /\
  coord m = lookup_extent tr (stop_off m) (coord mctx) /\
  unit_split_pos m
  = Z.shiftr (stop_off m - unit_key_offset tr (coord m)) PAGE_SHIFT.
Proof.
  intros k size last Hmode Hb HS H Hstop Hwhole.
  assert (HSpos : 0 < S) by (rewrite HS; apply Z.pow_pos_nonneg; lia).
  unfold wtd, what_to_do in H. rewrite Hmode in H.
  cbn [reset_migration_context key coord] in H. fold k size in H.
  unfold last.
  rewrite !(normalize_stripe current_stripe_size b) in H by assumption.
  rewrite !(normalize_stripe current_stripe_size b) by assumption.
  set (q1 := key_offset k / S) in *.
  set (q2 := (key_offset k + size - 1) / S) in *.
  set (loc := wrap32 _) in H.
  destruct (find_split_off _ _ _ _ _ _) as [[s|]|] eqn:Ef; [| |discriminate].
  2:{ destruct (negb _); injection H as <-; discriminate. }
  apply (find_split_off_spec loc HSpos) in Ef.
  destruct Ef as (q & -> & Hq & Hne & Hall).
  assert (Hm : stop_off m = S * (q + 1) /\ new_loc m = loc /\
               coord m = lookup_extent tr (S * (q + 1)) (coord mctx) /\
               unit_split_pos m
               = Z.shiftr (S * (q + 1) - unit_key_offset tr (coord m))
                          PAGE_SHIFT).
  { destruct (negb _); injection H as <-; cbn; auto. }
  destruct Hm as (Hs & Hl & Hc & Hu). rewrite Hs, Hl.
  assert (H1 : S * q2 <= key_offset k + size - 1)
    by (apply Z.mul_div_le; lia).
  assert (H2 : key_offset k < S * q1 + S).
  { pose proof (Z.div_mod (key_offset k) S) as Hd.
    pose proof (Z.mod_pos_bound (key_offset k) S HSpos).
    fold q1 in Hd. lia. }
  fold q2.
  assert (Hlo : S * q1 <= S * q)
    by (apply Z.mul_le_mono_nonneg_l; lia).
  assert (Hhi : S * (q + 1) <= S * q2)
    by (apply Z.mul_le_mono_nonneg_l; lia).
  split; [lia|]. split.
  { rewrite Z.mul_comm. apply Z.mod_mul. lia. }
  split.
  { replace (S * (q + 1) - S) with (S * q) by lia. assumption. }
  split; [|split; assumption].
  intros o Ho Hmod.
  apply Z.mod_divide in Hmod; [|lia]. destruct Hmod as [q' ->].
  rewrite (Z.mul_comm q' S) in *. apply Hall.
  destruct Ho as [Ho1 Ho2].
  apply Z.mul_le_mono_pos_l in Ho1; [|assumption].
  apply Z.mul_lt_mono_pos_l in Ho2; [|assumption]. lia.
Qed.

End DecisionFacts.

(** An item of three stripes of 4096 bytes at offset 4096 with key
    ordering 3, whose first stripe is on brick 1 and the other two on
    brick 3. *)
Lemma what_to_do_decides_witness :
  exists m,
    Migrate.what_to_do unit 12 false 4096
      (fun o => if o <? 8192 then 1 else 3) (fun _ _ => 12288)
      (fun _ _ c => c) (fun _ _ => 4096)
      (S (Z.to_nat 12288)) tt
      (Migrate.init_migration_context (Migrate.mk_coord 1 0 2)
                                      (Migrate.mk_key 3 4096))
      None = Some m /\
    Migrate.act m <> Migrate.INVALID_ACTION /\
    Migrate.key m = Migrate.mk_key 3 4096 /\
    Migrate.done_off m = 0 /\
    (Migrate.act m = Migrate.MIGRATE_EXTENT <-> Migrate.new_loc m <> 3) /\
    (Migrate.stop m = true <-> Migrate.act m = Migrate.SKIP_EXTENT) /\
    (Migrate.act m = Migrate.SKIP_EXTENT ->
       Migrate.stop_off m = 4096 /\
       Migrate.coord m = Migrate.mk_coord 1 0 0).
Proof.
  apply (what_to_do_decides unit 12 false 4096
           (fun o => if o <? 8192 then 1 else 3) (fun _ _ => 12288)
           (fun _ _ c => c) (fun _ _ => 4096) 12 (S (Z.to_nat 12288)) tt
           (Migrate.init_migration_context (Migrate.mk_coord 1 0 2)
                                           (Migrate.mk_key 3 4096))
           None);
    [lia|reflexivity|apply Nat.lt_succ_diag_r].
Defined.

Lemma split_offset_inside_witness :
  exists m,
    Migrate.what_to_do unit 12 false 4096
      (fun o => if o <? 8192 then 1 else 3) (fun _ _ => 12288)
      (fun _ _ c => c) (fun _ _ => 4096)
      5 tt
      (Migrate.init_migration_context (Migrate.mk_coord 1 0 2)
                                      (Migrate.mk_key 3 4096))
      None = Some m /\
    Migrate.act m = Migrate.SPLIT_EXTENT /\
    Migrate.stop_off m = 8192 /\
    4096 < Migrate.stop_off m < 4096 + 12288 /\
    Migrate.stop_off m mod 4096 = 0 /\
    (if Migrate.stop_off m - 4096 <? 8192 then 1 else 3)
    <> Migrate.new_loc m /\
    (forall o, Migrate.stop_off m <= o
               < 4096 + 12288 - 1 - Z.land (4096 + 12288 - 1) (4096 - 1) ->
               o mod 4096 = 0 ->
               (if o <? 8192 then 1 else 3) = Migrate.new_loc m) /\
    Migrate.coord m = Migrate.mk_coord 1 0 2 /\
    Migrate.unit_split_pos m = Z.shiftr (Migrate.stop_off m - 4096) 12.
Proof.
  eexists. split; [vm_compute; reflexivity|].
  split; [reflexivity|]. split; [reflexivity|].
  apply (split_offset_inside unit 12 false 4096
           (fun o => if o <? 8192 then 1 else 3) (fun _ _ => 12288)
           (fun _ _ c => c) (fun _ _ => 4096) 12 5%nat tt
           (Migrate.init_migration_context (Migrate.mk_coord 1 0 2)
                                           (Migrate.mk_key 3 4096))
           _ None);
    [reflexivity|lia|reflexivity|vm_compute; reflexivity
    |reflexivity|reflexivity].
Defined.

Section DriverFacts.

Import Migrate.

Variable tree : Type.
Variable PAGE_SHIFT : Z.
Variable current_stripe_size : Z.
Variable calc_data_subvol : Z -> Z.
Variable reiser4_extent_size : tree -> coord_t -> Z.
Variable lookup_extent : tree -> Z -> coord_t -> coord_t.
Variable unit_key_offset : tree -> coord_t -> Z.
Variable zload : tree -> coord_t -> Z.
Variable try_merge_with_right_item : coord_t -> tree -> tree.
Variable do_migrate_extent :
  extent_migrate_context -> tree -> Z * extent_migrate_context * tree.

Let run := fun split =>
  migrate_loop tree PAGE_SHIFT true current_stripe_size calc_data_subvol
    reiser4_extent_size lookup_extent unit_key_offset zload
    try_merge_with_right_item split do_migrate_extent.

Lemma nosplit_loop_never_splits
    (split split' :
       extent_migrate_context -> tree -> Z * extent_migrate_context * tree)
    (wfuel : nat) (dst_id : option Z) :
  forall (fuel : nat) (mctx : extent_migrate_context) (done total : Z)
         (tr : tree),
    run split fuel wfuel mctx dst_id done total tr
    = run split' fuel wfuel mctx dst_id done total tr.
Proof.
  unfold run. induction fuel as [|fuel IH]; intros mctx done total tr;
    [reflexivity|].
  cbn [migrate_loop]. destruct (stop mctx); [reflexivity|].
  unfold what_to_do.
  set (m := what_to_do_nosplit _ _ _ _ _ _ _ _ _).
  assert (Hact : act m = SKIP_EXTENT \/ act m = MIGRATE_EXTENT).
  { unfold m, what_to_do_nosplit.
    destruct (_ =? _); [left; reflexivity|].
    destruct (_ <=? _); right; reflexivity. }
  destruct Hact as [-> | ->]; [reflexivity|].
  destruct (do_migrate_extent m tr) as [[r m'] tr'].
  destruct (negb (r =? 0)); [reflexivity|]. apply IH.
Qed.

(** X18. In the whole-item mode the split primitive is never run: the
    result of [reiser4_migrate_extent] is the same whatever
    [do_split_extent] would do. *)
Theorem nosplit_mode_never_splits
    (split split' :
       extent_migrate_context -> tree -> Z * extent_migrate_context * tree)
    (fuel wfuel : nat) (c : coord_t) (k : reiser4_key) (done_off0 : Z)
    (dst_id : option Z) (tr : tree) :
  reiser4_migrate_extent tree PAGE_SHIFT true current_stripe_size
    calc_data_subvol reiser4_extent_size lookup_extent unit_key_offset
    zload try_merge_with_right_item split do_migrate_extent
    fuel wfuel c k done_off0 dst_id tr
  = reiser4_migrate_extent tree PAGE_SHIFT true current_stripe_size
      calc_data_subvol reiser4_extent_size lookup_extent unit_key_offset
      zload try_merge_with_right_item split' do_migrate_extent
      fuel wfuel c k done_off0 dst_id tr.
Proof.
  unfold reiser4_migrate_extent. apply nosplit_loop_never_splits.
Qed.

End DriverFacts.

(** ** The handlers of the volume operations *)

Section HandlerFacts.

Import VolumeOps VolumeHandlers.

Variable world : Type.
Variable op_args : Type.
Variable d_name : op_args -> list Z.
Variable new_capacity : op_args -> Z.
Variable s_val : op_args -> Z.
Variable s_brick_idx : op_args -> Z.

Local Abbreviation sb_t := (sb_t world).
Local Abbreviation args_t := (args_t op_args).

Variable plug_print_volume : args_t -> sb_t -> Z * sb_t.
Variable plug_print_brick : args_t -> sb_t -> Z * sb_t.
Variable plug_resize_brick : reiser4_subvol -> Z -> Z -> sb_t -> Z * sb_t.
Variable plug_scale_volume : Z -> sb_t -> Z * sb_t.
Variable plug_balance_volume : sb_t -> Z * sb_t.
Variable plug_migrate_file : Z -> sb_t -> Z * sb_t.
Variable capture_meta_super : sb_t -> Z * sb_t.
Variable force_commit_atom : sb_t -> Z * sb_t.
Variable release_volinfo_nodes : sb_t -> sb_t.
Variable file_is_sync : bool.
Variable sync_file : sb_t -> Z * sb_t.
Variable reiser4_add_brick : bool -> args_t -> sb_t -> Z * sb_t.
Variable reiser4_remove_brick : args_t -> sb_t -> Z * sb_t.
Variable reiser4_balance_volume : args_t -> sb_t -> Z * sb_t.
Variable reiser4_set_file_immobile : args_t -> sb_t -> Z * sb_t.
Variable reiser4_clr_file_immobile : args_t -> sb_t -> Z * sb_t.

Local Abbreviation op_dir :=
  (volume_op_dir world op_args d_name new_capacity s_val
     plug_print_volume plug_print_brick plug_resize_brick plug_scale_volume
     plug_balance_volume capture_meta_super force_commit_atom
     release_volinfo_nodes reiser4_add_brick reiser4_remove_brick
     reiser4_balance_volume).

Local Abbreviation op_file :=
  (volume_op_file world op_args s_brick_idx plug_migrate_file file_is_sync
     sync_file reiser4_set_file_immobile reiser4_clr_file_immobile).

Local Abbreviation resize_brick :=
  (reiser4_resize_brick world op_args d_name new_capacity plug_resize_brick
     capture_meta_super).

Lemma clear_busy_idle (sb : sb_t) :
  busy _ sb = false -> reiser4_volume_clear_busy _ sb = sb.
Proof.
  destruct sb as [bz v]. cbn. intros ->. reflexivity.
Qed.

(** X19. An unbalanced volume refuses to print a brick, to resize a brick,
    to scale and to migrate a file: through the dispatchers, on a volume
    that is not busy, each of these answers [-EBUSY] and leaves the volume
    as it was, the busy flag released and no method of the plugin run. *)
Theorem unbalanced_volume_refuses (args : args_t) (sb : sb_t) :
  busy _ sb = false ->
  unbalanced _ (vol _ sb) = true ->
  (op _ args = REISER4_PRINT_BRICK \/ op _ args = REISER4_RESIZE_BRICK \/
   op _ args = REISER4_SCALE_VOLUME ->
   op_dir args sb = (- EBUSY, sb)) /\
  (op _ args = REISER4_MIGRATE_FILE -> op_file args sb = (- EBUSY, sb)).
Proof.
  intros Hbusy Hunb.
  pose proof (clear_busy_idle sb Hbusy) as Hclr.
  unfold reiser4_volume_clear_busy in Hclr.
  split.
  - intros Hop.
    unfold volume_op_dir, reiser4_volume_op_dir,
      reiser4_volume_test_set_busy.
    rewrite Hbusy.
    destruct Hop as [-> | [-> | ->]];
      unfold reiser4_print_brick, reiser4_resize_brick,
        reiser4_scale_volume, reiser4_volume_is_unbalanced;
      cbn [vol busy]; rewrite Hunb;
      unfold reiser4_volume_clear_busy; cbn [vol]; rewrite Hclr;
      reflexivity.
  - intros Hop.
    unfold volume_op_file, reiser4_volume_op_file,
      reiser4_volume_test_set_busy.
    rewrite Hbusy, Hop.
    unfold reiser4_migrate_file, reiser4_volume_is_unbalanced.
    cbn [vol busy]. rewrite Hunb.
    unfold reiser4_volume_clear_busy. cbn [vol]. rewrite Hclr.
    reflexivity.
Qed.

(** [find_active_brick] answers the brick of the first occupied slot that
    carries the name. *)
Lemma find_active_brick_first (pre post : list (option reiser4_subvol))
    (b : reiser4_subvol) (name : list Z) :
  (forall b', In (Some b') pre -> sv_name b' <> name) ->
  sv_name b = name ->
  find_active_brick (pre ++ Some b :: post) name = Some b.
Proof.
  intros Hpre Hb. induction pre as [|[b'|] pre IH]; cbn [app find_active_brick].
  - destruct (list_eq_dec Z.eq_dec (sv_name b) name); [reflexivity|contradiction].
  - destruct (list_eq_dec Z.eq_dec (sv_name b') name) as [e|_].
    + exfalso. apply (Hpre b'); [left; reflexivity|assumption].
    + apply IH. intros b'' Hin. apply Hpre. right. assumption.
  - apply IH. intros b'' Hin. apply Hpre. right. assumption.
Qed.

Lemma find_active_brick_none (slots : list (option reiser4_subvol))
    (name : list Z) :
  find_active_brick slots name = None <->
  forall b, In (Some b) slots -> sv_name b <> name.
Proof.
  induction slots as [|[b'|] slots IH]; cbn [find_active_brick].
  - split; [intros _ b []|reflexivity].
  - destruct (list_eq_dec Z.eq_dec (sv_name b') name) as [e|ne].
    + split; [discriminate|]. intros H. exfalso.
      apply (H b'); [left; reflexivity|assumption].
    + rewrite IH. split.
      * intros H b [Hb|Hb]; [injection Hb as <-; assumption|auto].
      * intros H b Hb. apply H. right. assumption.
  - rewrite IH. split.
    + intros H b [Hb|Hb]; [discriminate|auto].
    + intros H b Hb. apply H. right. assumption.
Qed.

(** X20. The edge cases of [reiser4_resize_brick] on a balanced volume.  A
    new capacity of zero and a name that no active brick carries are
    refused with [-EINVAL]; a new capacity equal to the present one
    succeeds at once.  In all three cases the volume is left as it was.
    Otherwise it is the brick of the first occupied slot carrying the name
    whose resize method is run, and the unbalanced flag is cleared before
    the super-block is captured when that method succeeds. *)
Theorem resize_brick_edge_cases (args : args_t) (sb : sb_t) :
  let name := d_name (rest _ args) in
  let cap := new_capacity (rest _ args) in
  let slots := mslots _ (vol _ sb) in
  unbalanced _ (vol _ sb) = false ->
  (cap = 0 -> resize_brick args sb = (- EINVAL, sb)) /\
  ((forall b, In (Some b) slots -> sv_name b <> name) ->
   resize_brick args sb = (- EINVAL, sb)) /\
  (forall pre b post,
     slots = pre ++ Some b :: post ->
     (forall b', In (Some b') pre -> sv_name b' <> name) ->
     sv_name b = name -> cap <> 0 ->
     (data_capacity b = cap -> resize_brick args sb = (0, sb)) /\
     (data_capacity b <> cap ->
      resize_brick args sb
      = let '(ret, sb1) := plug_resize_brick b cap (data_capacity b) sb in
        if negb (ret =? 0) then (ret, sb1)
        else capture_meta_super (reiser4_volume_clear_unbalanced _ sb1))).
Proof.
  intros name cap slots Hbal.
  unfold reiser4_resize_brick, reiser4_volume_is_unbalanced.
  rewrite Hbal. fold name cap slots.
  split; [|split].
  - intros ->. reflexivity.
  - intros Hnone. apply find_active_brick_none in Hnone. rewrite Hnone.
    destruct (cap =? 0); reflexivity.
  - intros pre b post Hslots Hpre Hb Hcap.
    rewrite Hslots, (find_active_brick_first pre post b name Hpre Hb).
    apply Z.eqb_neq in Hcap. rewrite Hcap. split.
    + intros <-. rewrite Z.eqb_refl. reflexivity.
    + intros Hne. apply not_eq_sym, Z.eqb_neq in Hne. rewrite Hne.
      reflexivity.
Qed.

End HandlerFacts.

Lemma unbalanced_volume_refuses_witness :
  (VolumeOps.op _ VolumeHandlers.example_args = VolumeOps.REISER4_PRINT_BRICK \/
   VolumeOps.op _ VolumeHandlers.example_args = VolumeOps.REISER4_RESIZE_BRICK \/
   VolumeOps.op _ VolumeHandlers.example_args = VolumeOps.REISER4_SCALE_VOLUME ->
   VolumeHandlers.volume_op_dir unit (list Z * Z * Z * Z)
     VolumeHandlers.example_name VolumeHandlers.example_capacity
     VolumeHandlers.example_val
     (fun _ => VolumeHandlers.example_ok)
     (fun _ => VolumeHandlers.example_ok)
     (fun _ _ _ => VolumeHandlers.example_ok)
     (fun _ => VolumeHandlers.example_ok)
     VolumeHandlers.example_ok VolumeHandlers.example_ok
     VolumeHandlers.example_ok (fun s => s)
     (fun _ _ => VolumeHandlers.example_ok)
     (fun _ => VolumeHandlers.example_ok)
     (fun _ => VolumeHandlers.example_ok)
     VolumeHandlers.example_args (VolumeHandlers.example_sb true)
   = (- EBUSY, VolumeHandlers.example_sb true)) /\
  (VolumeOps.op _ VolumeHandlers.example_args = VolumeOps.REISER4_MIGRATE_FILE ->
   VolumeHandlers.volume_op_file unit (list Z * Z * Z * Z)
     VolumeHandlers.example_idx (fun _ => VolumeHandlers.example_ok) false
     VolumeHandlers.example_ok
     (fun _ => VolumeHandlers.example_ok)
     (fun _ => VolumeHandlers.example_ok)
     VolumeHandlers.example_args (VolumeHandlers.example_sb true)
   = (- EBUSY, VolumeHandlers.example_sb true)).
Proof.
  apply (unbalanced_volume_refuses unit (list Z * Z * Z * Z));
    reflexivity.
Defined.

Lemma resize_brick_edge_cases_witness :
  (300 = 0 ->
   VolumeHandlers.reiser4_resize_brick unit (list Z * Z * Z * Z)
     VolumeHandlers.example_name VolumeHandlers.example_capacity
     (fun _ _ _ => VolumeHandlers.example_ok) VolumeHandlers.example_ok
     VolumeHandlers.example_args (VolumeHandlers.example_sb false)
   = (- EINVAL, VolumeHandlers.example_sb false)) /\
  ((forall b,
      In (Some b)
         (VolumeHandlers.mslots unit
            (VolumeOps.vol _ (VolumeHandlers.example_sb false))) ->
      VolumeHandlers.sv_name b <> [98]) ->
   VolumeHandlers.reiser4_resize_brick unit (list Z * Z * Z * Z)
     VolumeHandlers.example_name VolumeHandlers.example_capacity
     (fun _ _ _ => VolumeHandlers.example_ok) VolumeHandlers.example_ok
     VolumeHandlers.example_args (VolumeHandlers.example_sb false)
   = (- EINVAL, VolumeHandlers.example_sb false)) /\
  (forall pre b post,
     VolumeHandlers.mslots unit
       (VolumeOps.vol _ (VolumeHandlers.example_sb false))
     = pre ++ Some b :: post ->
     (forall b', In (Some b') pre -> VolumeHandlers.sv_name b' <> [98]) ->
     VolumeHandlers.sv_name b = [98] -> 300 <> 0 ->
     (VolumeHandlers.data_capacity b = 300 ->
      VolumeHandlers.reiser4_resize_brick unit (list Z * Z * Z * Z)
        VolumeHandlers.example_name VolumeHandlers.example_capacity
        (fun _ _ _ => VolumeHandlers.example_ok) VolumeHandlers.example_ok
        VolumeHandlers.example_args (VolumeHandlers.example_sb false)
      = (0, VolumeHandlers.example_sb false)) /\
     (VolumeHandlers.data_capacity b <> 300 ->
      VolumeHandlers.reiser4_resize_brick unit (list Z * Z * Z * Z)
        VolumeHandlers.example_name VolumeHandlers.example_capacity
        (fun _ _ _ => VolumeHandlers.example_ok) VolumeHandlers.example_ok
        VolumeHandlers.example_args (VolumeHandlers.example_sb false)
      = (0, VolumeHandlers.example_sb false))).
Proof.
  apply (resize_brick_edge_cases unit (list Z * Z * Z * Z)
           VolumeHandlers.example_name VolumeHandlers.example_capacity
           (fun _ _ _ => VolumeHandlers.example_ok) VolumeHandlers.example_ok
           VolumeHandlers.example_args (VolumeHandlers.example_sb false)).
  reflexivity.
Defined.

(** ** The ioctl entry *)

Section IoctlFacts.

Import VolumeHandlers.

Variable fstate : Type.
Variable op_args : Type.
Variable init_context_error : fstate -> option Z.
Variable capable_sys_admin : bool.
Variable memdup_user : Z -> fstate -> Z + op_args.
Variable copy_to_user : Z -> op_args -> fstate -> Z * fstate.

Local Abbreviation ioctl :=
  (reiser4_ioctl_volume fstate op_args init_context_error
     capable_sys_admin memdup_user copy_to_user).

(** X21. [reiser4_ioctl_volume] frees the copy of the arguments on every
    path, but not the context.  When the initialisation of the context
    fails, its error is returned and nothing is changed.  Otherwise, for
    REISER4_IOC_VOLUME, a caller without CAP_SYS_ADMIN gets [-EPERM] and a
    failed [memdup_user] gets the error of [memdup_user], in both cases
    with the context still open and nothing else done; with the arguments
    copied, the volume operation runs, its error is returned if it fails,
    [-EFAULT] if the copy back fails and 0 otherwise, and the context is
    closed.  Any other command gets [-ENOTTY] with the context closed. *)
Theorem ioctl_context_balance (cmd : ioctl_cmd) (arg : Z)
    (volume_op : op_args -> fstate -> Z * op_args * fstate)
    (s s' : kstate fstate) (r : Z) :
  ioctl cmd arg volume_op s = (r, s') ->
  buffers _ s' = buffers _ s /\
  (forall e, init_context_error (fs _ s) = Some e -> r = e /\ s' = s) /\
  (init_context_error (fs _ s) = None ->
   (cmd = REISER4_IOC_VOLUME -> capable_sys_admin = false ->
    r = - EPERM /\ contexts _ s' = contexts _ s + 1 /\ fs _ s' = fs _ s) /\
   (forall e, cmd = REISER4_IOC_VOLUME -> capable_sys_admin = true ->
      memdup_user arg (fs _ s) = inl e ->
      r = e /\ contexts _ s' = contexts _ s + 1 /\ fs _ s' = fs _ s) /\
   (forall a, cmd = REISER4_IOC_VOLUME -> capable_sys_admin = true ->
      memdup_user arg (fs _ s) = inr a ->
      contexts _ s' = contexts _ s /\
      let '(ret, a', f') := volume_op a (fs _ s) in
      if ret =? 0 then
        let '(n, f'') := copy_to_user arg a' f' in
        r = (if n =? 0 then 0 else - EFAULT) /\ fs _ s' = f''
      else r = ret /\ fs _ s' = f') /\
   (forall c, cmd = OTHER_IOC c ->
      r = - ENOTTY /\ contexts _ s' = contexts _ s /\ fs _ s' = fs _ s)).
Proof.
  intros H. unfold reiser4_ioctl_volume in H.
  destruct (init_context_error (fs _ s)) as [e|] eqn:Ei.
  { injection H as <- <-. split; [reflexivity|]. split.
    - intros e' He. injection He as <-. auto.
    - discriminate. }
  assert (Hno : forall e, None = Some e -> r = e /\ s' = s)
    by (intros e He; discriminate He).
  cbn [fs contexts buffers] in H.
  destruct cmd as [|c].
  - destruct capable_sys_admin eqn:Ec; cbn [negb] in H.
    + destruct (memdup_user arg (fs _ s)) as [e|a] eqn:Em.
      * injection H as <- <-. cbn [buffers contexts fs].
        split; [reflexivity|]. split; [exact Hno|]. intros _.
        split; [discriminate|]. split; [|split; [|discriminate]].
        -- intros e' _ _ He. injection He as <-. auto.
        -- intros a _ _ Ha. discriminate Ha.
      * destruct (volume_op a (fs _ s)) as [[ret a'] f'] eqn:Ev.
        destruct (Z.eqb_spec ret 0) as [Hr|Hr]; cbn [negb] in H.
        -- destruct (copy_to_user arg a' f') as [n f''] eqn:Ecp.
           injection H as <- <-. cbn. split; [lia|]. split; [exact Hno|].
           intros _. split; [discriminate|].
           split; [intros e _ _ He; discriminate He|].
           split; [|discriminate].
           intros a0 _ _ Ha. injection Ha as <-. rewrite Ev.
           subst ret. cbn [Z.eqb]. rewrite Ecp. split; [lia|].
           split; [|reflexivity].
           destruct (n =? 0); reflexivity.
        -- injection H as <- <-. cbn. split; [lia|]. split; [exact Hno|].
           intros _. split; [discriminate|].
           split; [intros e _ _ He; discriminate He|].
           split; [|discriminate].
           intros a0 _ _ Ha. injection Ha as <-. rewrite Ev.
           apply Z.eqb_neq in Hr. rewrite Hr. split; [lia|]. auto.
    + injection H as <- <-. cbn [buffers contexts fs].
      split; [reflexivity|]. split; [exact Hno|]. intros _.
      split; [auto|]. split; [intros e _ Hc; discriminate Hc|].
      split; [intros a _ Hc; discriminate Hc|discriminate].
  - injection H as <- <-. cbn. split; [reflexivity|]. split; [exact Hno|].
    intros _. split; [discriminate|].
    split; [intros e Hc; discriminate Hc|].
    split; [intros a Hc; discriminate Hc|].
    intros c' _. split; [reflexivity|]. split; [lia|reflexivity].
Qed.

End IoctlFacts.

(** A caller without the capability: the call answers [-EPERM] and the
    context stays open. *)
Lemma ioctl_context_balance_witness :
  VolumeHandlers.buffers _ VolumeHandlers.example_kstate'
  = VolumeHandlers.buffers _ VolumeHandlers.example_kstate /\
  (forall e, @None Z = Some e ->
             - VolumeHandlers.EPERM = e /\
             VolumeHandlers.example_kstate' = VolumeHandlers.example_kstate) /\
  (@None Z = None ->
   (VolumeHandlers.REISER4_IOC_VOLUME = VolumeHandlers.REISER4_IOC_VOLUME ->
    false = false ->
    - VolumeHandlers.EPERM = - VolumeHandlers.EPERM /\
    VolumeHandlers.contexts _ VolumeHandlers.example_kstate'
    = VolumeHandlers.contexts _ VolumeHandlers.example_kstate + 1 /\
    VolumeHandlers.fs _ VolumeHandlers.example_kstate'
    = VolumeHandlers.fs _ VolumeHandlers.example_kstate) /\
   (forall e,
      VolumeHandlers.REISER4_IOC_VOLUME = VolumeHandlers.REISER4_IOC_VOLUME ->
      false = true -> @inr Z unit tt = inl e ->
      - VolumeHandlers.EPERM = e /\
      VolumeHandlers.contexts _ VolumeHandlers.example_kstate'
      = VolumeHandlers.contexts _ VolumeHandlers.example_kstate + 1 /\
      VolumeHandlers.fs _ VolumeHandlers.example_kstate'
      = VolumeHandlers.fs _ VolumeHandlers.example_kstate) /\
   (forall a : unit,
      VolumeHandlers.REISER4_IOC_VOLUME = VolumeHandlers.REISER4_IOC_VOLUME ->
      false = true -> @inr Z unit tt = inr a ->
      VolumeHandlers.contexts _ VolumeHandlers.example_kstate'
      = VolumeHandlers.contexts _ VolumeHandlers.example_kstate /\
      let '(ret, a', f') := (0, a, tt) in
      if ret =? 0 then
        let '(n, f'') := (0, f') in
        - VolumeHandlers.EPERM = (if n =? 0 then 0 else - VolumeHandlers.EFAULT)
        /\ VolumeHandlers.fs _ VolumeHandlers.example_kstate' = f''
      else - VolumeHandlers.EPERM = ret /\
           VolumeHandlers.fs _ VolumeHandlers.example_kstate' = f') /\
   (forall c,
      VolumeHandlers.REISER4_IOC_VOLUME = VolumeHandlers.OTHER_IOC c ->
      - VolumeHandlers.EPERM = - ENOTTY /\
      VolumeHandlers.contexts _ VolumeHandlers.example_kstate'
      = VolumeHandlers.contexts _ VolumeHandlers.example_kstate /\
      VolumeHandlers.fs _ VolumeHandlers.example_kstate'
      = VolumeHandlers.fs _ VolumeHandlers.example_kstate)).
Proof.
  apply (ioctl_context_balance unit unit (fun _ => None) false
           (fun _ _ => inr tt) (fun _ _ f => (0, f))
           VolumeHandlers.REISER4_IOC_VOLUME 0
           (fun a f => (0, a, f)) VolumeHandlers.example_kstate
           VolumeHandlers.example_kstate' (- VolumeHandlers.EPERM)).
  reflexivity.
Defined.
